(** * Ground decals of the Spring engine: explosion scars and decal types

    A shallow embedding of [rts/Rendering/Env/Decals/GroundDecalHandler.cpp]:
    the scar table ([scars], [freeScarIDs], [usedScarIDs]), the scar field
    (the coarse grid of cells holding scar ids), the overlap test that lets a
    new scar evict older ones, the per-frame expiry sweep, and the lookup of
    object decal types; then the decals of objects (the pool, the vectors of
    the decal types, the events that give, move and take decals, the
    gathering and the quads of a frame), the scar atlas, and the handler
    made and unmade.  GL state and shaders are left out; what the handler
    reads from the rest of the engine is gathered in the records [Engine],
    [Sim] and [Assets]. *)

From Stdlib Require Import ZArith List Bool Lia Permutation.
From Stdlib Require String Ascii.
Import String.StringSyntax Ascii.AsciiSyntax.
From Stdlib Require Import Floats.SpecFloat.
Import ListNotations.
Open Scope Z_scope.

(* ================================================================== *)
(** * Part I: the program                                              *)
(* ================================================================== *)

(** ** Machine integers

    [int] is 32 bits wide.  Values are kept in [Z]; every arithmetic result
    is brought back into the [int] range by [wrap] (two's complement), and
    division truncates toward zero as in C++. *)

Definition INT_MIN : Z := -2147483648.
Definition INT_MAX : Z := 2147483647.

Definition wrap (z : Z) : Z := (z - INT_MIN) mod 4294967296 + INT_MIN.

Definition int_add (a b : Z) : Z := wrap (a + b).
Definition int_sub (a b : Z) : Z := wrap (a - b).
Definition int_mul (a b : Z) : Z := wrap (a * b).
Definition int_div (a b : Z) : Z := wrap (Z.quot a b).

Infix "+i" := int_add (at level 50, left associativity) : Z_scope.
Infix "-i" := int_sub (at level 50, left associativity) : Z_scope.
Infix "*i" := int_mul (at level 40, left associativity) : Z_scope.
Infix "/i" := int_div (at level 40, left associativity) : Z_scope.

(** ** Single-precision floats

    [float] is IEEE-754 binary32: 24 bits of precision, round to nearest
    even, as specified by the standard library's [SpecFloat] at
    [prec = 24], [emax = 128]. *)

Module F32.

Definition prec : Z := 24.
Definition emax : Z := 128.

Definition t := spec_float.

Definition zero : t := S754_zero false.

Definition add : t -> t -> t := SFadd prec emax.
Definition sub : t -> t -> t := SFsub prec emax.
Definition mul : t -> t -> t := SFmul prec emax.
Definition div : t -> t -> t := SFdiv prec emax.
Definition sqrt : t -> t := SFsqrt prec emax.

Definition ltb (a b : t) : bool := SFltb a b.
Definition leb (a b : t) : bool := SFleb a b.
Definition gtb (a b : t) : bool := SFltb b a.
Definition geb (a b : t) : bool := SFleb b a.

(** [std::max(a, b)] is [(a < b) ? b : a]; [std::min(a, b)] is
    [(b < a) ? b : a]. *)
Definition max (a b : t) : t := if ltb a b then b else a.
Definition min (a b : t) : t := if ltb b a then b else a.

(** Conversion [int -> float]. *)
Definition of_int (z : Z) : t := binary_normalize prec emax z 0 false.

(** The integer part of a float, when it has one. *)
Definition trunc (x : t) : option Z :=
  match x with
  | S754_zero _ => Some 0
  | S754_finite s m e =>
      let a := if 0 <=? e then Zpos m * 2 ^ e else Z.quot (Zpos m) (2 ^ (- e)) in
      Some (if s then - a else a)
  | _ => None
  end.

(** Conversion [float -> int] truncates toward zero.  C++ leaves the
    conversion undefined when the integer part does not fit an [int] (or the
    float is infinite or NaN); the model returns what the x86 conversion
    instruction delivers in that case, [INT_MIN]. *)
Definition to_int (x : t) : Z :=
  match trunc x with
  | Some v => if (INT_MIN <=? v) && (v <=? INT_MAX) then v else INT_MIN
  | None => INT_MIN
  end.

(** The literals [0.25f], [0.5f] and [1.4f]. *)
Definition lit_0_25 : t := div (of_int 1) (of_int 4).
Definition lit_0_5 : t := div (of_int 1) (of_int 2).
Definition lit_1_4 : t := div (of_int 14) (of_int 10).

End F32.

Record float3 := mkFloat3 { fx : F32.t; fy : F32.t; fz : F32.t }.

Definition ZeroVector : float3 := mkFloat3 F32.zero F32.zero F32.zero.

(** ** Constants *)

Definition TEX_QUAD_SIZE : Z := 16.
Definition MAX_SCAR_COUNT : Z := 4096.

(** ** Scars *)

Module Scar.

(** Modelled from the spec: [struct Scar] is declared in
    GroundDecalHandler.h, which is not among the sources.  The fields are
    the ones the .cpp file reads and writes; the rectangle, the ticks, the
    stamp, [basesize] and the [overdrawn] counter are integers (the spec has
    the running ratio "integer-truncated").  The vertex array is rendering
    cache and left out. *)
Record t := mk {
  pos : float3;
  radius : F32.t;
  alphaDecay : F32.t;
  startAlpha : F32.t;
  texOffsetX : F32.t;
  texOffsetY : F32.t;
  id : Z;
  x1 : Z; x2 : Z;
  y1 : Z; y2 : Z;
  creationTime : Z;
  lifeTime : Z;
  lastTest : Z;
  lastDraw : Z;
  basesize : Z;
  overdrawn : Z
}.

(** Modelled from the spec: [Scar::Reset] is declared in the same missing
    header; the spec has removal "reset its record" and the constructor
    "wipe out scars from previous runs".  Every field returns to its idle
    value: no id, an empty rectangle, zero ticks and counters, never drawn
    ([DrawGroundScar] rebuilds the geometry when [lastDraw == -1]). *)
Definition Reset : t :=
  mk ZeroVector F32.zero F32.zero F32.zero F32.zero F32.zero
     (-1) 0 0 0 0 0 0 0 (-1) 0 0.

Definition set_lastTest (s : t) (v : Z) : t :=
  mk (pos s) (radius s) (alphaDecay s) (startAlpha s) (texOffsetX s) (texOffsetY s)
     (id s) (x1 s) (x2 s) (y1 s) (y2 s) (creationTime s) (lifeTime s)
     v (lastDraw s) (basesize s) (overdrawn s).

Definition set_overdrawn (s : t) (v : Z) : t :=
  mk (pos s) (radius s) (alphaDecay s) (startAlpha s) (texOffsetX s) (texOffsetY s)
     (id s) (x1 s) (x2 s) (y1 s) (y2 s) (creationTime s) (lifeTime s)
     (lastTest s) (lastDraw s) (basesize s) v.

Definition set_lastDraw (s : t) (v : Z) : t :=
  mk (pos s) (radius s) (alphaDecay s) (startAlpha s) (texOffsetX s) (texOffsetY s)
     (id s) (x1 s) (x2 s) (y1 s) (y2 s) (creationTime s) (lifeTime s)
     (lastTest s) v (basesize s) (overdrawn s).

End Scar.

(** ** Decal types *)

Record SolidObjectDecalType := mkDecalType {
  name : String.string;
  texture : Z;
  objectDecals : list Z
}.

(** ** The engine around the handler

    What the handler reads from the rest of the engine.  The map
    dimensions, the constant [SQUARE_SIZE], the terrain height query, the
    camera test, the clamp of a position into the map, the unsynced random
    generator and the bitmap loader are declared outside the sources; they
    are taken as given. *)

Record MapDims := mkMapDims {
  mapx : Z; mapy : Z;
  hmapx : Z; hmapy : Z
}.

Record Engine := mkEngine {
  mapDims : MapDims;
  SQUARE_SIZE : Z;                            (* world units per map square *)
  frameNum : Z;                               (* gs->frameNum *)
  drawFrame : Z;                              (* globalRendering->drawFrame *)
  GetHeightReal : F32.t -> F32.t -> F32.t;    (* CGround::GetHeightReal(x, z, false) *)
  cClampInBounds : float3 -> float3;          (* float3::cClampInBounds *)
  InView : float3 -> F32.t -> bool;           (* camera->InView(pos, radius) *)
  NextInt : nat -> Z;                         (* the n-th value of guRNG.NextInt() *)
  GroundScarAlphaFade : Z;                    (* configHandler->GetInt(...) *)
  LoadBitmap : String.string -> option Z            (* CBitmap::Load, then CreateMipMapTexture *)
}.

(** ** The handler's state

    The file-level statics [scars], [freeScarIDs], [usedScarIDs] and the
    members of [CGroundDecalHandler] the modelled functions touch.  [scars]
    is the fixed array of [MAX_SCAR_COUNT] records, kept as the map from
    index to record; the ids stored in the lists are shown to stay inside
    [0, MAX_SCAR_COUNT).  [rngCalls] counts the calls made to
    [guRNG.NextInt]. *)

Record State := mkState {
  scars : Z -> Scar.t;
  freeScarIDs : list Z;
  usedScarIDs : list Z;
  addedScars : list Z;
  scarField : list (list Z);
  scarFieldX : Z;
  scarFieldY : Z;
  lastScarOverlapTest : Z;
  maxScarOverlapSize : Z;
  decalLevel : Z;
  groundScarAlphaFade : bool;
  objectDecalTypes : list SolidObjectDecalType;
  rngCalls : nat
}.

Definition set_scars (st : State) (v : Z -> Scar.t) : State :=
  mkState v (freeScarIDs st) (usedScarIDs st) (addedScars st) (scarField st)
    (scarFieldX st) (scarFieldY st) (lastScarOverlapTest st) (maxScarOverlapSize st)
    (decalLevel st) (groundScarAlphaFade st) (objectDecalTypes st) (rngCalls st).

Definition set_freeScarIDs (st : State) (v : list Z) : State :=
  mkState (scars st) v (usedScarIDs st) (addedScars st) (scarField st)
    (scarFieldX st) (scarFieldY st) (lastScarOverlapTest st) (maxScarOverlapSize st)
    (decalLevel st) (groundScarAlphaFade st) (objectDecalTypes st) (rngCalls st).

Definition set_usedScarIDs (st : State) (v : list Z) : State :=
  mkState (scars st) (freeScarIDs st) v (addedScars st) (scarField st)
    (scarFieldX st) (scarFieldY st) (lastScarOverlapTest st) (maxScarOverlapSize st)
    (decalLevel st) (groundScarAlphaFade st) (objectDecalTypes st) (rngCalls st).

Definition set_addedScars (st : State) (v : list Z) : State :=
  mkState (scars st) (freeScarIDs st) (usedScarIDs st) v (scarField st)
    (scarFieldX st) (scarFieldY st) (lastScarOverlapTest st) (maxScarOverlapSize st)
    (decalLevel st) (groundScarAlphaFade st) (objectDecalTypes st) (rngCalls st).

Definition set_scarField (st : State) (v : list (list Z)) : State :=
  mkState (scars st) (freeScarIDs st) (usedScarIDs st) (addedScars st) v
    (scarFieldX st) (scarFieldY st) (lastScarOverlapTest st) (maxScarOverlapSize st)
    (decalLevel st) (groundScarAlphaFade st) (objectDecalTypes st) (rngCalls st).

Definition set_lastScarOverlapTest (st : State) (v : Z) : State :=
  mkState (scars st) (freeScarIDs st) (usedScarIDs st) (addedScars st) (scarField st)
    (scarFieldX st) (scarFieldY st) v (maxScarOverlapSize st)
    (decalLevel st) (groundScarAlphaFade st) (objectDecalTypes st) (rngCalls st).

Definition set_objectDecalTypes (st : State) (v : list SolidObjectDecalType) : State :=
  mkState (scars st) (freeScarIDs st) (usedScarIDs st) (addedScars st) (scarField st)
    (scarFieldX st) (scarFieldY st) (lastScarOverlapTest st) (maxScarOverlapSize st)
    (decalLevel st) (groundScarAlphaFade st) v (rngCalls st).

Definition set_rngCalls (st : State) (v : nat) : State :=
  mkState (scars st) (freeScarIDs st) (usedScarIDs st) (addedScars st) (scarField st)
    (scarFieldX st) (scarFieldY st) (lastScarOverlapTest st) (maxScarOverlapSize st)
    (decalLevel st) (groundScarAlphaFade st) (objectDecalTypes st) v.

(** [scars[i] = s] *)
Definition set_scar (st : State) (i : Z) (s : Scar.t) : State :=
  set_scars st (fun j => if j =? i then s else scars st j).

(** Modelled from the spec: [GetDrawDecals] is declared in the decal
    drawer's header, not among the sources; the spec has it as the boolean
    toggle gating the whole subsystem and ties the overlap threshold to the
    quality level [decalLevel].  Decals are drawn when the level is
    positive. *)
Definition GetDrawDecals (st : State) : bool := 0 <? decalLevel st.

(** ** Container helpers

    A [std::vector] is a list whose last element is the vector's back. *)

(** Modelled from the spec: [spring::VectorErase] comes from
    System/ContainerUtil.h, not among the sources.  The spec has removal
    take the id out of a cell or id list.  The first occurrence is
    overwritten with the back element and the back is popped; nothing
    happens when the element is absent.  This is what the comment "The quad
    might change in the loop below" and the index that [DrawScars] leaves in
    place after a removal rely on. *)
Fixpoint VectorErase (v : list Z) (e : Z) : list Z :=
  match v with
  | [] => []
  | a :: r =>
      if a =? e
      then match r with [] => [] | _ :: _ => last r 0 :: removelast r end
      else a :: VectorErase r e
  end.

(** Modelled from the spec: [spring::VectorInsertUnique] comes from the
    same missing header; the spec has it return an id to the free pool and
    enter an id into a cell.  The element is appended; the optional third
    argument [b] (default [false]) asks for a membership test first. *)
Definition VectorInsertUnique (v : list Z) (e : Z) (b : bool) : list Z :=
  if b && existsb (Z.eqb e) v then v else v ++ [e].

(** Modelled from the spec: [spring::VectorBackPop] comes from the same
    missing header; it hands out the back element and pops it. *)
Definition VectorBackPop (v : list Z) : Z * list Z := (last v 0, removelast v).

(** ** The scar field *)

(** [scarField[c]].  An index outside the vector is undefined behaviour in
    C++: the program reads out of bounds there, and the model does not
    follow it, the read gives an empty cell.  [cellInGrid] below tells
    whether an index is within the vector; the indices the loops use are,
    for every scar in use or queued of a state satisfying [table_ok]
    (lemma [table_ok_accessesInGrid]), and are not for every scar
    [AddExplosion] can queue (C10). *)
Definition cellAt (st : State) (c : Z) : list Z :=
  if c <? 0 then [] else nth (Z.to_nat c) (scarField st) [].

Fixpoint list_update {A : Type} (l : list A) (n : nat) (f : A -> A) : list A :=
  match l, n with
  | [], _ => []
  | a :: r, O => f a :: r
  | a :: r, S n' => a :: list_update r n' f
  end.

(** Apply [f] to [scarField[c]] in place.  Outside the vector the program
    writes out of bounds; the model writes nothing there, under the same
    proviso as [cellAt]. *)
Definition updCell (st : State) (c : Z) (f : list Z -> list Z) : State :=
  if c <? 0 then st else set_scarField st (list_update (scarField st) (Z.to_nat c) f).

(** The values taken by [v] in [for (int v = lo; v <= hi; ++v)]. *)
Definition loop_range (lo hi : Z) : list Z :=
  map (fun k => lo + Z.of_nat k) (seq 0 (Z.to_nat (hi - lo + 1))).

(** The bounds [x1, y1, x2, y2] that [AddScars], [TestScarOverlaps] and
    [RemoveScar] each compute, in the same words, from a scar. *)
Definition cellBounds (st : State) (s : Scar.t) : Z * Z * Z * Z :=
  let x1 := Scar.x1 s /i TEX_QUAD_SIZE in
  let y1 := Scar.y1 s /i TEX_QUAD_SIZE in
  let x2 := Z.min (scarFieldX st -i 1) (Scar.x2 s /i TEX_QUAD_SIZE) in
  let y2 := Z.min (scarFieldY st -i 1) (Scar.y2 s /i TEX_QUAD_SIZE) in
  (x1, y1, x2, y2).

(** The pairs [(y, x)] visited by
    [for (y = y1; y <= y2; ++y) for (x = x1; x <= x2; ++x)], in order. *)
Definition cellLoop (b : Z * Z * Z * Z) : list (Z * Z) :=
  let '(x1, y1, x2, y2) := b in
  list_prod (loop_range y1 y2) (loop_range x1 x2).

(** [y * scarFieldX + x] *)
Definition cellIndex (st : State) (yx : Z * Z) : Z :=
  fst yx *i scarFieldX st +i snd yx.

(** ** Allocation of scar ids *)

Definition GetScarID (st : State) : Z * State :=
  match freeScarIDs st with
  | [] => (-1, st)
  | _ :: _ =>
      let '(e, v) := VectorBackPop (freeScarIDs st) in
      (e, set_freeScarIDs st v)
  end.

(** ** Overlap of two scars *)

Definition ScarOverlapSize (s1 s2 : Scar.t) : Z :=
  if (Scar.x1 s1 >=? Scar.x2 s2) || (Scar.x2 s1 <=? Scar.x1 s2) then 0
  else if (Scar.y1 s1 >=? Scar.y2 s2) || (Scar.y2 s1 <=? Scar.y1 s2) then 0
  else
    let xs := if Scar.x1 s1 <? Scar.x1 s2
              then Scar.x2 s1 -i Scar.x1 s2 else Scar.x2 s2 -i Scar.x1 s1 in
    let ys := if Scar.y1 s1 <? Scar.y1 s2
              then Scar.y2 s1 -i Scar.y1 s2 else Scar.y2 s2 -i Scar.y1 s1 in
    xs *i ys.

(** The area of the intersection of the two bounding rectangles, as the
    spec words it ("the 2D axis-aligned overlap area", "zero if they don't
    actually intersect"); what [ScarOverlapSize] is compared with. *)
Definition rectIntersectionArea (s1 s2 : Scar.t) : Z :=
  Z.max 0 (Z.min (Scar.x2 s1) (Scar.x2 s2) - Z.max (Scar.x1 s1) (Scar.x1 s2)) *
  Z.max 0 (Z.min (Scar.y2 s1) (Scar.y2 s2) - Z.max (Scar.y1 s1) (Scar.y1 s2)).

Definition rectWellFormed (s : Scar.t) : Prop :=
  Scar.x1 s <= Scar.x2 s /\ Scar.y1 s <= Scar.y2 s.

(** ** Removal of a scar

    [idx] is the index in [scars] of the record the reference [scar]
    denotes. *)

Definition RemoveScar (st : State) (idx : Z) : State :=
  let scar := scars st idx in
  let st := fold_left
              (fun st yx => updCell st (cellIndex st yx) (fun q => VectorErase q (Scar.id scar)))
              (cellLoop (cellBounds st scar)) st in
  (* recycle the id *)
  let st := set_freeScarIDs st (VectorInsertUnique (freeScarIDs st) (Scar.id scar) false) in
  let st := set_usedScarIDs st (VectorErase (usedScarIDs st) (Scar.id scar)) in
  set_scar st idx Scar.Reset.

(** ** The overlap test

    [sid] is the index of the new scar ([const Scar& scar]), [tid] the
    index found in a cell ([Scar& testScar = scars[quad[i]]]).  The records
    are read from the state at each use, as the references do. *)

Definition testOverlap (st : State) (sid tid : Z) : State :=
  if lastScarOverlapTest st =? Scar.lastTest (scars st tid) then st
  else if Scar.lifeTime (scars st sid) <? Scar.lifeTime (scars st tid) then st
  else
    let st := set_scar st tid (Scar.set_lastTest (scars st tid) (lastScarOverlapTest st)) in
    (* area in texels *)
    let overlapSize := ScarOverlapSize (scars st sid) (scars st tid) in
    if (overlapSize =? 0) || (Scar.basesize (scars st tid) =? 0) then st
    else
      let od := Scar.overdrawn (scars st tid) +i (overlapSize /i Scar.basesize (scars st tid)) in
      let st := set_scar st tid (Scar.set_overdrawn (scars st tid) od) in
      if od <=? maxScarOverlapSize st then st
      else RemoveScar st tid.

(** [for (size_t i = 0; i < quad.size(); i++)] over the cell [c], from
    index [i] on.  The cell is read again at every round since the body may
    shrink it.  [fuel] bounds the number of rounds; the cell never grows and
    [i] always advances, so the length of the cell on entry is enough
    (lemma [testQuad_fuel]). *)
Fixpoint testQuad (fuel : nat) (st : State) (sid c : Z) (i : nat) : State :=
  match fuel with
  | O => st
  | S fuel' =>
      let quad := cellAt st c in
      if (i <? length quad)%nat
      then testQuad fuel' (testOverlap st sid (nth i quad 0)) sid c (S i)
      else st
  end.

Definition TestScarOverlaps (st : State) (sid : Z) : State :=
  let b := cellBounds st (scars st sid) in
  let st := set_lastScarOverlapTest st (lastScarOverlapTest st +i 1) in
  fold_left
    (fun st yx => let c := cellIndex st yx in testQuad (length (cellAt st c)) st sid c 0)
    (cellLoop b) st.

(** ** Committing the added scars *)

Definition insertScar (st : State) (id : Z) : State :=
  let s := scars st id in
  let st := fold_left
              (fun st yx => updCell st (cellIndex st yx)
                              (fun q => VectorInsertUnique q (Scar.id s) false))
              (cellLoop (cellBounds st s)) st in
  set_usedScarIDs st (usedScarIDs st ++ [id]).

Definition AddScars (st : State) : State :=
  (* potentially evicts one or more existing in-field scars *)
  let st := fold_left TestScarOverlaps (addedScars st) st in
  let st := fold_left insertScar (addedScars st) st in
  set_addedScars st [].

(** ** The per-frame sweep *)

(** Of [DrawGroundScar] only the visibility test and the [lastDraw] stamp
    are kept; the quads go to the renderer. *)
Definition DrawGroundScar (e : Engine) (st : State) (idx : Z) : State :=
  let scar := scars st idx in
  if negb (InView e (Scar.pos scar) (F32.add (Scar.radius scar) (F32.of_int TEX_QUAD_SIZE)))
  then st
  else set_scar st idx (Scar.set_lastDraw scar (drawFrame e)).

(** [for (size_t i = 0; i < usedScarIDs.size(); )] from index [i] on.
    [None] when [fuel] rounds did not reach the end of the loop. *)
Fixpoint DrawScars_from (fuel : nat) (e : Engine) (st : State) (i : nat) : option State :=
  match fuel with
  | O => None
  | S fuel' =>
      if (i <? length (usedScarIDs st))%nat
      then
        let idx := nth i (usedScarIDs st) 0 in
        if Scar.lifeTime (scars st idx) <? frameNum e
        then DrawScars_from fuel' e (RemoveScar st idx) i
        else DrawScars_from fuel' e (DrawGroundScar e st idx) (S i)
      else Some st
  end.

Definition DrawScars (fuel : nat) (e : Engine) (st : State) : option State :=
  DrawScars_from fuel e st 0%nat.

(** The scars the loop hands to [DrawGroundScar], in order: the rounds of
    [DrawScars_from], with the id of each round that reaches the call. *)
Fixpoint DrawScars_drawn (fuel : nat) (e : Engine) (st : State) (i : nat) : list Z :=
  match fuel with
  | O => []
  | S fuel' =>
      if (i <? length (usedScarIDs st))%nat
      then
        let idx := nth i (usedScarIDs st) 0 in
        if Scar.lifeTime (scars st idx) <? frameNum e
        then DrawScars_drawn fuel' e (RemoveScar st idx) i
        else idx :: DrawScars_drawn fuel' e (DrawGroundScar e st idx) (S i)
      else []
  end.

(** ** Explosions *)

Definition AddExplosion (e : Engine) (st : State) (pos : float3) (damage radius : F32.t) : State :=
  if negb (GetDrawDecals st) then st
  else
    let altitude := F32.sub (fy pos) (GetHeightReal e (fx pos) (fz pos)) in
    (* no decals for below-ground explosions *)
    if F32.leb altitude (F32.of_int (-1)) then st
    else if F32.geb altitude radius then st
    else
      let pos := mkFloat3 (fx pos) (F32.sub (fy pos) altitude) (fz pos) in
      let radius := F32.sub radius altitude in
      if F32.ltb radius (F32.of_int 5) then st
      else
        let damage := F32.min damage (F32.mul radius (F32.of_int 30)) in
        let damage := F32.mul damage (F32.div radius (F32.add radius altitude)) in
        let radius := F32.min radius (F32.mul damage F32.lit_0_25) in
        let damage :=
          if F32.gtb damage (F32.of_int 400)
          then F32.add (F32.of_int 400) (F32.sqrt (F32.sub damage (F32.of_int 399)))
          else damage in
        let '(id, st) := GetScarID st in
        let ttl := F32.to_int
                     (F32.max (F32.of_int 1)
                        (F32.mul (F32.mul (F32.of_int (decalLevel st)) damage) (F32.of_int 3))) in
        (* decal limit reached *)
        if id =? -1 then st
        else
          (* slot is free, so this scar is not registered in scar-field *)
          let old := scars st id in
          let spos := cClampInBounds e pos in
          let startAlpha := F32.max (F32.of_int 50) (F32.min (F32.of_int 255) damage) in
          (* atlas contains 2x2 textures, pick one of them *)
          let texOffsetX :=
            if Z.land (NextInt e (rngCalls st)) 128 =? 0 then F32.lit_0_5 else F32.zero in
          let texOffsetY :=
            if Z.land (NextInt e (S (rngCalls st))) 128 =? 0 then F32.lit_0_5 else F32.zero in
          let q := F32.of_int (SQUARE_SIZE e *i 2) in
          let x1 := F32.to_int (F32.max F32.zero (F32.div (F32.sub (fx spos) radius) q)) in
          let y1 := F32.to_int (F32.max F32.zero (F32.div (F32.sub (fz spos) radius) q)) in
          let x2 := F32.to_int
                      (F32.min (F32.of_int (hmapx (mapDims e) -i 1))
                         (F32.add (F32.div (F32.add (fx spos) radius) q) (F32.of_int 1))) in
          let y2 := F32.to_int
                      (F32.min (F32.of_int (hmapy (mapDims e) -i 1))
                         (F32.add (F32.div (F32.add (fz spos) radius) q) (F32.of_int 1))) in
          let s := Scar.mk spos (F32.mul radius F32.lit_1_4)
                     (F32.div startAlpha (F32.of_int ttl)) startAlpha texOffsetX texOffsetY
                     id x1 x2 y1 y2
                     (frameNum e) (frameNum e +i ttl) 0 (Scar.lastDraw old)
                     ((x2 -i x1) *i (y2 -i y1)) 0 in
          let st := set_rngCalls st (S (S (rngCalls st))) in
          let st := set_scar st id s in
          set_addedScars st (addedScars st ++ [id]).

(** ** The constructor

    A new handler starts with empty members; when decals are drawn it also
    wipes the statics, fills the free list with all ids and sizes the scar
    field.  The loading of the scar textures and of the shaders is added
    by [CGroundDecalHandler_new]. *)

Definition CGroundDecalHandler (e : Engine) (st : State) : State :=
  let st := set_objectDecalTypes (set_scarField (set_addedScars st []) []) [] in
  if negb (GetDrawDecals st) then st
  else
    let sfx := mapx (mapDims e) /i 32 in
    let sfy := mapy (mapDims e) /i 32 in
    mkState
      (fun i => if (0 <=? i) && (i <? MAX_SCAR_COUNT) then Scar.Reset else scars st i)
      (map Z.of_nat (seq 0 (Z.to_nat MAX_SCAR_COUNT)))
      []
      []
      (repeat [] (Z.to_nat (sfx *i sfy)))
      sfx sfy
      0
      (decalLevel st +i 1)
      (decalLevel st)
      (negb (GroundScarAlphaFade e =? 0))
      []
      (rngCalls st).

(** ** Decal types *)

(** Modelled from the spec: [StringToLower] comes from System/StringUtil.h,
    not among the sources; the spec has the texture looked up under the
    "lowercased name".  ASCII capitals are mapped to small letters. *)
Definition toLowerAscii (c : Ascii.ascii) : Ascii.ascii :=
  let n := Ascii.nat_of_ascii c in
  if ((65 <=? n) && (n <=? 90))%nat then Ascii.ascii_of_nat (n + 32) else c.

Fixpoint StringToLower (s : String.string) : String.string :=
  match s with
  | String.EmptyString => String.EmptyString
  | String.String c r => String.String (toLowerAscii c) (StringToLower r)
  end.

(** [std::find_if] with the predicate [dt.name == lowerName]: the position
    of the first match counted from [k]. *)
Fixpoint findDecalType (l : list SolidObjectDecalType) (lowerName : String.string) (k : Z) : option Z :=
  match l with
  | [] => None
  | dt :: r => if String.eqb (name dt) lowerName then Some k else findDecalType r lowerName (k + 1)
  end.

Definition GetSolidObjectDecalType (e : Engine) (st : State) (nm : String.string) : State * Z :=
  if negb (GetDrawDecals st) then (st, -2)
  else
    let lowerName := StringToLower nm in
    let fullName := String.append "unittextures/" lowerName in
    match findDecalType (objectDecalTypes st) lowerName 0 with
    | Some k => (st, k)
    | None =>
        match LoadBitmap e fullName with
        | None => (st, -2)
        | Some tex =>
            let tt := mkDecalType lowerName tex [] in
            let st := set_objectDecalTypes st (objectDecalTypes st ++ [tt]) in
            (st, Z.of_nat (length (objectDecalTypes st)) -i 1)
        end
    end.

(** ** Invariants of the scar table and the scar field *)

(** The cell indices a scar is filed under: one per round of the loops of
    [AddScars] and [RemoveScar]. *)
Definition scarCells (st : State) (s : Scar.t) : list Z :=
  map (cellIndex st) (cellLoop (cellBounds st s)).

(** Whether [scarField[c]] is an element of the vector. *)
Definition cellInGrid (st : State) (c : Z) : bool :=
  (0 <=? c) && (c <? Z.of_nat (List.length (scarField st))).

(** Whether every access [scarField[y * scarFieldX + x]] that the loops of
    [AddScars], [TestScarOverlaps] and [RemoveScar] make for the scar [s]
    is within the vector. *)
Definition accessesInGrid (st : State) (s : Scar.t) : bool :=
  forallb (cellInGrid st) (scarCells st s).

(** The scar field is the [scarFieldX] x [scarFieldY] grid it was sized
    as. *)
Record field_ok (st : State) : Prop := mk_field_ok {
  ok_W : 0 <= scarFieldX st <= INT_MAX;
  ok_H : 0 <= scarFieldY st <= INT_MAX;
  ok_len : Z.of_nat (List.length (scarField st)) = scarFieldX st * scarFieldY st;
  ok_size : scarFieldX st * scarFieldY st <= INT_MAX
}.

(** The record of an allocated scar carries its own index as id, and the
    lower corner of its rectangle is not negative. *)
Definition liveRecord (id : Z) (s : Scar.t) : Prop :=
  Scar.id s = id /\ 0 <= Scar.x1 s <= INT_MAX /\ 0 <= Scar.y1 s <= INT_MAX.

(** Ids are free, queued in [addedScars], or in use, never two of these
    at once and never twice; the cells hold exactly the ids in use, each
    under the cells of its rectangle. *)
Record table_ok (st : State) : Prop := mk_table_ok {
  ok_field : field_ok st;
  ok_free_nodup : NoDup (freeScarIDs st);
  ok_used_nodup : NoDup (usedScarIDs st);
  ok_added_nodup : NoDup (addedScars st);
  ok_free_used : forall id, In id (freeScarIDs st) -> ~ In id (usedScarIDs st);
  ok_free_added : forall id, In id (freeScarIDs st) -> ~ In id (addedScars st);
  ok_used_added : forall id, In id (usedScarIDs st) -> ~ In id (addedScars st);
  ok_range : forall id,
    In id (freeScarIDs st) \/ In id (usedScarIDs st) \/ In id (addedScars st) ->
    0 <= id < MAX_SCAR_COUNT;
  ok_live : forall id,
    In id (usedScarIDs st) \/ In id (addedScars st) -> liveRecord id (scars st id);
  ok_cell_nodup : forall c, NoDup (cellAt st c);
  ok_cell_sound : forall c id,
    In id (cellAt st c) -> In id (usedScarIDs st) /\ In c (scarCells st (scars st id));
  ok_cell_complete : forall id c,
    In id (usedScarIDs st) -> In c (scarCells st (scars st id)) -> In id (cellAt st c)
}.

(** The threshold is the one the constructor set, [decalLevel + 1], and no
    allocated scar carries an [overdrawn] count above it. *)
Definition under_threshold (st : State) : Prop :=
  maxScarOverlapSize st = decalLevel st +i 1 /\
  0 <= maxScarOverlapSize st /\
  forall id, In id (usedScarIDs st) \/ In id (addedScars st) ->
             Scar.overdrawn (scars st id) <= maxScarOverlapSize st.

(** Two records that differ at most in the stamps and the counter. *)
Definition bookkeeping (s s' : Scar.t) : Prop :=
  Scar.id s' = Scar.id s /\
  Scar.x1 s' = Scar.x1 s /\ Scar.x2 s' = Scar.x2 s /\
  Scar.y1 s' = Scar.y1 s /\ Scar.y2 s' = Scar.y2 s /\
  Scar.lifeTime s' = Scar.lifeTime s /\ Scar.basesize s' = Scar.basesize s.

(** The conversions to [int] of the lower corner of every queued scar
    were in range. *)
Definition rect_converted (st : State) : Prop :=
  forall id, In id (addedScars st) ->
             Scar.x1 (scars st id) <> INT_MIN /\ Scar.y1 (scars st id) <> INT_MIN.

Definition mapSane (e : Engine) : Prop :=
  0 <= mapx (mapDims e) <= INT_MAX /\ 0 <= mapy (mapDims e) <= INT_MAX /\
  (mapx (mapDims e) /i 32) * (mapy (mapDims e) /i 32) <= INT_MAX.

(** The states the handler passes through: from the constructor on, by
    explosions, overlap passes, commits and sweeps, and by their steps (the
    stamp of a pass, the bookkeeping on a scar in use, a removal). *)
Inductive reachable : State -> Prop :=
| reach_start e st :
    GetDrawDecals st = true -> mapSane e ->
    reachable (CGroundDecalHandler e st)
| reach_explosion e st pos damage radius :
    reachable st -> rect_converted (AddExplosion e st pos damage radius) ->
    reachable (AddExplosion e st pos damage radius)
| reach_pass st sid :
    reachable st -> In sid (addedScars st) -> reachable (TestScarOverlaps st sid)
| reach_commit st :
    reachable st -> reachable (AddScars st)
| reach_sweep fuel e st st' :
    reachable st -> DrawScars fuel e st = Some st' -> reachable st'
| reach_stamp st v :
    reachable st -> reachable (set_lastScarOverlapTest st v)
| reach_bookkeeping st id s :
    reachable st -> In id (usedScarIDs st) -> bookkeeping (scars st id) s ->
    reachable (set_scar st id s)
| reach_remove st idx :
    reachable st -> In idx (usedScarIDs st) -> reachable (RemoveScar st idx).

(** What an overlap pass for the new scar [s] may have done to the record
    [b] of a scar that stays in use, leaving [c]: nothing; or, [b] not yet
    carrying the stamp of the pass and not outliving [s], the stamp alone;
    or the stamp and one addition of [overlap / basesize] that stays within
    the threshold [mx]. *)
Definition passed_over (stamp mx : Z) (s b c : Scar.t) : Prop :=
  c = b \/
  (Scar.lastTest b <> stamp /\ Scar.lifeTime b <= Scar.lifeTime s /\
   (c = Scar.set_lastTest b stamp /\
      (ScarOverlapSize s b = 0 \/ Scar.basesize b = 0)
    \/
    c = Scar.set_overdrawn (Scar.set_lastTest b stamp)
          (Scar.overdrawn b +i (ScarOverlapSize s b /i Scar.basesize b)) /\
      ScarOverlapSize s b <> 0 /\ Scar.basesize b <> 0 /\
      Scar.overdrawn b +i (ScarOverlapSize s b /i Scar.basesize b) <= mx)).

(** When an overlap pass for [s] evicts the scar with record [b]. *)
Definition evicted_by (stamp mx : Z) (s b : Scar.t) : Prop :=
  Scar.lastTest b <> stamp /\ Scar.lifeTime b <= Scar.lifeTime s /\
  ScarOverlapSize s b <> 0 /\ Scar.basesize b <> 0 /\
  mx < Scar.overdrawn b +i (ScarOverlapSize s b /i Scar.basesize b).

(** One round of the cell loop of [RemoveScar], and of [AddScars]. *)
Definition eraseStep (id : Z) (st : State) (yx : Z * Z) : State :=
  updCell st (cellIndex st yx) (fun q => VectorErase q id).

Definition insertStep (id : Z) (st : State) (yx : Z * Z) : State :=
  updCell st (cellIndex st yx) (fun q => VectorInsertUnique q id false).

(** [st'] differs from [st] at most in the contents of the cells. *)
Definition same_but_cells (st st' : State) : Prop :=
  (forall j, scars st' j = scars st j) /\
  freeScarIDs st' = freeScarIDs st /\
  usedScarIDs st' = usedScarIDs st /\
  addedScars st' = addedScars st /\
  scarFieldX st' = scarFieldX st /\
  scarFieldY st' = scarFieldY st /\
  lastScarOverlapTest st' = lastScarOverlapTest st /\
  maxScarOverlapSize st' = maxScarOverlapSize st /\
  List.length (scarField st') = List.length (scarField st) /\
  decalLevel st' = decalLevel st.

(** The state [stc] somewhere inside the overlap pass for the new scar
    [sid]; [st0] is the state at the start of the loops, the stamp already
    advanced. *)
Record in_pass (st0 : State) (sid : Z) (stc : State) : Prop := mk_in_pass {
  ip_ok : table_ok stc;
  ip_W : scarFieldX stc = scarFieldX st0;
  ip_H : scarFieldY stc = scarFieldY st0;
  ip_len : List.length (scarField stc) = List.length (scarField st0);
  ip_stamp : lastScarOverlapTest stc = lastScarOverlapTest st0;
  ip_max : maxScarOverlapSize stc = maxScarOverlapSize st0;
  ip_added : addedScars stc = addedScars st0;
  ip_level : decalLevel stc = decalLevel st0;
  ip_outside : forall j, ~ In j (usedScarIDs st0) -> scars stc j = scars st0 j;
  ip_used : forall j, In j (usedScarIDs stc) -> In j (usedScarIDs st0);
  ip_kept : forall j, In j (usedScarIDs stc) ->
    passed_over (lastScarOverlapTest st0) (maxScarOverlapSize st0)
      (scars st0 sid) (scars st0 j) (scars stc j);
  ip_evicted : forall j, In j (usedScarIDs st0) -> ~ In j (usedScarIDs stc) ->
    evicted_by (lastScarOverlapTest st0) (maxScarOverlapSize st0) (scars st0 sid) (scars st0 j) /\
    scars stc j = Scar.Reset /\ In j (freeScarIDs stc)
}.

(** [st'] is [st] but for the stamps and the counter of the record
    [tid]. *)
Definition touched (st : State) (tid : Z) (st' : State) : Prop :=
  scarFieldX st' = scarFieldX st /\
  scarFieldY st' = scarFieldY st /\
  List.length (scarField st') = List.length (scarField st) /\
  lastScarOverlapTest st' = lastScarOverlapTest st /\
  maxScarOverlapSize st' = maxScarOverlapSize st /\
  addedScars st' = addedScars st /\
  usedScarIDs st' = usedScarIDs st /\
  freeScarIDs st' = freeScarIDs st /\
  decalLevel st' = decalLevel st /\
  (forall j, j <> tid -> scars st' j = scars st j) /\
  bookkeeping (scars st tid) (scars st' tid).

(** What a sweep at the frame [frameNum e] makes of [st]. *)
Definition swept (e : Engine) (st st' : State) : Prop :=
  (forall id, In id (usedScarIDs st') <->
              In id (usedScarIDs st) /\ frameNum e <= Scar.lifeTime (scars st id)) /\
  (forall id, ~ In id (usedScarIDs st) -> scars st' id = scars st id) /\
  (forall id, In id (usedScarIDs st) -> Scar.lifeTime (scars st id) < frameNum e ->
              scars st' id = Scar.Reset /\ In id (freeScarIDs st')) /\
  (forall id, In id (freeScarIDs st) -> In id (freeScarIDs st')) /\
  (forall id, In id (usedScarIDs st') ->
              bookkeeping (scars st id) (scars st' id) /\
              Scar.overdrawn (scars st' id) = Scar.overdrawn (scars st id)) /\
  addedScars st' = addedScars st /\
  maxScarOverlapSize st' = maxScarOverlapSize st /\
  decalLevel st' = decalLevel st.

(** No id is handed out twice: the free ids, the queued ids and the ids
    in use are three duplicate-free lists without a common element, and the
    record of every allocated scar carries the index it sits at. *)
Definition no_double_allocation (st : State) : Prop :=
  NoDup (freeScarIDs st) /\ NoDup (usedScarIDs st) /\ NoDup (addedScars st) /\
  (forall id, In id (freeScarIDs st) ->
              ~ In id (usedScarIDs st) /\ ~ In id (addedScars st)) /\
  (forall id, In id (usedScarIDs st) -> ~ In id (addedScars st)) /\
  (forall id, In id (usedScarIDs st) \/ In id (addedScars st) -> Scar.id (scars st id) = id).

(** ** Sample inputs

    A 64 x 64 map (scar field of 2 x 2 cells), flat terrain at height 0,
    every scar in view, no loadable bitmap; quality level 3. *)

Definition clampF (lo hi v : F32.t) : F32.t := F32.max lo (F32.min hi v).

Definition sampleEngine (frame : Z) : Engine :=
  mkEngine (mkMapDims 64 64 32 32) 8 frame frame
    (fun _ _ => F32.zero)
    (fun p => mkFloat3 (clampF F32.zero (F32.of_int 511) (fx p)) (fy p)
                       (clampF F32.zero (F32.of_int 511) (fz p)))
    (fun _ _ => true)
    (fun _ => 0)
    0
    (fun _ => None).

Definition blankState (level : Z) : State :=
  mkState (fun _ => Scar.Reset) [] [] [] [] 0 0 0 0 level false [] 0.

Definition startState : State := CGroundDecalHandler (sampleEngine 0) (blankState 3).

Definition groundPos (x z : Z) : float3 := mkFloat3 (F32.of_int x) F32.zero (F32.of_int z).

Open Scope string_scope.
Definition sampleName : String.string := "ArmSolar".
Close Scope string_scope.

(** A scar that is nothing but its rectangle. *)
Definition rectScar (x1 x2 y1 y2 : Z) : Scar.t :=
  Scar.mk ZeroVector F32.zero F32.zero F32.zero F32.zero F32.zero
    (-1) x1 x2 y1 y2 0 0 0 (-1) ((x2 -i x1) *i (y2 -i y1)) 0.

(** One explosion (damage 200, radius 50) at frame 0, committed: scar
    4095 is in use, with [lifeTime] 1800. *)
Definition sampleState1 : State :=
  AddScars (AddExplosion (sampleEngine 0) startState (groundPos 100 100)
              (F32.of_int 200) (F32.of_int 50)).

(** The same explosion again at frame 1, not yet committed: scar 4094 is
    queued. *)
Definition sampleState2 : State :=
  AddExplosion (sampleEngine 1) sampleState1 (groundPos 100 100)
    (F32.of_int 200) (F32.of_int 50).

(** An explosion with negative damage near the right edge of the map. *)
Definition sampleState3 : State :=
  AddExplosion (sampleEngine 0) startState (groundPos 500 100)
    (F32.of_int (-400)) (F32.of_int 100).

(** The explosion of [sampleState1], at frame [frame], committed at once. *)
Definition explodeAt (frame : Z) (st : State) : State :=
  AddScars (AddExplosion (sampleEngine frame) st (groundPos 100 100)
              (F32.of_int 200) (F32.of_int 50)).

(** A weaker explosion at the same place (damage 100): a smaller and
    shorter-lived scar, inside the rectangle of the stronger one. *)
Definition smallExplosion (frame : Z) (st : State) : State :=
  AddScars (AddExplosion (sampleEngine frame) st (groundPos 100 100)
              (F32.of_int 100) (F32.of_int 50)).

(** Four more of them on top of the first. *)
Definition sampleState5 : State :=
  explodeAt 4 (explodeAt 3 (explodeAt 2 (explodeAt 1 sampleState1))).

(** An explosion with damage -1e12 and radius 1e12: the radius becomes
    [min(1e12, -1e12 * 0.25) = -2.5e11], and neither [(100 + 2.5e11) / 16]
    nor [(100 - 2.5e11) / 16 + 1] fits an [int]. *)
Definition sampleState4 : State :=
  AddExplosion (sampleEngine 0) startState (groundPos 100 100)
    (F32.of_int (-1000000000000)) (F32.of_int 1000000000000).

(** The weaker explosion at frame 1 on top of [sampleState1], not yet
    committed: scar 4094 ([lifeTime] 901) is queued over scar 4095
    ([lifeTime] 1800). *)
Definition sampleState6 : State :=
  AddExplosion (sampleEngine 1) sampleState1 (groundPos 100 100)
    (F32.of_int 100) (F32.of_int 50).

(** 4096 explosions in one frame, none committed: every id is queued and
    no id is free. *)
Definition exhaustedState : State :=
  Nat.iter 4096
    (fun st => AddExplosion (sampleEngine 0) st (groundPos 100 100)
                 (F32.of_int 200) (F32.of_int 50))
    startState.

(** A small scar (4095, rectangle 4..8 both ways, [lifeTime] 900) covered
    by the scars of two stronger explosions (4094 and 4093, rectangle
    3..10), and a third such explosion queued (4092). *)
Definition coveredState : State :=
  AddExplosion (sampleEngine 3) (explodeAt 2 (explodeAt 1 (smallExplosion 0 startState)))
    (groundPos 100 100) (F32.of_int 200) (F32.of_int 50).

(** An explosion of radius 20 at the same place, committed at once: the
    rectangle is 5..8 both ways whatever the damage (from 80 on), the
    [lifeTime] is [frame + 9 * damage]. *)
Definition blast (frame damage : Z) (st : State) : State :=
  AddScars (AddExplosion (sampleEngine frame) st (groundPos 100 100)
              (F32.of_int damage) (F32.of_int 20)).

(** Ten such explosions, one per frame, and an eleventh queued (scar
    4091).  All rectangles are the same, so every overlap is the whole
    rectangle and every addition to a counter is 1. *)
Definition crowdedState : State :=
  AddExplosion (sampleEngine 10)
    (blast 9 300 (blast 8 300 (blast 7 300 (blast 6 300 (blast 5 100 (blast 4 100
      (blast 3 200 (blast 2 300 (blast 1 200 (blast 0 200 startState))))))))))
    (groundPos 100 100) (F32.of_int 300) (F32.of_int 20).

(* ------------------------------------------------------------------ *)
(** ** The elementary changes to the scar table

    Every loop of the handler changes the table by a run of these: the
    stamp of a pass, the bookkeeping on a scar in use, the removal of a
    scar in use. *)

Inductive step : State -> State -> Prop :=
| step_stamp st v : step st (set_lastScarOverlapTest st v)
| step_bookkeeping st id s :
    In id (usedScarIDs st) -> bookkeeping (scars st id) s -> step st (set_scar st id s)
| step_remove st idx :
    In idx (usedScarIDs st) -> step st (RemoveScar st idx).

Inductive steps : State -> State -> Prop :=
| steps_refl st : steps st st
| steps_snoc st st1 st2 : steps st st1 -> step st1 st2 -> steps st st2.

(** All the ids of the table, in the order the constructor files them. *)
Definition allScarIDs : list Z := map Z.of_nat (seq 0 (Z.to_nat MAX_SCAR_COUNT)).

(** The second loop of [AddScars] and the clearing of the queue. *)
Definition commitScars (st : State) : State :=
  set_addedScars (fold_left insertScar (addedScars st) st) [].

(** The records of the free slots are wiped. *)
Definition free_wiped (st : State) : Prop :=
  forall id, In id (freeScarIDs st) -> scars st id = Scar.Reset.



(* ------------------------------------------------------------------ *)
(** ** More machine arithmetic *)

(** [-(x)], [x << n] and [x >> n] on [int]; the right shift is the
    arithmetic one. *)
Definition int_neg (a : Z) : Z := wrap (- a).
Definition int_shl (a n : Z) : Z := wrap (Z.shiftl a n).
Definition int_shr (a n : Z) : Z := Z.shiftr a n.

(** A value stored into a [uint8_t]. *)
Definition u8 (v : Z) : Z := v mod 256.

Module F32lit.
Definition lit_0_001 : F32.t := F32.div (F32.of_int 1) (F32.of_int 1000).
Definition lit_0_01 : F32.t := F32.div (F32.of_int 1) (F32.of_int 100).
End F32lit.

(* ------------------------------------------------------------------ *)
(** ** The scar atlas

    [scarTexBuf] holds the 512 x 512 RGBA atlas of the four scar
    textures, one per quadrant. *)

(** Modelled from the spec: [CBitmap] comes from Rendering/Textures/Bitmap.h,
    not among the sources; the spec has the loader "load an image by path,
    rescale to a fixed atlas cell size, return raw pixel buffer".  [mem] is
    the buffer [GetRawMem] returns, four bytes to the pixel. *)
Module CBitmap.
Record t := mk { xsize : Z; ysize : Z; mem : Z -> Z }.
End CBitmap.

(** What the loading of the scar textures reads from outside: the bitmap
    loader ([None] when [CBitmap::Load] fails), [CBitmap::CreateRescaled],
    [FileSystem::GetExtension] and the [scars] table of
    gamedata/resources.lua. *)
Record Assets := mkAssets {
  Load : String.string -> option CBitmap.t;
  CreateRescaled : CBitmap.t -> Z -> Z -> CBitmap.t;
  GetExtension : String.string -> String.string;
  scarsTable_GetString : Z -> String.string -> String.string
}.

(** [buf[i] = v] *)
Definition store (buf : Z -> Z) (i v : Z) : Z -> Z :=
  fun k => if k =? i then u8 v else buf k.

(** [memcpy(&dst[d], &src[s], n)] *)
Definition memcpy (dst : Z -> Z) (d : Z) (src : Z -> Z) (s n : Z) : Z -> Z :=
  fun k => if (d <=? k) && (k <? d + n) then src (s + (k - d)) else dst k.

(** The bitmap the loops of [LoadScarTexture] read: the loaded one,
    rescaled unless it is 256 x 256 already. *)
Definition scarBitmap (a : Assets) (bm : CBitmap.t) : CBitmap.t :=
  if negb (CBitmap.ysize bm =? 256) || negb (CBitmap.xsize bm =? 256)
  then CreateRescaled a bm 256 256
  else bm.

Definition LoadScarTexture (a : Assets) (file : String.string) (buf : Z -> Z)
    (xoffset yoffset : Z) : Z -> Z :=
  match Load a file with
  | None => buf
  | Some bm =>
      let bm := scarBitmap a bm in
      let rmem := CBitmap.mem bm in
      if String.eqb (GetExtension a file) "bmp"
      then
        (* bitmaps don't have an alpha channel, use red=brightness and green=alpha *)
        fold_left
          (fun buf y =>
             fold_left
               (fun buf x =>
                  let memIndex := ((y *i CBitmap.xsize bm) +i x) *i 4 in
                  let bufIndex := ((((y +i yoffset) *i 512) +i x) +i xoffset) *i 4 in
                  let brightness := rmem (memIndex +i 0) in
                  let buf := store buf (bufIndex +i 0) ((brightness *i 90) /i 255) in
                  let buf := store buf (bufIndex +i 1) ((brightness *i 60) /i 255) in
                  let buf := store buf (bufIndex +i 2) ((brightness *i 30) /i 255) in
                  store buf (bufIndex +i 3) (rmem (memIndex +i 1)))
               (loop_range 0 (CBitmap.xsize bm - 1)) buf)
          (loop_range 0 (CBitmap.ysize bm - 1)) buf
      else
        (* we copy into an atlas, so we need to copy line by line *)
        fold_left
          (fun buf y =>
             let memIndex := (y *i CBitmap.xsize bm) *i 4 in
             let bufIndex := (((y +i yoffset) *i 512) +i xoffset) *i 4 in
             memcpy buf bufIndex rmem memIndex (CBitmap.xsize bm * 4))
          (loop_range 0 (CBitmap.ysize bm - 1)) buf
  end.

(** The file of the scar texture [i]. *)
Definition scarFile (a : Assets) (i : Z) (dflt : String.string) : String.string :=
  String.append "bitmaps/" (scarsTable_GetString a i dflt).

(** [LoadScarTextures], the filling of the atlas; the upload of the atlas
    as a texture is the renderer's. *)
Open Scope string_scope.
Definition LoadScarTextures (a : Assets) (buf : Z -> Z) : Z -> Z :=
  let buf := LoadScarTexture a (scarFile a 2 "scars/scar2.bmp") buf 0 0 in
  let buf := LoadScarTexture a (scarFile a 3 "scars/scar3.bmp") buf 256 0 in
  let buf := LoadScarTexture a (scarFile a 1 "scars/scar1.bmp") buf 0 256 in
  LoadScarTexture a (scarFile a 4 "scars/scar4.bmp") buf 256 256.
Close Scope string_scope.

(** The byte of channel [c] of the atlas pixel [(x, y)]. *)
Definition atlasIndex (x y c : Z) : Z := (y * 512 + x) * 4 + c.

(** The bytes of the atlas quadrant whose corner is [(xoffset, yoffset)]. *)
Definition inQuadrant (xoffset yoffset k : Z) : Prop :=
  exists x y c, 0 <= x < 256 /\ 0 <= y < 256 /\ 0 <= c < 4 /\
                k = atlasIndex (x + xoffset) (y + yoffset) c.

(* ------------------------------------------------------------------ *)
(** ** Object decals *)

(** Modelled from the spec: the facing of an object is declared outside
    the sources; the spec has it as "orientation/facing (4-way)". *)
Inductive Facing := FACING_SOUTH | FACING_EAST | FACING_NORTH | FACING_WEST.

(** Modelled from the spec: [SColor] and the vertex type [VA_TYPE_TC] of
    [CVertexArray] come from the renderer's headers, not among the sources;
    the spec has the geometry of a decal as cached textured quads whose
    vertex height and alpha are refreshed in place.  A colour is kept as the
    four values its constructor is given. *)
Record SColor := mkSColor { colorR : Z; colorG : Z; colorB : Z; colorA : Z }.

Record VA_TYPE_TC := mkVertexTC {
  vpos : float3;
  vs : F32.t;
  vt : F32.t;
  vc : SColor
}.

(** Modelled from the spec: [SolidObjectGroundDecal] is declared in the
    handler's header, not among the sources.  The spec gives it a world
    position, a footprint size, a 4-way facing, an opacity and its decay
    rate, cached geometry, and the back-references to the owning object and
    the owning ghost; the fields are named as the source uses them.  Objects
    and ghosts are known by a number, [None] is the null pointer, [va] holds
    the vertices of the decal's vertex array. *)
Module Decal.

Record t := mk {
  owner : option Z;
  gbOwner : option Z;
  alpha : F32.t;
  alphaFalloff : F32.t;
  pos : float3;
  radius : F32.t;
  facing : Facing;
  xsize : Z;
  ysize : Z;
  posx : Z;
  posy : Z;
  va : list VA_TYPE_TC
}.

Definition set_owner (d : t) (v : option Z) : t :=
  mk v (gbOwner d) (alpha d) (alphaFalloff d) (pos d) (radius d) (facing d)
     (xsize d) (ysize d) (posx d) (posy d) (va d).

Definition set_gbOwner (d : t) (v : option Z) : t :=
  mk (owner d) v (alpha d) (alphaFalloff d) (pos d) (radius d) (facing d)
     (xsize d) (ysize d) (posx d) (posy d) (va d).

Definition set_alpha (d : t) (v : F32.t) : t :=
  mk (owner d) (gbOwner d) v (alphaFalloff d) (pos d) (radius d) (facing d)
     (xsize d) (ysize d) (posx d) (posy d) (va d).

Definition set_va (d : t) (v : list VA_TYPE_TC) : t :=
  mk (owner d) (gbOwner d) (alpha d) (alphaFalloff d) (pos d) (radius d) (facing d)
     (xsize d) (ysize d) (posx d) (posy d) v.

End Decal.

(** *** The decal pool

    Modelled from the spec: [sogdMemPool] is a [FixedDynMemPool], from
    System/MemPoolTypes.h, not among the sources; the spec has it as
    "allocate() -> handle | Exhausted; free(handle)".  The pool is the list of
    the blocks handed out, each with the decal it holds; a pointer to a decal
    is the number of its block. *)
Definition Pool := list (Z * Decal.t).

Fixpoint pool_get (m : Pool) (p : Z) : option Decal.t :=
  match m with
  | [] => None
  | (k, d) :: r => if k =? p then Some d else pool_get r p
  end.

(** A write through the pointer [p]; writing through a pointer to a block
    that was freed is undefined in C++, here nothing is written. *)
Definition pool_upd (m : Pool) (p : Z) (f : Decal.t -> Decal.t) : Pool :=
  map (fun kd => if fst kd =? p then (fst kd, f (snd kd)) else kd) m.

Definition pool_free (m : Pool) (p : Z) : Pool :=
  filter (fun kd => negb (fst kd =? p)) m.

Definition pool_handles (m : Pool) : list Z := map fst m.

(** *** The simulation around the decals

    What the handler reads of objects, units, features, ghosts, decal
    definitions and globals; all of it is declared outside the sources and
    taken as given.  Objects, ghosts and definitions are known by a number.
    [poolAlloc] is the pool's allocator: from the blocks handed out so far,
    the next block, or [None] when the pool is exhausted. *)
Record Sim := mkSim {
  GetDef : Z -> Z;                      (* object->GetDef(), the number of its definition *)
  objPos : Z -> float3;                 (* object->pos *)
  buildFacing : Z -> Facing;            (* object->buildFacing *)
  GetBlockingMapID : Z -> Z;
  MaxUnits : Z;                         (* unitHandler.MaxUnits() *)
  inCurLOS : Z -> bool;                 (* (losStatus[gu->myAllyTeam] & LOS_INLOS) != 0 *)
  inPrvLOS : Z -> bool;                 (* (losStatus[gu->myAllyTeam] & LOS_PREVLOS) != 0 *)
  GetIsIcon : Z -> bool;
  buildProgress : Z -> F32.t;
  IsInLosForAllyTeam : Z -> bool;       (* of a feature, for gu->myAllyTeam *)
  drawAlpha : Z -> F32.t;               (* of a feature *)
  lastDrawFrame : Z -> Z;               (* of a ghost *)
  spectatingFullView : bool;            (* gu->spectatingFullView *)
  ghostedBuildings : bool;              (* gameSetup->ghostedBuildings *)
  lastFrameTime : F32.t;                (* globalRendering->lastFrameTime *)
  speedFactor : F32.t;                  (* gs->speedFactor *)
  useGroundDecal : Z -> bool;           (* of a decal definition, as the next four *)
  groundDecalTypeName : Z -> String.string;
  groundDecalSizeX : Z -> Z;
  groundDecalSizeY : Z -> Z;
  groundDecalDecaySpeed : Z -> F32.t;
  poolAlloc : list Z -> option Z;       (* sogdMemPool.alloc *)
  cornerHeightMap : Z -> F32.t;         (* readMap->GetCornerHeightMapUnsynced() *)
  mapxp1 : Z;                           (* mapDims.mapxp1 *)
  haveGLSL : bool                       (* globalRendering->haveGLSL *)
}.

(** *** The handler and what it writes outside itself

    [handler] is the scar table and the decal types; [sogdMemPool] the decal
    pool; [groundDecal], [ghostDecal] and [groundDecalType] are the fields of
    objects, ghosts and decal definitions the handler writes; [shaderLoaded]
    tells whether [decalShaders[DECAL_SHADER_CURR]] is set. *)
Record World := mkWorld {
  handler : State;
  sogdMemPool : Pool;
  groundDecal : Z -> option Z;          (* object->groundDecal *)
  ghostDecal : Z -> option Z;           (* gb->decal *)
  groundDecalType : Z -> Z;             (* decalDef.groundDecalType *)
  decalsToDraw : list Z;
  scarTexBuf : Z -> Z;
  shaderLoaded : bool
}.

Definition set_handler (w : World) (v : State) : World :=
  mkWorld v (sogdMemPool w) (groundDecal w) (ghostDecal w) (groundDecalType w)
    (decalsToDraw w) (scarTexBuf w) (shaderLoaded w).

Definition set_sogdMemPool (w : World) (v : Pool) : World :=
  mkWorld (handler w) v (groundDecal w) (ghostDecal w) (groundDecalType w)
    (decalsToDraw w) (scarTexBuf w) (shaderLoaded w).

Definition set_groundDecal (w : World) (object : Z) (v : option Z) : World :=
  mkWorld (handler w) (sogdMemPool w)
    (fun o => if o =? object then v else groundDecal w o)
    (ghostDecal w) (groundDecalType w) (decalsToDraw w) (scarTexBuf w) (shaderLoaded w).

Definition set_ghostDecal (w : World) (gb : Z) (v : option Z) : World :=
  mkWorld (handler w) (sogdMemPool w) (groundDecal w)
    (fun g => if g =? gb then v else ghostDecal w g)
    (groundDecalType w) (decalsToDraw w) (scarTexBuf w) (shaderLoaded w).

Definition set_groundDecalType (w : World) (def : Z) (v : Z) : World :=
  mkWorld (handler w) (sogdMemPool w) (groundDecal w) (ghostDecal w)
    (fun d => if d =? def then v else groundDecalType w d)
    (decalsToDraw w) (scarTexBuf w) (shaderLoaded w).

Definition set_decalsToDraw (w : World) (v : list Z) : World :=
  mkWorld (handler w) (sogdMemPool w) (groundDecal w) (ghostDecal w) (groundDecalType w)
    v (scarTexBuf w) (shaderLoaded w).

(** [decal->field = ...] through the pointer [p] *)
Definition updDecal (w : World) (p : Z) (f : Decal.t -> Decal.t) : World :=
  set_sogdMemPool w (pool_upd (sogdMemPool w) p f).

(** [objectDecalTypes[k].objectDecals], empty outside the vector. *)
Definition typeDecals (st : State) (k : nat) : list Z :=
  match nth_error (objectDecalTypes st) k with
  | Some dt => objectDecals dt
  | None => []
  end.

Definition set_typeDecals (st : State) (k : nat) (v : list Z) : State :=
  set_objectDecalTypes st
    (list_update (objectDecalTypes st) k (fun dt => mkDecalType (name dt) (texture dt) v)).

(** [objectDecalTypes[k].objectDecals.push_back(decal)]; an index outside
    the vector is undefined in C++, here nothing is written. *)
Definition pushDecal (st : State) (k : Z) (decal : Z) : State :=
  if k <? 0 then st
  else set_typeDecals st (Z.to_nat k) (typeDecals st (Z.to_nat k) ++ [decal]).

(** *** Objects get, move and lose their decal *)

Definition MoveSolidObject (s : Sim) (e : Engine) (w : World) (object : Z) (pos : float3)
    : World :=
  if negb (GetDrawDecals (handler w)) then w
  else
    let def := GetDef s object in
    if negb (useGroundDecal s def) || (groundDecalType w def <? -1) then w
    else
      let '(w, stop) :=
        if groundDecalType w def <? 0
        then
          let '(h, k) := GetSolidObjectDecalType e (handler w) (groundDecalTypeName s def) in
          let w := set_groundDecalType (set_handler w h) def k in
          (w, groundDecalType w def <? -1)
        else (w, false) in
      if stop then w
      else
        let w :=
          match groundDecal w object with
          | Some oldDecal =>
              updDecal w oldDecal
                (fun d => Decal.set_gbOwner (Decal.set_owner d None) None)
          | None => w
          end in
        let sizex := groundDecalSizeX s def in
        let sizey := groundDecalSizeY s def in
        match poolAlloc s (pool_handles (sogdMemPool w)) with
        | None => w
        | Some decal =>
            let facing := buildFacing s object in
            (* convert to heightmap coors *)
            let xsize := int_shl sizex 1 in
            let ysize := int_shl sizey 1 in
            (* swap xsize and ysize if object faces East or West *)
            let '(xsize, ysize) :=
              match facing with
              | FACING_EAST | FACING_WEST => (ysize, xsize)
              | _ => (xsize, ysize)
              end in
            let d :=
              Decal.mk (Some object) None F32.zero (groundDecalDecaySpeed s def) pos
                (F32.add
                   (F32.mul
                      (F32.sqrt (F32.of_int ((sizex *i sizex) +i (sizey *i sizey))))
                      (F32.of_int (SQUARE_SIZE e)))
                   (F32.of_int 20))
                facing xsize ysize
                (* position of top-left corner *)
                (F32.to_int (F32.sub (F32.div (fx pos) (F32.of_int (SQUARE_SIZE e)))
                                     (F32.of_int (int_shr xsize 1))))
                (F32.to_int (F32.sub (F32.div (fz pos) (F32.of_int (SQUARE_SIZE e)))
                                     (F32.of_int (int_shr ysize 1))))
                [] in
            let w := set_sogdMemPool w (sogdMemPool w ++ [(decal, d)]) in
            let w := set_groundDecal w object (Some decal) in
            set_handler w (pushDecal (handler w) (groundDecalType w def) decal)
        end.

Definition AddSolidObject (s : Sim) (e : Engine) (w : World) (object : Z) : World :=
  MoveSolidObject s e w object (objPos s object).

Definition AddDecal (s : Sim) (e : Engine) (w : World) (unit : Z) (newPos : float3) : World :=
  if negb (GetDrawDecals (handler w)) then w
  else MoveSolidObject s e w unit newPos.

Definition RemoveSolidObject (w : World) (object : Z) (gb : option Z) : World :=
  match groundDecal w object with
  | None => w
  | Some decal =>
      let w := match gb with
               | Some g => set_ghostDecal w g (Some decal)
               | None => w
               end in
      let w := updDecal w decal (fun d => Decal.set_gbOwner (Decal.set_owner d None) gb) in
      set_groundDecal w object None
  end.

(** immediately remove an object's ground decal, if any (without fade out) *)
Definition ForceRemoveSolidObject (w : World) (object : Z) : World :=
  match groundDecal w object with
  | None => w
  | Some decal =>
      let w := updDecal w decal (fun d => Decal.set_alpha (Decal.set_owner d None) F32.zero) in
      set_groundDecal w object None
  end.

Definition GhostDestroyed (s : Sim) (e : Engine) (w : World) (gb : Z) : World :=
  match ghostDecal w gb with
  | None => w
  | Some decal =>
      let w := updDecal w decal (fun d => Decal.set_gbOwner d None) in
      (* If a ghost wasn't drawn, remove the decal *)
      if lastDrawFrame s gb <? drawFrame e -i 1
      then updDecal w decal (fun d => Decal.set_alpha d F32.zero)
      else w
  end.

(** *** The events

    The handler is an event client; the events it answers, with what each
    carries.  An explosion carries the [explosionScar] flag of its weapon
    ([None] without a weapon definition), its position, its default damage and
    the crater's area of effect. *)
Inductive Event :=
| UnitMoved (unit : Z)
| GhostDestroyedEv (gb : Z)
| GhostCreated (object gb : Z)
| FeatureMoved (feature : Z) (oldpos : float3)
| ExplosionOccurredEv (explosionScar : option bool) (pos : float3) (damage area : F32.t)
| RenderUnitCreated (unit : Z) (cloaked : Z)
| RenderUnitDestroyed (unit : Z)
| RenderFeatureCreated (feature : Z)
| RenderFeatureDestroyed (feature : Z)
| UnitLoaded (unit transport : Z)
| UnitUnloaded (unit transport : Z).

Definition ExplosionOccurred (e : Engine) (w : World) (explosionScar : option bool)
    (pos : float3) (damage area : F32.t) : World :=
  match explosionScar with
  | Some false => w
  | _ => set_handler w (AddExplosion e (handler w) pos damage area)
  end.

Definition handleEvent (s : Sim) (e : Engine) (w : World) (ev : Event) : World :=
  match ev with
  | UnitMoved unit => AddDecal s e w unit (objPos s unit)
  | GhostDestroyedEv gb => GhostDestroyed s e w gb
  | GhostCreated object gb => RemoveSolidObject w object (Some gb)
  | FeatureMoved feature _ => AddSolidObject s e w feature
  | ExplosionOccurredEv flag pos damage area => ExplosionOccurred e w flag pos damage area
  | RenderUnitCreated unit _ => AddSolidObject s e w unit
  | RenderUnitDestroyed unit => RemoveSolidObject w unit None
  | RenderFeatureCreated feature => AddSolidObject s e w feature
  | RenderFeatureDestroyed feature => RemoveSolidObject w feature None
  | UnitLoaded unit _ => ForceRemoveSolidObject w unit
  | UnitUnloaded unit _ => AddSolidObject s e w unit
  end.

(** *** Gathering the decals of a type

    The loop of [GatherDecalsForType] works on the pool, on the vector
    [objectDecals] of the type and on [decalsToDraw]. *)
Record Gather := mkGather {
  gPool : Pool;
  gDecals : list Z;
  gToDraw : list Z
}.

(** [v[i] = v.back(); v.pop_back()] *)
Definition eraseAt (v : list Z) (i : nat) : list Z :=
  removelast (list_update v i (fun _ => last v 0)).

(** The end of a round: the camera test and the entry into
    [decalsToDraw]. *)
Definition gatherDraw (e : Engine) (g : Gather) (p : Z) (d : Decal.t) : Gather :=
  if negb (InView e (Decal.pos d) (Decal.radius d)) then g
  else mkGather (gPool g) (gDecals g) (gToDraw g ++ [p]).

(** One round of the loop at index [i]: the state after it and the next
    index.  A decal of the vector that the pool does not hold would be a
    dangling pointer; the round then only steps on. *)
Definition gatherRound (s : Sim) (e : Engine) (g : Gather) (i : nat) : Gather * nat :=
  let p := nth i (gDecals g) 0 in
  match pool_get (gPool g) p with
  | None => (g, S i)
  | Some decal =>
      match Decal.owner decal with
      | None =>
          let faded :=
            match Decal.gbOwner decal with
            | None =>
                Some (Decal.set_alpha decal
                        (F32.sub (Decal.alpha decal)
                           (F32.mul
                              (F32.mul
                                 (F32.mul (Decal.alphaFalloff decal) (lastFrameTime s))
                                 F32lit.lit_0_001)
                              (speedFactor s))))
            | Some gb =>
                if lastDrawFrame s gb <? drawFrame e -i 1 then None else Some decal
            end in
          match faded with
          | None => (g, S i)
          | Some decal =>
              let g := mkGather (pool_upd (gPool g) p (fun _ => decal)) (gDecals g)
                         (gToDraw g) in
              if F32.ltb (Decal.alpha decal) F32.zero
              then
                (* the owner is null here, RemoveSolidObject has nothing to be kept from *)
                (mkGather (pool_free (gPool g) p) (eraseAt (gDecals g) i) (gToDraw g), i)
              else (gatherDraw e g p decal, S i)
          end
      | Some decalOwner =>
          let shown :=
            if GetBlockingMapID s decalOwner <? MaxUnits s
            then
              if GetIsIcon s decalOwner then None
              else if negb (spectatingFullView s) && negb (inCurLOS s decalOwner)
                      && (negb (ghostedBuildings s) || negb (inPrvLOS s decalOwner))
              then None
              else Some (F32.max F32.zero (buildProgress s decalOwner))
            else
              if negb (IsInLosForAllyTeam s decalOwner) then None
              else if F32.ltb (drawAlpha s decalOwner) F32lit.lit_0_01 then None
              else Some (drawAlpha s decalOwner) in
          match shown with
          | None => (g, S i)
          | Some a =>
              let decal := Decal.set_alpha decal a in
              let g := mkGather (pool_upd (gPool g) p (fun _ => decal)) (gDecals g)
                         (gToDraw g) in
              (gatherDraw e g p decal, S i)
          end
      end
  end.

(** [for (size_t i = 0; i < objectDecals.size(); )] from index [i] on;
    [None] when [fuel] rounds did not reach the end. *)
Fixpoint gatherLoop (fuel : nat) (s : Sim) (e : Engine) (g : Gather) (i : nat)
    : option Gather :=
  match fuel with
  | O => None
  | S fuel' =>
      if (i <? List.length (gDecals g))%nat
      then let '(g', i') := gatherRound s e g i in gatherLoop fuel' s e g' i'
      else Some g
  end.

Definition GatherDecalsForType (fuel : nat) (s : Sim) (e : Engine) (pool : Pool)
    (objectDecals : list Z) : option Gather :=
  gatherLoop fuel s e (mkGather pool objectDecals []) 0%nat.

(** *** The quads of an object decal *)

(** [HEIGHT(z, x)], the corner height map at [(x, z)], and the index it
    reads the map at. *)
Definition heightIndex (s : Sim) (z x : Z) : Z := (z *i mapxp1 s) +i x.

Definition HEIGHT (s : Sim) (z x : Z) : F32.t := cornerHeightMap s (heightIndex s z x).

(** [AddQuadVertices]: the four vertices of the quad at [(x, z)], with
    [HEIGHT2WORLD(x) ((x) << 3)]. *)
Definition AddQuadVertices (x : Z) (yv : list F32.t) (z : Z) (uv : list F32.t)
    (color : SColor) : list VA_TYPE_TC :=
  let HEIGHT2WORLD v := F32.of_int (int_shl v 3) in
  let Y k := nth k yv F32.zero in
  let UV k := nth k uv F32.zero in
  [ mkVertexTC (mkFloat3 (HEIGHT2WORLD x) (Y 0%nat) (HEIGHT2WORLD z))
      (UV 0%nat) (UV 1%nat) color;
    mkVertexTC (mkFloat3 (HEIGHT2WORLD (x +i 1)) (Y 1%nat) (HEIGHT2WORLD z))
      (UV 2%nat) (UV 3%nat) color;
    mkVertexTC (mkFloat3 (HEIGHT2WORLD (x +i 1)) (Y 2%nat) (HEIGHT2WORLD (z +i 1)))
      (UV 4%nat) (UV 5%nat) color;
    mkVertexTC (mkFloat3 (HEIGHT2WORLD x) (Y 3%nat) (HEIGHT2WORLD (z +i 1)))
      (UV 6%nat) (UV 7%nat) color ].

(** The clipped extent of a decal along one axis: the offset from the map
    edge and the clipped size, from the size, the position of the corner
    and the size of the map. *)
Definition clipAxis (dsize dpos gsm : Z) : Z * Z :=
  let doff := if dpos <? 0 then int_neg dpos else 0 in
  let csize := dsize -i doff in
  let csize := if (dpos +i dsize) >? gsm then csize -i ((dpos +i dsize) -i gsm) else csize in
  (doff, csize).

(** The rounds [(vx, vz)] of the two loops of the first draw, in order. *)
Definition decalQuads (e : Engine) (d : Decal.t) : list (Z * Z) :=
  let cxsize := snd (clipAxis (Decal.xsize d) (Decal.posx d) (mapx (mapDims e))) in
  let czsize := snd (clipAxis (Decal.ysize d) (Decal.posy d) (mapy (mapDims e))) in
  list_prod (loop_range 0 (cxsize - 1)) (loop_range 0 (czsize - 1)).

(** The texture coordinates of the quad [(rx, rz)] of a decal. *)
Definition decalUV (d : Decal.t) (rx rz : Z) : list F32.t :=
  let dxsize := Decal.xsize d in
  let dzsize := Decal.ysize d in
  let xts := F32.div (F32.of_int 1) (F32.of_int dxsize) in
  let zts := F32.div (F32.of_int 1) (F32.of_int dzsize) in
  let fX v := F32.mul (F32.of_int v) xts in
  let fZ v := F32.mul (F32.of_int v) zts in
  let one := F32.of_int 1 in
  match Decal.facing d with
  | FACING_SOUTH =>
      [ fX rx; fZ rz;
        fX (rx +i 1); fZ rz;
        fX (rx +i 1); fZ (rz +i 1);
        fX rx; fZ (rz +i 1) ]
  | FACING_NORTH =>
      [ fX (dxsize -i rx); fZ (dzsize -i rz);
        fX ((dxsize -i rx) -i 1); fZ (dzsize -i rz);
        fX ((dxsize -i rx) -i 1); fZ ((dzsize -i rz) -i 1);
        fX (dxsize -i rx); fZ ((dzsize -i rz) -i 1) ]
  | FACING_EAST =>
      [ F32.sub one (fZ rz); fX rx;
        F32.sub one (fZ rz); fX (rx +i 1);
        F32.sub one (fZ (rz +i 1)); fX (rx +i 1);
        F32.sub one (fZ (rz +i 1)); fX rx ]
  | FACING_WEST =>
      [ fZ rz; F32.sub one (fX rx);
        fZ rz; F32.sub one (fX (rx +i 1));
        fZ (rz +i 1); F32.sub one (fX (rx +i 1));
        fZ (rz +i 1); F32.sub one (fX rx) ]
  end.

(** The heightmap coordinates [(px, pz)] of the round [(vx, vz)]. *)
Definition quadCorner (e : Engine) (d : Decal.t) (v : Z * Z) : Z * Z :=
  let dxoff := fst (clipAxis (Decal.xsize d) (Decal.posx d) (mapx (mapDims e))) in
  let dzoff := fst (clipAxis (Decal.ysize d) (Decal.posy d) (mapy (mapDims e))) in
  (Decal.posx d +i (dxoff +i fst v), Decal.posy d +i (dzoff +i snd v)).

(** The body of the two loops of the first draw, at the round [v]. *)
Definition decalQuad (s : Sim) (e : Engine) (decal : Decal.t) (color : SColor) (v : Z * Z)
    : list VA_TYPE_TC :=
  let dxoff := fst (clipAxis (Decal.xsize decal) (Decal.posx decal) (mapx (mapDims e))) in
  let dzoff := fst (clipAxis (Decal.ysize decal) (Decal.posy decal) (mapy (mapDims e))) in
  let rx := dxoff +i fst v in   (* x-coor in decal-space *)
  let rz := dzoff +i snd v in   (* z-coor in decal-space *)
  let px := Decal.posx decal +i rx in   (* x-coor in heightmap-space *)
  let pz := Decal.posy decal +i rz in   (* z-coor in heightmap-space *)
  let yv := [ HEIGHT s pz px; HEIGHT s pz (px +i 1);
              HEIGHT s (pz +i 1) (px +i 1); HEIGHT s (pz +i 1) px ] in
  AddQuadVertices px yv pz (decalUV decal rx rz) color.

Definition DrawObjectDecal (s : Sim) (e : Engine) (decal : Decal.t) : Decal.t :=
  let color := mkSColor 255 255 255
                 (F32.to_int (F32.mul (Decal.alpha decal) (F32.of_int 255))) in
  match Decal.va decal with
  | [] =>
      (* NOTE: this really needs CLOD'ing *)
      Decal.set_va decal (flat_map (decalQuad s e decal color) (decalQuads e decal))
  | _ :: _ =>
      Decal.set_va decal
        (map
           (fun m =>
              let x := int_shr (F32.to_int (fx (vpos m))) 3 in
              let z := int_shr (F32.to_int (fz (vpos m))) 3 in
              (* update the height and alpha *)
              mkVertexTC
                (mkFloat3 (fx (vpos m)) (cornerHeightMap s ((z *i mapxp1 s) +i x)) (fz (vpos m)))
                (vs m) (vt m) color)
           (Decal.va decal))
  end.

(** *** Drawing the object decals *)

(** A computation that may run out of fuel. *)
Definition bind {A B : Type} (m : option A) (f : A -> option B) : option B :=
  match m with
  | Some a => f a
  | None => None
  end.

(** The body of the loop of [DrawObjectDecals] for the type at index [k]. *)
Definition drawType (s : Sim) (e : Engine) (w : World) (k : nat) : option World :=
  let decals := typeDecals (handler w) k in
  match decals with
  | [] => Some w
  | _ :: _ =>
      bind (GatherDecalsForType (S (List.length decals)) s e (sogdMemPool w) decals)
        (fun g =>
           let w := set_handler w (set_typeDecals (handler w) k (gDecals g)) in
           let w := set_decalsToDraw (set_sogdMemPool w (gPool g)) (gToDraw g) in
           Some (fold_left (fun w p => updDecal w p (DrawObjectDecal s e)) (gToDraw g) w))
  end.

Definition DrawObjectDecals (s : Sim) (e : Engine) (w : World) : option World :=
  fold_left (fun ow k => bind ow (fun w => drawType s e w k))
    (seq 0 (List.length (objectDecalTypes (handler w)))) (Some w).

(** [DrawDecals]: the building decals, then the explosion decals. *)
Definition DrawDecals (s : Sim) (e : Engine) (w : World) : option World :=
  bind (DrawObjectDecals s e w)
    (fun w =>
       let st := AddScars (handler w) in
       bind (DrawScars (S (List.length (usedScarIDs st))) e st)
         (fun st => Some (set_handler w st))).

Definition Draw (s : Sim) (e : Engine) (w : World) : option World :=
  if negb (GetDrawDecals (handler w)) then Some w
  else if negb (shaderLoaded w) then Some w
  else DrawDecals s e w.

(** *** The handler made and unmade *)

(** The constructor with all it sets up: the pool and the atlas besides
    the scar table.  [LoadDecalShaders] leaves
    [decalShaders[DECAL_SHADER_CURR]] set when GLSL is there. *)
Definition CGroundDecalHandler_new (s : Sim) (a : Assets) (e : Engine) (w : World) : World :=
  let w := set_decalsToDraw w [] in
  let w := mkWorld (handler w) (sogdMemPool w) (groundDecal w) (ghostDecal w)
             (groundDecalType w) (decalsToDraw w) (scarTexBuf w) false in
  if negb (GetDrawDecals (handler w))
  then set_handler w (CGroundDecalHandler e (handler w))
  else
    mkWorld (CGroundDecalHandler e (handler w)) [] (groundDecal w) (ghostDecal w)
      (groundDecalType w) (decalsToDraw w)
      (LoadScarTextures a (fun _ => 0)) (haveGLSL s).

(** One round of the inner loop of the destructor. *)
Definition releaseDecal (w : World) (dc : Z) : World :=
  match pool_get (sogdMemPool w) dc with
  | None => w
  | Some d =>
      let w := match Decal.owner d with
               | Some o => set_groundDecal w o None
               | None => w
               end in
      let w := match Decal.gbOwner d with
               | Some g => set_ghostDecal w g None
               | None => w
               end in
      set_sogdMemPool w (pool_free (sogdMemPool w) dc)
  end.

Definition CGroundDecalHandler_delete (w : World) : World :=
  fold_left
    (fun w dctype => fold_left releaseDecal (objectDecals dctype) w)
    (objectDecalTypes (handler w)) w.

(** A bitmap that loads comes out of [scarBitmap] with the size asked
    for. *)
Definition scarTextureFits (a : Assets) (file : String.string) : Prop :=
  match Load a file with
  | None => True
  | Some bm =>
      CBitmap.xsize (scarBitmap a bm) = 256 /\ CBitmap.ysize (scarBitmap a bm) = 256
  end.

(* ------------------------------------------------------------------ *)
(** ** Invariants of the decals *)

(** Two records of a decal that differ at most in the opacity and the
    cached vertices. *)
Definition same_decal (d d' : Decal.t) : Prop :=
  Decal.owner d' = Decal.owner d /\
  Decal.gbOwner d' = Decal.gbOwner d /\
  Decal.alphaFalloff d' = Decal.alphaFalloff d /\
  Decal.pos d' = Decal.pos d /\
  Decal.radius d' = Decal.radius d /\
  Decal.facing d' = Decal.facing d /\
  Decal.xsize d' = Decal.xsize d /\
  Decal.ysize d' = Decal.ysize d /\
  Decal.posx d' = Decal.posx d /\
  Decal.posy d' = Decal.posy d.

(** No decal of the pool has an opacity below zero. *)
Definition alpha_nonneg (m : Pool) : Prop :=
  forall p d, pool_get m p = Some d -> F32.ltb (Decal.alpha d) F32.zero = false.

(** The decal an object points to is in the pool and has the object as
    its owner. *)
Definition owners_linked (w : World) : Prop :=
  forall o p, groundDecal w o = Some p ->
    exists d, pool_get (sogdMemPool w) p = Some d /\ Decal.owner d = Some o.

(** The allocator hands out a block that is not in use. *)
Definition alloc_fresh (s : Sim) : Prop :=
  forall hs p, poolAlloc s hs = Some p -> ~ In p hs.

(** The bookkeeping of the object decals: objects point at decals they
    own, no opacity is negative, the type cached in a decal definition is
    an index into [objectDecalTypes] when it is not negative, and the
    decals of the pool are those of the vectors of the types, each in one
    vector and once. *)
Record decals_ok (w : World) : Prop := mk_decals_ok {
  dk_owner : owners_linked w;
  dk_alpha : alpha_nonneg (sogdMemPool w);
  dk_types : forall def,
    groundDecalType w def < Z.of_nat (List.length (objectDecalTypes (handler w)));
  dk_listed : forall p, In p (pool_handles (sogdMemPool w)) ->
                        exists k, In p (typeDecals (handler w) k);
  dk_alloc : forall k p, In p (typeDecals (handler w) k) ->
                         In p (pool_handles (sogdMemPool w));
  dk_nodup : forall k, NoDup (typeDecals (handler w) k);
  dk_apart : forall k k' p, In p (typeDecals (handler w) k) ->
                            In p (typeDecals (handler w) k') -> k = k'
}.

(** What the loop of [GatherDecalsForType] has made, at index [i], of the
    pool [pool0] and the vector [decals0] it started from: the decals still
    in the vector are as they were but for the opacity, those taken out
    are freed and had neither owner nor ghost, the rest of the pool is
    untouched, and the decals to draw are among those before [i]. *)
Record gathered (pool0 : Pool) (decals0 : list Z) (i : nat) (g : Gather) : Prop :=
  mk_gathered {
  ga_nodup : NoDup (gDecals g);
  ga_sub : forall p, In p (gDecals g) -> In p decals0;
  ga_frame : forall q, ~ In q decals0 -> pool_get (gPool g) q = pool_get pool0 q;
  ga_kept : forall p, In p (gDecals g) ->
    exists d d', pool_get pool0 p = Some d /\ pool_get (gPool g) p = Some d' /\
                 same_decal d d';
  ga_freed : forall p, In p decals0 -> ~ In p (gDecals g) ->
    pool_get (gPool g) p = None /\
    exists d, pool_get pool0 p = Some d /\ Decal.owner d = None /\ Decal.gbOwner d = None;
  ga_draw : forall p, In p (gToDraw g) -> In p (firstn i (gDecals g));
  ga_alpha : alpha_nonneg (gPool g)
}.

(** What drawing the object decals, or a whole frame, makes of the pool:
    a decal is kept as it was but for opacity and vertices, or it is freed
    and had neither owner nor ghost; no decal is new. *)
Definition decals_faded (m m' : Pool) : Prop :=
  (forall p d, pool_get m p = Some d ->
     (exists d', pool_get m' p = Some d' /\ same_decal d d') \/
     (pool_get m' p = None /\ Decal.owner d = None /\ Decal.gbOwner d = None)) /\
  (forall p, pool_get m p = None -> pool_get m' p = None).

(* ------------------------------------------------------------------ *)
(** ** Sample inputs of the object decals and the atlas

    The engine of the samples with a bitmap loader that finds every file;
    a simulation in which every object is of definition 0, faces south and
    asks for a 2 x 2 decal, with an allocator that hands out the least of
    64 blocks not in use; assets whose bitmaps are 256 x 256 and whose
    fourth scar texture is no bmp file. *)

Definition sampleEngineTex (frame : Z) : Engine :=
  mkEngine (mapDims (sampleEngine frame)) (SQUARE_SIZE (sampleEngine frame)) frame frame
    (GetHeightReal (sampleEngine frame)) (cClampInBounds (sampleEngine frame))
    (InView (sampleEngine frame)) (NextInt (sampleEngine frame))
    (GroundScarAlphaFade (sampleEngine frame))
    (fun _ => Some 7).

Definition sampleAlloc (hs : list Z) : option Z :=
  find (fun p => negb (existsb (Z.eqb p) hs)) (map Z.of_nat (seq 0 64)).

Definition sampleSim : Sim :=
  mkSim (fun _ => 0) (fun _ => groundPos 100 100) (fun _ => FACING_SOUTH) (fun o => o) 100
    (fun _ => true) (fun _ => true) (fun _ => false) (fun _ => F32.of_int 1)
    (fun _ => true) (fun _ => F32.of_int 1) (fun _ => 0)
    false true (F32.of_int 16) (F32.of_int 1)
    (fun _ => true) (fun _ => sampleName) (fun _ => 2) (fun _ => 2) (fun _ => F32.of_int 1)
    sampleAlloc (fun _ => F32.zero) 65 true.

Definition sampleBitmap : CBitmap.t := CBitmap.mk 256 256 (fun i => i mod 256).

Open Scope string_scope.
Definition sampleAssets : Assets :=
  mkAssets (fun _ => Some sampleBitmap)
    (fun bm x y => CBitmap.mk x y (CBitmap.mem bm))
    (fun f => String.substring (String.length f - 3) 3 f)
    (fun i dflt => if i =? 4 then "scars/scar4.tga" else dflt).

Definition sampleBmpFile : String.string := scarFile sampleAssets 2 "scars/scar2.bmp".
Definition sampleTgaFile : String.string := scarFile sampleAssets 4 "scars/scar4.bmp".
Close Scope string_scope.

(** The handler of the samples with no object decal yet, and after object
    5 got its decal. *)
Definition sampleWorld0 : World :=
  mkWorld startState [] (fun _ => None) (fun _ => None) (fun _ => -1) [] (fun _ => 0) true.

Definition sampleWorld1 : World :=
  MoveSolidObject sampleSim (sampleEngineTex 0) sampleWorld0 5 (groundPos 100 100).

(** A handler that does not draw decals. *)
Definition sampleWorldOff : World :=
  mkWorld (blankState 0) [] (fun _ => None) (fun _ => None) (fun _ => -1) [] (fun _ => 0) false.

(** What the constructor of the samples starts from. *)
Definition sampleWorldBlank : World :=
  mkWorld (blankState 3) [] (fun _ => None) (fun _ => None) (fun _ => -1) [] (fun _ => 0) false.

(** A 4 x 4 decal that sticks out of the map at its top-left corner. *)
Definition sampleDecal : Decal.t :=
  Decal.mk (Some 5) None F32.zero (F32.of_int 1) (groundPos 8 8) (F32.of_int 40)
    FACING_SOUTH 4 4 (-1) (-1) [].

(* ================================================================== *)
(** * Part II: properties                                              *)
(* ================================================================== *)

(** The side conditions of [wrap_small]. *)
Ltac fits_int := unfold INT_MIN, INT_MAX in *; lia.

(** A closed fact about a sample run, settled by running the program. *)
Ltac by_running := vm_compute; first [reflexivity | left; reflexivity | tauto].

Ltac run := vm_compute; first [reflexivity | intros H; discriminate H | intros []].

(** The conversions of the scar an explosion of a sample run queues were
    in range. *)
Ltac queued_in_range :=
  let id := fresh "id" in
  let H := fresh "H" in
  intros id H; vm_compute in H; destruct H as [<- | []];
  vm_compute; split; intros H; discriminate H.

(** ** Machine integers *)

Lemma wrap_small z : INT_MIN <= z <= INT_MAX -> wrap z = z.
Proof.
  unfold wrap, INT_MIN, INT_MAX. intros H.
  rewrite Z.mod_small by lia. lia.
Qed.

Lemma wrap_range z : INT_MIN <= wrap z <= INT_MAX.
Proof.
  unfold wrap, INT_MIN, INT_MAX.
  pose proof (Z.mod_pos_bound (z - -2147483648) 4294967296). lia.
Qed.

Lemma int_div_16_nonneg a : 0 <= a <= INT_MAX -> 0 <= a /i TEX_QUAD_SIZE <= a.
Proof.
  unfold int_div, TEX_QUAD_SIZE, INT_MAX. intros H.
  assert (Hq : 0 <= a ÷ 16 <= a).
  { rewrite Z.quot_div_nonneg by lia. split.
    - apply Z.div_pos; lia.
    - apply Z.div_le_upper_bound; lia. }
  rewrite wrap_small; unfold INT_MIN, INT_MAX; lia.
Qed.

(** ** Overlap size: what [ScarOverlapSize] computes *)

(** Rectangles that do not overlap in one direction give 0. *)
Lemma ScarOverlapSize_apart s1 s2 :
  Scar.x2 s1 <= Scar.x1 s2 \/ Scar.x2 s2 <= Scar.x1 s1 \/
  Scar.y2 s1 <= Scar.y1 s2 \/ Scar.y2 s2 <= Scar.y1 s1 ->
  ScarOverlapSize s1 s2 = 0.
Proof.
  intros H. unfold ScarOverlapSize.
  destruct (Scar.x1 s1 >=? Scar.x2 s2) eqn:E1; simpl; [reflexivity|].
  destruct (Scar.x2 s1 <=? Scar.x1 s2) eqn:E2; simpl; [reflexivity|].
  destruct (Scar.y1 s1 >=? Scar.y2 s2) eqn:E3; simpl; [reflexivity|].
  destruct (Scar.y2 s1 <=? Scar.y1 s2) eqn:E4; simpl; [reflexivity|].
  lia.
Qed.

(** When neither rectangle reaches past the other on the side it starts
    from (the "staggered" position, in both directions), the result is the
    area of the intersection. *)
Lemma ScarOverlapSize_staggered s1 s2 :
  0 <= Scar.x1 s1 -> 0 <= Scar.x1 s2 -> 0 <= Scar.y1 s1 -> 0 <= Scar.y1 s2 ->
  Scar.x2 s1 < 32768 -> Scar.x2 s2 < 32768 -> Scar.y2 s1 < 32768 -> Scar.y2 s2 < 32768 ->
  (if Scar.x1 s1 <? Scar.x1 s2 then Scar.x2 s1 <= Scar.x2 s2 else Scar.x2 s2 <= Scar.x2 s1) ->
  (if Scar.y1 s1 <? Scar.y1 s2 then Scar.y2 s1 <= Scar.y2 s2 else Scar.y2 s2 <= Scar.y2 s1) ->
  ScarOverlapSize s1 s2 = rectIntersectionArea s1 s2.
Proof.
  intros Hx1 Hx1' Hy1 Hy1' Hx2 Hx2' Hy2 Hy2' Hsx Hsy.
  unfold ScarOverlapSize, rectIntersectionArea.
  destruct (Scar.x1 s1 >=? Scar.x2 s2) eqn:E1; simpl.
  { rewrite (Z.max_l 0) by lia. reflexivity. }
  destruct (Scar.x2 s1 <=? Scar.x1 s2) eqn:E2; simpl.
  { rewrite (Z.max_l 0) by lia. reflexivity. }
  destruct (Scar.y1 s1 >=? Scar.y2 s2) eqn:E3; simpl.
  { rewrite (Z.max_l 0 (_ - Z.max (Scar.y1 s1) _)) by lia. lia. }
  destruct (Scar.y2 s1 <=? Scar.y1 s2) eqn:E4; simpl.
  { rewrite (Z.max_l 0 (_ - Z.max (Scar.y1 s1) _)) by lia. lia. }
  unfold int_mul, int_sub.
  destruct (Scar.x1 s1 <? Scar.x1 s2) eqn:Ex; destruct (Scar.y1 s1 <? Scar.y1 s2) eqn:Ey;
    rewrite !(wrap_small (_ - _)) by (unfold INT_MIN, INT_MAX; lia);
    rewrite wrap_small by (unfold INT_MIN, INT_MAX; nia);
    f_equal; lia.
Qed.

(** C4 (evidence).  A rectangle lying inside another: the intersection is
    the inner rectangle, 3 x 3 = 9 texels, and [ScarOverlapSize] returns
    8 x 8 = 64.  The width is taken as [s1.x2 - s2.x1] (or
    [s2.x2 - s1.x1]), which is the width of the intersection only in the
    staggered position; containment is the missed case. *)
Theorem ScarOverlapSize_nested_overcounts :
  rectWellFormed (rectScar 0 10 0 10) /\ rectWellFormed (rectScar 2 5 2 5) /\
  rectIntersectionArea (rectScar 0 10 0 10) (rectScar 2 5 2 5) = 9 /\
  ScarOverlapSize (rectScar 0 10 0 10) (rectScar 2 5 2 5) = 64.
Proof. unfold rectWellFormed. simpl. repeat split; try lia; reflexivity. Qed.

(** The same slip on an empty (zero-width) rectangle inside another: the
    intersection is empty and the result is not 0. *)
Lemma ScarOverlapSize_empty_rectangle_nonzero :
  rectWellFormed (rectScar 3 3 0 10) /\ rectWellFormed (rectScar 0 10 0 10) /\
  rectIntersectionArea (rectScar 3 3 0 10) (rectScar 0 10 0 10) = 0 /\
  ScarOverlapSize (rectScar 3 3 0 10) (rectScar 0 10 0 10) = 70.
Proof. unfold rectWellFormed. simpl. repeat split; try lia; reflexivity. Qed.

(** C5 (evidence).  Two rectangles with the same left edge: taken one way
    round the result is 50, the other way round 100. *)
Theorem ScarOverlapSize_not_symmetric :
  ScarOverlapSize (rectScar 0 10 0 10) (rectScar 0 5 0 10) = 50 /\
  ScarOverlapSize (rectScar 0 5 0 10) (rectScar 0 10 0 10) = 100.
Proof. split; reflexivity. Qed.

(** Away from equal left or top edges the two orders agree. *)
Lemma ScarOverlapSize_sym_distinct_edges s1 s2 :
  Scar.x1 s1 <> Scar.x1 s2 -> Scar.y1 s1 <> Scar.y1 s2 ->
  ScarOverlapSize s1 s2 = ScarOverlapSize s2 s1.
Proof.
  intros Hx Hy. unfold ScarOverlapSize.
  destruct (Scar.x1 s1 >=? Scar.x2 s2) eqn:E1; destruct (Scar.x2 s1 <=? Scar.x1 s2) eqn:E2;
  destruct (Scar.x1 s2 >=? Scar.x2 s1) eqn:E3; destruct (Scar.x2 s2 <=? Scar.x1 s1) eqn:E4;
    simpl; try reflexivity; try lia.
  destruct (Scar.y1 s1 >=? Scar.y2 s2) eqn:F1; destruct (Scar.y2 s1 <=? Scar.y1 s2) eqn:F2;
  destruct (Scar.y1 s2 >=? Scar.y2 s1) eqn:F3; destruct (Scar.y2 s2 <=? Scar.y1 s1) eqn:F4;
    simpl; try reflexivity; try lia.
  destruct (Scar.x1 s1 <? Scar.x1 s2) eqn:Ex; destruct (Scar.x1 s2 <? Scar.x1 s1) eqn:Ex';
    try lia;
  destruct (Scar.y1 s1 <? Scar.y1 s2) eqn:Ey; destruct (Scar.y1 s2 <? Scar.y1 s1) eqn:Ey';
    try lia; reflexivity.
Qed.

(** [ScarOverlapSize] reads nothing but the two rectangles. *)
Lemma ScarOverlapSize_rect s1 s2 s1' s2' :
  Scar.x1 s1' = Scar.x1 s1 -> Scar.x2 s1' = Scar.x2 s1 ->
  Scar.y1 s1' = Scar.y1 s1 -> Scar.y2 s1' = Scar.y2 s1 ->
  Scar.x1 s2' = Scar.x1 s2 -> Scar.x2 s2' = Scar.x2 s2 ->
  Scar.y1 s2' = Scar.y1 s2 -> Scar.y2 s2' = Scar.y2 s2 ->
  ScarOverlapSize s1' s2' = ScarOverlapSize s1 s2.
Proof.
  intros A1 A2 A3 A4 B1 B2 B3 B4. unfold ScarOverlapSize.
  rewrite A1, A2, A3, A4, B1, B2, B3, B4. reflexivity.
Qed.

(** ** Decal types: the value returned without a type *)

Lemma findDecalType_lower l nm k r :
  findDecalType l nm k = Some r -> k <= r < k + Z.of_nat (List.length l).
Proof.
  revert k. induction l as [|dt l IH]; simpl; intros k H; [discriminate|].
  destruct (String.eqb (name dt) nm).
  - inversion H; subst. lia.
  - apply IH in H. lia.
Qed.

(** C8 (counterexample).  With decals switched off the call returns -2;
    with decals on and the bitmap missing it returns -2 as well: the two
    results are not distinct. *)
Lemma GetSolidObjectDecalType_same_sentinel :
  GetDrawDecals (blankState 0) = false /\
  GetDrawDecals startState = true /\
  LoadBitmap (sampleEngine 0) (String.append "unittextures/" (StringToLower sampleName)) = None /\
  ~ (snd (GetSolidObjectDecalType (sampleEngine 0) startState sampleName)
     <> snd (GetSolidObjectDecalType (sampleEngine 0) (blankState 0) sampleName)).
Proof.
  repeat split; try reflexivity. intros H. apply H. reflexivity.
Qed.

(** C8 (amended).  The call returns -2, and leaves the state alone, both
    when decals are switched off and when they are on but the texture of a
    type not yet registered fails to load. *)
Theorem GetSolidObjectDecalType_no_type e st_off st_on nm :
  GetDrawDecals st_off = false ->
  GetDrawDecals st_on = true ->
  findDecalType (objectDecalTypes st_on) (StringToLower nm) 0 = None ->
  LoadBitmap e (String.append "unittextures/" (StringToLower nm)) = None ->
  GetSolidObjectDecalType e st_off nm = (st_off, -2) /\
  GetSolidObjectDecalType e st_on nm = (st_on, -2).
Proof.
  intros Hoff Hon Hfind Hload. unfold GetSolidObjectDecalType.
  rewrite Hoff, Hon, Hfind, Hload. simpl. split; reflexivity.
Qed.

Lemma GetSolidObjectDecalType_no_type_witness :
  GetSolidObjectDecalType (sampleEngine 0) (blankState 0) sampleName = (blankState 0, -2) /\
  GetSolidObjectDecalType (sampleEngine 0) startState sampleName = (startState, -2).
Proof.
  apply (GetSolidObjectDecalType_no_type (sampleEngine 0) (blankState 0) startState sampleName);
    reflexivity.
Defined.

(** Every other result is the index of the type in [objectDecalTypes]. *)
Lemma GetSolidObjectDecalType_index e st nm :
  Z.of_nat (List.length (objectDecalTypes st)) < INT_MAX ->
  snd (GetSolidObjectDecalType e st nm) = -2 \/
  0 <= snd (GetSolidObjectDecalType e st nm)
    < Z.of_nat (List.length (objectDecalTypes (fst (GetSolidObjectDecalType e st nm)))).
Proof.
  intros Hlen. unfold GetSolidObjectDecalType.
  destruct (GetDrawDecals st); simpl; [|left; reflexivity].
  destruct (findDecalType _ _ 0) eqn:Hf.
  - right. apply findDecalType_lower in Hf. simpl. lia.
  - destruct (LoadBitmap e _); simpl; [|left; reflexivity].
    right. rewrite length_app. simpl. unfold int_sub.
    rewrite wrap_small; fits_int.
Qed.

(** ** Explosions when the table is full *)

Lemma GetScarID_empty st : freeScarIDs st = [] -> GetScarID st = (-1, st).
Proof. intros H. unfold GetScarID. rewrite H. reflexivity. Qed.

(** C7.  With no free id left, [AddExplosion] returns the state it was
    given: no record of the scar table is written, no cell of the scar
    field changes, nothing is queued in [addedScars]. *)
Theorem AddExplosion_table_exhausted e st pos damage radius :
  freeScarIDs st = [] ->
  AddExplosion e st pos damage radius = st.
Proof.
  intros Hfree. unfold AddExplosion.
  rewrite (GetScarID_empty st Hfree). simpl.
  repeat match goal with
         | |- (if ?b then _ else _) = _ => destruct b; try reflexivity
         end.
Qed.

Lemma exhaustedState_no_free :
  freeScarIDs exhaustedState = [] /\ List.length (addedScars exhaustedState) = 4096%nat.
Proof. split; vm_compute; reflexivity. Qed.

(** C7 at work: after 4096 explosions in one frame every id is queued;
    one explosion more changes nothing. *)
Lemma AddExplosion_table_exhausted_witness :
  freeScarIDs exhaustedState = [] /\
  AddExplosion (sampleEngine 0) exhaustedState (groundPos 100 100)
    (F32.of_int 200) (F32.of_int 50) = exhaustedState.
Proof.
  split; [exact (proj1 exhaustedState_no_free)|].
  exact (AddExplosion_table_exhausted (sampleEngine 0) exhaustedState (groundPos 100 100)
           (F32.of_int 200) (F32.of_int 50) (proj1 exhaustedState_no_free)).
Defined.

(** ** Vectors *)

Lemma rotate_In (r : list Z) a x :
  In x (last (a :: r) 0 :: removelast (a :: r)) <-> In x (a :: r).
Proof.
  assert (Hne : a :: r <> []) by discriminate.
  pose proof (app_removelast_last 0 Hne) as E.
  split; intros H.
  - rewrite E. apply in_app_iff. destruct H as [H|H]; [right; left; exact H | left; exact H].
  - rewrite E in H. apply in_app_iff in H. destruct H as [H|[H|[]]]; [right | left]; assumption.
Qed.

Lemma rotate_NoDup (r : list Z) a :
  NoDup (a :: r) -> NoDup (last (a :: r) 0 :: removelast (a :: r)).
Proof.
  intros H.
  assert (Hne : a :: r <> []) by discriminate.
  pose proof (app_removelast_last 0 Hne) as E.
  rewrite E in H. apply NoDup_rev in H. rewrite rev_app_distr in H. simpl in H.
  inversion H as [|? ? Hn Hd]; subst. constructor.
  - intros Hin. apply Hn. apply in_rev in Hin. exact Hin.
  - apply NoDup_rev in Hd. rewrite rev_involutive in Hd. exact Hd.
Qed.

Lemma rotate_length (r : list Z) a :
  List.length (last (a :: r) 0 :: removelast (a :: r)) = List.length (a :: r).
Proof.
  assert (Hne : a :: r <> []) by discriminate.
  pose proof (app_removelast_last 0 Hne) as E.
  rewrite E at 3. rewrite length_app. simpl. lia.
Qed.

Lemma VectorErase_absent v e : ~ In e v -> VectorErase v e = v.
Proof.
  induction v as [|a r IH]; simpl; intros H; [reflexivity|].
  destruct (a =? e) eqn:E.
  - apply Z.eqb_eq in E. exfalso. apply H. left. exact E.
  - f_equal. apply IH. intros Hin. apply H. right. exact Hin.
Qed.

Lemma VectorErase_In_other v e x : x <> e -> (In x (VectorErase v e) <-> In x v).
Proof.
  intros Hx. induction v as [|a r IH]; simpl; [tauto|].
  destruct (a =? e) eqn:E.
  - apply Z.eqb_eq in E. subst a. destruct r as [|b r'].
    + simpl. split; [tauto | intros [H|[]]; congruence].
    + rewrite rotate_In. split; [intros H; right; exact H | intros [H|H]; [congruence | exact H]].
  - simpl. rewrite IH. tauto.
Qed.

Lemma VectorErase_In v e x : In x (VectorErase v e) -> In x v.
Proof.
  induction v as [|a r IH]; simpl; [tauto|].
  destruct (a =? e) eqn:E.
  - destruct r as [|b r']; [intros [] |].
    intros H. right. apply rotate_In. exact H.
  - intros [H|H]; [left; exact H | right; apply IH; exact H].
Qed.

Lemma VectorErase_NoDup v e : NoDup v -> NoDup (VectorErase v e).
Proof.
  induction v as [|a r IH]; simpl; intros H; [constructor|].
  inversion H as [|? ? Hn Hd]; subst.
  destruct (a =? e) eqn:E.
  - destruct r as [|b r']; [constructor | apply rotate_NoDup; exact Hd].
  - constructor; [|apply IH; exact Hd].
    intros Hin. apply Hn. apply VectorErase_In in Hin. exact Hin.
Qed.

Lemma VectorErase_gone v e : NoDup v -> ~ In e (VectorErase v e).
Proof.
  induction v as [|a r IH]; simpl; intros H; [tauto|].
  inversion H as [|? ? Hn Hd]; subst.
  destruct (a =? e) eqn:E.
  - apply Z.eqb_eq in E. subst a. destruct r as [|b r']; [tauto|].
    rewrite rotate_In. exact Hn.
  - apply Z.eqb_neq in E. intros [Hin|Hin]; [congruence | apply (IH Hd Hin)].
Qed.

Lemma VectorErase_In_iff v e x :
  NoDup v -> (In x (VectorErase v e) <-> In x v /\ x <> e).
Proof.
  intros Hnd. destruct (Z.eq_dec x e) as [->|Hne].
  - split; [intros H; exfalso; apply (VectorErase_gone v e Hnd H) | tauto].
  - rewrite (VectorErase_In_other v e x Hne). tauto.
Qed.

Lemma VectorErase_length_le v e : (List.length (VectorErase v e) <= List.length v)%nat.
Proof.
  induction v as [|a r IH]; simpl; [lia|].
  destruct (a =? e).
  - destruct r as [|b r']; [simpl; lia|]. rewrite rotate_length. simpl. lia.
  - simpl. lia.
Qed.

Lemma VectorErase_length_present v e :
  In e v -> S (List.length (VectorErase v e)) = List.length v.
Proof.
  induction v as [|a r IH]; simpl; [tauto|].
  destruct (a =? e) eqn:E.
  - intros _. destruct r as [|b r']; [reflexivity|]. rewrite rotate_length. reflexivity.
  - apply Z.eqb_neq in E. intros [H|H]; [congruence|]. simpl. rewrite IH by exact H. reflexivity.
Qed.

(** Erasing the element at position [i] leaves the positions before [i]
    as they were. *)
Lemma VectorErase_prefix v i j :
  NoDup v -> (i < List.length v)%nat -> (j < i)%nat ->
  nth j (VectorErase v (nth i v 0)) 0 = nth j v 0.
Proof.
  revert i j. induction v as [|a r IH]; intros i j Hnd Hi Hj; simpl in Hi; [lia|].
  inversion Hnd as [|? ? Hn Hd]; subst.
  destruct i as [|i]; [lia|]. simpl nth at 2.
  simpl VectorErase.
  destruct (a =? nth i r 0) eqn:E.
  - apply Z.eqb_eq in E. exfalso. apply Hn. rewrite E. apply nth_In. lia.
  - destruct j as [|j]; [reflexivity|]. simpl. apply IH; [exact Hd | lia | lia].
Qed.

Lemma VectorInsertUnique_false v e : VectorInsertUnique v e false = v ++ [e].
Proof. reflexivity. Qed.

(** ** Cells of the scar field *)

Lemma length_list_update {A} (l : list A) n f : List.length (list_update l n f) = List.length l.
Proof.
  revert n. induction l as [|a r IH]; intros [|n]; simpl; try reflexivity.
  rewrite IH. reflexivity.
Qed.

Lemma nth_list_update {A} (l : list A) n f m d :
  nth m (list_update l n f) d =
  if ((m =? n) && (n <? List.length l))%nat then f (nth m l d) else nth m l d.
Proof.
  revert n m. induction l as [|a r IH]; intros n m; simpl.
  - destruct n, m; simpl; try reflexivity; rewrite andb_false_r; reflexivity.
  - destruct n as [|n], m as [|m]; simpl; try reflexivity.
    rewrite IH. reflexivity.
Qed.

Lemma cellAt_updCell st c f c' :
  cellAt (updCell st c f) c' =
  if (c' =? c) && (0 <=? c) && (c <? Z.of_nat (List.length (scarField st)))
  then f (cellAt st c') else cellAt st c'.
Proof.
  unfold updCell, cellAt.
  destruct (c <? 0) eqn:Ec.
  - apply Z.ltb_lt in Ec. replace (0 <=? c) with false by (symmetry; apply Z.leb_gt; lia).
    rewrite andb_false_r. reflexivity.
  - apply Z.ltb_ge in Ec. simpl scarField.
    destruct (c' <? 0) eqn:Ec'.
    + apply Z.ltb_lt in Ec'. replace (c' =? c) with false by (symmetry; apply Z.eqb_neq; lia).
      reflexivity.
    + apply Z.ltb_ge in Ec'. rewrite nth_list_update.
      replace (0 <=? c) with true by (symmetry; apply Z.leb_le; lia).
      rewrite andb_true_r.
      destruct (c' =? c) eqn:E.
      * apply Z.eqb_eq in E. subst c'. rewrite Nat.eqb_refl. simpl.
        destruct (c <? Z.of_nat (List.length (scarField st))) eqn:El.
        -- apply Z.ltb_lt in El.
           replace (Z.to_nat c <? List.length (scarField st))%nat with true
             by (symmetry; apply Nat.ltb_lt; lia).
           reflexivity.
        -- apply Z.ltb_ge in El.
           replace (Z.to_nat c <? List.length (scarField st))%nat with false
             by (symmetry; apply Nat.ltb_ge; lia).
           reflexivity.
      * apply Z.eqb_neq in E.
        replace (Z.to_nat c' =? Z.to_nat c)%nat with false
          by (symmetry; apply Nat.eqb_neq; lia).
        reflexivity.
Qed.

Lemma cellAt_outside st c :
  ~ (0 <= c < Z.of_nat (List.length (scarField st))) -> cellAt st c = [].
Proof.
  intros H. unfold cellAt. destruct (c <? 0) eqn:E; [reflexivity|].
  apply Z.ltb_ge in E. apply nth_overflow. lia.
Qed.

Lemma length_updCell st c f :
  List.length (scarField (updCell st c f)) = List.length (scarField st).
Proof.
  unfold updCell. destruct (c <? 0); [reflexivity|]. simpl. apply length_list_update.
Qed.

(** ** Loops over a rectangle of cells *)

Lemma in_loop_range lo hi v : In v (loop_range lo hi) <-> lo <= v <= hi.
Proof.
  unfold loop_range. rewrite in_map_iff. split.
  - intros [k [Hk Hin]]. apply in_seq in Hin. lia.
  - intros H. exists (Z.to_nat (v - lo)). split; [lia|]. apply in_seq. lia.
Qed.

Lemma NoDup_loop_range lo hi : NoDup (loop_range lo hi).
Proof.
  unfold loop_range. apply NoDup_map_NoDup_ForallPairs; [|apply seq_NoDup].
  intros a b _ _ H. lia.
Qed.

Lemma NoDup_list_prod {A B} (l : list A) (l' : list B) :
  NoDup l -> NoDup l' -> NoDup (list_prod l l').
Proof.
  intros Hl Hl'. induction Hl as [|a l Hn Hd IH]; simpl; [constructor|].
  apply NoDup_app; [| exact IH |].
  - apply NoDup_map_NoDup_ForallPairs; [|exact Hl'].
    intros x y _ _ H. inversion H. reflexivity.
  - intros [x y] Hin Hin'. apply in_map_iff in Hin. destruct Hin as [z [Hz _]].
    inversion Hz; subst. apply in_prod_iff in Hin'. tauto.
Qed.

Lemma in_cellLoop x1 y1 x2 y2 y x :
  In (y, x) (cellLoop (x1, y1, x2, y2)) <-> y1 <= y <= y2 /\ x1 <= x <= x2.
Proof.
  unfold cellLoop. rewrite in_prod_iff, !in_loop_range. tauto.
Qed.

Lemma NoDup_cellLoop b : NoDup (cellLoop b).
Proof.
  destruct b as [[[x1 y1] x2] y2]. unfold cellLoop.
  apply NoDup_list_prod; apply NoDup_loop_range.
Qed.

Lemma same_but_cells_refl st : same_but_cells st st.
Proof. unfold same_but_cells. repeat split; reflexivity. Qed.

Lemma same_but_cells_trans a b c :
  same_but_cells a b -> same_but_cells b c -> same_but_cells a c.
Proof.
  unfold same_but_cells.
  intros (A1 & A2 & A3 & A4 & A5 & A6 & A7 & A8 & A9 & A10)
         (B1 & B2 & B3 & B4 & B5 & B6 & B7 & B8 & B9 & B10).
  repeat split; try congruence.
Qed.

Lemma updCell_same_but_cells st c f : same_but_cells st (updCell st c f).
Proof.
  unfold same_but_cells. pose proof (length_updCell st c f) as L.
  unfold updCell in *. destruct (c <? 0); simpl in *; repeat split; try reflexivity. exact L.
Qed.

Lemma cellIndex_frame st st' yx :
  scarFieldX st' = scarFieldX st -> cellIndex st' yx = cellIndex st yx.
Proof. intros H. unfold cellIndex. rewrite H. reflexivity. Qed.

Lemma cellBounds_frame st st' s :
  scarFieldX st' = scarFieldX st -> scarFieldY st' = scarFieldY st ->
  cellBounds st' s = cellBounds st s.
Proof. intros H1 H2. unfold cellBounds. rewrite H1, H2. reflexivity. Qed.

Lemma scarCells_frame st st' s :
  scarFieldX st' = scarFieldX st -> scarFieldY st' = scarFieldY st ->
  scarCells st' s = scarCells st s.
Proof.
  intros H1 H2. unfold scarCells. rewrite (cellBounds_frame st st' s H1 H2).
  apply map_ext. intros yx. apply cellIndex_frame. exact H1.
Qed.

Lemma scarCells_bookkeeping st s s' : bookkeeping s s' -> scarCells st s' = scarCells st s.
Proof.
  intros (_ & A & B & C & D & _). unfold scarCells, cellBounds. rewrite A, B, C, D. reflexivity.
Qed.

(** *** Every cell the loops touch lies inside the grid *)

Lemma cells_in_grid st s y x :
  field_ok st ->
  0 <= Scar.x1 s <= INT_MAX -> 0 <= Scar.y1 s <= INT_MAX ->
  In (y, x) (cellLoop (cellBounds st s)) ->
  0 <= y < scarFieldY st /\ 0 <= x < scarFieldX st /\
  cellIndex st (y, x) = y * scarFieldX st + x /\
  0 <= y * scarFieldX st + x < Z.of_nat (List.length (scarField st)).
Proof.
  intros [HW HH Hlen Hsize] Hx1 Hy1 Hin.
  unfold cellBounds in Hin. apply in_cellLoop in Hin. destruct Hin as [Hy Hx].
  pose proof (int_div_16_nonneg _ Hx1) as Dx. pose proof (int_div_16_nonneg _ Hy1) as Dy.
  assert (EW : scarFieldX st -i 1 = scarFieldX st - 1).
  { unfold int_sub. apply wrap_small. unfold INT_MIN, INT_MAX in *. lia. }
  assert (EH : scarFieldY st -i 1 = scarFieldY st - 1).
  { unfold int_sub. apply wrap_small. unfold INT_MIN, INT_MAX in *. lia. }
  rewrite EW in Hx. rewrite EH in Hy.
  assert (By : 0 <= y < scarFieldY st) by lia.
  assert (Bx : 0 <= x < scarFieldX st) by lia.
  assert (Bi : 0 <= y * scarFieldX st + x < scarFieldX st * scarFieldY st) by nia.
  repeat split; try lia.
  unfold cellIndex, int_add, int_mul. simpl fst. simpl snd.
  rewrite (wrap_small (y * scarFieldX st)) by (unfold INT_MIN, INT_MAX in *; nia).
  apply wrap_small. unfold INT_MIN, INT_MAX in *. lia.
Qed.

Lemma scarCells_in_grid st s c :
  field_ok st ->
  0 <= Scar.x1 s <= INT_MAX -> 0 <= Scar.y1 s <= INT_MAX ->
  In c (scarCells st s) -> 0 <= c < Z.of_nat (List.length (scarField st)).
Proof.
  intros Hf Hx Hy Hin. unfold scarCells in Hin. apply in_map_iff in Hin.
  destruct Hin as [[y x] [E Hin]].
  destruct (cells_in_grid st s y x Hf Hx Hy Hin) as (_ & _ & Ei & B). subst c. rewrite Ei. exact B.
Qed.

Lemma NoDup_scarCells st s :
  field_ok st ->
  0 <= Scar.x1 s <= INT_MAX -> 0 <= Scar.y1 s <= INT_MAX ->
  NoDup (scarCells st s).
Proof.
  intros Hf Hx Hy. unfold scarCells.
  apply NoDup_map_NoDup_ForallPairs; [|apply NoDup_cellLoop].
  intros [y x] [y' x'] Hin Hin' E.
  destruct (cells_in_grid st s y x Hf Hx Hy Hin) as (By & Bx & Ei & _).
  destruct (cells_in_grid st s y' x' Hf Hx Hy Hin') as (By' & Bx' & Ei' & _).
  rewrite Ei, Ei' in E.
  assert (y = y') by nia. subst y'. assert (x = x') by lia. subst x'. reflexivity.
Qed.

(** *** Erasing an id from a run of cells *)

Lemma fold_erase id l : forall st,
  let st' := fold_left (eraseStep id) l st in
  same_but_cells st st' /\
  forall c,
    (NoDup (cellAt st c) -> NoDup (cellAt st' c)) /\
    (forall x, x <> id -> (In x (cellAt st' c) <-> In x (cellAt st c))) /\
    (In id (cellAt st' c) -> In id (cellAt st c)) /\
    (NoDup (cellAt st c) -> In c (map (cellIndex st) l) -> ~ In id (cellAt st' c)).
Proof.
  induction l as [|yx l IH]; intros st; simpl.
  - split; [apply same_but_cells_refl|]. intros c. repeat split; tauto.
  - set (st1 := eraseStep id st yx).
    destruct (IH st1) as [F1 C1]. fold st1.
    assert (F0 : same_but_cells st st1) by apply updCell_same_but_cells.
    split; [eapply same_but_cells_trans; eassumption|].
    intros c. destruct (C1 c) as (N1 & M1 & I1 & G1).
    assert (EX : scarFieldX st1 = scarFieldX st) by apply F0.
    assert (Hstep : cellAt st1 c = cellAt st c \/
                    (cellAt st1 c = VectorErase (cellAt st c) id)).
    { unfold st1, eraseStep. rewrite cellAt_updCell.
      destruct (_ && _); [right | left]; reflexivity. }
    assert (Hnd : NoDup (cellAt st c) -> NoDup (cellAt st1 c)).
    { intros H. destruct Hstep as [-> | ->]; [exact H | apply VectorErase_NoDup; exact H]. }
    split; [|split; [|split]].
    + intros H. apply N1, Hnd, H.
    + intros x Hx. split.
      * intros H. apply M1 in H; [|assumption].
        destruct Hstep as [E | E]; rewrite E in H; [exact H|].
        apply VectorErase_In in H. exact H.
      * intros H. apply M1; [assumption|].
        destruct Hstep as [E | E]; rewrite E; [exact H|].
        apply VectorErase_In_other; assumption.
    + intros H. apply I1 in H.
      destruct Hstep as [E | E]; rewrite E in H; [exact H|].
      apply VectorErase_In in H. exact H.
    + intros Hn [Hc | Hc].
      * subst c. intros Hin. apply I1 in Hin. revert Hin.
        unfold st1, eraseStep. rewrite cellAt_updCell. rewrite Z.eqb_refl. simpl.
        destruct (_ && _) eqn:Eb.
        -- apply VectorErase_gone. exact Hn.
        -- rewrite cellAt_outside; [tauto|].
           intros B. apply andb_false_iff in Eb. destruct Eb as [Eb | Eb].
           ++ apply Z.leb_gt in Eb. lia.
           ++ apply Z.ltb_ge in Eb. lia.
      * apply G1; [apply Hnd; exact Hn|].
        erewrite map_ext; [exact Hc|]. intros a. apply cellIndex_frame. exact EX.
Qed.

(** *** Entering an id into a run of cells *)

Lemma fold_insert id l : forall st,
  let st' := fold_left (insertStep id) l st in
  same_but_cells st st' /\
  forall c,
    (forall x, x <> id -> (In x (cellAt st' c) <-> In x (cellAt st c))) /\
    (In id (cellAt st' c) -> In id (cellAt st c) \/ In c (map (cellIndex st) l)) /\
    (In id (cellAt st c) -> In id (cellAt st' c)) /\
    (0 <= c < Z.of_nat (List.length (scarField st)) ->
     In c (map (cellIndex st) l) -> In id (cellAt st' c)) /\
    (NoDup (map (cellIndex st) l) -> NoDup (cellAt st c) ->
     ~ In id (cellAt st c) \/ ~ In c (map (cellIndex st) l) -> NoDup (cellAt st' c)).
Proof.
  induction l as [|yx l IH]; intros st; simpl.
  - split; [apply same_but_cells_refl|]. intros c. repeat split; tauto.
  - set (st1 := insertStep id st yx).
    destruct (IH st1) as [F1 C1]. fold st1.
    assert (F0 : same_but_cells st st1) by apply updCell_same_but_cells.
    split; [eapply same_but_cells_trans; eassumption|].
    intros c. destruct (C1 c) as (M1 & I1 & K1 & G1 & N1).
    assert (EX : scarFieldX st1 = scarFieldX st) by apply F0.
    assert (EL : List.length (scarField st1) = List.length (scarField st)) by apply F0.
    assert (EM : map (cellIndex st1) l = map (cellIndex st) l).
    { apply map_ext. intros a. apply cellIndex_frame. exact EX. }
    rewrite EM in *. rewrite EL in *.
    assert (Hstep : (cellAt st1 c = cellAt st c /\
                       (c <> cellIndex st yx \/
                        ~ 0 <= c < Z.of_nat (List.length (scarField st)))) \/
                    (cellAt st1 c = cellAt st c ++ [id] /\ c = cellIndex st yx /\
                       0 <= c < Z.of_nat (List.length (scarField st)))).
    { unfold st1, insertStep. rewrite cellAt_updCell. rewrite VectorInsertUnique_false.
      destruct (c =? cellIndex st yx) eqn:E1; simpl.
      - apply Z.eqb_eq in E1. rewrite <- E1.
        destruct (0 <=? c) eqn:E2; simpl.
        + destruct (c <? Z.of_nat (List.length (scarField st))) eqn:E3.
          * right. apply Z.leb_le in E2. apply Z.ltb_lt in E3. repeat split; lia.
          * left. apply Z.ltb_ge in E3. split; [reflexivity | right; lia].
        + left. apply Z.leb_gt in E2. split; [reflexivity | right; lia].
      - left. apply Z.eqb_neq in E1. split; [reflexivity | left; exact E1]. }
    split; [|split; [|split; [|split]]].
    + intros x Hx. split.
      * intros H. apply M1 in H; [|assumption].
        destruct Hstep as [[E _] | [E _]]; rewrite E in H; [exact H|].
        apply in_app_iff in H. destruct H as [H | [H | []]]; [exact H | congruence].
      * intros H. apply M1; [assumption|].
        destruct Hstep as [[E _] | [E _]]; rewrite E; [exact H|].
        apply in_app_iff. left. exact H.
    + intros H. apply I1 in H. destruct H as [H | H]; [|right; right; exact H].
      destruct Hstep as [[E _] | [E [Ec _]]]; rewrite E in H; [left; exact H|].
      right. left. symmetry. exact Ec.
    + intros H. apply K1.
      destruct Hstep as [[E _] | [E _]]; rewrite E; [exact H|].
      apply in_app_iff. left. exact H.
    + intros B [Hc | Hc].
      * apply K1. destruct Hstep as [[E [Hne | Hout]] | [E _]].
        -- congruence.
        -- tauto.
        -- rewrite E. apply in_app_iff. right. left. reflexivity.
      * apply G1; assumption.
    + intros Hnd Hn Hor. inversion Hnd as [|? ? Hni Hnd']; subst.
      destruct Hstep as [[E Hwhy] | [E [Ec B]]].
      * apply N1; [exact Hnd' | rewrite E; exact Hn |].
        rewrite E. destruct Hor as [Hor | Hor]; [left; exact Hor | right].
        intros Hc. apply Hor. right. exact Hc.
      * assert (Hid : ~ In id (cellAt st c)).
        { destruct Hor as [Hor | Hor]; [exact Hor|]. exfalso. apply Hor. left. symmetry. exact Ec. }
        apply N1; [exact Hnd' | |].
        -- rewrite E. apply NoDup_app; [exact Hn | repeat constructor; simpl; tauto |].
           intros x Hx [Hx' | []]. subst x. tauto.
        -- right. rewrite Ec. exact Hni.
Qed.

(** ** The invariant is kept by every step *)

Lemma field_ok_frame st st' :
  scarFieldX st' = scarFieldX st -> scarFieldY st' = scarFieldY st ->
  List.length (scarField st') = List.length (scarField st) ->
  field_ok st -> field_ok st'.
Proof.
  intros A B C [H1 H2 H3 H4]. constructor; rewrite ?A, ?B, ?C; assumption.
Qed.

Lemma liveRecord_bookkeeping id s s' : bookkeeping s s' -> liveRecord id s -> liveRecord id s'.
Proof.
  intros (A & B & _ & D & _) H. unfold liveRecord in *. rewrite A, B, D. exact H.
Qed.

Lemma bookkeeping_refl s : bookkeeping s s.
Proof. unfold bookkeeping. repeat split; reflexivity. Qed.

Lemma bookkeeping_trans a b c : bookkeeping a b -> bookkeeping b c -> bookkeeping a c.
Proof.
  unfold bookkeeping. intros (A1 & A2 & A3 & A4 & A5 & A6 & A7) (B1 & B2 & B3 & B4 & B5 & B6 & B7).
  repeat split; congruence.
Qed.

Lemma bookkeeping_set_lastTest s v : bookkeeping s (Scar.set_lastTest s v).
Proof. unfold bookkeeping. repeat split; reflexivity. Qed.

Lemma bookkeeping_set_overdrawn s v : bookkeeping s (Scar.set_overdrawn s v).
Proof. unfold bookkeeping. repeat split; reflexivity. Qed.

Lemma bookkeeping_set_lastDraw s v : bookkeeping s (Scar.set_lastDraw s v).
Proof. unfold bookkeeping. repeat split; reflexivity. Qed.

Lemma table_ok_bookkeeping st id s :
  table_ok st -> bookkeeping (scars st id) s -> table_ok (set_scar st id s).
Proof.
  intros OK BK. destruct OK as [F N1 N2 N3 D1 D2 D3 R L CN CS CC].
  assert (SC : forall j, scarCells (set_scar st id s) (scars (set_scar st id s) j)
                         = scarCells st (scars st j)).
  { intros j. rewrite (scarCells_frame st) by reflexivity. simpl.
    destruct (j =? id) eqn:E; [|reflexivity].
    apply Z.eqb_eq in E. subst j. apply scarCells_bookkeeping. exact BK. }
  constructor; try assumption.
  - apply (field_ok_frame st); [reflexivity .. | exact F].
  - intros j H. simpl. destruct (j =? id) eqn:E; [|apply L; exact H].
    apply Z.eqb_eq in E. subst j. apply (liveRecord_bookkeeping _ _ _ BK). apply L. exact H.
  - intros c j H. rewrite SC. apply (CS c j H).
  - intros j c U H. rewrite SC in H. apply (CC j c U H).
Qed.

Lemma table_ok_stamp st v : table_ok st -> table_ok (set_lastScarOverlapTest st v).
Proof.
  intros OK. destruct OK as [F N1 N2 N3 D1 D2 D3 R L CN CS CC].
  constructor; try assumption.
  apply (field_ok_frame st); [reflexivity .. | exact F].
Qed.

(** *** Removal *)

Lemma RemoveScar_unfold st idx :
  RemoveScar st idx =
  let id := Scar.id (scars st idx) in
  let st1 := fold_left (eraseStep id) (cellLoop (cellBounds st (scars st idx))) st in
  set_scar
    (set_usedScarIDs
       (set_freeScarIDs st1 (VectorInsertUnique (freeScarIDs st1) id false))
       (VectorErase (usedScarIDs st1) id))
    idx Scar.Reset.
Proof. reflexivity. Qed.

(** What [RemoveScar] does to each part of the state. *)
Lemma RemoveScar_parts st idx :
  let id := Scar.id (scars st idx) in
  let st' := RemoveScar st idx in
  (forall j, scars st' j = if j =? idx then Scar.Reset else scars st j) /\
  freeScarIDs st' = freeScarIDs st ++ [id] /\
  usedScarIDs st' = VectorErase (usedScarIDs st) id /\
  addedScars st' = addedScars st /\
  scarFieldX st' = scarFieldX st /\
  scarFieldY st' = scarFieldY st /\
  lastScarOverlapTest st' = lastScarOverlapTest st /\
  maxScarOverlapSize st' = maxScarOverlapSize st /\
  List.length (scarField st') = List.length (scarField st) /\
  decalLevel st' = decalLevel st /\
  forall c,
    (NoDup (cellAt st c) -> NoDup (cellAt st' c)) /\
    (forall x, x <> id -> (In x (cellAt st' c) <-> In x (cellAt st c))) /\
    (In id (cellAt st' c) -> In id (cellAt st c)) /\
    (NoDup (cellAt st c) -> In c (scarCells st (scars st idx)) -> ~ In id (cellAt st' c)).
Proof.
  intros id st'. unfold st'. rewrite RemoveScar_unfold. fold id.
  destruct (fold_erase id (cellLoop (cellBounds st (scars st idx))) st)
    as [(S1 & S2 & S3 & S4 & S5 & S6 & S7 & S8 & S9 & S10) C].
  cbv zeta in *. unfold scarCells.
  remember (fold_left (eraseStep id) (cellLoop (cellBounds st (scars st idx))) st) as st1.
  refine (conj _ (conj _ (conj _ (conj _ (conj _ (conj _ (conj _ (conj _ (conj _ (conj _ _))))))))));
    simpl.
  - intros j. destruct (j =? idx); [reflexivity | apply S1].
  - rewrite S2. reflexivity.
  - rewrite S3. reflexivity.
  - exact S4.
  - exact S5.
  - exact S6.
  - exact S7.
  - exact S8.
  - exact S9.
  - exact S10.
  - exact C.
Qed.

Lemma RemoveScar_ok st idx :
  table_ok st -> In idx (usedScarIDs st) -> table_ok (RemoveScar st idx).
Proof.
  intros OK U. pose proof OK as OK0.
  destruct OK as [F N1 N2 N3 D1 D2 D3 R L CN CS CC].
  destruct (L idx (or_introl U)) as (Eid & _).
  destruct (RemoveScar_parts st idx) as (P1 & P2 & P3 & P4 & P5 & P6 & P7 & P8 & P9 & P10 & PC).
  rewrite Eid in *.
  assert (SC : forall j, j <> idx ->
             scarCells (RemoveScar st idx) (scars (RemoveScar st idx) j)
             = scarCells st (scars st j)).
  { intros j Hj. rewrite (scarCells_frame st) by assumption. rewrite P1.
    apply Z.eqb_neq in Hj. rewrite Hj. reflexivity. }
  assert (GONE : forall c, ~ In idx (cellAt (RemoveScar st idx) c)).
  { intros c Hin. destruct (PC c) as (_ & _ & I & G).
    pose proof (I Hin) as Hin0. destruct (CS c idx Hin0) as [_ Hc].
    apply (G (CN c) Hc Hin). }
  constructor.
  - apply (field_ok_frame st); assumption.
  - rewrite P2. apply NoDup_app; [exact N1 | repeat constructor; simpl; tauto |].
    intros x Hx [Hx' | []]. subst x. apply (D1 idx Hx U).
  - rewrite P3. apply VectorErase_NoDup. exact N2.
  - rewrite P4. exact N3.
  - intros j Hj Hu. rewrite P2 in Hj. rewrite P3 in Hu.
    apply VectorErase_In_iff in Hu; [|exact N2]. destruct Hu as [Hu Hne].
    apply in_app_iff in Hj. destruct Hj as [Hj | [Hj | []]]; [apply (D1 j Hj Hu) | congruence].
  - intros j Hj Ha. rewrite P2 in Hj. rewrite P4 in Ha.
    apply in_app_iff in Hj. destruct Hj as [Hj | [Hj | []]]; [apply (D2 j Hj Ha)|].
    subst j. apply (D3 idx U Ha).
  - intros j Hu Ha. rewrite P3 in Hu. rewrite P4 in Ha.
    apply VectorErase_In in Hu. apply (D3 j Hu Ha).
  - intros j H. rewrite P2, P3, P4 in H. apply R.
    destruct H as [H | [H | H]].
    + apply in_app_iff in H. destruct H as [H | [H | []]]; [left; exact H|].
      subst j. right. left. exact U.
    + right. left. apply VectorErase_In in H. exact H.
    + right. right. exact H.
  - intros j H. rewrite P3, P4 in H. rewrite P1.
    assert (Hne : j <> idx).
    { destruct H as [H | H].
      - apply VectorErase_In_iff in H; [tauto | exact N2].
      - intros ->. apply (D3 idx U H). }
    apply Z.eqb_neq in Hne. rewrite Hne. apply L.
    destruct H as [H | H]; [left; apply VectorErase_In in H; exact H | right; exact H].
  - intros c. apply PC. apply CN.
  - intros c j Hin.
    assert (Hne : j <> idx) by (intros ->; apply (GONE c Hin)).
    destruct (PC c) as (_ & M & _ & _). apply M in Hin; [|exact Hne].
    destruct (CS c j Hin) as [Hu Hc]. split.
    + rewrite P3. apply VectorErase_In_iff; [exact N2 | tauto].
    + rewrite SC by exact Hne. exact Hc.
  - intros j c Hu Hc. rewrite P3 in Hu.
    apply VectorErase_In_iff in Hu; [|exact N2]. destruct Hu as [Hu Hne].
    rewrite SC in Hc by exact Hne.
    destruct (PC c) as (_ & M & _ & _). apply M; [exact Hne|]. apply (CC j c Hu Hc).
Qed.

(** After a removal the id is in no cell, not in use, and free once. *)
Lemma RemoveScar_recycles st idx :
  table_ok st -> In idx (usedScarIDs st) ->
  (forall c, ~ In idx (cellAt (RemoveScar st idx) c)) /\
  ~ In idx (usedScarIDs (RemoveScar st idx)) /\
  count_occ Z.eq_dec (freeScarIDs (RemoveScar st idx)) idx = 1%nat.
Proof.
  intros OK U. pose proof OK as OK0.
  destruct OK as [F N1 N2 N3 D1 D2 D3 R L CN CS CC].
  destruct (L idx (or_introl U)) as (Eid & _).
  destruct (RemoveScar_parts st idx) as (P1 & P2 & P3 & P4 & P5 & P6 & P7 & P8 & P9 & P10 & PC).
  rewrite Eid in *.
  split; [|split].
  - intros c Hin. destruct (PC c) as (_ & _ & I & G).
    pose proof (I Hin) as Hin0. destruct (CS c idx Hin0) as [_ Hc].
    apply (G (CN c) Hc Hin).
  - rewrite P3. apply VectorErase_gone. exact N2.
  - rewrite P2, count_occ_app. simpl.
    destruct (Z.eq_dec idx idx) as [_ | Hne]; [|congruence].
    rewrite (proj1 (count_occ_not_In Z.eq_dec _ _)); [reflexivity|].
    intros Hf. apply (D1 idx Hf U).
Qed.

(** ** The overlap test, one scar at a time *)

Lemma scars_set_scar_same st i s : scars (set_scar st i s) i = s.
Proof. simpl. rewrite Z.eqb_refl. reflexivity. Qed.

Lemma scars_set_scar_other st i s j : j <> i -> scars (set_scar st i s) j = scars st j.
Proof. intros H. simpl. apply Z.eqb_neq in H. rewrite H. reflexivity. Qed.

Lemma ScarOverlapSize_set_lastTest s t v :
  ScarOverlapSize s (Scar.set_lastTest t v) = ScarOverlapSize s t.
Proof. reflexivity. Qed.

(** The state after stamping [tid], and after adding [od] to its counter. *)
Lemma testOverlap_cases st sid tid :
  sid <> tid ->
  let s := scars st sid in
  let t := scars st tid in
  let stamp := lastScarOverlapTest st in
  let t1 := Scar.set_lastTest t stamp in
  let od := Scar.overdrawn t +i (ScarOverlapSize s t /i Scar.basesize t) in
  let t2 := Scar.set_overdrawn t1 od in
  (testOverlap st sid tid = st /\
     (Scar.lastTest t = stamp \/ Scar.lifeTime s < Scar.lifeTime t))
  \/
  (Scar.lastTest t <> stamp /\ Scar.lifeTime t <= Scar.lifeTime s /\
   ((testOverlap st sid tid = set_scar st tid t1 /\
       (ScarOverlapSize s t = 0 \/ Scar.basesize t = 0))
    \/
    (ScarOverlapSize s t <> 0 /\ Scar.basesize t <> 0 /\
     ((od <= maxScarOverlapSize st /\
         testOverlap st sid tid = set_scar (set_scar st tid t1) tid t2)
      \/
      (maxScarOverlapSize st < od /\
         testOverlap st sid tid = RemoveScar (set_scar (set_scar st tid t1) tid t2) tid))))).
Proof.
  intros Hne s t stamp t1 od t2. unfold testOverlap.
  fold s t stamp.
  destruct (stamp =? Scar.lastTest t) eqn:E1.
  { left. apply Z.eqb_eq in E1. split; [reflexivity | left; congruence]. }
  destruct (Scar.lifeTime s <? Scar.lifeTime t) eqn:E2.
  { left. apply Z.ltb_lt in E2. split; [reflexivity | right; exact E2]. }
  right. apply Z.eqb_neq in E1. apply Z.ltb_ge in E2.
  split; [congruence | split; [exact E2|]].
  cbv zeta. fold t1.
  rewrite (scars_set_scar_other st tid t1 sid Hne).
  rewrite (scars_set_scar_same st tid t1). fold s.
  change (ScarOverlapSize s t1) with (ScarOverlapSize s t).
  change (Scar.basesize t1) with (Scar.basesize t).
  change (Scar.overdrawn t1) with (Scar.overdrawn t).
  fold od. fold t2.
  destruct (ScarOverlapSize s t =? 0) eqn:E3; simpl orb.
  { left. apply Z.eqb_eq in E3. split; [reflexivity | left; exact E3]. }
  destruct (Scar.basesize t =? 0) eqn:E4.
  { left. apply Z.eqb_eq in E4. split; [reflexivity | right; exact E4]. }
  right. apply Z.eqb_neq in E3. apply Z.eqb_neq in E4.
  split; [exact E3 | split; [exact E4|]].
  change (maxScarOverlapSize (set_scar (set_scar st tid t1) tid t2))
    with (maxScarOverlapSize st).
  destruct (od <=? maxScarOverlapSize st) eqn:E5.
  - left. apply Z.leb_le in E5. split; [exact E5 | reflexivity].
  - right. apply Z.leb_gt in E5. split; [exact E5 | reflexivity].
Qed.

Lemma touched_once st tid r :
  bookkeeping (scars st tid) r -> touched st tid (set_scar st tid r).
Proof.
  intros BK. unfold touched.
  refine (conj _ (conj _ (conj _ (conj _ (conj _ (conj _ (conj _ (conj _ (conj _ (conj _ _))))))))));
    try reflexivity.
  - intros j Hj. apply scars_set_scar_other. exact Hj.
  - rewrite scars_set_scar_same. exact BK.
Qed.

Lemma touched_twice st tid r1 r2 :
  bookkeeping (scars st tid) r1 -> bookkeeping r1 r2 ->
  touched st tid (set_scar (set_scar st tid r1) tid r2).
Proof.
  intros BK1 BK2. unfold touched.
  refine (conj _ (conj _ (conj _ (conj _ (conj _ (conj _ (conj _ (conj _ (conj _ (conj _ _))))))))));
    try reflexivity.
  - intros j Hj. rewrite !scars_set_scar_other by exact Hj. reflexivity.
  - rewrite scars_set_scar_same. eapply bookkeeping_trans; eassumption.
Qed.

Lemma table_ok_twice st tid r1 r2 :
  table_ok st -> bookkeeping (scars st tid) r1 -> bookkeeping r1 r2 ->
  table_ok (set_scar (set_scar st tid r1) tid r2).
Proof.
  intros OK BK1 BK2. apply table_ok_bookkeeping.
  - apply table_ok_bookkeeping; assumption.
  - rewrite scars_set_scar_same. exact BK2.
Qed.

(** A scar of the pass that is only touched, within what [passed_over]
    allows. *)
Lemma in_pass_touched st0 sid stc tid st' :
  in_pass st0 sid stc -> In tid (usedScarIDs stc) ->
  touched stc tid st' -> table_ok st' ->
  passed_over (lastScarOverlapTest st0) (maxScarOverlapSize st0)
    (scars st0 sid) (scars st0 tid) (scars st' tid) ->
  in_pass st0 sid st'.
Proof.
  intros IP Ht (T1 & T2 & T3 & T4 & T5 & T6 & T7 & T8 & TL & T9 & T10) OK PO.
  destruct IP as [I1 I2 I3 I4 I5 I6 I7 IL I8 I9 I10 I11].
  constructor; try congruence.
  - intros j Hj. rewrite T9; [apply I8; exact Hj|].
    intros ->. apply Hj. apply I9. exact Ht.
  - intros j Hj. rewrite T7 in Hj. apply I9. exact Hj.
  - intros j Hj. rewrite T7 in Hj. destruct (Z.eq_dec j tid) as [-> | Hne]; [exact PO|].
    rewrite T9 by exact Hne. apply I10. exact Hj.
  - intros j Hj Hn. rewrite T7 in Hn. rewrite T8.
    assert (Hne : j <> tid) by (intros ->; tauto).
    rewrite T9 by exact Hne. apply I11; assumption.
Qed.

(** A scar of the pass that is touched and then removed. *)
Lemma in_pass_removed st0 sid stc tid st' :
  in_pass st0 sid stc -> In tid (usedScarIDs stc) ->
  touched stc tid st' -> table_ok st' ->
  evicted_by (lastScarOverlapTest st0) (maxScarOverlapSize st0)
    (scars st0 sid) (scars st0 tid) ->
  in_pass st0 sid (RemoveScar st' tid).
Proof.
  intros IP Ht (T1 & T2 & T3 & T4 & T5 & T6 & T7 & T8 & TL & T9 & T10) OK EV.
  assert (Ht' : In tid (usedScarIDs st')) by (rewrite T7; exact Ht).
  pose proof (RemoveScar_ok st' tid OK Ht') as OK'.
  destruct (ok_live st' OK tid (or_introl Ht')) as (Eid & _).
  destruct (RemoveScar_parts st' tid) as (P1 & P2 & P3 & P4 & P5 & P6 & P7 & P8 & P9 & P10 & _).
  rewrite Eid in *.
  pose proof (ok_used_nodup st' OK) as ND.
  destruct IP as [I1 I2 I3 I4 I5 I6 I7 IL I8 I9 I10 I11].
  constructor; try congruence.
  - intros j Hj. assert (Hne : j <> tid) by (intros ->; apply Hj; apply I9; exact Ht).
    rewrite P1. apply Z.eqb_neq in Hne. rewrite Hne. apply Z.eqb_neq in Hne.
    rewrite T9 by exact Hne. apply I8. exact Hj.
  - intros j Hj. rewrite P3 in Hj. apply VectorErase_In in Hj. rewrite T7 in Hj.
    apply I9. exact Hj.
  - intros j Hj. rewrite P3 in Hj. apply VectorErase_In_iff in Hj; [|exact ND].
    destruct Hj as [Hj Hne]. rewrite T7 in Hj.
    rewrite P1. apply Z.eqb_neq in Hne. rewrite Hne. apply Z.eqb_neq in Hne.
    rewrite T9 by exact Hne. apply I10. exact Hj.
  - intros j Hj Hn. rewrite P1, P2.
    destruct (Z.eq_dec j tid) as [-> | Hne].
    + rewrite Z.eqb_refl. split; [exact EV | split; [reflexivity|]].
      apply in_app_iff. right. left. reflexivity.
    + assert (Hn' : ~ In j (usedScarIDs stc)).
      { intros Hu. apply Hn. rewrite P3. apply VectorErase_In_iff; [exact ND|].
        rewrite T7. tauto. }
      destruct (I11 j Hj Hn') as (A & B & C).
      apply Z.eqb_neq in Hne. rewrite Hne. apply Z.eqb_neq in Hne.
      rewrite T9 by exact Hne. split; [exact A | split; [exact B|]].
      apply in_app_iff. left. rewrite T8. exact C.
Qed.

Lemma passed_over_fresh stamp mx s b c :
  passed_over stamp mx s b c -> Scar.lastTest c <> stamp -> c = b.
Proof.
  intros [E | (_ & _ & [[E _] | [E _]])] H; [exact E | |]; exfalso; apply H; rewrite E; reflexivity.
Qed.

(** One round of the inner loop keeps the pass invariant. *)
Lemma in_pass_step st0 sid stc tid :
  table_ok st0 -> In sid (addedScars st0) ->
  in_pass st0 sid stc -> In tid (usedScarIDs stc) ->
  in_pass st0 sid (testOverlap stc sid tid).
Proof.
  intros OK0 Hs IP Ht.
  assert (Hs0 : ~ In sid (usedScarIDs st0)).
  { intros H. apply (ok_used_added st0 OK0 sid H Hs). }
  assert (Ht0 : In tid (usedScarIDs st0)) by (apply (ip_used _ _ _ IP); exact Ht).
  assert (Hne : sid <> tid) by (intros ->; tauto).
  pose proof (ip_outside _ _ _ IP sid Hs0) as ES.
  pose proof (ip_kept _ _ _ IP tid Ht) as PK.
  pose proof (ip_stamp _ _ _ IP) as Est.
  pose proof (ip_max _ _ _ IP) as Emx.
  pose proof (ip_ok _ _ _ IP) as OKc.
  destruct (testOverlap_cases stc sid tid Hne)
    as [[E _] | (A & B & [[E Z0] | (C & D & [[F E] | [F E]])])]; rewrite E; clear E.
  - exact IP.
  - rewrite Est in A. pose proof (passed_over_fresh _ _ _ _ _ PK A) as EC.
    rewrite ES, EC in *. rewrite Est.
    apply (in_pass_touched st0 sid stc tid); try assumption.
    + apply touched_once. rewrite EC. apply bookkeeping_set_lastTest.
    + apply table_ok_bookkeeping; [exact OKc|]. rewrite EC. apply bookkeeping_set_lastTest.
    + rewrite scars_set_scar_same. right. split; [exact A | split; [exact B|]].
      left. split; [reflexivity | exact Z0].
  - rewrite Est in A. pose proof (passed_over_fresh _ _ _ _ _ PK A) as EC.
    rewrite ES, EC, Emx in *. rewrite Est.
    apply (in_pass_touched st0 sid stc tid); try assumption.
    + apply touched_twice; [rewrite EC; apply bookkeeping_set_lastTest|].
      apply bookkeeping_set_overdrawn.
    + apply table_ok_twice; [exact OKc | rewrite EC; apply bookkeeping_set_lastTest|].
      apply bookkeeping_set_overdrawn.
    + rewrite scars_set_scar_same. right. split; [exact A | split; [exact B|]].
      right. split; [reflexivity | split; [exact C | split; [exact D | exact F]]].
  - rewrite Est in A. pose proof (passed_over_fresh _ _ _ _ _ PK A) as EC.
    rewrite ES, EC, Emx in *. rewrite Est.
    apply (in_pass_removed st0 sid stc tid); try assumption.
    + apply touched_twice; [rewrite EC; apply bookkeeping_set_lastTest|].
      apply bookkeeping_set_overdrawn.
    + apply table_ok_twice; [exact OKc | rewrite EC; apply bookkeeping_set_lastTest|].
      apply bookkeeping_set_overdrawn.
    + unfold evicted_by. repeat split; assumption.
Qed.

(** ** The overlap pass *)

Lemma in_pass_start st sid : table_ok st -> in_pass st sid st.
Proof.
  intros OK. constructor; try reflexivity; try assumption.
  - intros j H. exact H.
  - intros j _. left. reflexivity.
  - intros j H Hn. contradiction.
Qed.

Lemma testQuad_in_pass st0 sid c fuel : forall stc i,
  table_ok st0 -> In sid (addedScars st0) ->
  in_pass st0 sid stc -> in_pass st0 sid (testQuad fuel stc sid c i).
Proof.
  induction fuel as [|fuel IH]; intros stc i OK0 Hs IP; simpl; [exact IP|].
  destruct (i <? List.length (cellAt stc c))%nat eqn:E; [|exact IP].
  apply Nat.ltb_lt in E. apply IH; try assumption.
  apply in_pass_step; try assumption.
  pose proof (nth_In (cellAt stc c) 0 E) as Hin.
  apply (ok_cell_sound stc (ip_ok _ _ _ IP) c _ Hin).
Qed.

Lemma fold_testQuad_in_pass st0 sid l : forall stc,
  table_ok st0 -> In sid (addedScars st0) ->
  in_pass st0 sid stc ->
  in_pass st0 sid
    (fold_left
       (fun st yx => let c := cellIndex st yx in
                     testQuad (List.length (cellAt st c)) st sid c 0)
       l stc).
Proof.
  induction l as [|yx l IH]; intros stc OK0 Hs IP; simpl; [exact IP|].
  apply IH; try assumption. apply testQuad_in_pass; assumption.
Qed.

Lemma TestScarOverlaps_in_pass st sid :
  table_ok st -> In sid (addedScars st) ->
  in_pass (set_lastScarOverlapTest st (lastScarOverlapTest st +i 1)) sid
    (TestScarOverlaps st sid).
Proof.
  intros OK Hs. unfold TestScarOverlaps. cbv zeta.
  apply fold_testQuad_in_pass.
  - apply table_ok_stamp. exact OK.
  - exact Hs.
  - apply in_pass_start. apply table_ok_stamp. exact OK.
Qed.

Lemma TestScarOverlaps_ok st sid :
  table_ok st -> In sid (addedScars st) -> table_ok (TestScarOverlaps st sid).
Proof. intros OK Hs. apply (ip_ok _ _ _ (TestScarOverlaps_in_pass st sid OK Hs)). Qed.

Lemma passed_over_threshold stamp mx s b c :
  passed_over stamp mx s b c -> Scar.overdrawn b <= mx -> Scar.overdrawn c <= mx.
Proof.
  intros [E | (_ & _ & [[E _] | [E (_ & _ & H)]])] Hb; rewrite E; simpl; assumption.
Qed.

Lemma TestScarOverlaps_under_threshold st sid :
  table_ok st -> In sid (addedScars st) ->
  under_threshold st -> under_threshold (TestScarOverlaps st sid).
Proof.
  intros OK Hs (EL & H0 & HT).
  pose proof (TestScarOverlaps_in_pass st sid OK Hs) as IP.
  pose proof (ip_max _ _ _ IP) as Emx. simpl in Emx.
  pose proof (ip_level _ _ _ IP) as Elv. simpl in Elv.
  pose proof (ip_added _ _ _ IP) as Ead. simpl in Ead.
  unfold under_threshold. rewrite Emx, Elv, Ead.
  split; [exact EL | split; [exact H0|]].
  intros j [Hj | Hj].
  - pose proof (ip_kept _ _ _ IP j Hj) as PK. simpl in PK.
    apply (passed_over_threshold _ _ _ _ _ PK). apply HT. left.
    apply (ip_used _ _ _ IP j Hj).
  - rewrite (ip_outside _ _ _ IP j).
    + apply HT. right. exact Hj.
    + simpl. intros Hu. apply (ok_used_added st OK j Hu Hj).
Qed.

(** The cells never grow during the test, so the fuel handed to
    [testQuad] is enough whatever the rounds do. *)

Lemma cellAt_set_scar st i s c : cellAt (set_scar st i s) c = cellAt st c.
Proof. reflexivity. Qed.

Lemma fold_erase_length id l : forall st c,
  (List.length (cellAt (fold_left (eraseStep id) l st) c) <= List.length (cellAt st c))%nat.
Proof.
  induction l as [|yx l IH]; intros st c; simpl; [lia|].
  etransitivity; [apply IH|].
  unfold eraseStep. rewrite cellAt_updCell.
  destruct (_ && _); [apply VectorErase_length_le | lia].
Qed.

Lemma RemoveScar_cell_length st idx c :
  (List.length (cellAt (RemoveScar st idx) c) <= List.length (cellAt st c))%nat.
Proof. rewrite RemoveScar_unfold. cbv zeta. apply (fold_erase_length _ _ st c). Qed.

Lemma testOverlap_cell_length st sid tid c :
  (List.length (cellAt (testOverlap st sid tid) c) <= List.length (cellAt st c))%nat.
Proof.
  unfold testOverlap.
  destruct (_ =? _); [lia|]. destruct (_ <? _); [lia|]. cbv zeta.
  destruct (_ || _); [rewrite cellAt_set_scar; lia|].
  destruct (_ <=? _); [rewrite !cellAt_set_scar; lia|].
  etransitivity; [apply RemoveScar_cell_length|]. rewrite !cellAt_set_scar. lia.
Qed.

Lemma testQuad_fuel fuel : forall fuel' st sid c i,
  (List.length (cellAt st c) - i <= fuel)%nat ->
  (List.length (cellAt st c) - i <= fuel')%nat ->
  testQuad fuel st sid c i = testQuad fuel' st sid c i.
Proof.
  induction fuel as [|fuel IH]; intros fuel' st sid c i H H'.
  - destruct fuel' as [|fuel']; [reflexivity|]. simpl.
    replace (i <? List.length (cellAt st c))%nat with false
      by (symmetry; apply Nat.ltb_ge; lia).
    reflexivity.
  - simpl. destruct (i <? List.length (cellAt st c))%nat eqn:E.
    + apply Nat.ltb_lt in E. destruct fuel' as [|fuel']; [lia|]. simpl.
      replace (i <? List.length (cellAt st c))%nat with true
        by (symmetry; apply Nat.ltb_lt; lia).
      pose proof (testOverlap_cell_length st sid (nth i (cellAt st c) 0) c).
      apply IH; lia.
    + destruct fuel' as [|fuel']; [reflexivity|]. simpl. rewrite E. reflexivity.
Qed.

(** C1.  In the overlap pass for a new scar, a scar that is in use before
    the pass and no longer after it has a [lifeTime] that is at most the new
    scar's; a scar that outlives the new one stays in use, its record
    untouched. *)
Theorem TestScarOverlaps_spares_longer_lived st sid tid :
  table_ok st -> In sid (addedScars st) -> In tid (usedScarIDs st) ->
  (~ In tid (usedScarIDs (TestScarOverlaps st sid)) ->
   Scar.lifeTime (scars st tid) <= Scar.lifeTime (scars st sid)) /\
  (Scar.lifeTime (scars st sid) < Scar.lifeTime (scars st tid) ->
   In tid (usedScarIDs (TestScarOverlaps st sid)) /\
   scars (TestScarOverlaps st sid) tid = scars st tid).
Proof.
  intros OK Hs Ht.
  pose proof (TestScarOverlaps_in_pass st sid OK Hs) as IP.
  assert (A : ~ In tid (usedScarIDs (TestScarOverlaps st sid)) ->
              Scar.lifeTime (scars st tid) <= Scar.lifeTime (scars st sid)).
  { intros Hn. destruct (ip_evicted _ _ _ IP tid Ht Hn) as ((_ & L & _) & _). exact L. }
  split; [exact A|].
  intros Hlt.
  destruct (in_dec Z.eq_dec tid (usedScarIDs (TestScarOverlaps st sid))) as [Hin | Hn].
  - split; [exact Hin|].
    destruct (ip_kept _ _ _ IP tid Hin) as [E | (_ & L & _)]; [exact E|].
    simpl in L. lia.
  - apply A in Hn. lia.
Qed.

(** One round of the inner loop removes the tested scar exactly when the
    round adds to its counter and the sum is above the threshold. *)
Lemma testOverlap_evicts_iff st sid tid :
  table_ok st -> In sid (addedScars st) -> In tid (usedScarIDs st) ->
  (~ In tid (usedScarIDs (testOverlap st sid tid)) <->
   evicted_by (lastScarOverlapTest st) (maxScarOverlapSize st) (scars st sid) (scars st tid)).
Proof.
  intros OK Hs Ht.
  assert (Hne : sid <> tid).
  { intros ->. apply (ok_used_added st OK tid Ht Hs). }
  unfold evicted_by.
  destruct (testOverlap_cases st sid tid Hne)
    as [[E W] | (A & B & [[E Z0] | (C & D & [[F E] | [F E]])])]; rewrite E; clear E.
  - split; [tauto|]. intros (X & Y & _). lia.
  - split; [simpl; tauto|]. intros (_ & _ & X & Y & _). tauto.
  - split; [simpl; tauto|]. intros (_ & _ & _ & _ & X). lia.
  - split; [intros _; repeat split; assumption|]. intros _.
    apply RemoveScar_recycles.
    + apply table_ok_twice; [exact OK | apply bookkeeping_set_lastTest|].
      apply bookkeeping_set_overdrawn.
    + exact Ht.
Qed.

Lemma testOverlap_kept_under_threshold st sid tid :
  table_ok st -> under_threshold st -> In sid (addedScars st) -> In tid (usedScarIDs st) ->
  In tid (usedScarIDs (testOverlap st sid tid)) ->
  Scar.overdrawn (scars (testOverlap st sid tid) tid) <= maxScarOverlapSize st.
Proof.
  intros OK (_ & _ & HT) Hs Ht.
  assert (Hne : sid <> tid).
  { intros ->. apply (ok_used_added st OK tid Ht Hs). }
  pose proof (HT tid (or_introl Ht)) as H0.
  destruct (testOverlap_cases st sid tid Hne)
    as [[E W] | (A & B & [[E Z0] | (C & D & [[F E] | [F E]])])]; rewrite E; clear E.
  - intros _. exact H0.
  - intros _. rewrite scars_set_scar_same. exact H0.
  - intros _. rewrite scars_set_scar_same. exact F.
  - intros Hin. exfalso. revert Hin. apply RemoveScar_recycles.
    + apply table_ok_twice; [exact OK | apply bookkeeping_set_lastTest|].
      apply bookkeeping_set_overdrawn.
    + exact Ht.
Qed.

(** C2 (evidence).  What does hold of the eviction rule.  A round of the
    test on an existing scar removes it if and only if the round adds
    [overlapSize / basesize], truncated, to its [overdrawn] counter and the
    sum is above [decalLevel + 1], [overlapSize] being what
    [ScarOverlapSize] returns; a scar the round keeps has its counter at or
    below that threshold.  Over the whole pass only one direction holds: a
    scar that is gone was removed by such an addition, and a scar that stays
    has its counter at or below the threshold.  A scar that such an addition
    would remove need not get its round (C2). *)
Theorem TestScarOverlaps_evicts_over_threshold st sid tid :
  table_ok st -> under_threshold st ->
  In sid (addedScars st) -> In tid (usedScarIDs st) ->
  (~ In tid (usedScarIDs (testOverlap st sid tid)) <->
   evicted_by (lastScarOverlapTest st) (decalLevel st +i 1) (scars st sid) (scars st tid)) /\
  (In tid (usedScarIDs (testOverlap st sid tid)) ->
   Scar.overdrawn (scars (testOverlap st sid tid) tid) <= decalLevel st +i 1) /\
  (~ In tid (usedScarIDs (TestScarOverlaps st sid)) ->
   evicted_by (lastScarOverlapTest st +i 1) (decalLevel st +i 1)
     (scars st sid) (scars st tid)) /\
  (In tid (usedScarIDs (TestScarOverlaps st sid)) ->
   Scar.overdrawn (scars (TestScarOverlaps st sid) tid) <= decalLevel st +i 1).
Proof.
  intros OK UT Hs Ht. pose proof UT as (EL & _ & _). rewrite <- EL.
  split; [apply testOverlap_evicts_iff; assumption|].
  split; [apply testOverlap_kept_under_threshold; assumption|].
  pose proof (TestScarOverlaps_in_pass st sid OK Hs) as IP.
  split.
  - intros Hn. destruct (ip_evicted _ _ _ IP tid Ht Hn) as (EV & _). exact EV.
  - intros Hin.
    destruct (TestScarOverlaps_under_threshold st sid OK Hs UT) as (_ & _ & HT').
    pose proof (ip_max _ _ _ IP) as Emx. simpl in Emx. rewrite <- Emx.
    apply HT'. left. exact Hin.
Qed.

Lemma testOverlap_skips_stamped st sid tid :
  Scar.lastTest (scars st tid) = lastScarOverlapTest st -> testOverlap st sid tid = st.
Proof.
  intros H. unfold testOverlap. rewrite H, Z.eqb_refl. reflexivity.
Qed.

(** C9.  The pass advances the stamp once.  Whatever cells the new scar
    and an existing scar share, the pass leaves the record of the existing
    scar as it was, or stamped, or stamped with the quotient
    [overlapSize / basesize] added once to its counter, or reset after that
    one addition took it over the threshold.  A round that finds the scar
    carrying the stamp of the pass changes nothing. *)
Theorem TestScarOverlaps_adds_overlap_once st sid tid :
  table_ok st -> In sid (addedScars st) -> In tid (usedScarIDs st) ->
  let stamp := lastScarOverlapTest st +i 1 in
  let T := scars st tid in
  let q := ScarOverlapSize (scars st sid) T /i Scar.basesize T in
  lastScarOverlapTest (TestScarOverlaps st sid) = stamp /\
  (scars (TestScarOverlaps st sid) tid = T \/
   scars (TestScarOverlaps st sid) tid = Scar.set_lastTest T stamp \/
   scars (TestScarOverlaps st sid) tid =
     Scar.set_overdrawn (Scar.set_lastTest T stamp) (Scar.overdrawn T +i q) \/
   scars (TestScarOverlaps st sid) tid = Scar.Reset /\
     ~ In tid (usedScarIDs (TestScarOverlaps st sid))) /\
  (forall stc s,
     Scar.lastTest (scars stc tid) = lastScarOverlapTest stc ->
     testOverlap stc s tid = stc).
Proof.
  intros OK Hs Ht stamp T q.
  pose proof (TestScarOverlaps_in_pass st sid OK Hs) as IP.
  split; [apply (ip_stamp _ _ _ IP)|].
  split; [|intros stc s; apply testOverlap_skips_stamped].
  destruct (in_dec Z.eq_dec tid (usedScarIDs (TestScarOverlaps st sid))) as [Hin | Hn].
  - destruct (ip_kept _ _ _ IP tid Hin) as [E | (_ & _ & [[E _] | [E _]])].
    + left. exact E.
    + right. left. exact E.
    + right. right. left. exact E.
  - right. right. right.
    destruct (ip_evicted _ _ _ IP tid Ht Hn) as (_ & E & _). split; assumption.
Qed.

(** ** Floats turned into cell coordinates *)

Lemma F32_to_int_range v : INT_MIN <= F32.to_int v <= INT_MAX.
Proof.
  unfold F32.to_int. destruct (F32.trunc v) as [a|]; [|unfold INT_MIN, INT_MAX; lia].
  destruct ((INT_MIN <=? a) && (a <=? INT_MAX)) eqn:E; [|unfold INT_MIN, INT_MAX; lia].
  apply andb_true_iff in E. destruct E as [E1 E2].
  apply Z.leb_le in E1. apply Z.leb_le in E2. lia.
Qed.

(** [int(std::max(0.0f, v))] is not negative, unless the conversion is
    out of range. *)
Lemma F32_to_int_max_zero v :
  F32.to_int (F32.max F32.zero v) = INT_MIN \/
  0 <= F32.to_int (F32.max F32.zero v) <= INT_MAX.
Proof.
  destruct v as [s | s | | s m e].
  - right. destruct s; replace (F32.to_int _) with 0 by reflexivity; unfold INT_MAX; lia.
  - destruct s; [right | left; reflexivity].
    replace (F32.to_int _) with 0 by reflexivity. unfold INT_MAX. lia.
  - right. replace (F32.to_int _) with 0 by reflexivity. unfold INT_MAX. lia.
  - destruct s.
    { right. replace (F32.to_int _) with 0 by reflexivity. unfold INT_MAX. lia. }
    unfold F32.max, F32.ltb, SFltb, F32.zero, SFcompare, F32.to_int, F32.trunc.
    set (a := if 0 <=? e then Z.pos m * 2 ^ e else Z.pos m ÷ 2 ^ (- e)).
    assert (Ha : 0 <= a).
    { unfold a. destruct (0 <=? e) eqn:Ee.
      - apply Z.leb_le in Ee. apply Z.mul_nonneg_nonneg; [lia|]. apply Z.pow_nonneg. lia.
      - apply Z.leb_gt in Ee. apply Z.quot_pos; [lia|]. apply Z.pow_pos_nonneg; lia. }
    destruct ((INT_MIN <=? a) && (a <=? INT_MAX)) eqn:E; [right | left; reflexivity].
    apply andb_true_iff in E. destruct E as [_ E2]. apply Z.leb_le in E2. lia.
Qed.

(** ** Explosions keep the invariant *)

Lemma AddExplosion_inv e st pos damage radius :
  (forall id, In id (freeScarIDs st) -> id <> -1) ->
  AddExplosion e st pos damage radius = st \/
  exists id rest s,
    freeScarIDs st = rest ++ [id] /\
    AddExplosion e st pos damage radius =
      set_addedScars
        (set_scar (set_rngCalls (set_freeScarIDs st rest) (S (S (rngCalls st)))) id s)
        (addedScars st ++ [id]) /\
    Scar.id s = id /\
    (Scar.x1 s = INT_MIN \/ 0 <= Scar.x1 s <= INT_MAX) /\
    (Scar.y1 s = INT_MIN \/ 0 <= Scar.y1 s <= INT_MAX) /\
    Scar.overdrawn s = 0 /\ Scar.lastTest s = 0.
Proof.
  intros Hfree.
  destruct (freeScarIDs st) as [|a l] eqn:Ef.
  { left. apply AddExplosion_table_exhausted. exact Ef. }
  unfold AddExplosion.
  destruct (negb (GetDrawDecals st)); [left; reflexivity|].
  destruct (F32.leb _ _); [left; reflexivity|].
  destruct (F32.geb _ _); [left; reflexivity|].
  destruct (F32.ltb _ _); [left; reflexivity|].
  unfold GetScarID. rewrite Ef. unfold VectorBackPop.
  assert (Hne : a :: l <> []) by discriminate.
  pose proof (app_removelast_last 0 Hne) as Eapp.
  set (id := last (a :: l) 0) in *. set (rest := removelast (a :: l)) in *.
  cbv beta iota zeta.
  destruct (id =? -1) eqn:E.
  { apply Z.eqb_eq in E. exfalso. apply (Hfree id); [|exact E].
    rewrite Eapp. apply in_app_iff. right. left. reflexivity. }
  right. exists id, rest. eexists.
  split; [exact Eapp|]. split; [reflexivity|].
  split; [reflexivity|].
  split; [apply F32_to_int_max_zero|].
  split; [apply F32_to_int_max_zero|].
  split; reflexivity.
Qed.

Lemma table_ok_free_not_minus_one st :
  table_ok st -> forall id, In id (freeScarIDs st) -> id <> -1.
Proof.
  intros OK id H. pose proof (ok_range st OK id (or_introl H)). lia.
Qed.

Lemma AddExplosion_ok e st pos damage radius :
  table_ok st -> rect_converted (AddExplosion e st pos damage radius) ->
  table_ok (AddExplosion e st pos damage radius).
Proof.
  intros OK RC.
  destruct (AddExplosion_inv e st pos damage radius (table_ok_free_not_minus_one st OK))
    as [E | (id & rest & s & Ef & E & Eid & Hx & Hy & _)]; rewrite E in *; [exact OK|].
  clear E.
  destruct OK as [F N1 N2 N3 D1 D2 D3 R L CN CS CC].
  assert (Hidf : In id (freeScarIDs st)).
  { rewrite Ef. apply in_app_iff. right. left. reflexivity. }
  assert (Hrest : forall j, In j rest -> In j (freeScarIDs st) /\ j <> id).
  { intros j Hj. split; [rewrite Ef; apply in_app_iff; left; exact Hj|].
    intros ->. rewrite Ef in N1. apply NoDup_remove_2 in N1. rewrite app_nil_r in N1. tauto. }
  assert (Hlive : liveRecord id s).
  { destruct (RC id) as [X Y].
    - simpl. apply in_app_iff. right. left. reflexivity.
    - simpl in X, Y. rewrite Z.eqb_refl in X, Y. unfold liveRecord.
      split; [exact Eid|]. split; [destruct Hx; tauto | destruct Hy; tauto]. }
  assert (SC : forall j, j <> id ->
     scarCells (set_addedScars
        (set_scar (set_rngCalls (set_freeScarIDs st rest) (S (S (rngCalls st)))) id s)
        (addedScars st ++ [id]))
       (if j =? id then s else scars st j) = scarCells st (scars st j)).
  { intros j Hj. apply Z.eqb_neq in Hj. rewrite Hj. apply scarCells_frame; reflexivity. }
  constructor; simpl.
  - apply (field_ok_frame st); [reflexivity .. | exact F].
  - rewrite Ef in N1. apply NoDup_remove_1 in N1. rewrite app_nil_r in N1. exact N1.
  - exact N2.
  - apply NoDup_app; [exact N3 | repeat constructor; simpl; tauto |].
    intros x Hx' [<- | []]. apply (D2 id Hidf Hx').
  - intros j Hj. apply D1. apply Hrest. exact Hj.
  - intros j Hj Ha. apply in_app_iff in Ha. destruct (Hrest j Hj) as [Hjf Hne].
    destruct Ha as [Ha | [Ha | []]]; [apply (D2 j Hjf Ha) | congruence].
  - intros j Hj Ha. apply in_app_iff in Ha.
    destruct Ha as [Ha | [Ha | []]]; [apply (D3 j Hj Ha)|]. subst j. apply (D1 id Hidf Hj).
  - intros j H. apply R. destruct H as [H | [H | H]].
    + left. apply Hrest. exact H.
    + right. left. exact H.
    + apply in_app_iff in H. destruct H as [H | [H | []]]; [right; right; exact H|].
      subst j. left. exact Hidf.
  - intros j H. destruct (j =? id) eqn:Ej.
    + apply Z.eqb_eq in Ej. subst j. exact Hlive.
    + apply L. destruct H as [H | H]; [left; exact H|].
      apply in_app_iff in H. destruct H as [H | [H | []]]; [right; exact H|].
      apply Z.eqb_neq in Ej. congruence.
  - exact CN.
  - intros c j Hin. destruct (CS c j Hin) as [Hu Hc]. split; [exact Hu|].
    rewrite SC; [exact Hc|]. intros ->. apply (D1 id Hidf Hu).
  - intros j c Hu Hc. apply CC; [exact Hu|].
    rewrite SC in Hc; [exact Hc|]. intros ->. apply (D1 id Hidf Hu).
Qed.

Lemma AddExplosion_under_threshold e st pos damage radius :
  table_ok st -> under_threshold st ->
  under_threshold (AddExplosion e st pos damage radius).
Proof.
  intros OK UT.
  destruct (AddExplosion_inv e st pos damage radius (table_ok_free_not_minus_one st OK))
    as [E | (id & rest & s & Ef & E & Eid & Hx & Hy & Hod & _)]; rewrite E in *; [exact UT|].
  destruct UT as (EL & H0 & HT). unfold under_threshold. simpl.
  split; [exact EL | split; [exact H0|]].
  intros j H. destruct (j =? id) eqn:Ej; [rewrite Hod; exact H0|].
  apply HT. destruct H as [H | H]; [left; exact H|].
  apply in_app_iff in H. destruct H as [H | [H | []]]; [right; exact H|].
  apply Z.eqb_neq in Ej. congruence.
Qed.

(** *** Committing *)

Lemma insertScar_unfold st id :
  insertScar st id =
  let st1 := fold_left (insertStep (Scar.id (scars st id)))
               (cellLoop (cellBounds st (scars st id))) st in
  set_usedScarIDs st1 (usedScarIDs st1 ++ [id]).
Proof. reflexivity. Qed.

Lemma insertScar_ok st id rest :
  table_ok (set_addedScars st (id :: rest)) ->
  table_ok (set_addedScars (insertScar st id) rest).
Proof.
  intros OK.
  assert (F : field_ok st).
  { apply (field_ok_frame (set_addedScars st (id :: rest)) st);
      [reflexivity .. | apply (ok_field _ OK)]. }
  pose proof (ok_free_nodup _ OK : NoDup (freeScarIDs st)) as N1.
  pose proof (ok_used_nodup _ OK : NoDup (usedScarIDs st)) as N2.
  pose proof (ok_added_nodup _ OK : NoDup (id :: rest)) as N3.
  pose proof (ok_free_used _ OK :
    forall j, In j (freeScarIDs st) -> ~ In j (usedScarIDs st)) as D1.
  pose proof (ok_free_added _ OK :
    forall j, In j (freeScarIDs st) -> ~ In j (id :: rest)) as D2.
  pose proof (ok_used_added _ OK :
    forall j, In j (usedScarIDs st) -> ~ In j (id :: rest)) as D3.
  pose proof (ok_range _ OK :
    forall j, In j (freeScarIDs st) \/ In j (usedScarIDs st) \/ In j (id :: rest) ->
              0 <= j < MAX_SCAR_COUNT) as R.
  pose proof (ok_live _ OK :
    forall j, In j (usedScarIDs st) \/ In j (id :: rest) -> liveRecord j (scars st j)) as L.
  pose proof (ok_cell_nodup _ OK : forall c, NoDup (cellAt st c)) as CN.
  pose proof (ok_cell_sound _ OK :
    forall c j, In j (cellAt st c) ->
                In j (usedScarIDs st) /\ In c (scarCells st (scars st j))) as CS.
  pose proof (ok_cell_complete _ OK :
    forall j c, In j (usedScarIDs st) -> In c (scarCells st (scars st j)) ->
                In j (cellAt st c)) as CC.
  clear OK.
  destruct (L id (or_intror (or_introl eq_refl))) as (Eid & Hx & Hy).
  rewrite insertScar_unfold. rewrite Eid. cbv zeta.
  destruct (fold_insert id (cellLoop (cellBounds st (scars st id))) st)
    as [(S1 & S2 & S3 & S4 & S5 & S6 & S7 & S8 & S9 & S10) C].
  cbv zeta in *.
  remember (fold_left (insertStep id) (cellLoop (cellBounds st (scars st id))) st) as st1.
  set (st2 := set_addedScars (set_usedScarIDs st1 (usedScarIDs st1 ++ [id])) rest).
  assert (U2 : usedScarIDs st2 = usedScarIDs st ++ [id]).
  { unfold st2. simpl. rewrite S3. reflexivity. }
  assert (F2 : freeScarIDs st2 = freeScarIDs st) by exact S2.
  assert (A2 : addedScars st2 = rest) by reflexivity.
  assert (R2 : forall j, scars st2 j = scars st j) by exact S1.
  assert (C2 : forall c, cellAt st2 c = cellAt st1 c) by reflexivity.
  assert (SC : forall s, scarCells st2 s = scarCells st s).
  { intros s. apply scarCells_frame; assumption. }
  assert (G2 : field_ok st2) by (apply (field_ok_frame st); assumption).
  clearbody st2.
  assert (Hnu : ~ In id (usedScarIDs st)).
  { intros H. apply (D3 id H). left. reflexivity. }
  assert (Hnc : forall c, ~ In id (cellAt st c)).
  { intros c H. apply Hnu. apply (CS c id H). }
  constructor; rewrite ?U2, ?F2, ?A2.
  - exact G2.
  - exact N1.
  - apply NoDup_app; [exact N2 | repeat constructor; simpl; tauto |].
    intros x Hx' [<- | []]. tauto.
  - inversion N3; assumption.
  - intros j Hj Hu. apply in_app_iff in Hu.
    destruct Hu as [Hu | [Hu | []]]; [apply (D1 j Hj Hu)|].
    subst j. apply (D2 id Hj). left. reflexivity.
  - intros j Hj Ha. apply (D2 j Hj). right. exact Ha.
  - intros j Hu Ha. apply in_app_iff in Hu.
    destruct Hu as [Hu | [Hu | []]]; [apply (D3 j Hu); right; exact Ha|].
    subst j. inversion N3; tauto.
  - intros j H. apply R. destruct H as [H | [H | H]].
    + left. exact H.
    + apply in_app_iff in H. destruct H as [H | [H | []]]; [right; left; exact H|].
      subst j. right. right. left. reflexivity.
    + right. right. right. exact H.
  - intros j H. rewrite R2. apply L. destruct H as [H | H].
    + apply in_app_iff in H. destruct H as [H | [H | []]]; [left; exact H|].
      subst j. right. left. reflexivity.
    + right. right. exact H.
  - intros c. rewrite C2. destruct (C c) as (_ & _ & _ & _ & N).
    apply N; [|apply CN | left; apply Hnc].
    apply (NoDup_scarCells st (scars st id) F Hx Hy).
  - intros c j Hin. rewrite SC, R2. rewrite C2 in Hin.
    destruct (C c) as (M & I & _).
    destruct (Z.eq_dec j id) as [-> | Hne].
    + split; [apply in_app_iff; right; left; reflexivity|].
      apply I in Hin. destruct Hin as [Hin | Hin]; [exfalso; apply (Hnc c Hin)|].
      exact Hin.
    + apply M in Hin; [|exact Hne]. destruct (CS c j Hin) as [Hu Hc].
      split; [apply in_app_iff; left; exact Hu | exact Hc].
  - intros j c Hu Hc. rewrite SC, R2 in Hc. rewrite C2.
    destruct (C c) as (M & _ & _ & G & _).
    apply in_app_iff in Hu. destruct Hu as [Hu | [Hu | []]].
    + assert (Hne : j <> id) by (intros ->; tauto).
      apply M; [exact Hne|]. apply (CC j c Hu Hc).
    + subst j. apply G; [|exact Hc].
      apply (scarCells_in_grid st (scars st id) c F Hx Hy Hc).
Qed.

Lemma table_ok_set_added_self st : table_ok st -> table_ok (set_addedScars st (addedScars st)).
Proof.
  intros OK. destruct OK as [F N1 N2 N3 D1 D2 D3 R L CN CS CC].
  constructor; try assumption.
  apply (field_ok_frame st); [reflexivity .. | exact F].
Qed.

Lemma fold_insertScar_ok l : forall st,
  table_ok (set_addedScars st l) ->
  table_ok (set_addedScars (fold_left insertScar l st) []).
Proof.
  induction l as [|id l IH]; intros st OK; simpl; [exact OK|].
  apply IH. apply insertScar_ok. exact OK.
Qed.

Lemma fold_TestScarOverlaps_ok l : forall st,
  table_ok st -> (forall sid, In sid l -> In sid (addedScars st)) ->
  table_ok (fold_left TestScarOverlaps l st) /\
  addedScars (fold_left TestScarOverlaps l st) = addedScars st /\
  (under_threshold st -> under_threshold (fold_left TestScarOverlaps l st)).
Proof.
  induction l as [|sid l IH]; intros st OK Hl; simpl; [tauto|].
  assert (Hs : In sid (addedScars st)) by (apply Hl; left; reflexivity).
  pose proof (TestScarOverlaps_in_pass st sid OK Hs) as IP.
  pose proof (ip_added _ _ _ IP) as Ea. simpl in Ea.
  destruct (IH (TestScarOverlaps st sid) (ip_ok _ _ _ IP)) as (A & B & C).
  { intros s Hin. rewrite Ea. apply Hl. right. exact Hin. }
  split; [exact A | split; [congruence|]].
  intros UT. apply C. apply TestScarOverlaps_under_threshold; assumption.
Qed.

Lemma AddScars_ok st : table_ok st -> table_ok (AddScars st).
Proof.
  intros OK. unfold AddScars. cbv zeta.
  destruct (fold_TestScarOverlaps_ok (addedScars st) st OK (fun _ H => H)) as (A & B & _).
  apply fold_insertScar_ok. apply table_ok_set_added_self. exact A.
Qed.

Lemma AddScars_added st : addedScars (AddScars st) = [].
Proof. reflexivity. Qed.

Lemma insertScar_parts st id :
  (forall j, scars (insertScar st id) j = scars st j) /\
  usedScarIDs (insertScar st id) = usedScarIDs st ++ [id] /\
  maxScarOverlapSize (insertScar st id) = maxScarOverlapSize st /\
  decalLevel (insertScar st id) = decalLevel st.
Proof.
  rewrite insertScar_unfold. cbv zeta.
  destruct (fold_insert (Scar.id (scars st id)) (cellLoop (cellBounds st (scars st id))) st)
    as [(S1 & S2 & S3 & S4 & S5 & S6 & S7 & S8 & S9 & S10) _].
  cbv zeta in *.
  remember (fold_left (insertStep (Scar.id (scars st id)))
              (cellLoop (cellBounds st (scars st id))) st) as st1.
  simpl. rewrite S3. repeat split; assumption.
Qed.

Lemma fold_insertScar_parts l : forall st,
  (forall j, scars (fold_left insertScar l st) j = scars st j) /\
  usedScarIDs (fold_left insertScar l st) = usedScarIDs st ++ l /\
  maxScarOverlapSize (fold_left insertScar l st) = maxScarOverlapSize st /\
  decalLevel (fold_left insertScar l st) = decalLevel st.
Proof.
  induction l as [|id l IH]; intros st; simpl.
  - rewrite app_nil_r. repeat split; reflexivity.
  - destruct (IH (insertScar st id)) as (A & B & C & D).
    destruct (insertScar_parts st id) as (A' & B' & C' & D').
    split; [intros j; rewrite A; apply A'|].
    split; [rewrite B, B', <- app_assoc; reflexivity|].
    split; congruence.
Qed.

Lemma AddScars_under_threshold st :
  table_ok st -> under_threshold st -> under_threshold (AddScars st).
Proof.
  intros OK UT. unfold AddScars. cbv zeta.
  destruct (fold_TestScarOverlaps_ok (addedScars st) st OK (fun _ H => H)) as (A & B & C).
  specialize (C UT). destruct C as (EL & H0 & HT).
  remember (fold_left TestScarOverlaps (addedScars st) st) as st1.
  destruct (fold_insertScar_parts (addedScars st1) st1) as (P1 & P2 & P3 & P4).
  unfold under_threshold. simpl. rewrite P3, P4.
  split; [exact EL | split; [exact H0|]].
  intros j [Hj | []]. rewrite P1. apply HT. rewrite P2 in Hj.
  apply in_app_iff in Hj. exact Hj.
Qed.

(** *** The constructor *)

Lemma int_div_32_nonneg a : 0 <= a <= INT_MAX -> 0 <= a /i 32 <= INT_MAX.
Proof.
  unfold int_div, INT_MAX. intros H.
  assert (Hq : 0 <= a ÷ 32 <= a).
  { rewrite Z.quot_div_nonneg by lia. split.
    - apply Z.div_pos; lia.
    - apply Z.div_le_upper_bound; lia. }
  rewrite wrap_small; unfold INT_MIN, INT_MAX; lia.
Qed.

Lemma cellAt_repeat_nil st n c : scarField st = repeat [] n -> cellAt st c = [].
Proof.
  intros H. unfold cellAt. rewrite H. destruct (c <? 0); [reflexivity|].
  apply nth_repeat.
Qed.

Lemma CGroundDecalHandler_ok e st :
  GetDrawDecals st = true -> mapSane e -> table_ok (CGroundDecalHandler e st).
Proof.
  intros Hd (Hx & Hy & Hxy). unfold CGroundDecalHandler. cbv zeta.
  change (GetDrawDecals (set_objectDecalTypes (set_scarField (set_addedScars st []) []) []))
    with (GetDrawDecals st).
  rewrite Hd. cbv beta iota delta [negb].
  pose proof (int_div_32_nonneg _ Hx) as BW. pose proof (int_div_32_nonneg _ Hy) as BH.
  set (W := mapx (mapDims e) /i 32) in *. set (H := mapy (mapDims e) /i 32) in *.
  assert (EWH : W *i H = W * H).
  { unfold int_mul. apply wrap_small. unfold INT_MIN, INT_MAX in *. nia. }
  remember (Z.to_nat MAX_SCAR_COUNT) as n eqn:En.
  match goal with |- table_ok ?s => set (st' := s) end.
  assert (CE : forall c, cellAt st' c = []).
  { intros c. apply (cellAt_repeat_nil st' (Z.to_nat (W *i H))). reflexivity. }
  assert (E1 : freeScarIDs st' = map Z.of_nat (seq 0 n)) by reflexivity.
  assert (E2 : usedScarIDs st' = []) by reflexivity.
  assert (E3 : addedScars st' = []) by reflexivity.
  assert (E4 : scarFieldX st' = W) by reflexivity.
  assert (E5 : scarFieldY st' = H) by reflexivity.
  assert (E6 : scarField st' = repeat [] (Z.to_nat (W *i H))) by reflexivity.
  clearbody st'.
  constructor; rewrite ?E1, ?E2, ?E3.
  - constructor; rewrite ?E4, ?E5, ?E6; try assumption.
    rewrite repeat_length, EWH. apply Z2Nat.id. nia.
  - apply NoDup_map_NoDup_ForallPairs; [|apply seq_NoDup].
    intros a b _ _ E. lia.
  - constructor.
  - constructor.
  - intros id _ [].
  - intros id _ [].
  - intros id [].
  - intros id [Hin | [[] | []]]. apply in_map_iff in Hin.
    destruct Hin as [k [<- Hk]]. apply in_seq in Hk. unfold MAX_SCAR_COUNT in *.
    clear - En Hk. lia.
  - intros id [[] | []].
  - intros c. rewrite CE. constructor.
  - intros c id Hin. rewrite CE in Hin. destruct Hin.
  - intros id c [].
Qed.

Lemma CGroundDecalHandler_under_threshold e st :
  GetDrawDecals st = true -> decalLevel st < INT_MAX ->
  under_threshold (CGroundDecalHandler e st).
Proof.
  intros Hd Hl. unfold CGroundDecalHandler. cbv zeta.
  change (GetDrawDecals (set_objectDecalTypes (set_scarField (set_addedScars st []) []) []))
    with (GetDrawDecals st).
  rewrite Hd. cbv beta iota delta [negb].
  unfold GetDrawDecals in Hd. apply Z.ltb_lt in Hd.
  unfold under_threshold.
  cbn [maxScarOverlapSize decalLevel usedScarIDs addedScars].
  split; [reflexivity|]. split.
  - change (decalLevel (set_objectDecalTypes (set_scarField (set_addedScars st []) []) []))
      with (decalLevel st).
    unfold int_add. rewrite wrap_small; fits_int.
  - intros id [[] | []].
Qed.

(** *** The sweep *)

Lemma DrawGroundScar_cases e st idx :
  DrawGroundScar e st idx = st \/
  DrawGroundScar e st idx = set_scar st idx (Scar.set_lastDraw (scars st idx) (drawFrame e)).
Proof. unfold DrawGroundScar. destruct (negb _); [left | right]; reflexivity. Qed.

Lemma DrawGroundScar_ok e st idx : table_ok st -> table_ok (DrawGroundScar e st idx).
Proof.
  intros OK. destruct (DrawGroundScar_cases e st idx) as [-> | ->]; [exact OK|].
  apply table_ok_bookkeeping; [exact OK | apply bookkeeping_set_lastDraw].
Qed.

Lemma DrawGroundScar_parts e st idx :
  usedScarIDs (DrawGroundScar e st idx) = usedScarIDs st /\
  freeScarIDs (DrawGroundScar e st idx) = freeScarIDs st /\
  addedScars (DrawGroundScar e st idx) = addedScars st /\
  maxScarOverlapSize (DrawGroundScar e st idx) = maxScarOverlapSize st /\
  decalLevel (DrawGroundScar e st idx) = decalLevel st /\
  (forall j, j <> idx -> scars (DrawGroundScar e st idx) j = scars st j) /\
  (forall j, bookkeeping (scars st j) (scars (DrawGroundScar e st idx) j)) /\
  (forall j, Scar.overdrawn (scars (DrawGroundScar e st idx) j) = Scar.overdrawn (scars st j)).
Proof.
  destruct (DrawGroundScar_cases e st idx) as [-> | ->].
  - refine (conj eq_refl (conj eq_refl (conj eq_refl (conj eq_refl (conj eq_refl
             (conj _ (conj _ _))))))).
    + intros j _. reflexivity.
    + intros j. apply bookkeeping_refl.
    + intros j. reflexivity.
  - refine (conj eq_refl (conj eq_refl (conj eq_refl (conj eq_refl (conj eq_refl
             (conj _ (conj _ _))))))).
    + intros j Hj. apply scars_set_scar_other. exact Hj.
    + intros j. simpl. destruct (j =? idx) eqn:E; [|apply bookkeeping_refl].
      apply Z.eqb_eq in E. subst j. apply bookkeeping_set_lastDraw.
    + intros j. simpl. destruct (j =? idx) eqn:E; [|reflexivity].
      apply Z.eqb_eq in E. subst j. reflexivity.
Qed.

(** The [assert(scar.id == usedScarIDs[i])] of [DrawScars] holds. *)
Lemma DrawScars_assertion st i :
  table_ok st -> (i < List.length (usedScarIDs st))%nat ->
  Scar.id (scars st (nth i (usedScarIDs st) 0)) = nth i (usedScarIDs st) 0.
Proof.
  intros OK Hi. apply (ok_live st OK). left. apply nth_In. exact Hi.
Qed.

Lemma DrawScars_from_ok fuel e : forall st i st',
  table_ok st -> DrawScars_from fuel e st i = Some st' -> table_ok st'.
Proof.
  induction fuel as [|fuel IH]; intros st i st' OK H; simpl in H; [discriminate|].
  destruct (i <? List.length (usedScarIDs st))%nat eqn:E.
  - apply Nat.ltb_lt in E.
    pose proof (nth_In (usedScarIDs st) 0 E) as Hin.
    destruct (Scar.lifeTime _ <? frameNum e).
    + apply (IH _ _ _ (RemoveScar_ok st _ OK Hin) H).
    + apply (IH _ _ _ (DrawGroundScar_ok e st _ OK) H).
  - inversion H; subst. exact OK.
Qed.

Lemma DrawScars_from_fuel_mono fuel e : forall st i st' fuel',
  DrawScars_from fuel e st i = Some st' -> (fuel <= fuel')%nat ->
  DrawScars_from fuel' e st i = Some st'.
Proof.
  induction fuel as [|fuel IH]; intros st i st' fuel' H Hle; simpl in H; [discriminate|].
  destruct fuel' as [|fuel']; [lia|]. simpl.
  destruct (i <? List.length (usedScarIDs st))%nat; [|exact H].
  destruct (Scar.lifeTime _ <? frameNum e); apply IH; try assumption; lia.
Qed.

(** ** The sweep over the scars in use *)

Lemma bookkeeping_lifeTime s s' : bookkeeping s s' -> Scar.lifeTime s' = Scar.lifeTime s.
Proof. intros H. apply H. Qed.

Lemma DrawScars_from_spec fuel e : forall st i,
  table_ok st ->
  (i <= List.length (usedScarIDs st))%nat ->
  (List.length (usedScarIDs st) - i < fuel)%nat ->
  (forall j, (j < i)%nat ->
             frameNum e <= Scar.lifeTime (scars st (nth j (usedScarIDs st) 0))) ->
  exists st', DrawScars_from fuel e st i = Some st' /\ swept e st st'.
Proof.
  induction fuel as [|fuel IH]; intros st i OK Hi Hfuel Hpre; [lia|].
  simpl.
  pose proof (ok_used_nodup st OK) as ND.
  destruct (i <? List.length (usedScarIDs st))%nat eqn:E.
  - apply Nat.ltb_lt in E.
    set (idx := nth i (usedScarIDs st) 0).
    assert (Hidx : In idx (usedScarIDs st)) by (apply nth_In; exact E).
    destruct (Scar.lifeTime (scars st idx) <? frameNum e) eqn:Ex.
    + (* expired: removed, the index stays *)
      apply Z.ltb_lt in Ex.
      destruct (ok_live st OK idx (or_introl Hidx)) as (Eid & _).
      destruct (RemoveScar_parts st idx)
        as (P1 & P2 & P3 & P4 & P5 & P6 & P7 & P8 & P9 & P10 & _).
      rewrite Eid in *.
      pose proof (VectorErase_length_present _ _ Hidx) as Hlen.
      destruct (IH (RemoveScar st idx) i) as (st' & Hrun & Q1 & Q2 & Q3 & Q4 & Q5 & Q6 & Q7 & Q8).
      * apply RemoveScar_ok; assumption.
      * rewrite P3. lia.
      * rewrite P3. lia.
      * intros j Hj. rewrite P3. unfold idx. rewrite VectorErase_prefix by assumption.
        rewrite P1.
        assert (Hne : nth j (usedScarIDs st) 0 <> idx).
        { unfold idx. intros Heq. apply NoDup_nth in Heq; [lia | exact ND | lia | lia]. }
        apply Z.eqb_neq in Hne. rewrite Hne. apply Hpre. exact Hj.
      * exists st'. split; [exact Hrun|].
        assert (Hother : forall id, id <> idx -> scars (RemoveScar st idx) id = scars st id).
        { intros id Hne. rewrite P1. apply Z.eqb_neq in Hne. rewrite Hne. reflexivity. }
        assert (Hused1 : forall id, In id (usedScarIDs (RemoveScar st idx)) <->
                                     In id (usedScarIDs st) /\ id <> idx).
        { intros id. rewrite P3. apply VectorErase_In_iff. exact ND. }
        unfold swept.
        refine (conj _ (conj _ (conj _ (conj _ (conj _ (conj _ (conj _ _))))))).
        -- intros id. rewrite Q1, Hused1. split.
           ++ intros [[Hu Hne] Hl]. rewrite Hother in Hl by exact Hne. tauto.
           ++ intros [Hu Hl]. assert (Hne : id <> idx) by (intros ->; lia).
              rewrite Hother by exact Hne. tauto.
        -- intros id Hn. rewrite Q2.
           ++ apply Hother. intros ->. tauto.
           ++ rewrite Hused1. tauto.
        -- intros id Hu Hl. destruct (Z.eq_dec id idx) as [-> | Hne].
           ++ split.
              ** rewrite Q2; [rewrite P1, Z.eqb_refl; reflexivity|].
                 rewrite Hused1. tauto.
              ** apply Q4. rewrite P2. apply in_app_iff. right. left. reflexivity.
           ++ apply Q3; [rewrite Hused1; tauto|]. rewrite Hother by exact Hne. exact Hl.
        -- intros id Hf. apply Q4. rewrite P2. apply in_app_iff. left. exact Hf.
        -- intros id Hu. pose proof (Q5 id Hu) as Hb.
           apply Q1 in Hu. destruct Hu as [Hu _]. apply Hused1 in Hu. destruct Hu as [_ Hne].
           rewrite Hother in Hb by exact Hne. exact Hb.
        -- congruence.
        -- congruence.
        -- congruence.
    + (* alive: drawn, the index advances *)
      apply Z.ltb_ge in Ex.
      destruct (DrawGroundScar_parts e st idx) as (G1 & G2 & G3 & G4 & G5 & G6 & G7 & G8).
      destruct (IH (DrawGroundScar e st idx) (S i))
        as (st' & Hrun & Q1 & Q2 & Q3 & Q4 & Q5 & Q6 & Q7 & Q8).
      * apply DrawGroundScar_ok. exact OK.
      * rewrite G1. lia.
      * rewrite G1. lia.
      * intros j Hj. rewrite G1. rewrite (bookkeeping_lifeTime _ _ (G7 _)).
        destruct (Nat.eq_dec j i) as [-> | Hne]; [exact Ex | apply Hpre; lia].
      * exists st'. split; [exact Hrun|].
        unfold swept.
        refine (conj _ (conj _ (conj _ (conj _ (conj _ (conj _ (conj _ _))))))).
        -- intros id. rewrite Q1, G1. rewrite (bookkeeping_lifeTime _ _ (G7 _)). tauto.
        -- intros id Hn. rewrite Q2 by (rewrite G1; exact Hn).
           apply G6. intros ->. tauto.
        -- intros id Hu Hl. apply Q3; [rewrite G1; exact Hu|].
           rewrite (bookkeeping_lifeTime _ _ (G7 _)). exact Hl.
        -- intros id Hf. apply Q4. rewrite G2. exact Hf.
        -- intros id Hu. destruct (Q5 id Hu) as [Hb Ho]. split.
           ++ eapply bookkeeping_trans; [apply G7 | exact Hb].
           ++ rewrite Ho. apply G8.
        -- congruence.
        -- congruence.
        -- congruence.
  - apply Nat.ltb_ge in E. exists st. split; [reflexivity|].
    assert (Hall : forall id, In id (usedScarIDs st) ->
                              frameNum e <= Scar.lifeTime (scars st id)).
    { intros id Hu. destruct (In_nth _ _ 0 Hu) as (j & Hj & <-). apply Hpre. lia. }
    unfold swept.
    refine (conj _ (conj _ (conj _ (conj _ (conj _ (conj _ (conj _ _))))))); try reflexivity.
    + intros id. split; [intros Hu; split; [exact Hu | apply Hall; exact Hu] | tauto].
    + intros id Hu Hl. apply Hall in Hu. lia.
    + intros id Hf. exact Hf.
    + intros id _. split; [apply bookkeeping_refl | reflexivity].
Qed.

Lemma DrawScars_under_threshold fuel e st st' :
  table_ok st -> under_threshold st -> (List.length (usedScarIDs st) < fuel)%nat ->
  DrawScars fuel e st = Some st' -> under_threshold st'.
Proof.
  intros OK (EL & H0 & HT) Hfuel Hrun.
  destruct (DrawScars_from_spec fuel e st 0 OK) as (st2 & Hrun2 & Q1 & Q2 & Q3 & Q4 & Q5 & Q6 & Q7 & Q8);
    [lia | lia | intros j Hj; lia |].
  unfold DrawScars in Hrun. rewrite Hrun in Hrun2. inversion Hrun2; subst st2.
  unfold under_threshold. rewrite Q6, Q7, Q8.
  split; [exact EL | split; [exact H0|]].
  intros id [Hu | Ha].
  - destruct (Q5 id Hu) as [_ ->]. apply HT. left. apply Q1 in Hu. tauto.
  - rewrite Q2; [apply HT; right; exact Ha|].
    intros Hu. apply (ok_used_added st OK id Hu Ha).
Qed.

(** C3 (evidence).  The sweep draws no scar it removes: every scar handed
    to [DrawGroundScar] is in use with a [lifeTime] that is the current
    frame number or later. *)
Lemma DrawScars_draws_no_expired fuel e : forall st i id,
  table_ok st ->
  In id (DrawScars_drawn fuel e st i) ->
  In id (usedScarIDs st) /\ frameNum e <= Scar.lifeTime (scars st id).
Proof.
  induction fuel as [|fuel IH]; intros st i id OK H; simpl in H; [destruct H|].
  destruct (i <? List.length (usedScarIDs st))%nat eqn:E; [|destruct H].
  apply Nat.ltb_lt in E.
  set (idx := nth i (usedScarIDs st) 0) in *.
  assert (Hidx : In idx (usedScarIDs st)) by (apply nth_In; exact E).
  destruct (Scar.lifeTime (scars st idx) <? frameNum e) eqn:Ex.
  - destruct (ok_live st OK idx (or_introl Hidx)) as (Eid & _).
    destruct (RemoveScar_parts st idx) as (P1 & _ & P3 & _).
    rewrite Eid in *.
    destruct (IH (RemoveScar st idx) i id (RemoveScar_ok st idx OK Hidx) H) as [Hu Hl].
    rewrite P3 in Hu.
    apply (VectorErase_In_iff _ _ _ (ok_used_nodup st OK)) in Hu. destruct Hu as [Hu Hne].
    rewrite P1 in Hl. apply Z.eqb_neq in Hne. rewrite Hne in Hl. tauto.
  - apply Z.ltb_ge in Ex. destruct H as [<- | H]; [tauto|].
    destruct (DrawGroundScar_parts e st idx) as (G1 & _ & _ & _ & _ & _ & G7 & _).
    destruct (IH (DrawGroundScar e st idx) (S i) id (DrawGroundScar_ok e st idx OK) H)
      as [Hu Hl].
    rewrite G1 in Hu. rewrite (bookkeeping_lifeTime _ _ (G7 _)) in Hl. tauto.
Qed.

(** C3 (amended).  A sweep run with enough fuel ends.  Every scar in use
    whose [lifeTime] is below the current frame number is removed without
    being drawn: it is no longer in use, its record is reset, its id is
    free and in no cell.  Every scar in use whose [lifeTime] is the current
    frame number or later stays in use. *)
Theorem DrawScars_expires_below_frame fuel e st :
  table_ok st -> (List.length (usedScarIDs st) < fuel)%nat ->
  exists st',
    DrawScars fuel e st = Some st' /\
    (forall id, In id (usedScarIDs st) -> Scar.lifeTime (scars st id) < frameNum e ->
       ~ In id (usedScarIDs st') /\ scars st' id = Scar.Reset /\
       In id (freeScarIDs st') /\ forall c, ~ In id (cellAt st' c)) /\
    (forall id, In id (usedScarIDs st) -> frameNum e <= Scar.lifeTime (scars st id) ->
       In id (usedScarIDs st')).
Proof.
  intros OK Hfuel.
  destruct (DrawScars_from_spec fuel e st 0 OK) as (st' & Hrun & Q1 & Q2 & Q3 & Q4 & Q5 & _);
    [lia | lia | intros j Hj; lia |].
  exists st'. split; [exact Hrun|].
  pose proof (DrawScars_from_ok fuel e st 0 st' OK Hrun) as OK'.
  split.
  - intros id Hu Hl. destruct (Q3 id Hu Hl) as [ER EF].
    assert (Hn : ~ In id (usedScarIDs st')) by (rewrite Q1; lia).
    repeat split; try assumption.
    intros c Hc. apply Hn. apply (ok_cell_sound st' OK' c id Hc).
  - intros id Hu Hl. apply Q1. tauto.
Qed.

(** *** Every state the handler passes through *)

Lemma reachable_ok st : reachable st -> table_ok st.
Proof.
  induction 1.
  - apply CGroundDecalHandler_ok; assumption.
  - apply AddExplosion_ok; assumption.
  - apply TestScarOverlaps_ok; assumption.
  - apply AddScars_ok; assumption.
  - eapply DrawScars_from_ok; eassumption.
  - apply table_ok_stamp; assumption.
  - apply table_ok_bookkeeping; assumption.
  - apply RemoveScar_ok; assumption.
Qed.

(** The states one round of the overlap test goes through, the one handed
    to [RemoveScar] on an eviction among them, are states of the handler. *)
Lemma testOverlap_reachable st sid tid :
  reachable st -> sid <> tid -> In tid (usedScarIDs st) ->
  reachable (set_scar st tid (Scar.set_lastTest (scars st tid) (lastScarOverlapTest st))) /\
  reachable (testOverlap st sid tid).
Proof.
  intros R Hne Ht.
  assert (R1 : reachable (set_scar st tid
                 (Scar.set_lastTest (scars st tid) (lastScarOverlapTest st)))).
  { apply reach_bookkeeping; [exact R | exact Ht | apply bookkeeping_set_lastTest]. }
  split; [exact R1|].
  assert (R2 : forall od, reachable (set_scar (set_scar st tid
                 (Scar.set_lastTest (scars st tid) (lastScarOverlapTest st))) tid
                 (Scar.set_overdrawn
                    (Scar.set_lastTest (scars st tid) (lastScarOverlapTest st)) od))).
  { intros od. apply reach_bookkeeping; [exact R1 | exact Ht |].
    rewrite scars_set_scar_same. apply bookkeeping_set_overdrawn. }
  destruct (testOverlap_cases st sid tid Hne)
    as [[E _] | (_ & _ & [[E _] | (_ & _ & [[_ E] | [_ E]])])]; rewrite E.
  - exact R.
  - exact R1.
  - apply R2.
  - apply reach_remove; [apply R2 | exact Ht].
Qed.

Lemma table_ok_no_double_allocation st : table_ok st -> no_double_allocation st.
Proof.
  intros OK. destruct OK as [F N1 N2 N3 D1 D2 D3 R L CN CS CC].
  unfold no_double_allocation.
  refine (conj N1 (conj N2 (conj N3 (conj _ (conj D3 _))))).
  - intros id H. split; [apply D1 | apply D2]; exact H.
  - intros id H. apply (L id H).
Qed.

Lemma cell_of_scarField st q :
  In q (scarField st) -> exists c, cellAt st c = q.
Proof.
  intros H. destruct (In_nth _ _ [] H) as (n & Hn & E).
  exists (Z.of_nat n). unfold cellAt.
  replace (Z.of_nat n <? 0) with false by (symmetry; apply Z.ltb_ge; lia).
  rewrite Nat2Z.id. exact E.
Qed.

(** The id [GetScarID] hands out was free, is neither in use nor queued,
    and is no longer free afterwards. *)
Lemma GetScarID_fresh st id st1 :
  table_ok st -> GetScarID st = (id, st1) -> id <> -1 ->
  In id (freeScarIDs st) /\ ~ In id (usedScarIDs st) /\ ~ In id (addedScars st) /\
  ~ In id (freeScarIDs st1).
Proof.
  intros OK H Hne. unfold GetScarID in H.
  destruct (freeScarIDs st) as [|a l] eqn:Ef.
  { inversion H; subst. congruence. }
  unfold VectorBackPop in H.
  assert (Hnil : a :: l <> []) by discriminate.
  pose proof (app_removelast_last 0 Hnil) as E.
  remember (last (a :: l) 0) as x. remember (removelast (a :: l)) as r.
  inversion H; subst id st1. clear H.
  assert (Hin : In x (freeScarIDs st)).
  { rewrite Ef, E. apply in_app_iff. right. left. reflexivity. }
  split; [rewrite <- Ef; exact Hin|].
  split; [apply (ok_free_used st OK _ Hin)|].
  split; [apply (ok_free_added st OK _ Hin)|].
  cbn [freeScarIDs set_freeScarIDs].
  pose proof (ok_free_nodup st OK) as ND. rewrite Ef, E in ND.
  apply NoDup_remove_2 in ND. rewrite app_nil_r in ND. exact ND.
Qed.

(** C6.  In every state the handler passes through, removing a scar in
    use (by the sweep or by the overlap test) leaves its id in no cell of
    [scarField], out of [usedScarIDs], and exactly once in [freeScarIDs];
    before and after, no id is free and allocated at once, none is listed
    twice, and every allocated record carries its own index; and an id that
    [GetScarID] hands out is neither in use nor queued, and no longer
    free. *)
Theorem RemoveScar_frees_id_once st idx :
  reachable st -> In idx (usedScarIDs st) ->
  (forall q, In q (scarField (RemoveScar st idx)) -> ~ In idx q) /\
  ~ In idx (usedScarIDs (RemoveScar st idx)) /\
  count_occ Z.eq_dec (freeScarIDs (RemoveScar st idx)) idx = 1%nat /\
  no_double_allocation st /\
  no_double_allocation (RemoveScar st idx) /\
  (forall id st1, GetScarID st = (id, st1) -> id <> -1 ->
     ~ In id (usedScarIDs st) /\ ~ In id (addedScars st) /\ ~ In id (freeScarIDs st1)).
Proof.
  intros Hr Hu. pose proof (reachable_ok st Hr) as OK.
  destruct (RemoveScar_recycles st idx OK Hu) as (A & B & C).
  split; [|split; [exact B | split; [exact C | split; [|split]]]].
  - intros q Hq. destruct (cell_of_scarField _ q Hq) as (c & <-). apply A.
  - apply table_ok_no_double_allocation. exact OK.
  - apply table_ok_no_double_allocation. apply RemoveScar_ok; assumption.
  - intros id st1 Hg Hne. apply (GetScarID_fresh st id st1 OK Hg Hne).
Qed.

(** C10 (evidence).  What does hold of the cell ranges.  For the scar an
    explosion queues, provided the conversions of its lower corner to
    [int] were in range: the lower
    bounds [x1 / TEX_QUAD_SIZE] and [y1 / TEX_QUAD_SIZE] are not negative,
    and every [(y, x)] the loops of [AddScars], [TestScarOverlaps] and
    [RemoveScar] visit lies in the grid, with [y * scarFieldX + x] an index
    of [scarField].  A lower bound above its clamped upper bound leaves the
    loops without a single round. *)
Theorem AddExplosion_cells_in_grid e st pos damage radius id :
  table_ok st ->
  In id (addedScars (AddExplosion e st pos damage radius)) ->
  ~ In id (addedScars st) ->
  Scar.x1 (scars (AddExplosion e st pos damage radius) id) <> INT_MIN ->
  Scar.y1 (scars (AddExplosion e st pos damage radius) id) <> INT_MIN ->
  let st' := AddExplosion e st pos damage radius in
  let s := scars st' id in
  0 <= Scar.x1 s /i TEX_QUAD_SIZE /\ 0 <= Scar.y1 s /i TEX_QUAD_SIZE /\
  (forall y x, In (y, x) (cellLoop (cellBounds st' s)) ->
     0 <= y < scarFieldY st' /\ 0 <= x < scarFieldX st' /\
     cellIndex st' (y, x) = y * scarFieldX st' + x /\
     0 <= cellIndex st' (y, x) < Z.of_nat (List.length (scarField st'))) /\
  (scarFieldX st' - 1 < Scar.x1 s /i TEX_QUAD_SIZE \/
   scarFieldY st' - 1 < Scar.y1 s /i TEX_QUAD_SIZE ->
   cellLoop (cellBounds st' s) = []).
Proof.
  intros OK Hin Hnot Hx Hy st' s.
  assert (F' : field_ok st' /\ 0 <= Scar.x1 s <= INT_MAX /\ 0 <= Scar.y1 s <= INT_MAX).
  { unfold s, st' in *.
    destruct (AddExplosion_inv e st pos damage radius (table_ok_free_not_minus_one st OK))
      as [E | (id' & rest & r & Ef & E & Eid & Bx & By & _)]; rewrite E in *; [tauto|].
    simpl in Hin. apply in_app_iff in Hin.
    destruct Hin as [Hin | [<- | []]]; [tauto|].
    simpl in Hx, Hy |- *. rewrite Z.eqb_refl in *.
    split; [|split; [destruct Bx; tauto | destruct By; tauto]].
    apply (field_ok_frame st); [reflexivity .. | apply (ok_field st OK)]. }
  destruct F' as (F' & Bx & By).
  pose proof (int_div_16_nonneg _ Bx) as Dx. pose proof (int_div_16_nonneg _ By) as Dy.
  split; [lia | split; [lia | split]].
  - intros y x Hyx.
    destruct (cells_in_grid st' s y x F' Bx By Hyx) as (A & B & C & D).
    rewrite C. tauto.
  - intros Hover.
    destruct (cellLoop (cellBounds st' s)) as [|[y x] l] eqn:El; [reflexivity|].
    exfalso.
    assert (Hyx : In (y, x) (cellLoop (cellBounds st' s))) by (rewrite El; left; reflexivity).
    destruct (cells_in_grid st' s y x F' Bx By Hyx) as (A & B & _).
    unfold cellBounds in Hyx. apply in_cellLoop in Hyx. lia.
Qed.

(** In a state satisfying [table_ok] the loops stay within [scarField]
    for every scar in use or queued: the model never reads or writes a cell
    outside the vector there. *)
Lemma table_ok_accessesInGrid st id :
  table_ok st -> In id (usedScarIDs st) \/ In id (addedScars st) ->
  accessesInGrid st (scars st id) = true.
Proof.
  intros OK H. unfold accessesInGrid, scarCells. apply forallb_forall.
  intros c Hc. apply in_map_iff in Hc. destruct Hc as ([y x] & <- & Hyx).
  destruct (ok_live st OK id H) as (_ & Bx & By).
  destruct (cells_in_grid st (scars st id) y x (ok_field st OK) Bx By Hyx) as (_ & _ & C & D).
  rewrite <- C in D. unfold cellInGrid.
  apply andb_true_iff. split; [apply Z.leb_le | apply Z.ltb_lt]; lia.
Qed.

(** ** Sample runs *)

Lemma sampleEngine_mapSane f : mapSane (sampleEngine f).
Proof. unfold mapSane. vm_compute. repeat split; intros H; discriminate H. Qed.

Lemma startState_reachable : reachable startState.
Proof. apply reach_start; [reflexivity | apply sampleEngine_mapSane]. Qed.

Lemma sampleState1_reachable : reachable sampleState1.
Proof.
  apply reach_commit. apply reach_explosion; [apply startState_reachable|].
  intros id H. vm_compute in H. destruct H as [<- | []].
  vm_compute. split; intros H; discriminate H.
Qed.

Lemma sampleState2_reachable : reachable sampleState2.
Proof.
  apply reach_explosion; [apply sampleState1_reachable|].
  intros id H. vm_compute in H. destruct H as [<- | []].
  vm_compute. split; intros H; discriminate H.
Qed.

(** A run of explosions and commits from [startState] on leads to a state
    the handler passes through. *)
Ltac reach_by_running :=
  lazymatch goal with
  | |- reachable startState => exact startState_reachable
  | |- reachable (AddScars _) => apply reach_commit; reach_by_running
  | |- reachable (AddExplosion _ _ _ _ _) =>
      apply reach_explosion; [reach_by_running | queued_in_range]
  end.

Lemma sampleState6_reachable : reachable sampleState6.
Proof. unfold sampleState6, sampleState1. reach_by_running. Qed.

Lemma coveredState_reachable : reachable coveredState.
Proof. unfold coveredState, explodeAt, smallExplosion. reach_by_running. Qed.

Lemma crowdedState_reachable : reachable crowdedState.
Proof. unfold crowdedState, blast. reach_by_running. Qed.

Lemma startState_under_threshold : under_threshold startState.
Proof. apply CGroundDecalHandler_under_threshold; by_running. Qed.

Lemma sampleState2_under_threshold : under_threshold sampleState2.
Proof.
  apply AddExplosion_under_threshold; [apply reachable_ok, sampleState1_reachable|].
  apply AddScars_under_threshold.
  - apply AddExplosion_ok; [apply reachable_ok, startState_reachable|].
    intros id H. vm_compute in H. destruct H as [<- | []].
    vm_compute. split; intros H; discriminate H.
  - apply AddExplosion_under_threshold;
      [apply reachable_ok, startState_reachable | apply startState_under_threshold].
Qed.

(** C1 at work: scar 4095 in use ([lifeTime] 1800), the scar 4094 of a
    weaker explosion ([lifeTime] 901) queued on top of it.  The old scar
    outlives the new one; the pass leaves it in use, its record
    untouched. *)
Lemma TestScarOverlaps_spares_longer_lived_witness :
  table_ok sampleState6 /\
  In 4094 (addedScars sampleState6) /\ In 4095 (usedScarIDs sampleState6) /\
  Scar.lifeTime (scars sampleState6 4094) < Scar.lifeTime (scars sampleState6 4095) /\
  In 4095 (usedScarIDs (TestScarOverlaps sampleState6 4094)) /\
  scars (TestScarOverlaps sampleState6 4094) 4095 = scars sampleState6 4095.
Proof.
  assert (OK : table_ok sampleState6) by apply reachable_ok, sampleState6_reachable.
  assert (Hs : In 4094 (addedScars sampleState6)) by by_running.
  assert (Ht : In 4095 (usedScarIDs sampleState6)) by by_running.
  assert (Hl : Scar.lifeTime (scars sampleState6 4094)
               < Scar.lifeTime (scars sampleState6 4095)) by (vm_compute; reflexivity).
  split; [exact OK | split; [exact Hs | split; [exact Ht | split; [exact Hl|]]]].
  exact (proj2 (TestScarOverlaps_spares_longer_lived sampleState6 4094 4095 OK Hs Ht) Hl).
Defined.

(** C2 (evidence) at work, on the same state. *)
Lemma TestScarOverlaps_evicts_over_threshold_witness :
  table_ok sampleState2 /\ under_threshold sampleState2 /\
  In 4094 (addedScars sampleState2) /\ In 4095 (usedScarIDs sampleState2) /\
  (~ In 4095 (usedScarIDs (testOverlap sampleState2 4094 4095)) <->
   evicted_by (lastScarOverlapTest sampleState2) (decalLevel sampleState2 +i 1)
     (scars sampleState2 4094) (scars sampleState2 4095)) /\
  (In 4095 (usedScarIDs (testOverlap sampleState2 4094 4095)) ->
   Scar.overdrawn (scars (testOverlap sampleState2 4094 4095) 4095)
   <= decalLevel sampleState2 +i 1) /\
  (~ In 4095 (usedScarIDs (TestScarOverlaps sampleState2 4094)) ->
   evicted_by (lastScarOverlapTest sampleState2 +i 1) (decalLevel sampleState2 +i 1)
     (scars sampleState2 4094) (scars sampleState2 4095)) /\
  (In 4095 (usedScarIDs (TestScarOverlaps sampleState2 4094)) ->
   Scar.overdrawn (scars (TestScarOverlaps sampleState2 4094) 4095)
   <= decalLevel sampleState2 +i 1).
Proof.
  assert (OK : table_ok sampleState2) by apply reachable_ok, sampleState2_reachable.
  assert (UT : under_threshold sampleState2) by apply sampleState2_under_threshold.
  assert (Hs : In 4094 (addedScars sampleState2)) by by_running.
  assert (Ht : In 4095 (usedScarIDs sampleState2)) by by_running.
  split; [exact OK | split; [exact UT | split; [exact Hs | split; [exact Ht|]]]].
  exact (TestScarOverlaps_evicts_over_threshold sampleState2 4094 4095 OK UT Hs Ht).
Defined.

(** C9 at work, on the same state. *)
Lemma TestScarOverlaps_adds_overlap_once_witness :
  table_ok sampleState2 /\
  In 4094 (addedScars sampleState2) /\ In 4095 (usedScarIDs sampleState2) /\
  lastScarOverlapTest (TestScarOverlaps sampleState2 4094)
    = lastScarOverlapTest sampleState2 +i 1 /\
  (scars (TestScarOverlaps sampleState2 4094) 4095 = scars sampleState2 4095 \/
   scars (TestScarOverlaps sampleState2 4094) 4095 =
     Scar.set_lastTest (scars sampleState2 4095) (lastScarOverlapTest sampleState2 +i 1) \/
   scars (TestScarOverlaps sampleState2 4094) 4095 =
     Scar.set_overdrawn
       (Scar.set_lastTest (scars sampleState2 4095) (lastScarOverlapTest sampleState2 +i 1))
       (Scar.overdrawn (scars sampleState2 4095) +i
        (ScarOverlapSize (scars sampleState2 4094) (scars sampleState2 4095) /i
         Scar.basesize (scars sampleState2 4095))) \/
   scars (TestScarOverlaps sampleState2 4094) 4095 = Scar.Reset /\
     ~ In 4095 (usedScarIDs (TestScarOverlaps sampleState2 4094))) /\
  (forall stc s,
     Scar.lastTest (scars stc 4095) = lastScarOverlapTest stc ->
     testOverlap stc s 4095 = stc).
Proof.
  assert (OK : table_ok sampleState2) by apply reachable_ok, sampleState2_reachable.
  assert (Hs : In 4094 (addedScars sampleState2)) by by_running.
  assert (Ht : In 4095 (usedScarIDs sampleState2)) by by_running.
  split; [exact OK | split; [exact Hs | split; [exact Ht|]]].
  exact (TestScarOverlaps_adds_overlap_once sampleState2 4094 4095 OK Hs Ht).
Defined.

(** C3 (counterexample).  Scar 4095 has [lifeTime] 1800; the sweep of
    frame 1800 keeps it in use. *)
Lemma DrawScars_keeps_scar_on_last_frame :
  In 4095 (usedScarIDs sampleState1) /\
  Scar.lifeTime (scars sampleState1 4095) = frameNum (sampleEngine 1800) /\
  match DrawScars 2 (sampleEngine 1800) sampleState1 with
  | Some st' => In 4095 (usedScarIDs st')
  | None => False
  end.
Proof. split; [by_running|]. split; by_running. Qed.

(** C3 (amended) at work: the sweep of frame 1801. *)
Lemma DrawScars_expires_below_frame_witness :
  table_ok sampleState1 /\ (List.length (usedScarIDs sampleState1) < 2)%nat /\
  exists st',
    DrawScars 2 (sampleEngine 1801) sampleState1 = Some st' /\
    (forall id, In id (usedScarIDs sampleState1) ->
       Scar.lifeTime (scars sampleState1 id) < frameNum (sampleEngine 1801) ->
       ~ In id (usedScarIDs st') /\ scars st' id = Scar.Reset /\
       In id (freeScarIDs st') /\ forall c, ~ In id (cellAt st' c)) /\
    (forall id, In id (usedScarIDs sampleState1) ->
       frameNum (sampleEngine 1801) <= Scar.lifeTime (scars sampleState1 id) ->
       In id (usedScarIDs st')).
Proof.
  assert (OK : table_ok sampleState1) by apply reachable_ok, sampleState1_reachable.
  assert (Hf : (List.length (usedScarIDs sampleState1) < 2)%nat) by (vm_compute; lia).
  split; [exact OK | split; [exact Hf|]].
  exact (DrawScars_expires_below_frame 2 (sampleEngine 1801) sampleState1 OK Hf).
Defined.

(** C6 at work: scar 4095, in use, removed. *)
Lemma RemoveScar_frees_id_once_witness :
  reachable sampleState1 /\ In 4095 (usedScarIDs sampleState1) /\
  (forall q, In q (scarField (RemoveScar sampleState1 4095)) -> ~ In 4095 q) /\
  ~ In 4095 (usedScarIDs (RemoveScar sampleState1 4095)) /\
  count_occ Z.eq_dec (freeScarIDs (RemoveScar sampleState1 4095)) 4095 = 1%nat /\
  no_double_allocation sampleState1 /\
  no_double_allocation (RemoveScar sampleState1 4095) /\
  (forall id st1, GetScarID sampleState1 = (id, st1) -> id <> -1 ->
     ~ In id (usedScarIDs sampleState1) /\ ~ In id (addedScars sampleState1) /\
     ~ In id (freeScarIDs st1)).
Proof.
  assert (Hr : reachable sampleState1) by apply sampleState1_reachable.
  assert (Hu : In 4095 (usedScarIDs sampleState1)) by by_running.
  split; [exact Hr | split; [exact Hu|]].
  exact (RemoveScar_frees_id_once sampleState1 4095 Hr Hu).
Defined.

(** C10 (evidence).  The lower bounds are not clamped.  An explosion with
    damage -400 and radius 100 at x = 500 on the 64 x 64 map: the radius
    becomes
    [min(100, -400 * 0.25) = -100], so [x1 = int((500 + 100) / 16) = 37] and
    [x1 / TEX_QUAD_SIZE = 2], above [scarFieldX - 1 = 1]. *)
Lemma AddExplosion_lower_bound_past_grid :
  In 4095 (addedScars sampleState3) /\
  ~ In 4095 (addedScars startState) /\
  Scar.x1 (scars sampleState3 4095) = 37 /\
  scarFieldX sampleState3 = 2 /\
  ~ (Scar.x1 (scars sampleState3 4095) /i TEX_QUAD_SIZE <= scarFieldX sampleState3 - 1).
Proof.
  split; [by_running|]. split; [by_running|]. split; [by_running|]. split; [by_running|].
  vm_compute. intros H. apply H. reflexivity.
Qed.

(** C10 (evidence) at work: the scar queued by the second sample
    explosion. *)
Lemma AddExplosion_cells_in_grid_witness :
  table_ok sampleState1 /\
  0 <= Scar.x1 (scars (AddExplosion (sampleEngine 1) sampleState1 (groundPos 100 100)
                         (F32.of_int 200) (F32.of_int 50)) 4094) /i TEX_QUAD_SIZE /\
  0 <= Scar.y1 (scars (AddExplosion (sampleEngine 1) sampleState1 (groundPos 100 100)
                         (F32.of_int 200) (F32.of_int 50)) 4094) /i TEX_QUAD_SIZE /\
  (forall y x,
     In (y, x)
       (cellLoop
          (cellBounds
             (AddExplosion (sampleEngine 1) sampleState1 (groundPos 100 100)
                (F32.of_int 200) (F32.of_int 50))
             (scars (AddExplosion (sampleEngine 1) sampleState1 (groundPos 100 100)
                       (F32.of_int 200) (F32.of_int 50)) 4094))) ->
     0 <= y < scarFieldY (AddExplosion (sampleEngine 1) sampleState1 (groundPos 100 100)
                            (F32.of_int 200) (F32.of_int 50)) /\
     0 <= x < scarFieldX (AddExplosion (sampleEngine 1) sampleState1 (groundPos 100 100)
                            (F32.of_int 200) (F32.of_int 50))).
Proof.
  assert (OK : table_ok sampleState1) by apply reachable_ok, sampleState1_reachable.
  split; [exact OK|].
  assert (Hin : In 4094 (addedScars (AddExplosion (sampleEngine 1) sampleState1
                  (groundPos 100 100) (F32.of_int 200) (F32.of_int 50))))
    by by_running.
  assert (Hn : ~ In 4094 (addedScars sampleState1)) by by_running.
  assert (Hx : Scar.x1 (scars (AddExplosion (sampleEngine 1) sampleState1
                  (groundPos 100 100) (F32.of_int 200) (F32.of_int 50)) 4094) <> INT_MIN)
    by (vm_compute; intros H; discriminate H).
  assert (Hy : Scar.y1 (scars (AddExplosion (sampleEngine 1) sampleState1
                  (groundPos 100 100) (F32.of_int 200) (F32.of_int 50)) 4094) <> INT_MIN)
    by (vm_compute; intros H; discriminate H).
  pose proof (AddExplosion_cells_in_grid (sampleEngine 1) sampleState1 (groundPos 100 100)
                (F32.of_int 200) (F32.of_int 50) 4094 OK Hin Hn Hx Hy) as T.
  cbv zeta in T. destruct T as (A & B & C & _).
  split; [exact A | split; [exact B|]].
  intros y x Hyx. destruct (C y x Hyx) as (Cy & Cx & _). split; [exact Cy | exact Cx].
Defined.

(** C10.  [AddExplosion] queues a scar for which the loops of [AddScars],
    [TestScarOverlaps] and [RemoveScar] leave the grid.  From the state the
    constructor leaves on the 64 x 64 map (a scar field of 2 x 2 cells), an
    explosion with damage -1e12 and radius 1e12 queues scar 4095 with
    [x1 = x2 = y1 = y2 = INT_MIN]: only the upper bounds are clamped, so the
    loops make one round, at [(y, x) = (-134217728, -134217728)], and
    [y * scarFieldX + x] is -402653184, no index of the four cells of
    [scarField]. *)
Theorem AddExplosion_cell_outside_grid :
  reachable startState /\
  ~ In 4095 (addedScars startState) /\
  addedScars sampleState4 = [4095] /\
  Scar.x1 (scars sampleState4 4095) = INT_MIN /\
  Scar.x2 (scars sampleState4 4095) = INT_MIN /\
  Scar.y1 (scars sampleState4 4095) = INT_MIN /\
  Scar.y2 (scars sampleState4 4095) = INT_MIN /\
  cellLoop (cellBounds sampleState4 (scars sampleState4 4095))
    = [(-134217728, -134217728)] /\
  cellIndex sampleState4 (-134217728, -134217728) = -402653184 /\
  Z.of_nat (List.length (scarField sampleState4)) = 4 /\
  accessesInGrid sampleState4 (scars sampleState4 4095) = false.
Proof.
  split; [apply startState_reachable|].
  split; [run|]. split; [run|]. split; [run|]. split; [run|]. split; [run|].
  split; [run|]. split; [run|]. split; [run|]. split; run.
Qed.

(** C2.  The pass does not evict by the threshold, either way round.

    Evicted below it: in [coveredState] the small scar 4095 has been
    covered, each time entirely, by the scars 4094 and 4093 and is covered
    by the queued scar 4092; an overlap of its whole rectangle is a ratio
    of 1, three of them make 3, and the threshold is 4.  [ScarOverlapSize]
    returns 36 texels for the 16 of the rectangle, the counter takes 2 each
    time, stands at 4 and the pass for 4092 takes the scar out.

    Kept above it: in [crowdedState] all rectangles are the same and every
    count is exact.  Scar 4090 has been covered four times, its counter is
    4, it shares the one cell of the queued scar 4091, does not carry the
    stamp of the pass and does not outlive 4091: the addition of this pass
    would take it to 5.  The pass removes scar 4093 and then scar 4092
    from the cell; each removal moves the back of the cell into the slot
    just tested and the index steps on.  The second removal moves 4090:
    it never gets its round and stays in use, its record untouched, also
    after [AddScars]. *)
Theorem TestScarOverlaps_eviction_misses_threshold :
  (reachable coveredState /\
   In 4092 (addedScars coveredState) /\ In 4095 (usedScarIDs coveredState) /\
   maxScarOverlapSize coveredState = decalLevel coveredState +i 1 /\
   maxScarOverlapSize coveredState = 4 /\
   (forall k, In k [4094; 4093; 4092] ->
      rectIntersectionArea (scars coveredState k) (scars coveredState 4095)
        = Scar.basesize (scars coveredState 4095) /\
      ScarOverlapSize (scars coveredState k) (scars coveredState 4095) /i
        Scar.basesize (scars coveredState 4095) = 2) /\
   Scar.overdrawn (scars coveredState 4095) = 4 /\
   ~ In 4095 (usedScarIDs (TestScarOverlaps coveredState 4092))) /\
  (reachable crowdedState /\
   In 4091 (addedScars crowdedState) /\ In 4090 (usedScarIDs crowdedState) /\
   scarCells crowdedState (scars crowdedState 4091) = [0] /\
   cellAt crowdedState 0 = [4089; 4088; 4093; 4092; 4095; 4090; 4094] /\
   maxScarOverlapSize crowdedState = 4 /\
   Scar.overdrawn (scars crowdedState 4090) = 4 /\
   evicted_by (lastScarOverlapTest crowdedState +i 1) (decalLevel crowdedState +i 1)
     (scars crowdedState 4091) (scars crowdedState 4090) /\
   ScarOverlapSize (scars crowdedState 4091) (scars crowdedState 4090)
     = rectIntersectionArea (scars crowdedState 4091) (scars crowdedState 4090) /\
   ~ In 4093 (usedScarIDs (TestScarOverlaps crowdedState 4091)) /\
   ~ In 4092 (usedScarIDs (TestScarOverlaps crowdedState 4091)) /\
   In 4090 (usedScarIDs (TestScarOverlaps crowdedState 4091)) /\
   scars (TestScarOverlaps crowdedState 4091) 4090 = scars crowdedState 4090 /\
   cellAt (TestScarOverlaps crowdedState 4091) 0 = [4089; 4088; 4094; 4090; 4095] /\
   In 4090 (usedScarIDs (AddScars crowdedState)) /\
   Scar.overdrawn (scars (AddScars crowdedState) 4090) = 4).
Proof.
  split.
  - split; [apply coveredState_reachable|].
    split; [vm_compute; left; reflexivity|].
    split; [vm_compute; left; reflexivity|].
    split; [run|]. split; [run|].
    split.
    { intros k [<- | [<- | [<- | []]]]; split; run. }
    split; [run|].
    vm_compute. intros [H | [H | []]]; discriminate H.
  - split; [apply crowdedState_reachable|].
    split; [vm_compute; left; reflexivity|].
    split; [vm_compute; tauto|].
    split; [run|]. split; [run|]. split; [run|]. split; [run|].
    split.
    { unfold evicted_by. split; [run|]. split; [run|]. split; [run|]. split; run. }
    split; [run|].
    split; [vm_compute; intros H; repeat (destruct H as [H | H]; [discriminate H|]); exact H|].
    split; [vm_compute; intros H; repeat (destruct H as [H | H]; [discriminate H|]); exact H|].
    split; [vm_compute; tauto|].
    split; [run|]. split; [run|].
    split; [vm_compute; tauto|].
    run.
Qed.

(** ** The scenarios of the spec, run *)

(** Scenario 1: a long-lived scar (4095, [lifeTime] 1800), then a weaker
    explosion on top of it whose scar (4094) lives until frame 901.  The
    pass for the new scar leaves the old one alone: still in use, never
    stamped, nothing added to its counter. *)
Example scenario_short_lived_does_not_evict :
  Scar.lifeTime (scars (smallExplosion 1 sampleState1) 4094) = 901 /\
  Scar.lifeTime (scars (smallExplosion 1 sampleState1) 4095) = 1800 /\
  usedScarIDs (smallExplosion 1 sampleState1) = [4095; 4094] /\
  Scar.lastTest (scars (smallExplosion 1 sampleState1) 4095) = 0 /\
  Scar.overdrawn (scars (smallExplosion 1 sampleState1) 4095) = 0.
Proof.
  split; [by_running|]. split; [by_running|]. split; [by_running|]. split; by_running.
Qed.

(** Scenario 2, where it comes out as the spec has it: a scar overlapped
    again and again by scars of the same rectangle that live at least as
    long, the old scar first in its cell.  At level 3 the threshold is 4;
    each new scar covers the old one entirely and adds 1.  After four the
    old scar is still in use with its counter at 4; the fifth takes it out,
    and its id is the next to be handed out. *)
Example scenario_evicted_when_threshold_crossed :
  maxScarOverlapSize sampleState5 = 4 /\
  In 4095 (usedScarIDs sampleState5) /\
  Scar.overdrawn (scars sampleState5 4095) = 4 /\
  ~ In 4095 (usedScarIDs (explodeAt 5 sampleState5)) /\
  last (freeScarIDs (explodeAt 5 sampleState5)) 0 = 4095.
Proof.
  split; [by_running|]. split; [by_running|]. split; [by_running|].
  split; [|by_running].
  vm_compute. intros H. repeat (destruct H as [H | H]; [discriminate H|]). exact H.
Qed.

(** The missed case of [ScarOverlapSize] in a run: a small scar (4095,
    rectangle 4..8 both ways, 16 texels) and then a stronger explosion whose
    scar (4094, rectangle 3..10) covers it once.  The overlap is taken as
    36 texels instead of 16, and 36 / 16 = 2 is added to the counter. *)
Example nested_scar_counted_twice :
  rectIntersectionArea (scars (explodeAt 1 (smallExplosion 0 startState)) 4094)
                       (scars (explodeAt 1 (smallExplosion 0 startState)) 4095) = 16 /\
  ScarOverlapSize (scars (explodeAt 1 (smallExplosion 0 startState)) 4094)
                  (scars (explodeAt 1 (smallExplosion 0 startState)) 4095) = 36 /\
  Scar.basesize (scars (explodeAt 1 (smallExplosion 0 startState)) 4095) = 16 /\
  Scar.overdrawn (scars (explodeAt 1 (smallExplosion 0 startState)) 4095) = 2.
Proof. split; [by_running|]. split; [by_running|]. split; by_running. Qed.

(* ================================================================== *)
(** * Part III: the table over a frame, the object decals, the atlas    *)
(* ================================================================== *)

(** ** Runs of elementary changes *)

Lemma steps_trans a b c : steps a b -> steps b c -> steps a c.
Proof.
  intros H1 H2. induction H2 as [|b c1 c2 _ IH S]; [exact H1|].
  eapply steps_snoc; [apply IH; exact H1 | exact S].
Qed.

Lemma steps_one a b : step a b -> steps a b.
Proof. intros S. eapply steps_snoc; [apply steps_refl | exact S]. Qed.

(** One round of the overlap test is a run of elementary changes. *)
Lemma testOverlap_steps st sid tid :
  sid <> tid -> In tid (usedScarIDs st) -> steps st (testOverlap st sid tid).
Proof.
  intros Hne Ht.
  assert (S1 : step st (set_scar st tid
                 (Scar.set_lastTest (scars st tid) (lastScarOverlapTest st)))).
  { apply step_bookkeeping; [exact Ht | apply bookkeeping_set_lastTest]. }
  assert (S2 : forall od, step
                 (set_scar st tid (Scar.set_lastTest (scars st tid) (lastScarOverlapTest st)))
                 (set_scar (set_scar st tid
                    (Scar.set_lastTest (scars st tid) (lastScarOverlapTest st))) tid
                    (Scar.set_overdrawn
                       (Scar.set_lastTest (scars st tid) (lastScarOverlapTest st)) od))).
  { intros od. apply step_bookkeeping; [exact Ht|].
    rewrite scars_set_scar_same. apply bookkeeping_set_overdrawn. }
  destruct (testOverlap_cases st sid tid Hne)
    as [[E _] | (_ & _ & [[E _] | (_ & _ & [[_ E] | [_ E]])])]; rewrite E.
  - apply steps_refl.
  - apply steps_one. exact S1.
  - eapply steps_snoc; [apply steps_one; exact S1 | apply S2].
  - eapply steps_snoc; [eapply steps_snoc; [apply steps_one; exact S1 | apply S2]|].
    apply step_remove. exact Ht.
Qed.

Lemma testQuad_steps st0 sid c fuel : forall stc i,
  table_ok st0 -> In sid (addedScars st0) -> in_pass st0 sid stc ->
  steps stc (testQuad fuel stc sid c i).
Proof.
  induction fuel as [|fuel IH]; intros stc i OK0 Hs IP; simpl; [apply steps_refl|].
  destruct (i <? List.length (cellAt stc c))%nat eqn:E; [|apply steps_refl].
  apply Nat.ltb_lt in E.
  pose proof (nth_In (cellAt stc c) 0 E) as Hin.
  destruct (ok_cell_sound stc (ip_ok _ _ _ IP) c _ Hin) as [Hu _].
  assert (Hne : sid <> nth i (cellAt stc c) 0).
  { intros Heq. rewrite <- Heq in Hu.
    apply (ok_used_added stc (ip_ok _ _ _ IP) sid Hu).
    rewrite (ip_added _ _ _ IP). exact Hs. }
  eapply steps_trans; [apply testOverlap_steps; [exact Hne | exact Hu]|].
  apply IH; try assumption. apply in_pass_step; assumption.
Qed.

Lemma fold_testQuad_steps st0 sid l : forall stc,
  table_ok st0 -> In sid (addedScars st0) -> in_pass st0 sid stc ->
  steps stc
    (fold_left
       (fun st yx => let c := cellIndex st yx in
                     testQuad (List.length (cellAt st c)) st sid c 0)
       l stc).
Proof.
  induction l as [|yx l IH]; intros stc OK0 Hs IP; simpl; [apply steps_refl|].
  eapply steps_trans;
    [exact (testQuad_steps st0 sid (cellIndex stc yx)
              (List.length (cellAt stc (cellIndex stc yx))) stc 0%nat OK0 Hs IP)|].
  apply IH; try assumption. apply testQuad_in_pass; assumption.
Qed.

(** The overlap pass is a run of elementary changes. *)
Lemma TestScarOverlaps_steps st sid :
  table_ok st -> In sid (addedScars st) -> steps st (TestScarOverlaps st sid).
Proof.
  intros OK Hs. unfold TestScarOverlaps. cbv zeta.
  eapply steps_trans; [apply steps_one; apply step_stamp|].
  apply (fold_testQuad_steps (set_lastScarOverlapTest st (lastScarOverlapTest st +i 1)) sid).
  - apply table_ok_stamp. exact OK.
  - exact Hs.
  - apply in_pass_start. apply table_ok_stamp. exact OK.
Qed.

Lemma fold_TestScarOverlaps_steps l : forall st,
  table_ok st -> (forall sid, In sid l -> In sid (addedScars st)) ->
  steps st (fold_left TestScarOverlaps l st).
Proof.
  induction l as [|sid l IH]; intros st OK Hl; simpl; [apply steps_refl|].
  assert (Hs : In sid (addedScars st)) by (apply Hl; left; reflexivity).
  pose proof (TestScarOverlaps_in_pass st sid OK Hs) as IP.
  pose proof (ip_added _ _ _ IP) as Ea. simpl in Ea.
  eapply steps_trans; [apply (TestScarOverlaps_steps st sid OK Hs)|].
  apply IH; [exact (ip_ok _ _ _ IP)|].
  intros s Hin. rewrite Ea. apply Hl. right. exact Hin.
Qed.

(** The sweep is a run of elementary changes. *)
Lemma DrawScars_from_steps fuel e : forall st i st',
  DrawScars_from fuel e st i = Some st' -> steps st st'.
Proof.
  induction fuel as [|fuel IH]; intros st i st' H; simpl in H; [discriminate|].
  destruct (i <? List.length (usedScarIDs st))%nat eqn:E.
  - apply Nat.ltb_lt in E. pose proof (nth_In (usedScarIDs st) 0 E) as Hin.
    destruct (Scar.lifeTime (scars st (nth i (usedScarIDs st) 0)) <? frameNum e).
    + eapply steps_trans; [apply steps_one; apply step_remove; exact Hin|].
      eapply IH. exact H.
    + eapply steps_trans; [|eapply IH; exact H].
      unfold DrawGroundScar. destruct (negb _); [apply steps_refl|].
      apply steps_one. apply step_bookkeeping; [exact Hin | apply bookkeeping_set_lastDraw].
  - inversion H. apply steps_refl.
Qed.

Lemma AddScars_commitScars st :
  AddScars st = commitScars (fold_left TestScarOverlaps (addedScars st) st).
Proof. reflexivity. Qed.

(** ** The ids of the table *)

Lemma rotate_Permutation (r : list Z) a :
  Permutation (a :: r) (last (a :: r) 0 :: removelast (a :: r)).
Proof.
  assert (Hne : a :: r <> []) by discriminate.
  pose proof (app_removelast_last 0 Hne) as E.
  rewrite E at 1. apply Permutation_sym. apply Permutation_cons_append.
Qed.

Lemma VectorErase_Permutation v e :
  In e v -> Permutation v (e :: VectorErase v e).
Proof.
  induction v as [|a r IH]; intros H; [destruct H|].
  simpl. destruct (a =? e) eqn:E.
  - apply Z.eqb_eq in E. subst a. constructor.
    destruct r as [|b r']; [constructor|]. apply rotate_Permutation.
  - destruct H as [H | H]; [apply Z.eqb_neq in E; congruence|].
    eapply Permutation_trans; [apply perm_skip; apply IH; exact H|]. apply perm_swap.
Qed.

Lemma steps_ok st st' : steps st st' -> table_ok st -> table_ok st'.
Proof.
  induction 1 as [|st st1 st2 _ IH S]; intros OK; [exact OK|].
  specialize (IH OK). destruct S.
  - apply table_ok_stamp. exact IH.
  - apply table_ok_bookkeeping; assumption.
  - apply RemoveScar_ok; assumption.
Qed.

(** An elementary change moves no id but from the ids in use to the free
    ids. *)
Lemma step_ids st st' :
  table_ok st -> step st st' ->
  Permutation (freeScarIDs st' ++ usedScarIDs st' ++ addedScars st')
              (freeScarIDs st ++ usedScarIDs st ++ addedScars st).
Proof.
  intros OK S. destruct S as [st v | st id s Hin BK | st idx Hin].
  - apply Permutation_refl.
  - apply Permutation_refl.
  - destruct (RemoveScar_parts st idx) as (_ & P2 & P3 & P4 & _).
    destruct (ok_live st OK idx (or_introl Hin)) as (Eid & _).
    rewrite P2, P3, P4, Eid. rewrite <- app_assoc. simpl.
    apply Permutation_app_head. apply Permutation_sym.
    rewrite app_comm_cons.
    apply Permutation_app_tail. apply VectorErase_Permutation. exact Hin.
Qed.

Lemma steps_ids st st' :
  steps st st' -> table_ok st ->
  Permutation (freeScarIDs st' ++ usedScarIDs st' ++ addedScars st')
              (freeScarIDs st ++ usedScarIDs st ++ addedScars st).
Proof.
  induction 1 as [|st st1 st2 H IH S]; intros OK; [apply Permutation_refl|].
  eapply Permutation_trans; [|apply IH; exact OK].
  apply step_ids; [|exact S]. apply (steps_ok st st1 H OK).
Qed.

Lemma fold_insertScar_free l : forall st,
  freeScarIDs (fold_left insertScar l st) = freeScarIDs st.
Proof.
  induction l as [|id l IH]; intros st; simpl; [reflexivity|].
  rewrite IH. rewrite insertScar_unfold. cbv zeta.
  destruct (fold_insert (Scar.id (scars st id)) (cellLoop (cellBounds st (scars st id))) st)
    as [(_ & S2 & _) _].
  cbv zeta in *.
  remember (fold_left (insertStep (Scar.id (scars st id)))
              (cellLoop (cellBounds st (scars st id))) st) as st1.
  simpl. exact S2.
Qed.

Lemma commitScars_ids st :
  freeScarIDs (commitScars st) = freeScarIDs st /\
  usedScarIDs (commitScars st) = usedScarIDs st ++ addedScars st /\
  addedScars (commitScars st) = [].
Proof.
  unfold commitScars.
  destruct (fold_insertScar_parts (addedScars st) st) as (_ & B & _).
  pose proof (fold_insertScar_free (addedScars st) st) as F.
  remember (fold_left insertScar (addedScars st) st) as st1.
  simpl. rewrite F, B. repeat split.
Qed.

(** X13.  No scar id is lost or made up: in every state the handler can
    reach, the free, used and queued ids together are the ids 0 ..
    MAX_SCAR_COUNT - 1, each once. *)
Theorem scar_ids_conserved st :
  reachable st ->
  Permutation (freeScarIDs st ++ usedScarIDs st ++ addedScars st) allScarIDs /\
  (List.length (freeScarIDs st) + List.length (usedScarIDs st)
     + List.length (addedScars st) = Z.to_nat MAX_SCAR_COUNT)%nat.
Proof.
  intros R.
  assert (P : Permutation (freeScarIDs st ++ usedScarIDs st ++ addedScars st) allScarIDs).
  { induction R as [e st G M | e st pos damage radius R IH RC | st sid R IH Hs | st R IH
                   | fuel e st st' R IH D | st v R IH | st id s R IH Hin BK | st idx R IH Hin].
    - unfold CGroundDecalHandler.
      replace (GetDrawDecals
                 (set_objectDecalTypes (set_scarField (set_addedScars st []) []) []))
        with (GetDrawDecals st) by reflexivity.
      rewrite G. cbn [negb freeScarIDs usedScarIDs addedScars]. rewrite !app_nil_r.
      apply Permutation_refl.
    - pose proof (reachable_ok st R) as OK.
      destruct (AddExplosion_inv e st pos damage radius (table_ok_free_not_minus_one st OK))
        as [E | (id & rest & s & Ef & E & _)]; rewrite E; [exact IH|].
      cbn [freeScarIDs usedScarIDs addedScars set_addedScars set_scar set_rngCalls
           set_freeScarIDs]. rewrite Ef in IH.
      eapply Permutation_trans; [|exact IH].
      rewrite <- !app_assoc. apply Permutation_app_head.
      simpl. rewrite !app_assoc. apply Permutation_sym. apply Permutation_cons_append.
    - pose proof (reachable_ok st R) as OK.
      eapply Permutation_trans; [|exact IH].
      apply steps_ids; [|exact OK]. apply TestScarOverlaps_steps; assumption.
    - pose proof (reachable_ok st R) as OK.
      rewrite AddScars_commitScars.
      destruct (commitScars_ids (fold_left TestScarOverlaps (addedScars st) st))
        as (A & B & C).
      rewrite A, B, C, app_nil_r.
      eapply Permutation_trans; [|exact IH].
      apply steps_ids; [|exact OK].
      apply fold_TestScarOverlaps_steps; [exact OK | tauto].
    - pose proof (reachable_ok st R) as OK.
      eapply Permutation_trans; [|exact IH].
      apply steps_ids; [|exact OK]. eapply DrawScars_from_steps. exact D.
    - exact IH.
    - exact IH.
    - pose proof (reachable_ok st R) as OK.
      eapply Permutation_trans; [|exact IH].
      apply step_ids; [exact OK | apply step_remove; exact Hin]. }
  split; [exact P|].
  apply Permutation_length in P. rewrite !length_app in P.
  unfold allScarIDs in P. rewrite length_map, length_seq in P. lia.
Qed.

(** ** Free slots are wiped *)

(** What an elementary change leaves alone. *)
Lemma step_frame st st' :
  table_ok st -> step st st' ->
  addedScars st' = addedScars st /\
  (forall j, In j (usedScarIDs st') -> In j (usedScarIDs st)) /\
  (forall j, In j (freeScarIDs st) -> In j (freeScarIDs st')) /\
  (forall j, ~ In j (usedScarIDs st) -> scars st' j = scars st j) /\
  (forall j, In j (freeScarIDs st') -> ~ In j (freeScarIDs st) ->
             scars st' j = Scar.Reset).
Proof.
  intros OK S. destruct S as [st v | st id s Hin BK | st idx Hin].
  - repeat split; try tauto.
  - refine (conj eq_refl (conj _ (conj _ (conj _ _)))); try (intros j H; exact H).
    + intros j Hj. apply scars_set_scar_other. intros ->. tauto.
    + intros j Hj Hn. simpl in Hj. tauto.
  - destruct (RemoveScar_parts st idx) as (P1 & P2 & P3 & P4 & _).
    destruct (ok_live st OK idx (or_introl Hin)) as (Eid & _).
    rewrite Eid in *.
    refine (conj P4 (conj _ (conj _ (conj _ _)))).
    + intros j Hj. rewrite P3 in Hj. apply VectorErase_In in Hj. exact Hj.
    + intros j Hj. rewrite P2. apply in_app_iff. left. exact Hj.
    + intros j Hj. rewrite P1. destruct (j =? idx) eqn:E; [|reflexivity].
      apply Z.eqb_eq in E. subst j. tauto.
    + intros j Hj Hn. rewrite P2 in Hj. apply in_app_iff in Hj.
      destruct Hj as [Hj | [<- | []]]; [tauto|]. rewrite P1, Z.eqb_refl. reflexivity.
Qed.

Lemma steps_frame st st' :
  steps st st' -> table_ok st ->
  addedScars st' = addedScars st /\
  (forall j, In j (usedScarIDs st') -> In j (usedScarIDs st)) /\
  (forall j, In j (freeScarIDs st) -> In j (freeScarIDs st')) /\
  (forall j, ~ In j (usedScarIDs st) -> scars st' j = scars st j).
Proof.
  induction 1 as [|st st1 st2 H IH S]; intros OK.
  - repeat split; tauto.
  - destruct (IH OK) as (A & B & C & D).
    destruct (step_frame st1 st2 (steps_ok _ _ H OK) S) as (A' & B' & C' & D' & _).
    refine (conj _ (conj _ (conj _ _))).
    + congruence.
    + intros j Hj. apply B. apply B'. exact Hj.
    + intros j Hj. apply C'. apply C. exact Hj.
    + intros j Hj. rewrite D'; [apply D; exact Hj|]. intros Hu. apply Hj. apply B. exact Hu.
Qed.

Lemma steps_free_wiped st st' :
  steps st st' -> table_ok st -> free_wiped st -> free_wiped st'.
Proof.
  induction 1 as [|st st1 st2 H IH S]; intros OK FW; [exact FW|].
  specialize (IH OK FW).
  pose proof (steps_ok _ _ H OK) as OK1.
  destruct (step_frame st1 st2 OK1 S) as (_ & _ & _ & D & E).
  intros j Hj.
  destruct (in_dec Z.eq_dec j (freeScarIDs st1)) as [Hf | Hn].
  - rewrite D; [apply IH; exact Hf|]. apply (ok_free_used st1 OK1 j Hf).
  - apply E; assumption.
Qed.

Lemma commitScars_scars st j : scars (commitScars st) j = scars st j.
Proof.
  unfold commitScars.
  destruct (fold_insertScar_parts (addedScars st) st) as (A & _).
  remember (fold_left insertScar (addedScars st) st) as st1. simpl. apply A.
Qed.

Lemma in_allScarIDs i : In i allScarIDs <-> 0 <= i < MAX_SCAR_COUNT.
Proof.
  unfold allScarIDs. rewrite in_map_iff. split.
  - intros (n & <- & Hn). apply in_seq in Hn. lia.
  - intros H. exists (Z.to_nat i). split; [lia|]. apply in_seq. lia.
Qed.

Lemma reachable_free_wiped st : reachable st -> free_wiped st.
Proof.
  induction 1 as [e st G M | e st pos damage radius R IH RC | st sid R IH Hs | st R IH
                 | fuel e st st' R IH D | st v R IH | st id s R IH Hin BK | st idx R IH Hin].
  - unfold CGroundDecalHandler.
    replace (GetDrawDecals
               (set_objectDecalTypes (set_scarField (set_addedScars st []) []) []))
      with (GetDrawDecals st) by reflexivity.
    rewrite G. cbn [negb]. intros j Hj. cbn [freeScarIDs] in Hj.
    apply in_allScarIDs in Hj. cbn [scars].
    replace (0 <=? j) with true by (symmetry; apply Z.leb_le; lia).
    replace (j <? MAX_SCAR_COUNT) with true by (symmetry; apply Z.ltb_lt; lia).
    reflexivity.
  - pose proof (reachable_ok st R) as OK.
    destruct (AddExplosion_inv e st pos damage radius (table_ok_free_not_minus_one st OK))
      as [E | (id & rest & s & Ef & E & _)]; rewrite E; [exact IH|].
    intros j Hj. simpl in Hj |- *.
    pose proof (ok_free_nodup st OK) as ND. rewrite Ef in ND.
    apply NoDup_remove_2 in ND. rewrite app_nil_r in ND.
    destruct (j =? id) eqn:Ej; [apply Z.eqb_eq in Ej; subst j; tauto|].
    apply IH. rewrite Ef. apply in_app_iff. left. exact Hj.
  - pose proof (reachable_ok st R) as OK.
    apply (steps_free_wiped st); [apply TestScarOverlaps_steps | |]; assumption.
  - pose proof (reachable_ok st R) as OK.
    rewrite AddScars_commitScars.
    assert (FW : free_wiped (fold_left TestScarOverlaps (addedScars st) st)).
    { apply (steps_free_wiped st); [|exact OK | exact IH].
      apply fold_TestScarOverlaps_steps; [exact OK | tauto]. }
    intros j Hj. rewrite commitScars_scars. apply FW.
    destruct (commitScars_ids (fold_left TestScarOverlaps (addedScars st) st)) as (A & _).
    rewrite A in Hj. exact Hj.
  - pose proof (reachable_ok st R) as OK.
    apply (steps_free_wiped st); [eapply DrawScars_from_steps; exact D | |]; assumption.
  - exact IH.
  - pose proof (reachable_ok st R) as OK.
    apply (steps_free_wiped st); [apply steps_one; apply step_bookkeeping | |]; assumption.
  - pose proof (reachable_ok st R) as OK.
    apply (steps_free_wiped st); [apply steps_one; apply step_remove | |]; assumption.
Qed.

(** X11.  A slot is wiped while it is free, so a scar queued by
    [AddExplosion] in a state the handler can reach takes over a reset
    record and starts with [lastDraw = -1]: its quads are built at its
    first draw. *)
Theorem AddExplosion_starts_undrawn e st pos damage radius id :
  reachable st ->
  In id (addedScars (AddExplosion e st pos damage radius)) -> ~ In id (addedScars st) ->
  scars st id = Scar.Reset /\
  Scar.lastDraw (scars (AddExplosion e st pos damage radius) id) = -1.
Proof.
  intros R Hin Hn.
  pose proof (reachable_ok st R) as OK.
  pose proof (reachable_free_wiped st R) as FW.
  unfold AddExplosion in *.
  destruct (negb (GetDrawDecals st)); [tauto|].
  destruct (F32.leb _ _); [tauto|].
  destruct (F32.geb _ _); [tauto|].
  destruct (F32.ltb _ _); [tauto|].
  unfold GetScarID in *.
  destruct (freeScarIDs st) as [|a l] eqn:Ef; [cbn in Hin; tauto|].
  unfold VectorBackPop in *.
  assert (Hne : a :: l <> []) by discriminate.
  pose proof (app_removelast_last 0 Hne) as Eapp.
  set (x := last (a :: l) 0) in *. set (rest := removelast (a :: l)) in *.
  cbv beta iota zeta in Hin |- *.
  destruct (x =? -1) eqn:E; [cbn in Hin; tauto|].
  cbn [addedScars set_addedScars] in Hin. apply in_app_iff in Hin.
  destruct Hin as [Hin | [<- | []]]; [cbn in Hin; tauto|].
  assert (Hx : scars st x = Scar.Reset).
  { apply FW. rewrite Ef, Eapp. apply in_app_iff. right. left. reflexivity. }
  split; [exact Hx|].
  simpl. rewrite Z.eqb_refl. simpl. rewrite Hx. reflexivity.
Qed.

(** ** Commit, reuse and sweep *)

(** X8.  [AddScars] commits the whole queue: afterwards [addedScars] is
    empty, every queued scar is in use with its record unchanged and filed
    in every cell of its rectangle, and no id comes into use or becomes
    free from nowhere. *)
Theorem AddScars_commits_queue st :
  table_ok st ->
  addedScars (AddScars st) = [] /\
  (forall id, In id (addedScars st) ->
     In id (usedScarIDs (AddScars st)) /\
     scars (AddScars st) id = scars st id /\
     forall c, In c (scarCells (AddScars st) (scars st id)) -> In id (cellAt (AddScars st) c)) /\
  (forall id, In id (usedScarIDs (AddScars st)) ->
     In id (usedScarIDs st) \/ In id (addedScars st)) /\
  (forall id, In id (freeScarIDs (AddScars st)) ->
     In id (freeScarIDs st) \/ In id (usedScarIDs st)).
Proof.
  intros OK.
  pose proof (AddScars_ok st OK) as OK'.
  pose proof (fold_TestScarOverlaps_steps (addedScars st) st OK (fun _ H => H)) as ST.
  destruct (steps_frame _ _ ST OK) as (A & B & C & D).
  pose proof (steps_ids _ _ ST OK) as PI.
  destruct (commitScars_ids (fold_left TestScarOverlaps (addedScars st) st)) as (F & U & N).
  rewrite <- AddScars_commitScars in F, U, N.
  assert (S : forall j, scars (AddScars st) j =
                        scars (fold_left TestScarOverlaps (addedScars st) st) j).
  { intros j. rewrite AddScars_commitScars. apply commitScars_scars. }
  refine (conj N (conj _ (conj _ _))).
  - intros id Hid.
    assert (Hu : In id (usedScarIDs (AddScars st))).
    { rewrite U, A. apply in_app_iff. right. exact Hid. }
    assert (E : scars (AddScars st) id = scars st id).
    { rewrite S. apply D. intros Hu'. apply (ok_used_added st OK id Hu' Hid). }
    refine (conj Hu (conj E _)).
    intros c Hc. apply (ok_cell_complete _ OK' id c Hu). rewrite E. exact Hc.
  - intros id Hid. rewrite U, A in Hid. apply in_app_iff in Hid.
    destruct Hid as [Hid | Hid]; [left; apply B; exact Hid | right; exact Hid].
  - intros id Hid. rewrite F in Hid.
    assert (Hin : In id (freeScarIDs st ++ usedScarIDs st ++ addedScars st)).
    { eapply Permutation_in; [exact PI|]. apply in_app_iff. left. exact Hid. }
    apply in_app_iff in Hin. destruct Hin as [Hin | Hin]; [left; exact Hin|].
    apply in_app_iff in Hin. destruct Hin as [Hin | Hin]; [right; exact Hin|].
    exfalso. rewrite <- A in Hin.
    apply (ok_free_added _ (steps_ok _ _ ST OK) id Hid Hin).
Qed.

(** X12.  The slot freed last is the slot handed out next: [GetScarID]
    right after [RemoveScar] of a scar in use returns that scar's id, with
    the record reset, and leaves the free ids as they were before the
    removal. *)
Theorem RemoveScar_then_GetScarID st idx :
  table_ok st -> In idx (usedScarIDs st) ->
  exists st', GetScarID (RemoveScar st idx) = (idx, st') /\
              freeScarIDs st' = freeScarIDs st /\
              usedScarIDs st' = VectorErase (usedScarIDs st) idx /\
              scars st' idx = Scar.Reset.
Proof.
  intros OK Hin.
  destruct (RemoveScar_parts st idx) as (P1 & P2 & P3 & _).
  destruct (ok_live st OK idx (or_introl Hin)) as (Eid & _).
  rewrite Eid in *.
  unfold GetScarID. rewrite P2.
  destruct (freeScarIDs st ++ [idx]) as [|a l] eqn:E.
  { apply app_eq_nil in E. destruct E as [_ E]. discriminate. }
  rewrite <- E. unfold VectorBackPop. rewrite last_last, removelast_last.
  exists (set_freeScarIDs (RemoveScar st idx) (freeScarIDs st)).
  split; [reflexivity|]. split; [reflexivity|].
  unfold set_freeScarIDs. cbn [usedScarIDs scars].
  rewrite P1, P3, Z.eqb_refl. split; reflexivity.
Qed.



(** ** The scar atlas *)

Lemma int_add_small a b : INT_MIN <= a + b <= INT_MAX -> a +i b = a + b.
Proof. apply wrap_small. Qed.

Lemma int_mul_small a b : INT_MIN <= a * b <= INT_MAX -> a *i b = a * b.
Proof. apply wrap_small. Qed.

Lemma int_sub_small a b : INT_MIN <= a - b <= INT_MAX -> a -i b = a - b.
Proof. apply wrap_small. Qed.

Section Writes.

Context {A : Type}.
Variable f : (Z -> Z) -> A -> Z -> Z.
Variable dom : A -> Z -> bool.
Variable val : A -> Z -> Z.

(** A loop whose rounds each write the bytes [dom a] leaves in a byte what
    the last round that wrote it put there. *)
Lemma fold_writes (l : list A) :
  (forall a, In a l -> forall buf k, f buf a k = if dom a k then val a k else buf k) ->
  forall buf k,
    fold_left f l buf k =
    match find (fun a => dom a k) (rev l) with
    | Some a => val a k
    | None => buf k
    end.
Proof.
  induction l as [|a l IH] using rev_ind; intros Hf buf k; [reflexivity|].
  rewrite fold_left_app, rev_app_distr. simpl.
  rewrite Hf by (apply in_app_iff; right; left; reflexivity).
  destruct (dom a k); [reflexivity|].
  apply IH. intros b Hb. apply Hf. apply in_app_iff. left. exact Hb.
Qed.

End Writes.

Section Quadrant.

Variables xo yo : Z.
Hypothesis Hxo : 0 <= xo <= 256.
Hypothesis Hyo : 0 <= yo <= 256.
Variable rmem : Z -> Z.

(** The first of the four bytes of the atlas pixel that the pixel
    [(x, y)] of a texture goes to. *)
Let base (y x : Z) : Z := ((y + yo) * 512 + x + xo) * 4.

Let domPix (y x k : Z) : bool := (base y x <=? k) && (k <? base y x + 4).

Let valPix (y x k : Z) : Z :=
  let m := (y * 256 + x) * 4 in
  if k =? base y x + 3 then u8 (rmem (m + 1))
  else if k =? base y x + 2 then u8 ((rmem m *i 30) /i 255)
  else if k =? base y x + 1 then u8 ((rmem m *i 60) /i 255)
  else u8 ((rmem m *i 90) /i 255).

Let pixStep (y : Z) (buf : Z -> Z) (x : Z) : Z -> Z :=
  let memIndex := ((y *i 256) +i x) *i 4 in
  let bufIndex := ((((y +i yo) *i 512) +i x) +i xo) *i 4 in
  let brightness := rmem (memIndex +i 0) in
  let buf := store buf (bufIndex +i 0) ((brightness *i 90) /i 255) in
  let buf := store buf (bufIndex +i 1) ((brightness *i 60) /i 255) in
  let buf := store buf (bufIndex +i 2) ((brightness *i 30) /i 255) in
  store buf (bufIndex +i 3) (rmem (memIndex +i 1)).

Lemma pixStep_spec y x buf k :
  0 <= y < 256 -> 0 <= x < 256 ->
  pixStep y buf x k = if domPix y x k then valPix y x k else buf k.
Proof.
  intros Hy Hx. unfold pixStep, domPix, valPix, base.
  assert (E1 : y *i 256 = y * 256) by (apply int_mul_small; fits_int).
  rewrite E1.
  assert (E2 : (y * 256) +i x = y * 256 + x) by (apply int_add_small; fits_int).
  rewrite E2.
  assert (E3 : (y * 256 + x) *i 4 = (y * 256 + x) * 4) by (apply int_mul_small; fits_int).
  rewrite E3.
  assert (E4 : y +i yo = y + yo) by (apply int_add_small; fits_int).
  rewrite E4.
  assert (E5 : (y + yo) *i 512 = (y + yo) * 512) by (apply int_mul_small; fits_int).
  rewrite E5.
  assert (E6 : ((y + yo) * 512) +i x = (y + yo) * 512 + x) by (apply int_add_small; fits_int).
  rewrite E6.
  assert (E7 : ((y + yo) * 512 + x) +i xo = (y + yo) * 512 + x + xo)
    by (apply int_add_small; fits_int).
  rewrite E7.
  assert (E8 : ((y + yo) * 512 + x + xo) *i 4 = ((y + yo) * 512 + x + xo) * 4)
    by (apply int_mul_small; fits_int).
  rewrite E8.
  set (b := ((y + yo) * 512 + x + xo) * 4).
  set (m := (y * 256 + x) * 4).
  assert (Hb : 0 <= b <= 1048572) by (unfold b; lia).
  assert (Hm : 0 <= m <= 262140) by (unfold m; lia).
  assert (B0 : b +i 0 = b) by (rewrite int_add_small; [lia | fits_int]).
  assert (B1 : b +i 1 = b + 1) by (apply int_add_small; fits_int).
  assert (B2 : b +i 2 = b + 2) by (apply int_add_small; fits_int).
  assert (B3 : b +i 3 = b + 3) by (apply int_add_small; fits_int).
  assert (M0 : m +i 0 = m) by (rewrite int_add_small; [lia | fits_int]).
  assert (M1 : m +i 1 = m + 1) by (apply int_add_small; fits_int).
  rewrite B0, B1, B2, B3, M0, M1.
  unfold store.
  destruct (k =? b + 3) eqn:K3; [apply Z.eqb_eq in K3|apply Z.eqb_neq in K3].
  { replace ((b <=? k) && (k <? b + 4)) with true; [reflexivity|].
    symmetry. apply andb_true_iff. split; [apply Z.leb_le | apply Z.ltb_lt]; lia. }
  destruct (k =? b + 2) eqn:K2; [apply Z.eqb_eq in K2|apply Z.eqb_neq in K2].
  { replace ((b <=? k) && (k <? b + 4)) with true; [reflexivity|].
    symmetry. apply andb_true_iff. split; [apply Z.leb_le | apply Z.ltb_lt]; lia. }
  destruct (k =? b + 1) eqn:K1; [apply Z.eqb_eq in K1|apply Z.eqb_neq in K1].
  { replace ((b <=? k) && (k <? b + 4)) with true; [reflexivity|].
    symmetry. apply andb_true_iff. split; [apply Z.leb_le | apply Z.ltb_lt]; lia. }
  destruct (k =? b) eqn:K0; [apply Z.eqb_eq in K0|apply Z.eqb_neq in K0].
  { replace ((b <=? k) && (k <? b + 4)) with true; [reflexivity|].
    symmetry. apply andb_true_iff. split; [apply Z.leb_le | apply Z.ltb_lt]; lia. }
  replace ((b <=? k) && (k <? b + 4)) with false; [reflexivity|].
  symmetry. apply andb_false_iff.
  destruct (Z.leb_spec b k); [right; apply Z.ltb_ge; lia | left; reflexivity].
Qed.

Lemma domPix_inv y x k :
  domPix y x k = true -> exists c, 0 <= c < 4 /\ k = base y x + c.
Proof.
  unfold domPix. intros H. apply andb_true_iff in H. destruct H as [H1 H2].
  apply Z.leb_le in H1. apply Z.ltb_lt in H2. exists (k - base y x). lia.
Qed.

Lemma base_atlasIndex y x c : base y x + c = atlasIndex (x + xo) (y + yo) c.
Proof. unfold base, atlasIndex. lia. Qed.

Lemma base_inj y x c y' x' c' :
  0 <= x < 256 -> 0 <= x' < 256 -> 0 <= c < 4 -> 0 <= c' < 4 ->
  base y x + c = base y' x' + c' -> y = y' /\ x = x' /\ c = c'.
Proof. unfold base. intros. lia. Qed.

(** The bytes of a row of the [bmp] loop. *)
Let rowStep (buf : Z -> Z) (y : Z) : Z -> Z :=
  fold_left (pixStep y) (loop_range 0 (256 - 1)) buf.

Lemma in_range_256 v : In v (loop_range 0 (256 - 1)) <-> 0 <= v < 256.
Proof. rewrite in_loop_range. lia. Qed.

Lemma rowStep_spec y buf k :
  0 <= y < 256 ->
  rowStep buf y k =
  match find (fun x => domPix y x k) (rev (loop_range 0 (256 - 1))) with
  | Some x => valPix y x k
  | None => buf k
  end.
Proof.
  intros Hy. unfold rowStep. apply fold_writes.
  intros x Hx buf' k'. apply pixStep_spec; [exact Hy|]. apply in_range_256. exact Hx.
Qed.

(** Outside the quadrant the [bmp] loops write nothing. *)
Lemma bmp_loops_outside buf k :
  ~ inQuadrant xo yo k ->
  fold_left rowStep (loop_range 0 (256 - 1)) buf k = buf k.
Proof.
  intros Hout.
  rewrite (fold_writes rowStep
             (fun y k => match find (fun x => domPix y x k) (rev (loop_range 0 (256 - 1)))
                         with Some _ => true | None => false end)
             (fun y k => match find (fun x => domPix y x k) (rev (loop_range 0 (256 - 1)))
                         with Some x => valPix y x k | None => 0 end)).
  2:{ intros y Hy buf' k'. rewrite rowStep_spec by (apply in_range_256; exact Hy).
      destruct (find _ _); reflexivity. }
  destruct (find _ (rev (loop_range 0 (256 - 1)))) as [y|] eqn:F; [|reflexivity].
  exfalso. apply find_some in F. destruct F as [Hy F].
  apply in_rev, in_range_256 in Hy.
  destruct (find (fun x => domPix y x k) (rev (loop_range 0 (256 - 1)))) as [x|] eqn:G;
    [|discriminate].
  apply find_some in G. destruct G as [Hx G].
  apply in_rev, in_range_256 in Hx.
  destruct (domPix_inv _ _ _ G) as (c & Hc & ->).
  apply Hout. exists x, y, c. rewrite base_atlasIndex. tauto.
Qed.

(** Inside, each byte holds what the round of its pixel put there. *)
Lemma bmp_loops_inside buf x y c :
  0 <= x < 256 -> 0 <= y < 256 -> 0 <= c < 4 ->
  fold_left rowStep (loop_range 0 (256 - 1)) buf (atlasIndex (x + xo) (y + yo) c) =
  valPix y x (base y x + c).
Proof.
  intros Hx Hy Hc. rewrite <- base_atlasIndex.
  set (k := base y x + c).
  assert (D : domPix y x k = true).
  { unfold domPix, k. apply andb_true_iff. split; [apply Z.leb_le | apply Z.ltb_lt]; lia. }
  rewrite (fold_writes rowStep
             (fun y k => match find (fun x => domPix y x k) (rev (loop_range 0 (256 - 1)))
                         with Some _ => true | None => false end)
             (fun y k => match find (fun x => domPix y x k) (rev (loop_range 0 (256 - 1)))
                         with Some x => valPix y x k | None => 0 end)).
  2:{ intros y' Hy' buf' k'. rewrite rowStep_spec by (apply in_range_256; exact Hy').
      destruct (find _ _); reflexivity. }
  assert (Row : forall y', 0 <= y' < 256 ->
            forall x', find (fun x => domPix y' x k) (rev (loop_range 0 (256 - 1))) = Some x' ->
            y' = y /\ x' = x).
  { intros y' Hy' x' G. apply find_some in G. destruct G as [Hx' G].
    apply in_rev, in_range_256 in Hx'.
    destruct (domPix_inv _ _ _ G) as (c' & Hc' & E). unfold k in E.
    destruct (base_inj y x c y' x' c' Hx Hx' Hc Hc' E) as (-> & -> & _). tauto. }
  assert (Here : exists x', find (fun x => domPix y x k) (rev (loop_range 0 (256 - 1)))
                            = Some x').
  { destruct (find (fun x => domPix y x k) (rev (loop_range 0 (256 - 1)))) as [x'|] eqn:G;
      [exists x'; reflexivity|].
    exfalso. pose proof (find_none _ _ G x) as N. cbv beta in N. rewrite D in N.
    discriminate N. apply -> in_rev. apply in_range_256. exact Hx. }
  destruct Here as (x' & Hx').
  destruct (Row y Hy x' Hx') as [_ ->].
  match goal with
  | |- match find ?g ?l with _ => _ end = _ => destruct (find g l) as [y'|] eqn:F
  end.
  - apply find_some in F. destruct F as [Hy' F].
    apply in_rev, in_range_256 in Hy'. cbv beta in F.
    destruct (find (fun x => domPix y' x k) (rev (loop_range 0 (256 - 1)))) as [x''|] eqn:G;
      [|discriminate F].
    destruct (Row y' Hy' x'' G) as [-> ->]. reflexivity.
  - exfalso. pose proof (find_none _ _ F y) as N. cbv beta in N. rewrite Hx' in N.
    discriminate N. apply -> in_rev. apply in_range_256. exact Hy.
Qed.

(** The rows of the loop that copies line by line. *)
Let lineStep (buf : Z -> Z) (y : Z) : Z -> Z :=
  let memIndex := (y *i 256) *i 4 in
  let bufIndex := (((y +i yo) *i 512) +i xo) *i 4 in
  memcpy buf bufIndex rmem memIndex (256 * 4).

Let domLine (y k : Z) : bool := (base y 0 <=? k) && (k <? base y 0 + 1024).

Lemma lineStep_spec y buf k :
  0 <= y < 256 ->
  lineStep buf y k = if domLine y k then rmem (y * 1024 + (k - base y 0)) else buf k.
Proof.
  intros Hy. unfold lineStep, domLine, base, memcpy.
  assert (E1 : y *i 256 = y * 256) by (apply int_mul_small; fits_int).
  rewrite E1.
  assert (E3 : (y * 256) *i 4 = y * 1024) by (rewrite int_mul_small; [lia | fits_int]).
  rewrite E3.
  assert (E4 : y +i yo = y + yo) by (apply int_add_small; fits_int).
  rewrite E4.
  assert (E5 : (y + yo) *i 512 = (y + yo) * 512) by (apply int_mul_small; fits_int).
  rewrite E5.
  assert (E7 : ((y + yo) * 512) +i xo = (y + yo) * 512 + 0 + xo)
    by (rewrite int_add_small; [lia | fits_int]).
  rewrite E7.
  assert (E8 : ((y + yo) * 512 + 0 + xo) *i 4 = ((y + yo) * 512 + 0 + xo) * 4)
    by (apply int_mul_small; fits_int).
  rewrite E8. reflexivity.
Qed.

Lemma domLine_inv y k :
  domLine y k = true ->
  exists x c, 0 <= x < 256 /\ 0 <= c < 4 /\ k = base y x + c.
Proof.
  unfold domLine. intros H. apply andb_true_iff in H. destruct H as [H1 H2].
  apply Z.leb_le in H1. apply Z.ltb_lt in H2.
  exists ((k - base y 0) / 4), ((k - base y 0) mod 4).
  pose proof (Z.mod_pos_bound (k - base y 0) 4 ltac:(lia)).
  pose proof (Z.div_mod (k - base y 0) 4 ltac:(lia)).
  unfold base in *. lia.
Qed.

Lemma copy_loops_outside buf k :
  ~ inQuadrant xo yo k ->
  fold_left lineStep (loop_range 0 (256 - 1)) buf k = buf k.
Proof.
  intros Hout.
  rewrite (fold_writes lineStep domLine (fun y k => rmem (y * 1024 + (k - base y 0)))).
  2:{ intros y Hy buf' k'. apply lineStep_spec. apply in_range_256. exact Hy. }
  destruct (find _ (rev (loop_range 0 (256 - 1)))) as [y|] eqn:F; [|reflexivity].
  exfalso. apply find_some in F. destruct F as [Hy F].
  apply in_rev, in_range_256 in Hy.
  destruct (domLine_inv _ _ F) as (x & c & Hx & Hc & ->).
  apply Hout. exists x, y, c. rewrite base_atlasIndex. tauto.
Qed.

Lemma copy_loops_inside buf x y c :
  0 <= x < 256 -> 0 <= y < 256 -> 0 <= c < 4 ->
  fold_left lineStep (loop_range 0 (256 - 1)) buf (atlasIndex (x + xo) (y + yo) c) =
  rmem ((y * 256 + x) * 4 + c).
Proof.
  intros Hx Hy Hc. rewrite <- base_atlasIndex.
  set (k := base y x + c).
  rewrite (fold_writes lineStep domLine (fun y k => rmem (y * 1024 + (k - base y 0)))).
  2:{ intros y' Hy' buf' k'. apply lineStep_spec. apply in_range_256. exact Hy'. }
  assert (D : domLine y k = true).
  { unfold domLine, k, base. apply andb_true_iff.
    split; [apply Z.leb_le | apply Z.ltb_lt]; lia. }
  destruct (find _ (rev (loop_range 0 (256 - 1)))) as [y'|] eqn:F.
  - apply find_some in F. destruct F as [Hy' F].
    apply in_rev, in_range_256 in Hy'.
    destruct (domLine_inv _ _ F) as (x' & c' & Hx' & Hc' & E). unfold k in E.
    destruct (base_inj y x c y' x' c' Hx Hx' Hc Hc' E) as (-> & -> & ->).
    f_equal. unfold k, base. lia.
  - exfalso. pose proof (find_none _ _ F y) as N. cbv beta in N. rewrite D in N.
    discriminate N. apply -> in_rev. apply in_range_256. exact Hy.
Qed.

End Quadrant.

(** ** The textures in the atlas *)

Lemma u8_small v : 0 <= v < 256 -> u8 v = v.
Proof. intros H. unfold u8. apply Z.mod_small. exact H. Qed.

Lemma channel_value b n :
  0 <= b <= 255 -> 0 <= n <= 90 -> u8 ((b *i n) /i 255) = b * n / 255.
Proof.
  intros Hb Hn. rewrite int_mul_small by (unfold INT_MIN, INT_MAX; nia).
  unfold int_div. rewrite Z.quot_div_nonneg by nia.
  assert (0 <= b * n / 255 <= 90).
  { split; [apply Z.div_pos; nia|]. apply Z.div_le_upper_bound; nia. }
  rewrite wrap_small by fits_int. apply u8_small. lia.
Qed.

(** What [LoadScarTexture] is once the bitmap is there, by the kind of
    the file. *)
Lemma LoadScarTexture_loaded a file buf xo yo bm :
  Load a file = Some bm ->
  CBitmap.xsize (scarBitmap a bm) = 256 -> CBitmap.ysize (scarBitmap a bm) = 256 ->
  LoadScarTexture a file buf xo yo =
  if String.eqb (GetExtension a file) "bmp"
  then
    fold_left
      (fun buf y =>
         fold_left
           (fun buf x =>
              let memIndex := ((y *i 256) +i x) *i 4 in
              let bufIndex := ((((y +i yo) *i 512) +i x) +i xo) *i 4 in
              let brightness := CBitmap.mem (scarBitmap a bm) (memIndex +i 0) in
              let buf := store buf (bufIndex +i 0) ((brightness *i 90) /i 255) in
              let buf := store buf (bufIndex +i 1) ((brightness *i 60) /i 255) in
              let buf := store buf (bufIndex +i 2) ((brightness *i 30) /i 255) in
              store buf (bufIndex +i 3) (CBitmap.mem (scarBitmap a bm) (memIndex +i 1)))
           (loop_range 0 (256 - 1)) buf)
      (loop_range 0 (256 - 1)) buf
  else
    fold_left
      (fun buf y =>
         let memIndex := (y *i 256) *i 4 in
         let bufIndex := (((y +i yo) *i 512) +i xo) *i 4 in
         memcpy buf bufIndex (CBitmap.mem (scarBitmap a bm)) memIndex (256 * 4))
      (loop_range 0 (256 - 1)) buf.
Proof.
  intros HL HX HY. unfold LoadScarTexture. rewrite HL. cbv zeta. rewrite HX, HY.
  reflexivity.
Qed.

(** Outside its quadrant [LoadScarTexture] writes nothing. *)
Lemma LoadScarTexture_outside a file buf xo yo k :
  scarTextureFits a file -> 0 <= xo <= 256 -> 0 <= yo <= 256 ->
  ~ inQuadrant xo yo k -> LoadScarTexture a file buf xo yo k = buf k.
Proof.
  intros Fit Hxo Hyo Hout. unfold scarTextureFits in Fit.
  destruct (Load a file) as [bm|] eqn:HL.
  - destruct Fit as [HX HY].
    rewrite (LoadScarTexture_loaded a file buf xo yo bm HL HX HY).
    destruct (String.eqb _ _).
    + apply (bmp_loops_outside xo yo Hxo Hyo (CBitmap.mem (scarBitmap a bm)) buf k Hout).
    + apply (copy_loops_outside xo yo Hxo Hyo (CBitmap.mem (scarBitmap a bm)) buf k Hout).
  - unfold LoadScarTexture. rewrite HL. reflexivity.
Qed.

(** Inside it, what is written does not depend on what was there. *)
Lemma LoadScarTexture_local a file buf buf' xo yo k :
  scarTextureFits a file -> 0 <= xo <= 256 -> 0 <= yo <= 256 ->
  inQuadrant xo yo k -> buf k = buf' k ->
  LoadScarTexture a file buf xo yo k = LoadScarTexture a file buf' xo yo k.
Proof.
  intros Fit Hxo Hyo (x & y & c & Hx & Hy & Hc & ->) E. unfold scarTextureFits in Fit.
  destruct (Load a file) as [bm|] eqn:HL.
  - destruct Fit as [HX HY].
    rewrite !(LoadScarTexture_loaded a file _ xo yo bm HL HX HY).
    destruct (String.eqb _ _).
    + rewrite (bmp_loops_inside xo yo Hxo Hyo (CBitmap.mem (scarBitmap a bm)) buf x y c Hx Hy Hc).
      rewrite (bmp_loops_inside xo yo Hxo Hyo (CBitmap.mem (scarBitmap a bm)) buf' x y c Hx Hy Hc).
      reflexivity.
    + rewrite (copy_loops_inside xo yo Hxo Hyo (CBitmap.mem (scarBitmap a bm)) buf x y c Hx Hy Hc).
      rewrite (copy_loops_inside xo yo Hxo Hyo (CBitmap.mem (scarBitmap a bm)) buf' x y c Hx Hy Hc).
      reflexivity.
  - unfold LoadScarTexture. rewrite HL. exact E.
Qed.

(** X4.  A [bmp] file has no alpha channel: at every pixel of its quadrant
    the atlas gets the red byte of the bitmap as brightness, scaled to
    (90, 60, 30) / 255 for red, green and blue, and the green byte of the
    bitmap as alpha; nothing outside the quadrant is written. *)
Theorem LoadScarTexture_bmp a file buf xo yo bm :
  Load a file = Some bm ->
  String.eqb (GetExtension a file) "bmp" = true ->
  CBitmap.xsize (scarBitmap a bm) = 256 -> CBitmap.ysize (scarBitmap a bm) = 256 ->
  (forall i, 0 <= CBitmap.mem (scarBitmap a bm) i <= 255) ->
  0 <= xo <= 256 -> 0 <= yo <= 256 ->
  (forall x y, 0 <= x < 256 -> 0 <= y < 256 ->
     let px c := LoadScarTexture a file buf xo yo (atlasIndex (x + xo) (y + yo) c) in
     let brightness := CBitmap.mem (scarBitmap a bm) ((y * 256 + x) * 4) in
     px 0 = brightness * 90 / 255 /\
     px 1 = brightness * 60 / 255 /\
     px 2 = brightness * 30 / 255 /\
     px 3 = CBitmap.mem (scarBitmap a bm) ((y * 256 + x) * 4 + 1)) /\
  (forall k, ~ inQuadrant xo yo k -> LoadScarTexture a file buf xo yo k = buf k).
Proof.
  intros HL HE HX HY Hb Hxo Hyo. split.
  - intros x y Hx Hy px brightness. unfold px.
    rewrite (LoadScarTexture_loaded a file buf xo yo bm HL HX HY), HE.
    pose proof (Hb ((y * 256 + x) * 4)) as Hbr. fold brightness in Hbr.
    rewrite (bmp_loops_inside xo yo Hxo Hyo (CBitmap.mem (scarBitmap a bm)) buf x y 0 Hx Hy)
      by lia.
    rewrite (bmp_loops_inside xo yo Hxo Hyo (CBitmap.mem (scarBitmap a bm)) buf x y 1 Hx Hy)
      by lia.
    rewrite (bmp_loops_inside xo yo Hxo Hyo (CBitmap.mem (scarBitmap a bm)) buf x y 2 Hx Hy)
      by lia.
    rewrite (bmp_loops_inside xo yo Hxo Hyo (CBitmap.mem (scarBitmap a bm)) buf x y 3 Hx Hy)
      by lia.
    cbv beta zeta.
    set (b := ((y + yo) * 512 + x + xo) * 4).
    replace (b + 0 =? b + 3) with false by (symmetry; apply Z.eqb_neq; lia).
    replace (b + 0 =? b + 2) with false by (symmetry; apply Z.eqb_neq; lia).
    replace (b + 0 =? b + 1) with false by (symmetry; apply Z.eqb_neq; lia).
    replace (b + 1 =? b + 3) with false by (symmetry; apply Z.eqb_neq; lia).
    replace (b + 1 =? b + 2) with false by (symmetry; apply Z.eqb_neq; lia).
    replace (b + 2 =? b + 3) with false by (symmetry; apply Z.eqb_neq; lia).
    rewrite !Z.eqb_refl.
    fold brightness.
    rewrite !channel_value by lia.
    rewrite u8_small by (pose proof (Hb ((y * 256 + x) * 4 + 1)); lia).
    repeat split.
  - intros k. apply LoadScarTexture_outside; try assumption.
    unfold scarTextureFits. rewrite HL. tauto.
Qed.

(** X5.  A file that is no [bmp] is copied line by line: every byte of
    the 256 x 256 bitmap lands at its pixel and channel of the quadrant, and
    nothing outside the quadrant is written. *)
Theorem LoadScarTexture_copy a file buf xo yo bm :
  Load a file = Some bm ->
  String.eqb (GetExtension a file) "bmp" = false ->
  CBitmap.xsize (scarBitmap a bm) = 256 -> CBitmap.ysize (scarBitmap a bm) = 256 ->
  0 <= xo <= 256 -> 0 <= yo <= 256 ->
  (forall x y c, 0 <= x < 256 -> 0 <= y < 256 -> 0 <= c < 4 ->
     LoadScarTexture a file buf xo yo (atlasIndex (x + xo) (y + yo) c) =
     CBitmap.mem (scarBitmap a bm) ((y * 256 + x) * 4 + c)) /\
  (forall k, ~ inQuadrant xo yo k -> LoadScarTexture a file buf xo yo k = buf k).
Proof.
  intros HL HE HX HY Hxo Hyo. split.
  - intros x y c Hx Hy Hc.
    rewrite (LoadScarTexture_loaded a file buf xo yo bm HL HX HY), HE.
    exact (copy_loops_inside xo yo Hxo Hyo (CBitmap.mem (scarBitmap a bm)) buf x y c Hx Hy Hc).
  - intros k. apply LoadScarTexture_outside; try assumption.
    unfold scarTextureFits. rewrite HL. tauto.
Qed.

Lemma quadrants_apart xo yo xo' yo' k :
  (xo = 0 \/ xo = 256) -> (yo = 0 \/ yo = 256) ->
  (xo' = 0 \/ xo' = 256) -> (yo' = 0 \/ yo' = 256) ->
  inQuadrant xo yo k -> inQuadrant xo' yo' k -> xo = xo' /\ yo = yo'.
Proof.
  intros H1 H2 H3 H4 (x & y & c & Hx & Hy & Hc & E) (x' & y' & c' & Hx' & Hy' & Hc' & E').
  unfold atlasIndex in *. lia.
Qed.

Open Scope string_scope.

(** X3.  The four textures of the atlas do not touch each other: when the
    bitmaps come out 256 x 256, each quadrant of the atlas holds what
    [LoadScarTexture] wrote for its own file alone (scar 2 top left, scar 3
    top right, scar 1 bottom left, scar 4 bottom right), and a byte outside
    the four quadrants is left as it was. *)
Theorem LoadScarTextures_quadrants a buf :
  (forall i dflt, scarTextureFits a (scarFile a i dflt)) ->
  forall k,
    (inQuadrant 0 0 k ->
       LoadScarTextures a buf k =
       LoadScarTexture a (scarFile a 2 "scars/scar2.bmp") buf 0 0 k) /\
    (inQuadrant 256 0 k ->
       LoadScarTextures a buf k =
       LoadScarTexture a (scarFile a 3 "scars/scar3.bmp") buf 256 0 k) /\
    (inQuadrant 0 256 k ->
       LoadScarTextures a buf k =
       LoadScarTexture a (scarFile a 1 "scars/scar1.bmp") buf 0 256 k) /\
    (inQuadrant 256 256 k ->
       LoadScarTextures a buf k =
       LoadScarTexture a (scarFile a 4 "scars/scar4.bmp") buf 256 256 k) /\
    (~ inQuadrant 0 0 k -> ~ inQuadrant 256 0 k -> ~ inQuadrant 0 256 k ->
     ~ inQuadrant 256 256 k -> LoadScarTextures a buf k = buf k).
Proof.
  intros Fit k. unfold LoadScarTextures. cbv zeta.
  set (f2 := scarFile a 2 "scars/scar2.bmp").
  set (f3 := scarFile a 3 "scars/scar3.bmp").
  set (f1 := scarFile a 1 "scars/scar1.bmp").
  set (f4 := scarFile a 4 "scars/scar4.bmp").
  assert (O : forall f b xo yo, (xo = 0 \/ xo = 256) -> (yo = 0 \/ yo = 256) ->
                (f = f1 \/ f = f2 \/ f = f3 \/ f = f4) ->
                ~ inQuadrant xo yo k -> LoadScarTexture a f b xo yo k = b k).
  { intros f b xo yo Hx Hy Hf Hn. apply LoadScarTexture_outside; try lia; [|exact Hn].
    destruct Hf as [-> | [-> | [-> | ->]]]; apply Fit. }
  assert (A : forall xo yo xo' yo', (xo = 0 \/ xo = 256) -> (yo = 0 \/ yo = 256) ->
                (xo' = 0 \/ xo' = 256) -> (yo' = 0 \/ yo' = 256) ->
                (xo <> xo' \/ yo <> yo') ->
                inQuadrant xo yo k -> ~ inQuadrant xo' yo' k).
  { intros xo yo xo' yo' H1 H2 H3 H4 Hd Hin Hin'.
    destruct (quadrants_apart xo yo xo' yo' k H1 H2 H3 H4 Hin Hin'). lia. }
  refine (conj _ (conj _ (conj _ (conj _ _)))).
  - intros Q.
    rewrite (O f4), (O f1), (O f3); try tauto;
      try (apply (A 0 0); try tauto; lia); lia.
  - intros Q.
    rewrite (O f4), (O f1); try tauto; try (apply (A 256 0); try tauto; lia); try lia.
    apply LoadScarTexture_local; try lia; [apply Fit | exact Q |].
    apply O; try tauto; try lia. apply (A 256 0); try tauto; lia.
  - intros Q.
    rewrite (O f4); try tauto; try (apply (A 0 256); try tauto; lia); try lia.
    apply LoadScarTexture_local; try lia; [apply Fit | exact Q |].
    rewrite (O f3), (O f2); try tauto; try (apply (A 0 256); try tauto; lia); lia.
  - intros Q.
    apply LoadScarTexture_local; try lia; [apply Fit | exact Q |].
    rewrite (O f1), (O f3), (O f2); try tauto; try (apply (A 256 256); try tauto; lia); lia.
  - intros N1 N2 N3 N4.
    rewrite (O f4), (O f1), (O f3), (O f2); try tauto; lia.
Qed.

Close Scope string_scope.

(** ** The decal pool *)

Lemma pool_get_upd m p f q :
  pool_get (pool_upd m p f) q =
  if q =? p then option_map f (pool_get m p) else pool_get m q.
Proof.
  induction m as [|[k d] m IH]; simpl.
  - destruct (q =? p); reflexivity.
  - destruct (k =? p) eqn:Ek; simpl.
    + apply Z.eqb_eq in Ek. subst k. destruct (q =? p) eqn:Eq.
      * apply Z.eqb_eq in Eq. subst q. rewrite Z.eqb_refl. reflexivity.
      * replace (p =? q) with false by (rewrite Z.eqb_sym; symmetry; exact Eq).
        exact IH.
    + destruct (k =? q) eqn:Ekq.
      * apply Z.eqb_eq in Ekq. subst q. rewrite Ek. reflexivity.
      * exact IH.
Qed.

Lemma pool_get_upd_same m p f :
  pool_get (pool_upd m p f) p = option_map f (pool_get m p).
Proof. rewrite pool_get_upd, Z.eqb_refl. reflexivity. Qed.

Lemma pool_get_upd_other m p f q :
  q <> p -> pool_get (pool_upd m p f) q = pool_get m q.
Proof. intros H. rewrite pool_get_upd. apply Z.eqb_neq in H. rewrite H. reflexivity. Qed.

Lemma pool_get_free m p q :
  pool_get (pool_free m p) q = if q =? p then None else pool_get m q.
Proof.
  induction m as [|[k d] m IH]; simpl.
  - destruct (q =? p); reflexivity.
  - destruct (k =? p) eqn:Ek; simpl.
    + apply Z.eqb_eq in Ek. subst k. rewrite IH.
      destruct (q =? p) eqn:Eq; [reflexivity|].
      replace (p =? q) with false by (rewrite Z.eqb_sym; symmetry; exact Eq). reflexivity.
    + destruct (k =? q) eqn:Ekq; [|exact IH].
      apply Z.eqb_eq in Ekq. subst q. rewrite Ek. reflexivity.
Qed.

Lemma pool_get_handles m p :
  In p (pool_handles m) <-> pool_get m p <> None.
Proof.
  induction m as [|[k d] m IH]; simpl; [tauto|].
  destruct (k =? p) eqn:E.
  - apply Z.eqb_eq in E. split; [discriminate | tauto].
  - apply Z.eqb_neq in E. rewrite <- IH. tauto.
Qed.

Lemma pool_get_Some_handles m p d : pool_get m p = Some d -> In p (pool_handles m).
Proof. intros H. apply pool_get_handles. congruence. Qed.

Lemma pool_get_new m p d q :
  ~ In p (pool_handles m) ->
  pool_get (m ++ [(p, d)]) q = if q =? p then Some d else pool_get m q.
Proof.
  intros Hn. induction m as [|[k d'] m IH]; simpl.
  - rewrite Z.eqb_sym. reflexivity.
  - simpl in Hn. destruct (k =? q) eqn:E.
    + apply Z.eqb_eq in E. subst q.
      replace (k =? p) with false by (symmetry; apply Z.eqb_neq; tauto). reflexivity.
    + apply IH. tauto.
Qed.

Lemma pool_handles_upd m p f : pool_handles (pool_upd m p f) = pool_handles m.
Proof.
  unfold pool_handles, pool_upd. rewrite map_map. apply map_ext.
  intros [k d]. simpl. destruct (k =? p); reflexivity.
Qed.

Lemma pool_handles_new m p d : pool_handles (m ++ [(p, d)]) = pool_handles m ++ [p].
Proof. unfold pool_handles. rewrite map_app. reflexivity. Qed.

(** ** Swap-with-back removal by index *)

Lemma list_update_nth (l : list Z) i v :
  (i < List.length l)%nat ->
  list_update l i (fun _ => v) = firstn i l ++ v :: skipn (S i) l.
Proof.
  revert i. induction l as [|a l IH]; intros i Hi; simpl in Hi; [lia|].
  destruct i as [|i]; simpl; [reflexivity|]. rewrite IH by lia. reflexivity.
Qed.

(** Removal at an index is the removal of the element there. *)
Lemma eraseAt_VectorErase (l : list Z) i :
  NoDup l -> (i < List.length l)%nat -> eraseAt l i = VectorErase l (nth i l 0).
Proof.
  unfold eraseAt. revert i. induction l as [|a l IH]; intros i ND Hi; simpl in Hi; [lia|].
  inversion ND as [|? ? Hn Hd]; subst.
  destruct i as [|i].
  - simpl nth. simpl VectorErase. rewrite Z.eqb_refl.
    simpl list_update. destruct l as [|b l']; [reflexivity|].
    change (removelast (last (a :: b :: l') 0 :: b :: l')) with
      (last (a :: b :: l') 0 :: removelast (b :: l')).
    reflexivity.
  - simpl nth. simpl VectorErase.
    assert (Hin : In (nth i l 0) l) by (apply nth_In; lia).
    replace (a =? nth i l 0) with false
      by (symmetry; apply Z.eqb_neq; intros ->; tauto).
    destruct l as [|b l']; [simpl in Hi; lia|].
    specialize (IH i Hd ltac:(simpl in *; lia)).
    change (list_update (a :: b :: l') (S i) (fun _ => last (a :: b :: l') 0))
      with (a :: list_update (b :: l') i (fun _ => last (b :: l') 0)).
    rewrite <- IH.
    remember (list_update (b :: l') i (fun _ => last (b :: l') 0)) as u.
    assert (Hu : u <> []).
    { intros ->. pose proof (length_list_update (b :: l') i (fun _ => last (b :: l') 0)) as L.
      rewrite <- Hequ in L. simpl in L. lia. }
    destruct u as [|c u']; [congruence|]. reflexivity.
Qed.

Lemma eraseAt_firstn (l : list Z) i :
  (i < List.length l)%nat -> firstn i (eraseAt l i) = firstn i l.
Proof.
  intros Hi. unfold eraseAt. rewrite list_update_nth by exact Hi.
  assert (E : firstn i l ++ last l 0 :: skipn (S i) l =
              (firstn i l ++ removelast (last l 0 :: skipn (S i) l)) ++
              [last (last l 0 :: skipn (S i) l) 0]).
  { rewrite <- app_assoc. f_equal. apply app_removelast_last. discriminate. }
  rewrite E, removelast_last.
  rewrite firstn_app.
  rewrite firstn_all2 by (rewrite length_firstn; lia).
  replace (i - List.length (firstn i l))%nat with 0%nat by (rewrite length_firstn; lia).
  simpl. apply app_nil_r.
Qed.

Lemma eraseAt_length (l : list Z) i :
  (i < List.length l)%nat -> List.length (eraseAt l i) = (List.length l - 1)%nat.
Proof.
  intros Hi. unfold eraseAt.
  pose proof (length_list_update l i (fun _ => last l 0)) as L.
  remember (list_update l i (fun _ => last l 0)) as u.
  destruct u as [|a u] using rev_ind; [simpl in L; lia|].
  rewrite removelast_last. rewrite length_app in L. simpl in L. lia.
Qed.

(** ** Opacities that are not negative *)

Lemma F32_max_zero_nonneg x : F32.ltb (F32.max F32.zero x) F32.zero = false.
Proof. destruct x as [s | s | | s m e]; try destruct s; reflexivity. Qed.

Lemma lit_0_01_positive : exists m e, F32lit.lit_0_01 = S754_finite false m e.
Proof. eexists. eexists. vm_compute. reflexivity. Qed.

Lemma F32_above_0_01_nonneg x :
  F32.ltb x F32lit.lit_0_01 = false -> F32.ltb x F32.zero = false.
Proof.
  destruct lit_0_01_positive as (m0 & e0 & ->).
  destruct x as [s | s | | s m e]; try destruct s; try reflexivity; intros H; discriminate H.
Qed.

(** ** Gathering the decals of a type *)

Lemma same_decal_refl d : same_decal d d.
Proof. unfold same_decal. tauto. Qed.

Lemma same_decal_trans a b c : same_decal a b -> same_decal b c -> same_decal a c.
Proof.
  unfold same_decal.
  intros (A1 & A2 & A3 & A4 & A5 & A6 & A7 & A8 & A9 & A10)
         (B1 & B2 & B3 & B4 & B5 & B6 & B7 & B8 & B9 & B10).
  repeat split; congruence.
Qed.

Lemma same_decal_set_alpha d v : same_decal d (Decal.set_alpha d v).
Proof. unfold same_decal. simpl. tauto. Qed.

Lemma same_decal_set_va d v : same_decal d (Decal.set_va d v).
Proof. unfold same_decal. simpl. tauto. Qed.

Lemma firstn_S_In (l : list Z) i p : In p (firstn i l) -> In p (firstn (S i) l).
Proof.
  revert i. induction l as [|a l IH]; intros i H.
  - rewrite firstn_nil in H. destruct H.
  - destruct i as [|i]; [destruct H|]. simpl in *. destruct H as [H | H]; [left; exact H|].
    right. apply IH. exact H.
Qed.

Lemma firstn_S_nth (l : list Z) i :
  (i < List.length l)%nat -> In (nth i l 0) (firstn (S i) l).
Proof.
  revert i. induction l as [|a l IH]; intros i H; simpl in H; [lia|].
  destruct i as [|i]; simpl; [left; reflexivity|]. right. apply IH. lia.
Qed.

Lemma NoDup_nth_not_firstn (l : list Z) i :
  NoDup l -> (i < List.length l)%nat -> ~ In (nth i l 0) (firstn i l).
Proof.
  intros ND Hi Hin. destruct (In_nth _ _ 0 Hin) as (j & Hj & E).
  rewrite length_firstn in Hj.
  rewrite nth_firstn in E. replace (j <? i)%nat with true in E by (symmetry; apply Nat.ltb_lt; lia).
  apply NoDup_nth in E; [lia | exact ND | lia | lia].
Qed.

Section GatherRound.

Variables (s : Sim) (e : Engine) (pool0 : Pool) (decals0 : list Z).

(** A round that only steps on. *)
Lemma gathered_skip g i :
  gathered pool0 decals0 i g -> gathered pool0 decals0 (S i) g.
Proof.
  intros [N S F K R D A]. constructor; try assumption.
  intros p Hp. apply firstn_S_In. apply D. exact Hp.
Qed.

(** A round that rewrites the opacity of the decal at [i] and may enter
    it into [decalsToDraw]. *)
Lemma gathered_update g i d1 (push : bool) :
  gathered pool0 decals0 i g -> (i < List.length (gDecals g))%nat ->
  (forall d, pool_get (gPool g) (nth i (gDecals g) 0) = Some d -> same_decal d d1) ->
  F32.ltb (Decal.alpha d1) F32.zero = false ->
  gathered pool0 decals0 (S i)
    (mkGather (pool_upd (gPool g) (nth i (gDecals g) 0) (fun _ => d1)) (gDecals g)
       (if push then gToDraw g ++ [nth i (gDecals g) 0] else gToDraw g)).
Proof.
  intros [N S F K R D A] Hi Hd Ha.
  set (p := nth i (gDecals g) 0) in *.
  assert (Hp : In p (gDecals g)) by (apply nth_In; exact Hi).
  constructor; simpl.
  - exact N.
  - exact S.
  - intros q Hq. rewrite pool_get_upd_other; [apply F; exact Hq|].
    intros ->. apply Hq. apply S. exact Hp.
  - intros q Hq. destruct (K q Hq) as (d & d' & E0 & E1 & SD).
    destruct (Z.eq_dec q p) as [-> | Hne].
    + exists d, d1. rewrite pool_get_upd_same, E1. simpl.
      refine (conj E0 (conj eq_refl _)).
      eapply same_decal_trans; [exact SD | apply Hd; exact E1].
    + exists d, d'. rewrite pool_get_upd_other by exact Hne. tauto.
  - intros q Hq Hn. rewrite pool_get_upd_other; [apply R; assumption|].
    intros ->. tauto.
  - intros q Hq.
    assert (Hq' : In q (gToDraw g) \/ q = p).
    { destruct push; [|left; exact Hq]. apply in_app_iff in Hq.
      destruct Hq as [Hq | [<- | []]]; tauto. }
    destruct Hq' as [Hq' | ->]; [apply firstn_S_In; apply D; exact Hq'|].
    apply firstn_S_nth. exact Hi.
  - intros q d Hq. rewrite pool_get_upd in Hq. destruct (q =? p).
    + destruct (pool_get (gPool g) p); simpl in Hq; [|discriminate].
      inversion Hq; subst d. exact Ha.
    + apply (A q d Hq).
Qed.

(** A round that frees the decal at [i]. *)
Lemma gathered_free g i d1 :
  gathered pool0 decals0 i g -> (i < List.length (gDecals g))%nat ->
  (forall d, pool_get (gPool g) (nth i (gDecals g) 0) = Some d ->
             Decal.owner d = None /\ Decal.gbOwner d = None) ->
  gathered pool0 decals0 i
    (mkGather
       (pool_free (pool_upd (gPool g) (nth i (gDecals g) 0) (fun _ => d1))
          (nth i (gDecals g) 0))
       (eraseAt (gDecals g) i) (gToDraw g)).
Proof.
  intros [N S F K R D A] Hi Hd.
  set (p := nth i (gDecals g) 0) in *.
  assert (Hp : In p (gDecals g)) by (apply nth_In; exact Hi).
  assert (EV : eraseAt (gDecals g) i = VectorErase (gDecals g) p)
    by (apply eraseAt_VectorErase; assumption).
  constructor; simpl.
  - rewrite EV. apply VectorErase_NoDup. exact N.
  - intros q Hq. rewrite EV in Hq. apply VectorErase_In in Hq. apply S. exact Hq.
  - intros q Hq. rewrite pool_get_free.
    assert (Hne : q <> p) by (intros ->; apply Hq; apply S; exact Hp).
    replace (q =? p) with false by (symmetry; apply Z.eqb_neq; exact Hne).
    rewrite pool_get_upd_other by exact Hne. apply F. exact Hq.
  - intros q Hq. rewrite EV in Hq. apply VectorErase_In_iff in Hq; [|exact N].
    destruct Hq as [Hq Hne]. destruct (K q Hq) as (d & d' & E0 & E1 & SD).
    exists d, d'. rewrite pool_get_free.
    replace (q =? p) with false by (symmetry; apply Z.eqb_neq; exact Hne).
    rewrite pool_get_upd_other by exact Hne. tauto.
  - intros q Hq Hn. rewrite pool_get_free.
    destruct (Z.eq_dec q p) as [-> | Hne].
    + rewrite Z.eqb_refl. split; [reflexivity|].
      destruct (K p Hp) as (d & d' & E0 & E1 & SD). exists d.
      destruct (Hd d' E1) as [O G]. destruct SD as (S1 & S2 & _).
      split; [exact E0|]. split; congruence.
    + replace (q =? p) with false by (symmetry; apply Z.eqb_neq; exact Hne).
      rewrite pool_get_upd_other by exact Hne. apply R; [exact Hq|].
      intros Hin. apply Hn. rewrite EV. apply VectorErase_In_iff; [exact N | tauto].
  - intros q Hq. rewrite eraseAt_firstn by exact Hi. apply D. exact Hq.
  - intros q d Hq. rewrite pool_get_free in Hq. destruct (q =? p) eqn:E; [discriminate|].
    apply Z.eqb_neq in E. rewrite pool_get_upd_other in Hq by exact E. apply (A q d Hq).
Qed.

Lemma gatherDraw_cases g p d :
  gatherDraw e g p d = g \/
  gatherDraw e g p d = mkGather (gPool g) (gDecals g) (gToDraw g ++ [p]).
Proof. unfold gatherDraw. destruct (negb _); [left | right]; reflexivity. Qed.

(** One round keeps what has been gathered, and brings the loop nearer
    to its end. *)
Lemma gatherRound_gathered g i :
  gathered pool0 decals0 i g -> (i < List.length (gDecals g))%nat ->
  gathered pool0 decals0 (snd (gatherRound s e g i)) (fst (gatherRound s e g i)) /\
  (snd (gatherRound s e g i) <= List.length (gDecals (fst (gatherRound s e g i))))%nat /\
  (List.length (gDecals (fst (gatherRound s e g i))) - snd (gatherRound s e g i)
   < List.length (gDecals g) - i)%nat.
Proof.
  intros G Hi.
  assert (Skip : gathered pool0 decals0 (S i) g /\ (S i <= List.length (gDecals g))%nat /\
                 (List.length (gDecals g) - S i < List.length (gDecals g) - i)%nat).
  { split; [apply gathered_skip; exact G | lia]. }
  assert (Upd : forall d1 g',
            (forall d, pool_get (gPool g) (nth i (gDecals g) 0) = Some d -> same_decal d d1) ->
            F32.ltb (Decal.alpha d1) F32.zero = false ->
            g' = gatherDraw e
                   (mkGather (pool_upd (gPool g) (nth i (gDecals g) 0) (fun _ => d1))
                      (gDecals g) (gToDraw g))
                   (nth i (gDecals g) 0) d1 ->
            gathered pool0 decals0 (S i) g' /\ (S i <= List.length (gDecals g'))%nat /\
            (List.length (gDecals g') - S i < List.length (gDecals g) - i)%nat).
  { intros d1 g' Hd Ha ->.
    destruct (gatherDraw_cases
                (mkGather (pool_upd (gPool g) (nth i (gDecals g) 0) (fun _ => d1))
                   (gDecals g) (gToDraw g)) (nth i (gDecals g) 0) d1) as [-> | ->].
    - split; [apply (gathered_update g i d1 false); assumption | simpl; lia].
    - split; [apply (gathered_update g i d1 true); assumption | simpl; lia]. }
  unfold gatherRound.
  set (p := nth i (gDecals g) 0) in *.
  destruct (pool_get (gPool g) p) as [decal|] eqn:Ep; [|exact Skip].
  destruct (Decal.owner decal) as [o|] eqn:Eo.
  - (* the decal has an owner *)
    match goal with
    | |- context [match ?sh with Some _ => _ | None => _ end] =>
        assert (Hsh : forall a, sh = Some a -> F32.ltb a F32.zero = false);
        [|destruct sh as [a|]; [|exact Skip]]
    end.
    { intros a. destruct (GetBlockingMapID s o <? MaxUnits s).
      - destruct (GetIsIcon s o); [discriminate|].
        destruct (negb (spectatingFullView s) && negb (inCurLOS s o)
                  && (negb (ghostedBuildings s) || negb (inPrvLOS s o))); [discriminate|].
        intros H. inversion H. apply F32_max_zero_nonneg.
      - destruct (negb (IsInLosForAllyTeam s o)); [discriminate|].
        destruct (F32.ltb (drawAlpha s o) F32lit.lit_0_01) eqn:El; [discriminate|].
        intros H. inversion H; subst a. apply F32_above_0_01_nonneg. exact El. }
    cbv zeta. apply (Upd (Decal.set_alpha decal a)); [| |reflexivity].
    + intros d Hd. assert (d = decal) by congruence; subst d. apply same_decal_set_alpha.
    + simpl. apply Hsh. reflexivity.
  - (* the decal has no owner *)
    destruct (Decal.gbOwner decal) as [gb|] eqn:Eg.
    + destruct (lastDrawFrame s gb <? drawFrame e -i 1); [exact Skip|].
      cbv beta iota zeta.
      rewrite (ga_alpha _ _ _ _ G p decal Ep).
      apply (Upd decal); [| |reflexivity].
      * intros d Hd. assert (d = decal) by congruence; subst d. apply same_decal_refl.
      * apply (ga_alpha _ _ _ _ G p decal Ep).
    + cbv beta iota zeta.
      set (faded := Decal.set_alpha decal _).
      destruct (F32.ltb (Decal.alpha faded) F32.zero) eqn:El.
      * cbn [fst snd gDecals gPool gToDraw].
        split; [apply gathered_free; [exact G | exact Hi |]|].
        -- intros d Hd. fold p in Hd. assert (d = decal) by congruence; subst d. tauto.
        -- rewrite eraseAt_length by exact Hi. lia.
      * apply (Upd faded); [| exact El | reflexivity].
        intros d Hd. assert (d = decal) by congruence; subst d. apply same_decal_set_alpha.
Qed.

(** The loop comes to its end within as many rounds as decals are left. *)
Lemma gatherLoop_gathered fuel : forall g i,
  gathered pool0 decals0 i g ->
  (i <= List.length (gDecals g))%nat ->
  (List.length (gDecals g) - i < fuel)%nat ->
  exists g', gatherLoop fuel s e g i = Some g' /\
             gathered pool0 decals0 (List.length (gDecals g')) g'.
Proof.
  induction fuel as [|fuel IH]; intros g i G Hi Hf; [lia|].
  simpl. destruct (i <? List.length (gDecals g))%nat eqn:E.
  - apply Nat.ltb_lt in E.
    destruct (gatherRound_gathered g i G E) as (G' & Hi' & Hm).
    destruct (gatherRound s e g i) as [g' i']. simpl in *.
    apply IH; [exact G' | exact Hi' | lia].
  - apply Nat.ltb_ge in E. exists g. split; [reflexivity|].
    replace (List.length (gDecals g)) with i by lia. exact G.
Qed.

End GatherRound.

Lemma gathered_start pool decals :
  NoDup decals -> alpha_nonneg pool ->
  (forall p, In p decals -> In p (pool_handles pool)) ->
  gathered pool decals 0 (mkGather pool decals []).
Proof.
  intros ND A L. constructor; simpl; try tauto.
  intros p Hp. apply L, pool_get_handles in Hp.
  destruct (pool_get pool p) as [d|] eqn:E; [|congruence].
  exists d, d. refine (conj eq_refl (conj eq_refl _)). apply same_decal_refl.
Qed.

(** [GatherDecalsForType] returns, and what it returns. *)
Lemma GatherDecalsForType_gathered s e pool decals :
  NoDup decals -> alpha_nonneg pool ->
  (forall p, In p decals -> In p (pool_handles pool)) ->
  exists g, GatherDecalsForType (S (List.length decals)) s e pool decals = Some g /\
            gathered pool decals (List.length (gDecals g)) g.
Proof.
  intros ND A L. unfold GatherDecalsForType.
  apply gatherLoop_gathered; [apply gathered_start; assumption | simpl; lia | simpl; lia].
Qed.

(** ** The vectors of the decal types *)

Lemma nth_error_list_update {A} (l : list A) n f m :
  nth_error (list_update l n f) m =
  if Nat.eqb m n then option_map f (nth_error l n) else nth_error l m.
Proof.
  revert n m. induction l as [|a l IH]; intros n m; simpl.
  - destruct n, m; simpl; try reflexivity. destruct (Nat.eqb m n); reflexivity.
  - destruct n as [|n]; destruct m as [|m]; simpl; try reflexivity. apply IH.
Qed.

Lemma typeDecals_set st k v k' :
  typeDecals (set_typeDecals st k v) k' =
  if Nat.eqb k' k
  then (if (k <? List.length (objectDecalTypes st))%nat then v else [])
  else typeDecals st k'.
Proof.
  unfold typeDecals, set_typeDecals. simpl. rewrite nth_error_list_update.
  destruct (Nat.eqb k' k) eqn:E; [|reflexivity].
  destruct (k <? List.length (objectDecalTypes st))%nat eqn:L.
  - apply Nat.ltb_lt in L. destruct (nth_error (objectDecalTypes st) k) eqn:N; [reflexivity|].
    apply nth_error_None in N. lia.
  - apply Nat.ltb_ge in L. apply nth_error_None in L. rewrite L. reflexivity.
Qed.

Lemma typeDecals_outside st k :
  (List.length (objectDecalTypes st) <= k)%nat -> typeDecals st k = [].
Proof.
  intros H. unfold typeDecals. apply nth_error_None in H. rewrite H. reflexivity.
Qed.

Lemma length_set_typeDecals st k v :
  List.length (objectDecalTypes (set_typeDecals st k v)) = List.length (objectDecalTypes st).
Proof. unfold set_typeDecals. simpl. apply length_list_update. Qed.

Lemma typeDecals_ext st st' k :
  objectDecalTypes st' = objectDecalTypes st -> typeDecals st' k = typeDecals st k.
Proof. intros E. unfold typeDecals. rewrite E. reflexivity. Qed.

(** ** The scar table does not touch the decal types *)

Lemma updCell_types st c f : objectDecalTypes (updCell st c f) = objectDecalTypes st.
Proof. unfold updCell. destruct (c <? 0); reflexivity. Qed.

Lemma fold_eraseStep_types id l : forall st,
  objectDecalTypes (fold_left (eraseStep id) l st) = objectDecalTypes st.
Proof.
  induction l as [|yx l IH]; intros st; simpl; [reflexivity|].
  rewrite IH. apply updCell_types.
Qed.

Lemma fold_insertStep_types id l : forall st,
  objectDecalTypes (fold_left (insertStep id) l st) = objectDecalTypes st.
Proof.
  induction l as [|yx l IH]; intros st; simpl; [reflexivity|].
  rewrite IH. apply updCell_types.
Qed.

Lemma RemoveScar_types st idx : objectDecalTypes (RemoveScar st idx) = objectDecalTypes st.
Proof.
  rewrite RemoveScar_unfold. cbv zeta.
  pose proof (fold_eraseStep_types (Scar.id (scars st idx))
                (cellLoop (cellBounds st (scars st idx))) st) as E.
  remember (fold_left (eraseStep (Scar.id (scars st idx)))
              (cellLoop (cellBounds st (scars st idx))) st) as st1.
  simpl. exact E.
Qed.

Lemma insertScar_types st id : objectDecalTypes (insertScar st id) = objectDecalTypes st.
Proof.
  rewrite insertScar_unfold. cbv zeta.
  pose proof (fold_insertStep_types (Scar.id (scars st id))
                (cellLoop (cellBounds st (scars st id))) st) as E.
  remember (fold_left (insertStep (Scar.id (scars st id)))
              (cellLoop (cellBounds st (scars st id))) st) as st1.
  simpl. exact E.
Qed.

Lemma steps_types st st' : steps st st' -> objectDecalTypes st' = objectDecalTypes st.
Proof.
  induction 1 as [|st st1 st2 _ IH S]; [reflexivity|].
  rewrite <- IH. destruct S; [reflexivity | reflexivity | apply RemoveScar_types].
Qed.

Lemma commitScars_types st : objectDecalTypes (commitScars st) = objectDecalTypes st.
Proof.
  unfold commitScars.
  assert (E : forall l st0, objectDecalTypes (fold_left insertScar l st0) = objectDecalTypes st0).
  { induction l as [|id l IH]; intros st0; simpl; [reflexivity|].
    rewrite IH. apply insertScar_types. }
  specialize (E (addedScars st) st).
  remember (fold_left insertScar (addedScars st) st) as st1. simpl. exact E.
Qed.

Lemma AddScars_types st :
  table_ok st -> objectDecalTypes (AddScars st) = objectDecalTypes st.
Proof.
  intros OK. rewrite AddScars_commitScars, commitScars_types.
  apply steps_types. apply fold_TestScarOverlaps_steps; [exact OK | tauto].
Qed.

Lemma AddExplosion_types e st pos damage radius :
  objectDecalTypes (AddExplosion e st pos damage radius) = objectDecalTypes st.
Proof.
  unfold AddExplosion.
  destruct (negb (GetDrawDecals st)); [reflexivity|].
  destruct (F32.leb _ _); [reflexivity|].
  destruct (F32.geb _ _); [reflexivity|].
  destruct (F32.ltb _ _); [reflexivity|].
  unfold GetScarID. destruct (freeScarIDs st); [reflexivity|].
  unfold VectorBackPop. cbv beta iota zeta.
  destruct (_ =? -1); reflexivity.
Qed.

Lemma table_ok_set_objectDecalTypes st v :
  table_ok st -> table_ok (set_objectDecalTypes st v).
Proof.
  intros OK. destruct OK as [F N1 N2 N3 D1 D2 D3 R L CN CS CC].
  constructor; try assumption.
  apply (field_ok_frame st); [reflexivity .. | exact F].
Qed.

(** ** Drawing the object decals *)

Lemma DrawObjectDecal_same s e d :
  same_decal d (DrawObjectDecal s e d) /\
  Decal.alpha (DrawObjectDecal s e d) = Decal.alpha d.
Proof.
  unfold DrawObjectDecal. destruct (Decal.va d).
  - split; [apply same_decal_set_va | reflexivity].
  - split; [apply same_decal_set_va | reflexivity].
Qed.

Lemma decals_faded_refl m : decals_faded m m.
Proof.
  split; [|tauto]. intros p d H. left. exists d. split; [exact H | apply same_decal_refl].
Qed.

Lemma decals_faded_trans a b c : decals_faded a b -> decals_faded b c -> decals_faded a c.
Proof.
  intros [A1 A2] [B1 B2]. split.
  - intros p d H. destruct (A1 p d H) as [(d' & E & SD) | (E & O & G)].
    + destruct (B1 p d' E) as [(d'' & E' & SD') | (E' & O' & G')].
      * left. exists d''. split; [exact E' | eapply same_decal_trans; eassumption].
      * right. destruct SD as (S1 & S2 & _). split; [exact E'|]. split; congruence.
    + right. split; [apply B2; exact E | tauto].
  - intros p H. apply B2. apply A2. exact H.
Qed.

(** Drawing the decals of a list changes nothing of the pool but the
    vertices. *)
Lemma fold_DrawObjectDecal s e l : forall w,
  let w' := fold_left (fun w p => updDecal w p (DrawObjectDecal s e)) l w in
  handler w' = handler w /\ groundDecal w' = groundDecal w /\
  ghostDecal w' = ghostDecal w /\ groundDecalType w' = groundDecalType w /\
  decalsToDraw w' = decalsToDraw w /\ scarTexBuf w' = scarTexBuf w /\
  shaderLoaded w' = shaderLoaded w /\
  pool_handles (sogdMemPool w') = pool_handles (sogdMemPool w) /\
  forall p,
    match pool_get (sogdMemPool w) p with
    | Some d => exists d', pool_get (sogdMemPool w') p = Some d' /\ same_decal d d' /\
                           Decal.alpha d' = Decal.alpha d
    | None => pool_get (sogdMemPool w') p = None
    end.
Proof.
  induction l as [|q l IH]; intros w; simpl.
  - repeat split; try reflexivity. intros p. destruct (pool_get (sogdMemPool w) p) as [d|]; [|reflexivity].
    exists d. split; [reflexivity|]. split; [apply same_decal_refl | reflexivity].
  - specialize (IH (updDecal w q (DrawObjectDecal s e))).
    cbv zeta in IH. destruct IH as (A & B & C & D & E & F & G & H & I).
    refine (conj A (conj B (conj C (conj D (conj E (conj F (conj G (conj _ _)))))))).
    + rewrite H. simpl. apply pool_handles_upd.
    + intros p. specialize (I p). simpl in I. rewrite pool_get_upd in I.
      destruct (p =? q) eqn:Epq.
      * apply Z.eqb_eq in Epq. subst p.
        destruct (pool_get (sogdMemPool w) q) as [d|]; simpl in I; [|exact I].
        destruct I as (d' & E' & SD & AL). exists d'.
        destruct (DrawObjectDecal_same s e d) as [SD0 AL0].
        split; [exact E'|]. split; [eapply same_decal_trans; eassumption | congruence].
      * exact I.
Qed.

(** The body of the loop of [DrawObjectDecals] returns and keeps the
    bookkeeping. *)
Lemma drawType_ok s e w k :
  decals_ok w ->
  exists w', drawType s e w k = Some w' /\ decals_ok w' /\
    decals_faded (sogdMemPool w) (sogdMemPool w') /\
    groundDecal w' = groundDecal w /\ ghostDecal w' = ghostDecal w /\
    groundDecalType w' = groundDecalType w /\ scarTexBuf w' = scarTexBuf w /\
    shaderLoaded w' = shaderLoaded w /\
    exists types, handler w' = set_objectDecalTypes (handler w) types /\
                  List.length types = List.length (objectDecalTypes (handler w)).
Proof.
  intros OK. unfold drawType.
  destruct (typeDecals (handler w) k) as [|a l] eqn:Et.
  { exists w. split; [reflexivity|]. split; [exact OK|]. split; [apply decals_faded_refl|].
    repeat split; try reflexivity. exists (objectDecalTypes (handler w)).
    split; [destruct (handler w); reflexivity | reflexivity]. }
  rewrite <- Et.
  assert (Hk : (k < List.length (objectDecalTypes (handler w)))%nat).
  { destruct (Nat.lt_ge_cases k (List.length (objectDecalTypes (handler w)))) as [H | H];
      [exact H|]. rewrite typeDecals_outside in Et by exact H. discriminate. }
  destruct (GatherDecalsForType_gathered s e (sogdMemPool w) (typeDecals (handler w) k))
    as (g & Hg & G).
  { apply (dk_nodup w OK). }
  { apply (dk_alpha w OK). }
  { apply (dk_alloc w OK). }
  rewrite Hg. cbn [bind].
  set (w1 := set_decalsToDraw
               (set_sogdMemPool
                  (set_handler w (set_typeDecals (handler w) k (gDecals g))) (gPool g))
               (gToDraw g)).
  destruct (fold_DrawObjectDecal s e (gToDraw g) w1) as (A & B & C & D & E & F & H & HH & I).
  set (w' := fold_left (fun w p => updDecal w p (DrawObjectDecal s e)) (gToDraw g) w1) in *.
  exists w'. split; [reflexivity|].
  destruct G as [GN GS GF GK GR GD GA].
  assert (TD : forall k', typeDecals (handler w') k' =
                          if Nat.eqb k' k then gDecals g else typeDecals (handler w) k').
  { intros k'. rewrite A. unfold w1. simpl handler. rewrite typeDecals_set.
    apply Nat.ltb_lt in Hk. rewrite Hk. reflexivity. }
  assert (PG : forall p, pool_get (sogdMemPool w') p = None <-> pool_get (gPool g) p = None).
  { intros p. specialize (I p). unfold w1 in I. simpl sogdMemPool in I.
    destruct (pool_get (gPool g) p) as [d|]; [|tauto].
    destruct I as (d' & E' & _). rewrite E'. split; discriminate. }
  assert (FD : decals_faded (sogdMemPool w) (sogdMemPool w')).
  { split.
    - intros p d Hp.
      destruct (in_dec Z.eq_dec p (typeDecals (handler w) k)) as [Hin | Hout].
      + destruct (in_dec Z.eq_dec p (gDecals g)) as [Hg' | Hg'].
        * left. destruct (GK p Hg') as (d0 & d1 & E0 & E1 & SD).
          assert (d0 = d) by congruence. subst d0.
          specialize (I p). unfold w1 in I. simpl sogdMemPool in I. rewrite E1 in I.
          destruct I as (d' & E' & SD' & _). exists d'.
          split; [exact E' | eapply same_decal_trans; eassumption].
        * right. destruct (GR p Hin Hg') as (E1 & d0 & E0 & O & Gb).
          assert (d0 = d) by congruence. subst d0.
          split; [apply PG; exact E1 | tauto].
      + left. specialize (I p). unfold w1 in I. simpl sogdMemPool in I.
        rewrite (GF p Hout), Hp in I. destruct I as (d' & E' & SD' & _).
        exists d'. tauto.
    - intros p Hp. apply PG.
      destruct (in_dec Z.eq_dec p (typeDecals (handler w) k)) as [Hin | Hout].
      + exfalso. apply (dk_alloc w OK), pool_get_handles in Hin. congruence.
      + rewrite (GF p Hout). exact Hp. }
  split.
  - constructor.
    + intros o p Hop. rewrite B in Hop. unfold w1 in Hop. simpl groundDecal in Hop.
      destruct (dk_owner w OK o p Hop) as (d & Ed & Od).
      destruct (proj1 FD p d Ed) as [(d' & E' & SD) | (_ & O & _)]; [|congruence].
      exists d'. destruct SD as (S1 & _). split; [exact E' | congruence].
    + intros p d Hp. specialize (I p). unfold w1 in I. simpl sogdMemPool in I.
      destruct (pool_get (gPool g) p) as [d0|] eqn:E0; [|congruence].
      destruct I as (d' & E' & _ & AL). assert (d' = d) by congruence. subst d'.
      rewrite AL. apply (GA p d0 E0).
    + intros def. rewrite D, A. unfold w1. simpl groundDecalType. simpl handler.
      rewrite length_set_typeDecals. apply (dk_types w OK).
    + intros p Hp. apply pool_get_handles in Hp.
      assert (Hg' : pool_get (gPool g) p <> None) by (intros N; apply Hp; apply PG; exact N).
      destruct (in_dec Z.eq_dec p (typeDecals (handler w) k)) as [Hin | Hout].
      * exists k. rewrite TD, Nat.eqb_refl.
        destruct (in_dec Z.eq_dec p (gDecals g)) as [H1 | H1]; [exact H1|].
        destruct (GR p Hin H1) as (E1 & _). congruence.
      * rewrite (GF p Hout) in Hg'. apply pool_get_handles in Hg'.
        destruct (dk_listed w OK p Hg') as (k0 & Hk0). exists k0. rewrite TD.
        destruct (Nat.eqb k0 k) eqn:Ek; [|exact Hk0].
        apply Nat.eqb_eq in Ek. subst k0. tauto.
    + intros k' p Hp. rewrite TD in Hp. apply pool_get_handles. rewrite PG.
      destruct (Nat.eqb k' k) eqn:Ek.
      * destruct (GK p Hp) as (_ & d1 & _ & E1 & _). congruence.
      * assert (Hout : ~ In p (typeDecals (handler w) k)).
        { intros Hin. apply Nat.eqb_neq in Ek. apply Ek.
          apply (dk_apart w OK k' k p Hp Hin). }
        rewrite (GF p Hout). apply pool_get_handles. apply (dk_alloc w OK k' p Hp).
    + intros k'. rewrite TD. destruct (Nat.eqb k' k); [exact GN | apply (dk_nodup w OK)].
    + intros k1 k2 p H1 H2. rewrite TD in H1, H2.
      destruct (Nat.eqb k1 k) eqn:E1; destruct (Nat.eqb k2 k) eqn:E2.
      * apply Nat.eqb_eq in E1, E2. congruence.
      * apply Nat.eqb_eq in E1. subst k1. apply GS in H1.
        symmetry. apply (dk_apart w OK k2 k p H2 H1).
      * apply Nat.eqb_eq in E2. subst k2. apply GS in H2.
        apply (dk_apart w OK k1 k p H1 H2).
      * apply (dk_apart w OK k1 k2 p H1 H2).
  - split; [exact FD|].
    refine (conj B (conj C (conj D (conj F (conj H _))))).
    exists (objectDecalTypes (set_typeDecals (handler w) k (gDecals g))).
    split; [rewrite A; unfold w1; simpl; reflexivity | apply length_set_typeDecals].
Qed.

(** ** The frame *)

Lemma drawTypes_ok s e ks : forall w,
  decals_ok w ->
  exists w', fold_left (fun ow k => bind ow (fun w => drawType s e w k)) ks (Some w) = Some w' /\
    decals_ok w' /\
    decals_faded (sogdMemPool w) (sogdMemPool w') /\
    groundDecal w' = groundDecal w /\ ghostDecal w' = ghostDecal w /\
    groundDecalType w' = groundDecalType w /\ scarTexBuf w' = scarTexBuf w /\
    shaderLoaded w' = shaderLoaded w /\
    exists types, handler w' = set_objectDecalTypes (handler w) types /\
                  List.length types = List.length (objectDecalTypes (handler w)).
Proof.
  induction ks as [|k ks IH]; intros w OK; simpl.
  - exists w. split; [reflexivity|]. split; [exact OK|]. split; [apply decals_faded_refl|].
    repeat split; try reflexivity. exists (objectDecalTypes (handler w)).
    split; [destruct (handler w); reflexivity | reflexivity].
  - destruct (drawType_ok s e w k OK)
      as (w1 & R1 & OK1 & F1 & A1 & B1 & C1 & D1 & E1 & t1 & H1 & L1).
    rewrite R1.
    destruct (IH w1 OK1) as (w2 & R2 & OK2 & F2 & A2 & B2 & C2 & D2 & E2 & t2 & H2 & L2).
    exists w2. split; [exact R2|]. split; [exact OK2|].
    split; [eapply decals_faded_trans; eassumption|].
    refine (conj _ (conj _ (conj _ (conj _ (conj _ _))))); try congruence.
    exists t2. split; [rewrite H2, H1; reflexivity|].
    rewrite L2, H1. simpl. exact L1.
Qed.

Lemma decals_ok_handler w h :
  objectDecalTypes h = objectDecalTypes (handler w) ->
  decals_ok w -> decals_ok (set_handler w h).
Proof.
  intros E [O A T L AL N AP].
  assert (TD : forall k, typeDecals h k = typeDecals (handler w) k)
    by (intros k; apply typeDecals_ext; exact E).
  constructor; simpl.
  - exact O.
  - exact A.
  - intros def. rewrite E. apply T.
  - intros p Hp. destruct (L p Hp) as (k & Hk). exists k. rewrite TD. exact Hk.
  - intros k p Hp. rewrite TD in Hp. apply (AL k p Hp).
  - intros k. rewrite TD. apply N.
  - intros k k' p H1 H2. rewrite TD in H1, H2. apply (AP k k' p H1 H2).
Qed.

(** X7.  The frame: [Draw] returns; it keeps the bookkeeping of the decals
    and of the scar table, frees no decal that has an owner or a ghost,
    changes a kept decal in opacity and vertices only, makes no new decal
    and leaves the pointers of objects, ghosts and decal definitions
    alone. *)
Theorem Draw_ok s e w :
  decals_ok w -> table_ok (handler w) ->
  exists w', Draw s e w = Some w' /\ decals_ok w' /\ table_ok (handler w') /\
             decals_faded (sogdMemPool w) (sogdMemPool w') /\
             groundDecal w' = groundDecal w /\ ghostDecal w' = ghostDecal w /\
             groundDecalType w' = groundDecalType w.
Proof.
  intros OK TOK. unfold Draw.
  destruct (negb (GetDrawDecals (handler w))).
  { exists w. refine (conj eq_refl (conj OK (conj TOK (conj (decals_faded_refl _) _)))).
    tauto. }
  destruct (negb (shaderLoaded w)).
  { exists w. refine (conj eq_refl (conj OK (conj TOK (conj (decals_faded_refl _) _)))).
    tauto. }
  unfold DrawDecals, DrawObjectDecals.
  destruct (drawTypes_ok s e (seq 0 (List.length (objectDecalTypes (handler w)))) w OK)
    as (w1 & R1 & OK1 & F1 & A1 & B1 & C1 & D1 & E1 & t1 & H1 & L1).
  rewrite R1. cbn [bind].
  assert (TOK1 : table_ok (handler w1)).
  { rewrite H1. apply table_ok_set_objectDecalTypes. exact TOK. }
  pose proof (AddScars_ok _ TOK1) as TOK2.
  destruct (DrawScars_from_spec (S (List.length (usedScarIDs (AddScars (handler w1))))) e
              (AddScars (handler w1)) 0%nat TOK2) as (st3 & R3 & _); [lia | lia | intros j Hj; lia |].
  unfold DrawScars. rewrite R3. cbn [bind].
  exists (set_handler w1 st3). split; [reflexivity|].
  pose proof (DrawScars_from_steps _ _ _ _ _ R3) as ST.
  split.
  { apply decals_ok_handler; [|exact OK1].
    rewrite (steps_types _ _ ST). apply AddScars_types. exact TOK1. }
  split; [simpl; apply (steps_ok _ _ ST TOK2)|].
  simpl. tauto.
Qed.

(** ** The registry of decal types *)

Lemma findDecalType_app l l' nm k :
  findDecalType (l ++ l') nm k =
  match findDecalType l nm k with
  | Some r => Some r
  | None => findDecalType l' nm (k + Z.of_nat (List.length l))
  end.
Proof.
  revert k. induction l as [|dt l IH]; intros k; simpl.
  - rewrite Z.add_0_r. reflexivity.
  - destruct (String.eqb (name dt) nm); [reflexivity|].
    rewrite IH. destruct (findDecalType l nm (k + 1)); [reflexivity|].
    f_equal. lia.
Qed.

(** The three ways [GetSolidObjectDecalType] ends: without a type, with a
    type that was registered, with a type it registers. *)
Lemma GetSolidObjectDecalType_cases e st nm :
  Z.of_nat (List.length (objectDecalTypes st)) < INT_MAX ->
  GetSolidObjectDecalType e st nm = (st, -2) \/
  (exists k, GetSolidObjectDecalType e st nm = (st, k) /\
             GetDrawDecals st = true /\
             findDecalType (objectDecalTypes st) (StringToLower nm) 0 = Some k /\
             0 <= k < Z.of_nat (List.length (objectDecalTypes st))) \/
  (exists tex,
     GetSolidObjectDecalType e st nm =
       (set_objectDecalTypes st
          (objectDecalTypes st ++ [mkDecalType (StringToLower nm) tex []]),
        Z.of_nat (List.length (objectDecalTypes st))) /\
     GetDrawDecals st = true /\
     findDecalType (objectDecalTypes st) (StringToLower nm) 0 = None).
Proof.
  intros Hlen. unfold GetSolidObjectDecalType.
  destruct (GetDrawDecals st); simpl; [|left; reflexivity].
  destruct (findDecalType _ _ 0) as [k|] eqn:Hf.
  - right. left. exists k. pose proof (findDecalType_lower _ _ _ _ Hf). repeat split; lia.
  - destruct (LoadBitmap e _) as [tex|]; [|left; reflexivity].
    right. right. exists tex. split; [|tauto]. f_equal.
    rewrite length_app. simpl. unfold int_sub. rewrite wrap_small by fits_int. lia.
Qed.

Lemma typeDecals_app_types st tt k :
  typeDecals (set_objectDecalTypes st (objectDecalTypes st ++ [tt])) k =
  if Nat.eqb k (List.length (objectDecalTypes st)) then objectDecals tt
  else typeDecals st k.
Proof.
  unfold typeDecals. simpl.
  destruct (Nat.eqb k (List.length (objectDecalTypes st))) eqn:E.
  - apply Nat.eqb_eq in E. subst k. rewrite nth_error_app2 by lia.
    rewrite Nat.sub_diag. reflexivity.
  - apply Nat.eqb_neq in E.
    destruct (Nat.lt_ge_cases k (List.length (objectDecalTypes st))) as [H | H].
    + rewrite nth_error_app1 by exact H. reflexivity.
    + assert (N1 : nth_error (objectDecalTypes st ++ [tt]) k = None).
      { apply nth_error_None. rewrite length_app. simpl. lia. }
      assert (N2 : nth_error (objectDecalTypes st) k = None) by (apply nth_error_None; lia).
      rewrite N1, N2. reflexivity.
Qed.

(** ** The events keep the bookkeeping of the decals *)

(** The type of a definition is looked up, and cached. *)
Lemma decals_ok_resolved e w nm def :
  decals_ok w ->
  Z.of_nat (List.length (objectDecalTypes (handler w))) < INT_MAX ->
  let hk := GetSolidObjectDecalType e (handler w) nm in
  decals_ok (set_groundDecalType (set_handler w (fst hk)) def (snd hk)) /\
  (snd hk = -2 \/ 0 <= snd hk) /\
  sogdMemPool (set_groundDecalType (set_handler w (fst hk)) def (snd hk)) = sogdMemPool w /\
  groundDecal (set_groundDecalType (set_handler w (fst hk)) def (snd hk)) = groundDecal w.
Proof.
  intros [O A T L AL N AP] Hlen hk. unfold hk.
  destruct (GetSolidObjectDecalType_cases e (handler w) nm Hlen)
    as [E | [(k & E & _ & _ & Hk) | (tex & E & _ & _)]]; rewrite E; simpl fst; simpl snd.
  - split; [|split; [left; reflexivity | split; reflexivity]].
    constructor; simpl; try assumption.
    intros d. destruct (d =? def); [lia | apply T].
  - split; [|split; [right; lia | split; reflexivity]].
    constructor; simpl; try assumption.
    intros d. destruct (d =? def); [lia | apply T].
  - split; [|split; [right; lia | split; reflexivity]].
      constructor; simpl handler; simpl sogdMemPool.
    + exact O.
    + exact A.
    + intros d. simpl. rewrite length_app. simpl.
      destruct (d =? def); [lia | specialize (T d); lia].
    + intros p Hp. destruct (L p Hp) as (k0 & Hk0). exists k0.
      rewrite typeDecals_app_types.
      destruct (Nat.eqb k0 (List.length (objectDecalTypes (handler w)))) eqn:Ek; [|exact Hk0].
      apply Nat.eqb_eq in Ek. rewrite typeDecals_outside in Hk0 by lia. destruct Hk0.
    + intros k0 p Hp. rewrite typeDecals_app_types in Hp.
      destruct (Nat.eqb k0 _); [destruct Hp | apply (AL k0 p Hp)].
    + intros k0. rewrite typeDecals_app_types.
      destruct (Nat.eqb k0 _); [constructor | apply N].
    + intros k1 k2 p H1 H2. rewrite typeDecals_app_types in H1, H2.
      destruct (Nat.eqb k1 _); [destruct H1|].
      destruct (Nat.eqb k2 _); [destruct H2|].
      apply (AP k1 k2 p H1 H2).
Qed.

Lemma typeDecals_push st k p k' :
  0 <= k < Z.of_nat (List.length (objectDecalTypes st)) ->
  typeDecals (pushDecal st k p) k' =
  if Nat.eqb k' (Z.to_nat k) then typeDecals st k' ++ [p] else typeDecals st k'.
Proof.
  intros Hk. unfold pushDecal.
  replace (k <? 0) with false by (symmetry; apply Z.ltb_ge; lia).
  rewrite typeDecals_set.
  replace (Z.to_nat k <? List.length (objectDecalTypes st))%nat with true
    by (symmetry; apply Nat.ltb_lt; lia).
  destruct (Nat.eqb k' (Z.to_nat k)) eqn:E; [|reflexivity].
  apply Nat.eqb_eq in E. subst k'. reflexivity.
Qed.

Lemma length_pushDecal st k p :
  List.length (objectDecalTypes (pushDecal st k p)) = List.length (objectDecalTypes st).
Proof. unfold pushDecal. destruct (k <? 0); [reflexivity | apply length_set_typeDecals]. Qed.

(** A new decal, owned by [object], takes the place of the decal [old]
    the object had, which is left without owner. *)
Lemma decals_ok_placed w object def p d :
  decals_ok w ->
  ~ In p (pool_handles (sogdMemPool w)) ->
  0 <= groundDecalType w def ->
  Decal.owner d = Some object ->
  F32.ltb (Decal.alpha d) F32.zero = false ->
  let f := fun d0 => Decal.set_gbOwner (Decal.set_owner d0 None) None in
  let w1 := match groundDecal w object with
            | Some oldDecal => updDecal w oldDecal f
            | None => w
            end in
  let w2 := set_sogdMemPool w1 (sogdMemPool w1 ++ [(p, d)]) in
  let w3 := set_groundDecal w2 object (Some p) in
  decals_ok (set_handler w3 (pushDecal (handler w3) (groundDecalType w3 def) p)).
Proof.
  intros [O A T L AL N AP] Hfresh Hk Hown Halpha f w1 w2 w3.
  assert (H1 : handler w1 = handler w /\ groundDecal w1 = groundDecal w /\
               groundDecalType w1 = groundDecalType w /\
               pool_handles (sogdMemPool w1) = pool_handles (sogdMemPool w) /\
               forall q, pool_get (sogdMemPool w1) q =
                         if match groundDecal w object with
                            | Some old => q =? old
                            | None => false
                            end
                         then option_map f (pool_get (sogdMemPool w) q)
                         else pool_get (sogdMemPool w) q).
  { unfold w1. destruct (groundDecal w object) as [old|]; simpl.
    - repeat split; try reflexivity; [apply pool_handles_upd|].
      intros q. rewrite pool_get_upd. destruct (q =? old) eqn:E; [|reflexivity].
      apply Z.eqb_eq in E. subst q. reflexivity.
    - repeat split; reflexivity. }
  destruct H1 as (Hh & Hg & Ht & Hhs & Hp).
  assert (Hfresh1 : ~ In p (pool_handles (sogdMemPool w1))) by (rewrite Hhs; exact Hfresh).
  assert (HK : 0 <= groundDecalType w def
                 < Z.of_nat (List.length (objectDecalTypes (handler w))))
    by (specialize (T def); lia).
  assert (TD : forall k', typeDecals
                 (pushDecal (handler w3) (groundDecalType w3 def) p) k' =
               if Nat.eqb k' (Z.to_nat (groundDecalType w def))
               then typeDecals (handler w) k' ++ [p] else typeDecals (handler w) k').
  { intros k'. unfold w3, w2. simpl handler. simpl groundDecalType. rewrite Hh, Ht.
    apply typeDecals_push. exact HK. }
  assert (PG : forall q, pool_get (sogdMemPool w2) q =
                         if q =? p then Some d else pool_get (sogdMemPool w1) q).
  { intros q. unfold w2. simpl sogdMemPool. apply pool_get_new. exact Hfresh1. }
  assert (Hnotlisted : forall k', ~ In p (typeDecals (handler w) k')).
  { intros k' Hin. apply Hfresh. apply (AL k' p Hin). }
  constructor; simpl handler; simpl sogdMemPool.
  - intros o q Hoq. simpl in Hoq. simpl sogdMemPool. rewrite PG.
    destruct (o =? object) eqn:Eo.
    + apply Z.eqb_eq in Eo. subst o. inversion Hoq; subst q. rewrite Z.eqb_refl.
      exists d. tauto.
    + rewrite Hg in Hoq. destruct (O o q Hoq) as (dq & Eq & Oq).
      assert (Hqp : q <> p).
      { intros ->. apply Hfresh. apply (pool_get_Some_handles _ _ _ Eq). }
      replace (q =? p) with false by (symmetry; apply Z.eqb_neq; exact Hqp).
      rewrite Hp.
      destruct (groundDecal w object) as [old|] eqn:Eold.
      * destruct (q =? old) eqn:Eqo.
        -- apply Z.eqb_eq in Eqo. subst q.
           destruct (O object old Eold) as (d2 & E2 & O2).
           apply Z.eqb_neq in Eo. congruence.
        -- exists dq. tauto.
      * exists dq. tauto.
  - intros q dq Hq. rewrite PG in Hq. destruct (q =? p).
    + inversion Hq; subst dq. exact Halpha.
    + rewrite Hp in Hq.
      destruct (match groundDecal w object with Some old => q =? old | None => false end).
      * destruct (pool_get (sogdMemPool w) q) as [d0|] eqn:E0; [|discriminate].
        simpl in Hq. inversion Hq; subst dq. simpl. apply (A q d0 E0).
      * apply (A q dq Hq).
  - intros d0. rewrite length_pushDecal. unfold w3, w2. simpl. rewrite Hh, Ht. apply T.
  - intros q Hq. unfold w2 in Hq. simpl in Hq. rewrite pool_handles_new, Hhs in Hq.
    apply in_app_iff in Hq. destruct Hq as [Hq | [<- | []]].
    + destruct (L q Hq) as (k0 & Hk0). exists k0. rewrite TD.
      destruct (Nat.eqb k0 _); [apply in_app_iff; left|]; exact Hk0.
    + exists (Z.to_nat (groundDecalType w def)). rewrite TD, Nat.eqb_refl.
      apply in_app_iff. right. left. reflexivity.
  - intros k0 q Hq. rewrite TD in Hq. unfold w2. simpl.
    rewrite pool_handles_new, Hhs. apply in_app_iff.
    destruct (Nat.eqb k0 _).
    + apply in_app_iff in Hq. destruct Hq as [Hq | [<- | []]];
        [left; apply (AL k0 q Hq) | right; left; reflexivity].
    + left. apply (AL k0 q Hq).
  - intros k0. rewrite TD. destruct (Nat.eqb k0 _); [|apply N].
    apply NoDup_app; [apply N | repeat constructor; simpl; tauto |].
    intros x Hx [<- | []]. apply (Hnotlisted k0 Hx).
  - intros k1 k2 q Hq1 Hq2. rewrite TD in Hq1, Hq2.
    destruct (Nat.eqb k1 (Z.to_nat (groundDecalType w def))) eqn:E1;
      destruct (Nat.eqb k2 (Z.to_nat (groundDecalType w def))) eqn:E2.
    + apply Nat.eqb_eq in E1, E2. congruence.
    + apply in_app_iff in Hq1. destruct Hq1 as [Hq1 | [<- | []]];
        [apply (AP k1 k2 q Hq1 Hq2) | exfalso; apply (Hnotlisted k2 Hq2)].
    + apply in_app_iff in Hq2. destruct Hq2 as [Hq2 | [<- | []]];
        [apply (AP k1 k2 q Hq1 Hq2) | exfalso; apply (Hnotlisted k1 Hq1)].
    + apply (AP k1 k2 q Hq1 Hq2).
Qed.

(** ** The events *)

Lemma orphan_handles w object f :
  pool_handles
    (sogdMemPool match groundDecal w object with
                 | Some oldDecal => updDecal w oldDecal f
                 | None => w
                 end) = pool_handles (sogdMemPool w).
Proof. destruct (groundDecal w object); [apply pool_handles_upd | reflexivity]. Qed.

Lemma MoveSolidObject_ok s e w object pos :
  decals_ok w -> alloc_fresh s ->
  poolAlloc s (pool_handles (sogdMemPool w)) <> None ->
  Z.of_nat (List.length (objectDecalTypes (handler w))) < INT_MAX ->
  decals_ok (MoveSolidObject s e w object pos).
Proof.
  intros OK AF Room Hlen. unfold MoveSolidObject.
  destruct (negb (GetDrawDecals (handler w))); [exact OK|].
  set (def := GetDef s object).
  destruct (negb (useGroundDecal s def) || (groundDecalType w def <? -1)); [exact OK|].
  assert (Main : forall w1,
            decals_ok w1 -> sogdMemPool w1 = sogdMemPool w ->
            0 <= groundDecalType w1 def ->
            decals_ok
              (let w2 := match groundDecal w1 object with
                         | Some oldDecal =>
                             updDecal w1 oldDecal
                               (fun d => Decal.set_gbOwner (Decal.set_owner d None) None)
                         | None => w1
                         end in
               let sizex := groundDecalSizeX s def in
               let sizey := groundDecalSizeY s def in
               match poolAlloc s (pool_handles (sogdMemPool w2)) with
               | None => w2
               | Some decal =>
                   let facing := buildFacing s object in
                   let xsize := int_shl sizex 1 in
                   let ysize := int_shl sizey 1 in
                   let '(xsize, ysize) :=
                     match facing with
                     | FACING_EAST | FACING_WEST => (ysize, xsize)
                     | _ => (xsize, ysize)
                     end in
                   let d :=
                     Decal.mk (Some object) None F32.zero (groundDecalDecaySpeed s def) pos
                       (F32.add
                          (F32.mul
                             (F32.sqrt (F32.of_int ((sizex *i sizex) +i (sizey *i sizey))))
                             (F32.of_int (SQUARE_SIZE e)))
                          (F32.of_int 20))
                       facing xsize ysize
                       (F32.to_int (F32.sub (F32.div (fx pos) (F32.of_int (SQUARE_SIZE e)))
                                            (F32.of_int (int_shr xsize 1))))
                       (F32.to_int (F32.sub (F32.div (fz pos) (F32.of_int (SQUARE_SIZE e)))
                                            (F32.of_int (int_shr ysize 1))))
                       [] in
                   let w3 := set_sogdMemPool w2 (sogdMemPool w2 ++ [(decal, d)]) in
                   let w4 := set_groundDecal w3 object (Some decal) in
                   set_handler w4 (pushDecal (handler w4) (groundDecalType w4 def) decal)
               end)).
  { intros w1 OK1 Ep Hk. cbv zeta. rewrite orphan_handles, Ep.
    destruct (poolAlloc s (pool_handles (sogdMemPool w))) as [p|] eqn:Ea; [|congruence].
    pose proof (AF _ _ Ea) as Hfresh. rewrite <- Ep in Hfresh.
    destruct (buildFacing s object);
      apply (decals_ok_placed w1 object def p); try assumption; reflexivity. }
  destruct (groundDecalType w def <? 0) eqn:Eneg.
  - destruct (decals_ok_resolved e w (groundDecalTypeName s def) def OK Hlen)
      as (OK1 & Hk & Ep & _).
    destruct (GetSolidObjectDecalType e (handler w) (groundDecalTypeName s def)) as [h k].
    simpl fst in *. simpl snd in *.
    set (w1 := set_groundDecalType (set_handler w h) def k) in *.
    destruct (groundDecalType w1 def <? -1) eqn:Estop; [exact OK1|].
    apply Main; [exact OK1 | exact Ep |].
    apply Z.ltb_ge in Estop. unfold w1 in Estop |- *. simpl in Estop |- *.
    rewrite Z.eqb_refl in Estop |- *. lia.
  - apply Main; [exact OK | reflexivity |]. apply Z.ltb_ge in Eneg. exact Eneg.
Qed.

Lemma RemoveSolidObject_ok w object gb :
  decals_ok w -> decals_ok (RemoveSolidObject w object gb).
Proof.
  intros OK. unfold RemoveSolidObject.
  destruct (groundDecal w object) as [decal|] eqn:Eg; [|exact OK].
  destruct OK as [O A T L AL N AP].
  set (w1 := match gb with Some g => set_ghostDecal w g (Some decal) | None => w end).
  assert (H1 : handler w1 = handler w /\ sogdMemPool w1 = sogdMemPool w /\
               groundDecal w1 = groundDecal w /\ groundDecalType w1 = groundDecalType w)
    by (unfold w1; destruct gb; repeat split; reflexivity).
  destruct H1 as (Hh & Hp & Hg & Ht).
  constructor; simpl; rewrite ?Hh, ?Hp, ?Hg, ?Ht; try assumption.
  - intros o q Hoq. simpl in Hoq |- *.
    destruct (o =? object) eqn:Eo; [discriminate Hoq|].
    rewrite Hg in Hoq. rewrite ?Hp.
    destruct (O o q Hoq) as (dq & Eq & Oq).
    rewrite pool_get_upd_other; [exists dq; tauto|].
    intros ->. destruct (O object decal Eg) as (d2 & E2 & O2).
    apply Z.eqb_neq in Eo. congruence.
  - intros q dq Hq. rewrite pool_get_upd in Hq. destruct (q =? decal); [|apply (A q dq Hq)].
    destruct (pool_get (sogdMemPool w) decal) as [d0|] eqn:E0; [|discriminate].
    simpl in Hq. inversion Hq; subst dq. simpl. apply (A decal d0 E0).
  - intros q Hq. rewrite pool_handles_upd in Hq. apply L. exact Hq.
  - intros k q Hq. rewrite pool_handles_upd. apply (AL k q Hq).
Qed.

Lemma ForceRemoveSolidObject_ok w object :
  decals_ok w -> decals_ok (ForceRemoveSolidObject w object).
Proof.
  intros OK. unfold ForceRemoveSolidObject.
  destruct (groundDecal w object) as [decal|] eqn:Eg; [|exact OK].
  destruct OK as [O A T L AL N AP].
  constructor; simpl; try assumption.
  - intros o q Hoq. simpl in Hoq |- *.
    destruct (o =? object) eqn:Eo; [discriminate Hoq|].
    destruct (O o q Hoq) as (dq & Eq & Oq).
    rewrite pool_get_upd_other; [exists dq; tauto|].
    intros ->. destruct (O object decal Eg) as (d2 & E2 & O2).
    apply Z.eqb_neq in Eo. congruence.
  - intros q dq Hq. rewrite pool_get_upd in Hq. destruct (q =? decal); [|apply (A q dq Hq)].
    destruct (pool_get (sogdMemPool w) decal) as [d0|] eqn:E0; [|discriminate].
    simpl in Hq. inversion Hq; subst dq. reflexivity.
  - intros q Hq. rewrite pool_handles_upd in Hq. apply L. exact Hq.
  - intros k q Hq. rewrite pool_handles_upd. apply (AL k q Hq).
Qed.

(** A write to a decal that leaves its owner alone and its opacity not
    negative keeps the bookkeeping. *)
Lemma updDecal_ok w p f :
  (forall d, Decal.owner (f d) = Decal.owner d) ->
  (forall d, F32.ltb (Decal.alpha d) F32.zero = false ->
             F32.ltb (Decal.alpha (f d)) F32.zero = false) ->
  decals_ok w -> decals_ok (updDecal w p f).
Proof.
  intros Ho Ha [O A T L AL N AP].
  constructor; simpl; try assumption.
  - intros o q Hoq. simpl in Hoq |- *. destruct (O o q Hoq) as (dq & Eq & Oq).
    rewrite pool_get_upd. destruct (q =? p) eqn:E; [|exists dq; tauto].
    apply Z.eqb_eq in E. subst q. rewrite Eq. simpl. exists (f dq).
    split; [reflexivity|]. rewrite Ho. exact Oq.
  - intros q dq Hq. rewrite pool_get_upd in Hq. destruct (q =? p); [|apply (A q dq Hq)].
    destruct (pool_get (sogdMemPool w) p) as [d0|] eqn:E0; [|discriminate].
    simpl in Hq. inversion Hq; subst dq. apply Ha. apply (A p d0 E0).
  - intros q Hq. rewrite pool_handles_upd in Hq. apply L. exact Hq.
  - intros k q Hq. rewrite pool_handles_upd. apply (AL k q Hq).
Qed.

Lemma GhostDestroyed_ok s e w gb : decals_ok w -> decals_ok (GhostDestroyed s e w gb).
Proof.
  intros OK. unfold GhostDestroyed.
  destruct (ghostDecal w gb) as [decal|]; [|exact OK].
  assert (OK1 : decals_ok (updDecal w decal (fun d => Decal.set_gbOwner d None))).
  { apply updDecal_ok; [reflexivity | intros d H; exact H | exact OK]. }
  destruct (lastDrawFrame s gb <? drawFrame e -i 1); [|exact OK1].
  apply updDecal_ok; [reflexivity | intros d H; reflexivity | exact OK1].
Qed.

(** X16.  Every event the handler answers keeps the bookkeeping of the
    decals (objects point at decals they own, no opacity is negative, the
    pool holds exactly the decals of the type vectors, each once), as long
    as the allocator hands out unused blocks and has one left. *)
Theorem handleEvent_ok s e w ev :
  decals_ok w -> alloc_fresh s ->
  poolAlloc s (pool_handles (sogdMemPool w)) <> None ->
  Z.of_nat (List.length (objectDecalTypes (handler w))) < INT_MAX ->
  decals_ok (handleEvent s e w ev).
Proof.
  intros OK AF Room Hlen.
  destruct ev; simpl; unfold AddDecal, AddSolidObject, ExplosionOccurred.
  - destruct (negb (GetDrawDecals (handler w))); [exact OK|].
    apply MoveSolidObject_ok; assumption.
  - apply GhostDestroyed_ok. exact OK.
  - apply RemoveSolidObject_ok. exact OK.
  - apply MoveSolidObject_ok; assumption.
  - destruct explosionScar as [[|]|]; try exact OK;
      (apply decals_ok_handler; [apply AddExplosion_types | exact OK]).
  - apply MoveSolidObject_ok; assumption.
  - apply RemoveSolidObject_ok. exact OK.
  - apply MoveSolidObject_ok; assumption.
  - apply RemoveSolidObject_ok. exact OK.
  - apply ForceRemoveSolidObject_ok. exact OK.
  - apply MoveSolidObject_ok; assumption.
Qed.

(** ** A new decal for an object that moves *)

(** X15.  An object that moves gets a new decal and lets go of the old
    one: with decals drawn, a resolved decal type and room in the pool,
    [MoveSolidObject] makes the object point at a fresh decal owned by it
    (opacity 0, the definition's decay speed, sizes doubled and swapped for
    East and West) filed at the back of the vector of its type; the decal
    the object had loses owner and ghost and is otherwise kept; other
    objects and decals are untouched. *)
Theorem MoveSolidObject_replaces_decal s e w object pos p :
  decals_ok w -> alloc_fresh s ->
  GetDrawDecals (handler w) = true ->
  useGroundDecal s (GetDef s object) = true ->
  0 <= groundDecalType w (GetDef s object) ->
  poolAlloc s (pool_handles (sogdMemPool w)) = Some p ->
  let w' := MoveSolidObject s e w object pos in
  let def := GetDef s object in
  let sx := int_shl (groundDecalSizeX s def) 1 in
  let sy := int_shl (groundDecalSizeY s def) 1 in
  groundDecal w' object = Some p /\
  (forall o, o <> object -> groundDecal w' o = groundDecal w o) /\
  (exists d, pool_get (sogdMemPool w') p = Some d /\
     Decal.owner d = Some object /\ Decal.gbOwner d = None /\
     Decal.alpha d = F32.zero /\ Decal.alphaFalloff d = groundDecalDecaySpeed s def /\
     Decal.pos d = pos /\ Decal.va d = [] /\
     Decal.facing d = buildFacing s object /\
     (Decal.xsize d, Decal.ysize d) =
       match buildFacing s object with
       | FACING_EAST | FACING_WEST => (sy, sx)
       | _ => (sx, sy)
       end) /\
  (forall k, typeDecals (handler w') k =
             if Nat.eqb k (Z.to_nat (groundDecalType w def))
             then typeDecals (handler w) k ++ [p]
             else typeDecals (handler w) k) /\
  (forall q, q <> p ->
     pool_get (sogdMemPool w') q =
     if match groundDecal w object with Some old => q =? old | None => false end
     then option_map (fun d => Decal.set_gbOwner (Decal.set_owner d None) None)
            (pool_get (sogdMemPool w) q)
     else pool_get (sogdMemPool w) q).
Proof.
  intros OK AF GD UG Hk Ea w' def sx sy.
  pose proof (AF _ _ Ea) as Hfresh.
  pose proof (dk_types w OK def) as HT.
  subst w' sx sy def. unfold MoveSolidObject. cbv zeta. rewrite GD, UG.
  replace (groundDecalType w (GetDef s object) <? -1) with false
    by (symmetry; apply Z.ltb_ge; lia).
  replace (groundDecalType w (GetDef s object) <? 0) with false
    by (symmetry; apply Z.ltb_ge; exact Hk).
  cbv beta iota zeta. cbn [negb orb].
  rewrite orphan_handles, Ea.
  set (def := GetDef s object) in *.
  set (sx := int_shl (groundDecalSizeX s def) 1).
  set (sy := int_shl (groundDecalSizeY s def) 1).
  set (f := fun d => Decal.set_gbOwner (Decal.set_owner d None) None).
  set (w1 := match groundDecal w object with
             | Some oldDecal => updDecal w oldDecal f
             | None => w
             end).
  assert (H1 : handler w1 = handler w /\ groundDecal w1 = groundDecal w /\
               groundDecalType w1 = groundDecalType w /\
               pool_handles (sogdMemPool w1) = pool_handles (sogdMemPool w) /\
               forall q, pool_get (sogdMemPool w1) q =
                         if match groundDecal w object with
                            | Some old => q =? old
                            | None => false
                            end
                         then option_map f (pool_get (sogdMemPool w) q)
                         else pool_get (sogdMemPool w) q).
  { unfold w1. destruct (groundDecal w object) as [old|]; simpl.
    - repeat split; try reflexivity; [apply pool_handles_upd|].
      intros q. rewrite pool_get_upd. destruct (q =? old) eqn:E; [|reflexivity].
      apply Z.eqb_eq in E. subst q. reflexivity.
    - repeat split; reflexivity. }
  destruct H1 as (Hh & Hg & Ht & Hhs & Hp).
  assert (Hfresh1 : ~ In p (pool_handles (sogdMemPool w1))) by (rewrite Hhs; exact Hfresh).
  assert (Shape : forall xs ys,
    let d := Decal.mk (Some object) None F32.zero (groundDecalDecaySpeed s def) pos
               (F32.add
                  (F32.mul
                     (F32.sqrt
                        (F32.of_int
                           ((groundDecalSizeX s def *i groundDecalSizeX s def)
                            +i (groundDecalSizeY s def *i groundDecalSizeY s def))))
                     (F32.of_int (SQUARE_SIZE e)))
                  (F32.of_int 20))
               (buildFacing s object) xs ys
               (F32.to_int (F32.sub (F32.div (fx pos) (F32.of_int (SQUARE_SIZE e)))
                                    (F32.of_int (int_shr xs 1))))
               (F32.to_int (F32.sub (F32.div (fz pos) (F32.of_int (SQUARE_SIZE e)))
                                    (F32.of_int (int_shr ys 1))))
               [] in
    let w3 := set_sogdMemPool w1 (sogdMemPool w1 ++ [(p, d)]) in
    let w4 := set_groundDecal w3 object (Some p) in
    let w5 := set_handler w4 (pushDecal (handler w4) (groundDecalType w4 def) p) in
    groundDecal w5 object = Some p /\
    (forall o, o <> object -> groundDecal w5 o = groundDecal w o) /\
    pool_get (sogdMemPool w5) p = Some d /\
    (forall k, typeDecals (handler w5) k =
               if Nat.eqb k (Z.to_nat (groundDecalType w def))
               then typeDecals (handler w) k ++ [p]
               else typeDecals (handler w) k) /\
    (forall q, q <> p ->
       pool_get (sogdMemPool w5) q =
       if match groundDecal w object with Some old => q =? old | None => false end
       then option_map f (pool_get (sogdMemPool w) q)
       else pool_get (sogdMemPool w) q)).
  { intros xs ys d w3 w4 w5. unfold w5, w4, w3. simpl.
    rewrite Z.eqb_refl. split; [reflexivity|]. split.
    - intros o Ho. apply Z.eqb_neq in Ho. rewrite Ho, Hg. reflexivity.
    - split.
      + rewrite pool_get_new by exact Hfresh1. rewrite Z.eqb_refl. reflexivity.
      + split.
        * intros k. rewrite Hh, Ht. apply typeDecals_push. lia.
        * intros q Hq. rewrite pool_get_new by exact Hfresh1.
          apply Z.eqb_neq in Hq. rewrite Hq. apply Hp. }
  destruct (buildFacing s object) eqn:EF.
  - destruct (Shape sx sy) as (S1 & S2 & S3 & S4 & S5).
    refine (conj S1 (conj S2 (conj _ (conj S4 S5)))).
    eexists. split; [exact S3|]. simpl. repeat split; reflexivity.
  - destruct (Shape sy sx) as (S1 & S2 & S3 & S4 & S5).
    refine (conj S1 (conj S2 (conj _ (conj S4 S5)))).
    eexists. split; [exact S3|]. simpl. repeat split; reflexivity.
  - destruct (Shape sx sy) as (S1 & S2 & S3 & S4 & S5).
    refine (conj S1 (conj S2 (conj _ (conj S4 S5)))).
    eexists. split; [exact S3|]. simpl. repeat split; reflexivity.
  - destruct (Shape sy sx) as (S1 & S2 & S3 & S4 & S5).
    refine (conj S1 (conj S2 (conj _ (conj S4 S5)))).
    eexists. split; [exact S3|]. simpl. repeat split; reflexivity.
Qed.

(** ** The handler unmade *)

Lemma pool_handles_free m p q :
  In q (pool_handles (pool_free m p)) <-> In q (pool_handles m) /\ q <> p.
Proof.
  rewrite !pool_get_handles, pool_get_free.
  destruct (q =? p) eqn:E.
  - apply Z.eqb_eq in E. split; [congruence | tauto].
  - apply Z.eqb_neq in E. tauto.
Qed.

Lemma releaseDecal_parts w dc :
  handler (releaseDecal w dc) = handler w /\
  (forall q, pool_get (sogdMemPool (releaseDecal w dc)) q =
             if q =? dc then None else pool_get (sogdMemPool w) q) /\
  (forall o, groundDecal (releaseDecal w dc) o = None \/
             groundDecal (releaseDecal w dc) o = groundDecal w o) /\
  (forall d o, pool_get (sogdMemPool w) dc = Some d -> Decal.owner d = Some o ->
               groundDecal (releaseDecal w dc) o = None) /\
  (forall g, ghostDecal (releaseDecal w dc) g = None \/
             ghostDecal (releaseDecal w dc) g = ghostDecal w g) /\
  (forall d g, pool_get (sogdMemPool w) dc = Some d -> Decal.gbOwner d = Some g ->
               ghostDecal (releaseDecal w dc) g = None).
Proof.
  unfold releaseDecal. destruct (pool_get (sogdMemPool w) dc) as [d|] eqn:E.
  - set (w1 := match Decal.owner d with Some o => set_groundDecal w o None | None => w end).
    set (w2 := match Decal.gbOwner d with Some g => set_ghostDecal w1 g None | None => w1 end).
    assert (H2 : handler w2 = handler w1 /\ sogdMemPool w2 = sogdMemPool w1 /\
                 groundDecal w2 = groundDecal w1)
      by (unfold w2; destruct (Decal.gbOwner d); repeat split; reflexivity).
    destruct H2 as (A2 & B2 & C2).
    assert (H1 : handler w1 = handler w /\ sogdMemPool w1 = sogdMemPool w /\
                 ghostDecal w1 = ghostDecal w)
      by (unfold w1; destruct (Decal.owner d); repeat split; reflexivity).
    destruct H1 as (A1 & B1 & G1).
    simpl. rewrite A2, A1, B2, B1, C2.
    split; [reflexivity|]. split; [intros q; apply pool_get_free|].
    split; [|split; [|split]].
    + intros o. unfold w1. destruct (Decal.owner d) as [o'|]; simpl; [|right; reflexivity].
      destruct (o =? o'); [left | right]; reflexivity.
    + intros d' o Hd Ho. inversion Hd; subst d'. unfold w1. rewrite Ho. simpl.
      rewrite Z.eqb_refl. reflexivity.
    + intros g. unfold w2. destruct (Decal.gbOwner d) as [g'|]; simpl; rewrite ?G1;
        [|right; reflexivity].
      destruct (g =? g'); [left | right]; reflexivity.
    + intros d' g Hd Hg. inversion Hd; subst d'. unfold w2. rewrite Hg. simpl.
      rewrite Z.eqb_refl. reflexivity.
  - split; [reflexivity|]. split.
    + intros q. destruct (q =? dc) eqn:Eq; [|reflexivity].
      apply Z.eqb_eq in Eq. subst q. exact E.
    + split; [intros o; right; reflexivity|].
      split; [intros d o H; discriminate H|].
      split; [intros g; right; reflexivity | intros d g H; discriminate H].
Qed.

Lemma fold_releaseDecal l : forall w,
  let w' := fold_left releaseDecal l w in
  handler w' = handler w /\
  (forall q, pool_get (sogdMemPool w') q =
             if existsb (Z.eqb q) l then None else pool_get (sogdMemPool w) q) /\
  (forall o, groundDecal w' o = None \/ groundDecal w' o = groundDecal w o) /\
  (forall q d o, In q l -> pool_get (sogdMemPool w) q = Some d -> Decal.owner d = Some o ->
                 groundDecal w' o = None) /\
  (forall g, ghostDecal w' g = None \/ ghostDecal w' g = ghostDecal w g) /\
  (forall q d g, In q l -> pool_get (sogdMemPool w) q = Some d -> Decal.gbOwner d = Some g ->
                 ghostDecal w' g = None).
Proof.
  induction l as [|dc l IH]; intros w; simpl.
  - split; [reflexivity|]. split; [reflexivity|].
    split; [intros o; right; reflexivity|]. split; [intros q d o []|].
    split; [intros g; right; reflexivity | intros q d g []].
  - destruct (IH (releaseDecal w dc)) as (A & B & C & D & E & F).
    destruct (releaseDecal_parts w dc) as (A' & B' & C' & D' & E' & F').
    cbv zeta in *.
    refine (conj _ (conj _ (conj _ (conj _ (conj _ _))))).
    + congruence.
    + intros q. rewrite B, B'. destruct (q =? dc); simpl; [|reflexivity].
      destruct (existsb (Z.eqb q) l); reflexivity.
    + intros o. destruct (C o) as [H | H]; [left; exact H|].
      rewrite H. apply C'.
    + intros q d o Hq Hd Ho.
      destruct (Z.eq_dec q dc) as [-> | Hne].
      * destruct (C o) as [H | H]; [exact H|]. rewrite H. apply (D' d o Hd Ho).
      * destruct Hq as [Hq | Hq]; [congruence|].
        apply (D q d o Hq); [|exact Ho]. rewrite B'.
        apply Z.eqb_neq in Hne. rewrite Hne. exact Hd.
    + intros g. destruct (E g) as [H | H]; [left; exact H|].
      rewrite H. apply E'.
    + intros q d g Hq Hd Hg.
      destruct (Z.eq_dec q dc) as [-> | Hne].
      * destruct (E g) as [H | H]; [exact H|]. rewrite H. apply (F' d g Hd Hg).
      * destruct Hq as [Hq | Hq]; [congruence|].
        apply (F q d g Hq); [|exact Hg]. rewrite B'.
        apply Z.eqb_neq in Hne. rewrite Hne. exact Hd.
Qed.

Lemma delete_concat w :
  CGroundDecalHandler_delete w =
  fold_left releaseDecal (concat (map objectDecals (objectDecalTypes (handler w)))) w.
Proof.
  unfold CGroundDecalHandler_delete.
  generalize (objectDecalTypes (handler w)). intros l. revert w.
  induction l as [|dt l IH]; intros w; simpl; [reflexivity|].
  rewrite fold_left_app. apply IH.
Qed.

Lemma typeDecals_concat st k p :
  In p (typeDecals st k) -> In p (concat (map objectDecals (objectDecalTypes st))).
Proof.
  unfold typeDecals. destruct (nth_error (objectDecalTypes st) k) as [dt|] eqn:E;
    [|intros []].
  intros H. apply in_concat. exists (objectDecals dt). split; [|exact H].
  apply in_map. apply (nth_error_In _ _ E).
Qed.

(** X2.  After the destructor the pool is empty, no object points at a
    decal, and no ghost that owned a decal points at one. *)
Theorem CGroundDecalHandler_delete_releases w :
  decals_ok w ->
  sogdMemPool (CGroundDecalHandler_delete w) = [] /\
  (forall o, groundDecal (CGroundDecalHandler_delete w) o = None) /\
  (forall p d g, pool_get (sogdMemPool w) p = Some d -> Decal.gbOwner d = Some g ->
                 ghostDecal (CGroundDecalHandler_delete w) g = None).
Proof.
  intros OK. rewrite delete_concat.
  destruct (fold_releaseDecal
              (concat (map objectDecals (objectDecalTypes (handler w)))) w)
    as (A & B & C & D & E & F).
  cbv zeta in *.
  set (w' := fold_left releaseDecal _ w) in *.
  split; [|split].
  - assert (H : forall q, ~ In q (pool_handles (sogdMemPool w'))).
    { intros q Hq. apply pool_get_handles in Hq. apply Hq. rewrite B.
      destruct (existsb (Z.eqb q) _) eqn:Ex; [reflexivity|].
      destruct (pool_get (sogdMemPool w) q) as [d|] eqn:Eq; [|reflexivity].
      exfalso. apply pool_get_Some_handles in Eq.
      destruct (dk_listed w OK q Eq) as (k & Hk). apply typeDecals_concat in Hk.
      assert (X : existsb (Z.eqb q) (concat (map objectDecals (objectDecalTypes (handler w))))
                  = true).
      { apply existsb_exists. exists q. split; [exact Hk | apply Z.eqb_refl]. }
      congruence. }
    destruct (sogdMemPool w') as [|[k d] m]; [reflexivity|].
    exfalso. apply (H k). left. reflexivity.
  - intros o. destruct (groundDecal w o) as [p|] eqn:Eo.
    + destruct (dk_owner w OK o p Eo) as (d & Ed & Od).
      apply (D p d o); [|exact Ed | exact Od].
      apply pool_get_Some_handles in Ed.
      destruct (dk_listed w OK p Ed) as (k & Hk). apply (typeDecals_concat _ _ _ Hk).
    + destruct (C o) as [H | H]; congruence.
  - intros p d g Ed Gd. apply (F p d g); [|exact Ed | exact Gd].
    apply pool_get_Some_handles in Ed.
    destruct (dk_listed w OK p Ed) as (k & Hk). apply (typeDecals_concat _ _ _ Hk).
Qed.

(** ** Decals switched off *)

Lemma set_handler_same w : set_handler w (handler w) = w.
Proof. destruct w. reflexivity. Qed.

Lemma AddExplosion_disabled e st pos damage radius :
  GetDrawDecals st = false -> AddExplosion e st pos damage radius = st.
Proof. intros H. unfold AddExplosion. rewrite H. reflexivity. Qed.

(** X17.  With decals switched off and no decal left from before, the
    handler does nothing: every event, [Draw] and [MoveSolidObject] return
    the state they were given, and no decal type is handed out. *)
Theorem handler_disabled_is_inert s e w :
  GetDrawDecals (handler w) = false ->
  (forall o, groundDecal w o = None) ->
  (forall g, ghostDecal w g = None) ->
  (forall ev, handleEvent s e w ev = w) /\
  Draw s e w = Some w /\
  (forall object pos, MoveSolidObject s e w object pos = w) /\
  (forall nm, GetSolidObjectDecalType e (handler w) nm = (handler w, -2)).
Proof.
  intros Off NoD NoG.
  assert (M : forall object pos, MoveSolidObject s e w object pos = w).
  { intros object pos. unfold MoveSolidObject. rewrite Off. reflexivity. }
  refine (conj _ (conj _ (conj M _))).
  - intros ev. destruct ev; simpl;
      unfold AddDecal, AddSolidObject, ExplosionOccurred, RemoveSolidObject,
             ForceRemoveSolidObject, GhostDestroyed;
      rewrite ?Off, ?NoD, ?NoG, ?M; try reflexivity.
    destruct explosionScar as [[|]|]; rewrite ?AddExplosion_disabled by exact Off;
      try reflexivity; apply set_handler_same.
  - unfold Draw. rewrite Off. reflexivity.
  - intros nm. unfold GetSolidObjectDecalType. rewrite Off. reflexivity.
Qed.

(** ** The quads of an object decal lie on the map *)

Lemma clipAxis_spec dsize dpos gsm v :
  0 <= gsm <= INT_MAX ->
  -536870912 <= dpos <= 536870912 -> -536870912 <= dsize <= 536870912 ->
  0 <= v <= snd (clipAxis dsize dpos gsm) - 1 ->
  let r := fst (clipAxis dsize dpos gsm) +i v in
  let p := dpos +i r in
  0 <= r < dsize /\ p = dpos + r /\ 0 <= p /\ p + 1 <= gsm.
Proof.
  intros Hg Hp Hs. unfold clipAxis. cbv zeta.
  assert (Eneg : int_neg dpos = - dpos) by (apply wrap_small; fits_int).
  assert (Esum : dpos +i dsize = dpos + dsize) by (apply int_add_small; fits_int).
  rewrite Eneg, Esum.
  set (doff := if dpos <? 0 then - dpos else 0).
  assert (Hdoff : 0 <= doff <= 536870912 /\ (dpos < 0 -> doff = - dpos) /\
                  (0 <= dpos -> doff = 0)).
  { unfold doff. destruct (Z.ltb_spec dpos 0); lia. }
  assert (E1 : dsize -i doff = dsize - doff) by (apply int_sub_small; fits_int).
  rewrite E1.
  cbn [fst snd].
  destruct (Z.gtb_spec (dpos + dsize) gsm) as [Hgt | Hle].
  - assert (E2 : (dpos + dsize) -i gsm = dpos + dsize - gsm)
      by (apply int_sub_small; fits_int).
    rewrite E2.
    assert (E3 : (dsize - doff) -i (dpos + dsize - gsm)
                 = dsize - doff - (dpos + dsize - gsm))
      by (apply int_sub_small; fits_int).
    rewrite E3. intros Hv.
    assert (Er : doff +i v = doff + v) by (apply int_add_small; fits_int).
    rewrite Er.
    assert (Ep : dpos +i (doff + v) = dpos + (doff + v)) by (apply int_add_small; fits_int).
    rewrite Ep. lia.
  - intros Hv.
    assert (Er : doff +i v = doff + v) by (apply int_add_small; fits_int).
    rewrite Er.
    assert (Ep : dpos +i (doff + v) = dpos + (doff + v)) by (apply int_add_small; fits_int).
    rewrite Ep. lia.
Qed.

Lemma heightmap_dims_fit mx my :
  0 <= mx -> 0 <= my -> (mx + 1) * (my + 1) <= INT_MAX ->
  0 <= mx <= INT_MAX /\ 0 <= my <= INT_MAX.
Proof.
  intros Hx Hy Hsz.
  assert (A : (mx + 1) * 1 <= (mx + 1) * (my + 1))
    by (apply Z.mul_le_mono_nonneg_l; lia).
  assert (B : 1 * (my + 1) <= (mx + 1) * (my + 1))
    by (apply Z.mul_le_mono_nonneg_r; lia).
  lia.
Qed.

Lemma heightIndex_in_bounds s e z x :
  0 <= mapx (mapDims e) -> 0 <= mapy (mapDims e) ->
  (mapx (mapDims e) + 1) * (mapy (mapDims e) + 1) <= INT_MAX ->
  mapxp1 s = mapx (mapDims e) + 1 ->
  0 <= x <= mapx (mapDims e) -> 0 <= z <= mapy (mapDims e) ->
  heightIndex s z x = z * (mapx (mapDims e) + 1) + x /\
  0 <= heightIndex s z x < (mapx (mapDims e) + 1) * (mapy (mapDims e) + 1).
Proof.
  intros Hx Hy Hsz Hp Hxx Hzz. unfold heightIndex. rewrite Hp.
  set (mx := mapx (mapDims e)) in *. set (my := mapy (mapDims e)) in *.
  assert (M : z * (mx + 1) <= my * (mx + 1))
    by (apply Z.mul_le_mono_nonneg_r; lia).
  assert (M0 : 0 <= z * (mx + 1)) by (apply Z.mul_nonneg_nonneg; lia).
  assert (R : (mx + 1) * (my + 1) = my * (mx + 1) + (mx + 1)) by ring.
  rewrite R in *.
  set (P := my * (mx + 1)) in *. set (Q := z * (mx + 1)) in *.
  assert (E1 : wrap Q = Q) by (apply wrap_small; fits_int).
  assert (E2 : wrap (Q + x) = Q + x) by (apply wrap_small; fits_int).
  unfold int_mul, int_add. fold Q. rewrite E1, E2. lia.
Qed.

(** X6.  The quads built at the first draw of a decal are clipped to the
    map: for every round of the two loops the quad's corner lies inside the
    decal and on the map, and the four reads of the corner height map are
    within its (mapx + 1) * (mapy + 1) entries.  Positions and sizes are
    taken below 2^29 in magnitude, where the [int] arithmetic does not
    wrap. *)
Theorem DrawObjectDecal_quads_on_map s e d v :
  0 <= mapx (mapDims e) -> 0 <= mapy (mapDims e) ->
  (mapx (mapDims e) + 1) * (mapy (mapDims e) + 1) <= INT_MAX ->
  mapxp1 s = mapx (mapDims e) + 1 ->
  -536870912 <= Decal.posx d <= 536870912 -> -536870912 <= Decal.posy d <= 536870912 ->
  -536870912 <= Decal.xsize d <= 536870912 -> -536870912 <= Decal.ysize d <= 536870912 ->
  In v (decalQuads e d) ->
  let px := fst (quadCorner e d v) in
  let pz := snd (quadCorner e d v) in
  0 <= px - Decal.posx d < Decal.xsize d /\
  0 <= pz - Decal.posy d < Decal.ysize d /\
  0 <= px < mapx (mapDims e) /\ 0 <= pz < mapy (mapDims e) /\
  (forall dx dz, 0 <= dx <= 1 -> 0 <= dz <= 1 ->
     0 <= heightIndex s (pz +i dz) (px +i dx)
       < (mapx (mapDims e) + 1) * (mapy (mapDims e) + 1)).
Proof.
  intros Hx Hy Hsz Hp Bpx Bpy Bsx Bsy Hin px pz.
  unfold decalQuads in Hin. cbv zeta in Hin. destruct v as [vx vz].
  apply in_prod_iff in Hin. destruct Hin as [Hvx Hvz].
  apply in_loop_range in Hvx, Hvz.
  destruct (heightmap_dims_fit _ _ Hx Hy Hsz) as [Gx Gy].
  destruct (clipAxis_spec (Decal.xsize d) (Decal.posx d) (mapx (mapDims e)) vx Gx Bpx Bsx
              ltac:(lia)) as (X1 & X2 & X3 & X4).
  destruct (clipAxis_spec (Decal.ysize d) (Decal.posy d) (mapy (mapDims e)) vz Gy Bpy Bsy
              ltac:(lia)) as (Z1 & Z2 & Z3 & Z4).
  assert (Epx : px = Decal.posx d +i
                     (fst (clipAxis (Decal.xsize d) (Decal.posx d) (mapx (mapDims e))) +i vx))
    by reflexivity.
  assert (Epz : pz = Decal.posy d +i
                     (fst (clipAxis (Decal.ysize d) (Decal.posy d) (mapy (mapDims e))) +i vz))
    by reflexivity.
  rewrite <- Epx in X2, X3, X4. rewrite <- Epz in Z2, Z3, Z4.
  clearbody px pz.
  refine (conj _ (conj _ (conj _ (conj _ _)))); try lia.
  intros dx dz Hdx Hdz.
  assert (Ex : px +i dx = px + dx) by (apply int_add_small; fits_int).
  assert (Ez : pz +i dz = pz + dz) by (apply int_add_small; fits_int).
  rewrite Ex, Ez.
  apply (heightIndex_in_bounds s e); try assumption; lia.
Qed.

(** ** A decal type is registered once *)

Lemma findDecalType_nth l nm b k :
  findDecalType l nm b = Some k ->
  exists dt, nth_error l (Z.to_nat (k - b)) = Some dt /\ name dt = nm.
Proof.
  revert b. induction l as [|dt l IH]; intros b H; simpl in H; [discriminate|].
  destruct (String.eqb (name dt) nm) eqn:En.
  - inversion H; subst. rewrite Z.sub_diag. exists dt.
    split; [reflexivity | apply String.eqb_eq; exact En].
  - pose proof (findDecalType_lower _ _ _ _ H) as R.
    destruct (IH _ H) as (dt' & N & Nm). exists dt'. split; [|exact Nm].
    replace (Z.to_nat (k - b)) with (S (Z.to_nat (k - (b + 1)))) by lia. exact N.
Qed.

(** X14.  A decal type is registered once: after a call that returned a
    type, a second call with a name that differs in case only returns the
    same index and leaves the state alone; the index points at the type of
    that lowercased name, and the types registered before keep their
    indices. *)
Theorem GetSolidObjectDecalType_again e st nm nm' :
  Z.of_nat (List.length (objectDecalTypes st)) < INT_MAX ->
  StringToLower nm' = StringToLower nm ->
  snd (GetSolidObjectDecalType e st nm) <> -2 ->
  let st1 := fst (GetSolidObjectDecalType e st nm) in
  let k := snd (GetSolidObjectDecalType e st nm) in
  GetSolidObjectDecalType e st1 nm' = (st1, k) /\
  0 <= k < Z.of_nat (List.length (objectDecalTypes st1)) /\
  (exists dt, nth_error (objectDecalTypes st1) (Z.to_nat k) = Some dt /\
              name dt = StringToLower nm) /\
  (forall j dt, nth_error (objectDecalTypes st) j = Some dt ->
                nth_error (objectDecalTypes st1) j = Some dt).
Proof.
  intros Hlen Hnm Hk st1 k. subst st1 k.
  destruct (GetSolidObjectDecalType_cases e st nm Hlen)
    as [E | [(k & E & GD & F & Hr) | (tex & E & GD & F)]]; rewrite E in *;
    simpl fst in *; simpl snd in *.
  - congruence.
  - split; [|split; [exact Hr | split]].
    + unfold GetSolidObjectDecalType. rewrite GD, Hnm, F. reflexivity.
    + destruct (findDecalType_nth _ _ _ _ F) as (dt & N & Nm).
      rewrite Z.sub_0_r in N. exists dt. split; assumption.
    + tauto.
  - assert (Hfind : findDecalType
                      (objectDecalTypes st ++ [mkDecalType (StringToLower nm) tex []])
                      (StringToLower nm) 0
                    = Some (Z.of_nat (List.length (objectDecalTypes st)))).
    { rewrite findDecalType_app, F. simpl. rewrite String.eqb_refl. reflexivity. }
    split; [|split; [|split]].
    + unfold GetSolidObjectDecalType.
      replace (GetDrawDecals (set_objectDecalTypes st _)) with (GetDrawDecals st)
        by reflexivity.
      rewrite GD, Hnm. cbn [negb]. cbv zeta.
      replace (objectDecalTypes (set_objectDecalTypes st
                 (objectDecalTypes st ++ [mkDecalType (StringToLower nm) tex []])))
        with (objectDecalTypes st ++ [mkDecalType (StringToLower nm) tex []])
        by reflexivity.
      rewrite Hfind. reflexivity.
    + simpl. rewrite length_app. simpl. lia.
    + exists (mkDecalType (StringToLower nm) tex []). simpl.
      rewrite Nat2Z.id, nth_error_app2 by lia. rewrite Nat.sub_diag. split; reflexivity.
    + intros j dt Hj. simpl. rewrite nth_error_app1; [exact Hj|].
      apply nth_error_Some. congruence.
Qed.

(** ** The record of a scar just queued *)

Lemma F32_ltb_leb a b : F32.ltb a b = true -> F32.leb a b = true.
Proof.
  unfold F32.ltb, F32.leb, SFltb, SFleb. destruct (SFcompare a b) as [[| |]|]; congruence.
Qed.

Lemma F32_startAlpha_clamped d :
  let a := F32.max (F32.of_int 50) (F32.min (F32.of_int 255) d) in
  F32.leb (F32.of_int 50) a = true /\ F32.leb a (F32.of_int 255) = true.
Proof.
  cbv zeta. unfold F32.min.
  destruct (F32.ltb d (F32.of_int 255)) eqn:E1.
  - unfold F32.max. destruct (F32.ltb (F32.of_int 50) d) eqn:E2.
    + split; apply F32_ltb_leb; assumption.
    + split; reflexivity.
  - split; reflexivity.
Qed.

(** X10.  The record of a scar just queued by [AddExplosion]: its id is the
    one popped off the back of [freeScarIDs]; the used ids, the scar field
    and all other records are untouched; the record carries that id, the
    current frame as [creationTime], zero [overdrawn] and [lastTest], the
    area of its rectangle as [basesize], a [startAlpha] between 50 and 255,
    and atlas offsets that are 0 or 0.5 each. *)
Theorem AddExplosion_scar_record e st pos damage radius id :
  In id (addedScars (AddExplosion e st pos damage radius)) ->
  ~ In id (addedScars st) ->
  let st' := AddExplosion e st pos damage radius in
  let s := scars st' id in
  freeScarIDs st = freeScarIDs st' ++ [id] /\
  addedScars st' = addedScars st ++ [id] /\
  usedScarIDs st' = usedScarIDs st /\
  scarField st' = scarField st /\
  (forall j, j <> id -> scars st' j = scars st j) /\
  Scar.id s = id /\
  Scar.creationTime s = frameNum e /\
  Scar.overdrawn s = 0 /\ Scar.lastTest s = 0 /\
  Scar.basesize s = (Scar.x2 s -i Scar.x1 s) *i (Scar.y2 s -i Scar.y1 s) /\
  F32.leb (F32.of_int 50) (Scar.startAlpha s) = true /\
  F32.leb (Scar.startAlpha s) (F32.of_int 255) = true /\
  (Scar.texOffsetX s = F32.zero \/ Scar.texOffsetX s = F32.lit_0_5) /\
  (Scar.texOffsetY s = F32.zero \/ Scar.texOffsetY s = F32.lit_0_5).
Proof.
  intros Hin Hn. cbv zeta.
  unfold AddExplosion in *.
  destruct (negb (GetDrawDecals st)); [tauto|].
  destruct (F32.leb _ _); [tauto|].
  destruct (F32.geb _ _); [tauto|].
  destruct (F32.ltb _ _); [tauto|].
  unfold GetScarID in *.
  destruct (freeScarIDs st) as [|a l] eqn:Ef; [cbn in Hin; tauto|].
  unfold VectorBackPop in *.
  assert (Hne : a :: l <> []) by discriminate.
  pose proof (app_removelast_last 0 Hne) as Eapp.
  set (x := last (a :: l) 0) in *. set (rest := removelast (a :: l)) in *.
  cbv beta iota zeta in Hin |- *.
  destruct (x =? -1) eqn:E; [cbn in Hin; tauto|].
  cbn [addedScars set_addedScars] in Hin. apply in_app_iff in Hin.
  destruct Hin as [Hin | [<- | []]]; [cbn in Hin; tauto|].
  unfold set_addedScars, set_scar, set_scars, set_rngCalls, set_freeScarIDs.
  cbn [scars freeScarIDs usedScarIDs addedScars scarField rngCalls].
  rewrite Z.eqb_refl.
  cbn [Scar.id Scar.creationTime Scar.overdrawn Scar.lastTest Scar.basesize
       Scar.startAlpha Scar.texOffsetX Scar.texOffsetY Scar.x1 Scar.x2 Scar.y1 Scar.y2].
  split; [exact Eapp|].
  split; [reflexivity|].
  split; [reflexivity|].
  split; [reflexivity|].
  split.
  { intros j Hj. destruct (Z.eqb_spec j x); [contradiction | reflexivity]. }
  split; [reflexivity|].
  split; [reflexivity|].
  split; [reflexivity|].
  split; [reflexivity|].
  split; [reflexivity|].
  split; [apply F32_startAlpha_clamped|].
  split; [apply F32_startAlpha_clamped|].
  split.
  - destruct (Z.land _ 128 =? 0); [right | left]; reflexivity.
  - destruct (Z.land _ 128 =? 0); [right | left]; reflexivity.
Qed.

(** ** The constructor *)

Lemma decals_ok_empty w :
  sogdMemPool w = [] -> objectDecalTypes (handler w) = [] ->
  (forall o, groundDecal w o = None) -> (forall def, groundDecalType w def < 0) ->
  decals_ok w.
Proof.
  intros Hp Ht Hg Hd.
  assert (TD : forall k, typeDecals (handler w) k = []).
  { intros k. unfold typeDecals. rewrite Ht. destruct k; reflexivity. }
  constructor.
  - intros o p H. rewrite Hg in H. discriminate H.
  - intros p d H. rewrite Hp in H. discriminate H.
  - intros def. rewrite Ht. simpl. apply Hd.
  - intros p H. rewrite Hp in H. destruct H.
  - intros k p H. rewrite TD in H. destruct H.
  - intros k. rewrite TD. constructor.
  - intros k k' p H. rewrite TD in H. destruct H.
Qed.

(** X1.  With decals drawn and a sane map, and with no object pointing at a
    decal and no decal definition carrying a type yet, the constructor leaves
    a handler whose bookkeeping holds: the pool is empty, there is no decal
    type, every scar id is free and none is used or queued, the atlas is
    loaded into a zeroed buffer, and the shader is set exactly when GLSL is
    there. *)
Theorem CGroundDecalHandler_new_ok s a e w :
  GetDrawDecals (handler w) = true -> mapSane e ->
  (forall o, groundDecal w o = None) -> (forall def, groundDecalType w def < 0) ->
  let w' := CGroundDecalHandler_new s a e w in
  decals_ok w' /\ reachable (handler w') /\ table_ok (handler w') /\
  sogdMemPool w' = [] /\ objectDecalTypes (handler w') = [] /\
  freeScarIDs (handler w') = allScarIDs /\
  usedScarIDs (handler w') = [] /\ addedScars (handler w') = [] /\
  scarTexBuf w' = LoadScarTextures a (fun _ => 0) /\
  shaderLoaded w' = haveGLSL s.
Proof.
  intros On Sane Hg Hd. cbv zeta.
  assert (E : CGroundDecalHandler_new s a e w =
              mkWorld (CGroundDecalHandler e (handler w)) [] (groundDecal w) (ghostDecal w)
                (groundDecalType w) [] (LoadScarTextures a (fun _ => 0)) (haveGLSL s)).
  { unfold CGroundDecalHandler_new. cbn [set_decalsToDraw handler sogdMemPool groundDecal
      ghostDecal groundDecalType decalsToDraw scarTexBuf]. rewrite On. reflexivity. }
  rewrite E. cbn [handler sogdMemPool scarTexBuf shaderLoaded].
  assert (T : objectDecalTypes (CGroundDecalHandler e (handler w)) = []).
  { unfold CGroundDecalHandler.
    replace (GetDrawDecals (set_objectDecalTypes
               (set_scarField (set_addedScars (handler w) []) []) []))
      with (GetDrawDecals (handler w)) by reflexivity.
    rewrite On. reflexivity. }
  assert (F : freeScarIDs (CGroundDecalHandler e (handler w)) = allScarIDs /\
              usedScarIDs (CGroundDecalHandler e (handler w)) = [] /\
              addedScars (CGroundDecalHandler e (handler w)) = []).
  { unfold CGroundDecalHandler.
    replace (GetDrawDecals (set_objectDecalTypes
               (set_scarField (set_addedScars (handler w) []) []) []))
      with (GetDrawDecals (handler w)) by reflexivity.
    rewrite On. split; [reflexivity | split; reflexivity]. }
  split; [apply decals_ok_empty; [reflexivity | exact T | exact Hg | exact Hd]|].
  split; [apply reach_start; assumption|].
  split; [apply CGroundDecalHandler_ok; assumption|].
  split; [reflexivity|].
  split; [exact T|].
  split; [apply F|]. split; [apply F|]. split; [apply F|].
  split; reflexivity.
Qed.

(** ** Facts of the samples *)

Lemma sampleAlloc_fresh : alloc_fresh sampleSim.
Proof.
  intros hs p H. change (sampleAlloc hs = Some p) in H. unfold sampleAlloc in H.
  apply find_some in H. destruct H as [_ H].
  apply negb_true_iff in H. intros Hin.
  assert (X : existsb (Z.eqb p) hs = true).
  { apply existsb_exists. exists p. split; [exact Hin | apply Z.eqb_refl]. }
  congruence.
Qed.

Lemma sampleWorld0_ok : decals_ok sampleWorld0.
Proof.
  apply decals_ok_empty; [reflexivity | reflexivity | reflexivity |].
  intros def. simpl. lia.
Qed.

Lemma sampleWorld0_table_ok : table_ok (handler sampleWorld0).
Proof.
  apply (CGroundDecalHandler_ok (sampleEngine 0) (blankState 3));
    [reflexivity | apply sampleEngine_mapSane].
Qed.

Lemma sampleWorld1_ok : decals_ok sampleWorld1.
Proof.
  apply MoveSolidObject_ok.
  - apply sampleWorld0_ok.
  - apply sampleAlloc_fresh.
  - vm_compute. discriminate.
  - vm_compute. reflexivity.
Qed.

Lemma sampleWorld1_table_ok : table_ok (handler sampleWorld1).
Proof.
  assert (E : handler sampleWorld1 =
              set_objectDecalTypes startState (objectDecalTypes (handler sampleWorld1))).
  { vm_compute. reflexivity. }
  rewrite E. apply table_ok_set_objectDecalTypes. apply sampleWorld0_table_ok.
Qed.

(** ** The properties at the samples *)

Lemma scar_ids_conserved_witness :
  reachable sampleState2 /\
  Permutation (freeScarIDs sampleState2 ++ usedScarIDs sampleState2 ++ addedScars sampleState2)
    allScarIDs.
Proof.
  split; [apply sampleState2_reachable|].
  apply (scar_ids_conserved sampleState2). apply sampleState2_reachable.
Defined.

Lemma AddExplosion_starts_undrawn_witness :
  reachable sampleState1 /\
  In 4094 (addedScars (AddExplosion (sampleEngine 1) sampleState1 (groundPos 100 100)
                         (F32.of_int 200) (F32.of_int 50))) /\
  ~ In 4094 (addedScars sampleState1) /\
  scars sampleState1 4094 = Scar.Reset /\
  Scar.lastDraw (scars (AddExplosion (sampleEngine 1) sampleState1 (groundPos 100 100)
                          (F32.of_int 200) (F32.of_int 50)) 4094) = -1.
Proof.
  assert (H1 : In 4094 (addedScars (AddExplosion (sampleEngine 1) sampleState1
                                      (groundPos 100 100) (F32.of_int 200) (F32.of_int 50))))
    by (vm_compute; left; reflexivity).
  assert (H2 : ~ In 4094 (addedScars sampleState1)) by (vm_compute; intros []).
  split; [apply sampleState1_reachable|]. split; [exact H1|]. split; [exact H2|].
  exact (AddExplosion_starts_undrawn (sampleEngine 1) sampleState1 (groundPos 100 100)
           (F32.of_int 200) (F32.of_int 50) 4094 sampleState1_reachable H1 H2).
Defined.

Lemma AddScars_commits_queue_witness :
  table_ok sampleState2 /\ addedScars (AddScars sampleState2) = [].
Proof.
  split; [apply reachable_ok; apply sampleState2_reachable|].
  exact (proj1 (AddScars_commits_queue sampleState2
                  (reachable_ok _ sampleState2_reachable))).
Defined.

Lemma RemoveScar_then_GetScarID_witness :
  table_ok sampleState1 /\ In 4095 (usedScarIDs sampleState1) /\
  exists st', GetScarID (RemoveScar sampleState1 4095) = (4095, st') /\
              freeScarIDs st' = freeScarIDs sampleState1 /\
              usedScarIDs st' = VectorErase (usedScarIDs sampleState1) 4095 /\
              scars st' 4095 = Scar.Reset.
Proof.
  assert (H1 : In 4095 (usedScarIDs sampleState1)) by (vm_compute; left; reflexivity).
  split; [apply reachable_ok; apply sampleState1_reachable|]. split; [exact H1|].
  exact (RemoveScar_then_GetScarID sampleState1 4095
           (reachable_ok _ sampleState1_reachable) H1).
Defined.


Lemma sampleBitmap_bytes i : 0 <= CBitmap.mem (scarBitmap sampleAssets sampleBitmap) i <= 255.
Proof.
  change (0 <= i mod 256 <= 255). pose proof (Z.mod_pos_bound i 256). lia.
Qed.

Open Scope string_scope.
Lemma LoadScarTexture_bmp_witness :
  Load sampleAssets sampleBmpFile = Some sampleBitmap /\
  String.eqb (GetExtension sampleAssets sampleBmpFile) "bmp" = true /\
  forall k, ~ inQuadrant 0 0 k ->
    LoadScarTexture sampleAssets sampleBmpFile (fun _ => 0) 0 0 k = 0.
Proof.
  split; [reflexivity|]. split; [reflexivity|].
  exact (proj2 (LoadScarTexture_bmp sampleAssets sampleBmpFile (fun _ => 0) 0 0 sampleBitmap
                  eq_refl eq_refl eq_refl eq_refl sampleBitmap_bytes
                  ltac:(lia) ltac:(lia))).
Defined.

Lemma LoadScarTexture_copy_witness :
  Load sampleAssets sampleTgaFile = Some sampleBitmap /\
  String.eqb (GetExtension sampleAssets sampleTgaFile) "bmp" = false /\
  forall x y c, 0 <= x < 256 -> 0 <= y < 256 -> 0 <= c < 4 ->
    LoadScarTexture sampleAssets sampleTgaFile (fun _ => 0) 256 256
      (atlasIndex (x + 256) (y + 256) c) =
    CBitmap.mem (scarBitmap sampleAssets sampleBitmap) ((y * 256 + x) * 4 + c).
Proof.
  split; [reflexivity|]. split; [reflexivity|].
  exact (proj1 (LoadScarTexture_copy sampleAssets sampleTgaFile (fun _ => 0) 256 256
                  sampleBitmap eq_refl eq_refl eq_refl eq_refl ltac:(lia) ltac:(lia))).
Defined.
Close Scope string_scope.

Lemma sampleAssets_fit i dflt : scarTextureFits sampleAssets (scarFile sampleAssets i dflt).
Proof. unfold scarTextureFits. split; reflexivity. Qed.

Lemma LoadScarTextures_quadrants_witness :
  (forall i dflt, scarTextureFits sampleAssets (scarFile sampleAssets i dflt)) /\
  (inQuadrant 256 256 (atlasIndex 300 300 0) ->
   LoadScarTextures sampleAssets (fun _ => 0) (atlasIndex 300 300 0) =
   LoadScarTexture sampleAssets sampleTgaFile (fun _ => 0) 256 256 (atlasIndex 300 300 0)).
Proof.
  split; [exact sampleAssets_fit|].
  exact (proj1 (proj2 (proj2 (proj2
    (LoadScarTextures_quadrants sampleAssets (fun _ => 0) sampleAssets_fit
       (atlasIndex 300 300 0)))))).
Defined.

Lemma MoveSolidObject_replaces_decal_witness :
  decals_ok sampleWorld1 /\ alloc_fresh sampleSim /\
  GetDrawDecals (handler sampleWorld1) = true /\
  useGroundDecal sampleSim (GetDef sampleSim 5) = true /\
  0 <= groundDecalType sampleWorld1 (GetDef sampleSim 5) /\
  poolAlloc sampleSim (pool_handles (sogdMemPool sampleWorld1)) = Some 1 /\
  groundDecal (MoveSolidObject sampleSim (sampleEngineTex 1) sampleWorld1 5
                 (groundPos 120 100)) 5 = Some 1.
Proof.
  assert (H1 : GetDrawDecals (handler sampleWorld1) = true) by (vm_compute; reflexivity).
  assert (H2 : useGroundDecal sampleSim (GetDef sampleSim 5) = true) by reflexivity.
  assert (H3 : 0 <= groundDecalType sampleWorld1 (GetDef sampleSim 5))
    by (vm_compute; discriminate).
  assert (H4 : poolAlloc sampleSim (pool_handles (sogdMemPool sampleWorld1)) = Some 1)
    by (vm_compute; reflexivity).
  split; [exact sampleWorld1_ok|]. split; [exact sampleAlloc_fresh|].
  split; [exact H1|]. split; [exact H2|]. split; [exact H3|]. split; [exact H4|].
  exact (proj1 (MoveSolidObject_replaces_decal sampleSim (sampleEngineTex 1) sampleWorld1 5
                  (groundPos 120 100) 1 sampleWorld1_ok sampleAlloc_fresh H1 H2 H3 H4)).
Defined.

Lemma CGroundDecalHandler_delete_releases_witness :
  decals_ok sampleWorld1 /\
  sogdMemPool (CGroundDecalHandler_delete sampleWorld1) = [] /\
  forall o, groundDecal (CGroundDecalHandler_delete sampleWorld1) o = None.
Proof.
  split; [exact sampleWorld1_ok|].
  pose proof (CGroundDecalHandler_delete_releases sampleWorld1 sampleWorld1_ok) as H.
  split; [exact (proj1 H) | exact (proj1 (proj2 H))].
Defined.

Lemma handleEvent_ok_witness :
  decals_ok sampleWorld1 /\ alloc_fresh sampleSim /\
  poolAlloc sampleSim (pool_handles (sogdMemPool sampleWorld1)) <> None /\
  Z.of_nat (List.length (objectDecalTypes (handler sampleWorld1))) < INT_MAX /\
  decals_ok (handleEvent sampleSim (sampleEngineTex 1) sampleWorld1 (UnitMoved 5)).
Proof.
  assert (H1 : poolAlloc sampleSim (pool_handles (sogdMemPool sampleWorld1)) <> None)
    by (vm_compute; discriminate).
  assert (H2 : Z.of_nat (List.length (objectDecalTypes (handler sampleWorld1))) < INT_MAX)
    by (vm_compute; reflexivity).
  split; [exact sampleWorld1_ok|]. split; [exact sampleAlloc_fresh|].
  split; [exact H1|]. split; [exact H2|].
  exact (handleEvent_ok sampleSim (sampleEngineTex 1) sampleWorld1 (UnitMoved 5)
           sampleWorld1_ok sampleAlloc_fresh H1 H2).
Defined.

Lemma Draw_ok_witness :
  decals_ok sampleWorld1 /\ table_ok (handler sampleWorld1) /\
  exists w', Draw sampleSim (sampleEngineTex 1) sampleWorld1 = Some w' /\ decals_ok w'.
Proof.
  split; [exact sampleWorld1_ok|]. split; [exact sampleWorld1_table_ok|].
  destruct (Draw_ok sampleSim (sampleEngineTex 1) sampleWorld1 sampleWorld1_ok
              sampleWorld1_table_ok) as (w' & E & OK & _).
  exists w'. split; [exact E | exact OK].
Defined.

Lemma handler_disabled_is_inert_witness :
  GetDrawDecals (handler sampleWorldOff) = false /\
  (forall o, groundDecal sampleWorldOff o = None) /\
  (forall g, ghostDecal sampleWorldOff g = None) /\
  forall ev, handleEvent sampleSim (sampleEngineTex 1) sampleWorldOff ev = sampleWorldOff.
Proof.
  split; [reflexivity|]. split; [reflexivity|]. split; [reflexivity|].
  exact (proj1 (handler_disabled_is_inert sampleSim (sampleEngineTex 1) sampleWorldOff
                  eq_refl (fun _ => eq_refl) (fun _ => eq_refl))).
Defined.

Lemma DrawObjectDecal_quads_on_map_witness :
  In (0, 0) (decalQuads (sampleEngine 0) sampleDecal) /\
  0 <= fst (quadCorner (sampleEngine 0) sampleDecal (0, 0)) - Decal.posx sampleDecal
    < Decal.xsize sampleDecal.
Proof.
  assert (H : In (0, 0) (decalQuads (sampleEngine 0) sampleDecal))
    by (vm_compute; left; reflexivity).
  split; [exact H|].
  refine (proj1 (DrawObjectDecal_quads_on_map sampleSim (sampleEngine 0) sampleDecal (0, 0)
                   _ _ _ _ _ _ _ _ H)).
  - vm_compute; discriminate.
  - vm_compute; discriminate.
  - vm_compute; discriminate.
  - reflexivity.
  - vm_compute; split; discriminate.
  - vm_compute; split; discriminate.
  - vm_compute; split; discriminate.
  - vm_compute; split; discriminate.
Defined.

Open Scope string_scope.
Lemma GetSolidObjectDecalType_again_witness :
  Z.of_nat (List.length (objectDecalTypes startState)) < INT_MAX /\
  StringToLower "ARMSOLAR" = StringToLower sampleName /\
  snd (GetSolidObjectDecalType (sampleEngineTex 0) startState sampleName) <> -2 /\
  GetSolidObjectDecalType (sampleEngineTex 0)
    (fst (GetSolidObjectDecalType (sampleEngineTex 0) startState sampleName)) "ARMSOLAR" =
  (fst (GetSolidObjectDecalType (sampleEngineTex 0) startState sampleName),
   snd (GetSolidObjectDecalType (sampleEngineTex 0) startState sampleName)).
Proof.
  assert (H1 : Z.of_nat (List.length (objectDecalTypes startState)) < INT_MAX)
    by (vm_compute; reflexivity).
  assert (H2 : StringToLower "ARMSOLAR" = StringToLower sampleName) by reflexivity.
  assert (H3 : snd (GetSolidObjectDecalType (sampleEngineTex 0) startState sampleName) <> -2)
    by (vm_compute; discriminate).
  split; [exact H1|]. split; [exact H2|]. split; [exact H3|].
  exact (proj1 (GetSolidObjectDecalType_again (sampleEngineTex 0) startState sampleName
                  "ARMSOLAR" H1 H2 H3)).
Defined.
Close Scope string_scope.

Lemma AddExplosion_scar_record_witness :
  In 4094 (addedScars (AddExplosion (sampleEngine 1) sampleState1 (groundPos 100 100)
                         (F32.of_int 200) (F32.of_int 50))) /\
  ~ In 4094 (addedScars sampleState1) /\
  freeScarIDs sampleState1 =
  freeScarIDs (AddExplosion (sampleEngine 1) sampleState1 (groundPos 100 100)
                 (F32.of_int 200) (F32.of_int 50)) ++ [4094].
Proof.
  assert (H1 : In 4094 (addedScars (AddExplosion (sampleEngine 1) sampleState1
                                      (groundPos 100 100) (F32.of_int 200) (F32.of_int 50))))
    by (vm_compute; left; reflexivity).
  assert (H2 : ~ In 4094 (addedScars sampleState1)) by (vm_compute; intros []).
  split; [exact H1|]. split; [exact H2|].
  exact (proj1 (AddExplosion_scar_record (sampleEngine 1) sampleState1 (groundPos 100 100)
                  (F32.of_int 200) (F32.of_int 50) 4094 H1 H2)).
Defined.

Lemma CGroundDecalHandler_new_ok_witness :
  GetDrawDecals (handler sampleWorldBlank) = true /\ mapSane (sampleEngine 0) /\
  (forall o, groundDecal sampleWorldBlank o = None) /\
  (forall def, groundDecalType sampleWorldBlank def < 0) /\
  decals_ok (CGroundDecalHandler_new sampleSim sampleAssets (sampleEngine 0) sampleWorldBlank).
Proof.
  assert (H : forall def, groundDecalType sampleWorldBlank def < 0) by (intros def; reflexivity).
  split; [reflexivity|]. split; [apply sampleEngine_mapSane|]. split; [reflexivity|].
  split; [exact H|].
  exact (proj1 (CGroundDecalHandler_new_ok sampleSim sampleAssets (sampleEngine 0)
                  sampleWorldBlank eq_refl (sampleEngine_mapSane 0) (fun _ => eq_refl) H)).
Defined.

